(** * midgard-yarn-strict: dependency graph, peer resolver and store installer

    A shallow embedding of
    - [packages/node-dependency-graph/src/graph.ts]   (class [Graph]),
    - [packages/node-dependency-graph/src/index.ts]   ([createDependencyGraph]),
    - [packages/local-package-store/src/index.ts]     (input validation, [addSelfLinks]),
    - [packages/local-package-store/src/graphToTree.ts] ([convertGraphToTree]),
    - the [install] script of the command line ([batchPromises], the name of
      the new store, the graph given to [installLocalStore]),
    followed by the properties the specification states about them.

    Modelling conventions.
    - A JavaScript [number] used as a node id is a [nat]: ids are produced by a
      counter that starts at 0.
    - A JavaScript string is a [string]; [<] and [>] on strings compare code
      units lexicographically, which is [String.compare].
    - A plain object used as a dictionary is an association list in property
      creation order with distinct keys ([Obj.t]); [Obj.keys] is [Object.keys]
      (array-index keys first, ascending, then the others in creation order).
      Property names inherited from [Object.prototype] are not modelled:
      [Obj] describes a plain object at the keys that [Prototype.ordinary]
      accepts.
    - A [Map] is an association list in insertion order ([NMap.t], [SMap.t]).
    - A thrown exception is [Throw]; a function that cannot throw returns its
      value directly.
    - The callbacks of one [Promise.all] are taken one after the other, all
      of them also when one rejects: inside one [Promise.all] the order of
      the log of actions is not the order of the program. *)

From Stdlib Require Import List String Ascii Arith Bool Lia Permutation NArith.
From Stdlib Require Import Sorting.Sorted Structures.OrderedTypeEx.
From Stdlib Require Import DecimalString DecimalNat.
Import ListNotations.
Local Open Scope list_scope.
Local Open Scope nat_scope.

Set Implicit Arguments.

(* ================================================================== *)
(** * Part I. JavaScript prelude *)
(* ================================================================== *)

(** What is thrown: a [TypeError], an [Error] made with [new Error(message)],
    or the error with which [fs] fails in [syscall] at [path]. *)
Inductive exn : Type :=
| TypeError
| Error (message : string)
| SystemError (syscall path : string).

Inductive result (A : Type) : Type :=
| Ok (a : A)
| Throw (e : exn).
Arguments Ok {A} a.
Arguments Throw {A} e.

Definition bind {A B : Type} (r : result A) (k : A -> result B) : result B :=
  match r with
  | Ok a => k a
  | Throw e => Throw e
  end.

Notation "'let*' x ':=' r 'in' k" := (bind r (fun x => k))
  (at level 10, x pattern, r at level 100, k at level 200).

(** [o!] followed by a property access: a [TypeError] when [o] is [undefined]. *)
Definition unwrap {A : Type} (o : option A) : result A :=
  match o with
  | Some a => Ok a
  | None => Throw TypeError
  end.

(** [a.forEach(f)] where [f] updates a state and may throw. *)
Fixpoint forEach {A S : Type} (f : S -> A -> result S) (l : list A) (s : S) : result S :=
  match l with
  | [] => Ok s
  | x :: l' => let* s' := f s x in forEach f l' s'
  end.

(** [Array.prototype.sort(cmp)]: a stable sort. [cmp a b] is the sign of the
    comparator's result ([Gt]: positive, [Lt]: negative, [Eq]: zero). *)
Section JsSort.
Variable A : Type.
Variable cmp : A -> A -> comparison.

Fixpoint sort_insert (x : A) (l : list A) : list A :=
  match l with
  | [] => [x]
  | y :: l' =>
      match cmp x y with
      | Gt => y :: sort_insert x l'
      | _ => x :: l
      end
  end.

Definition js_sort (l : list A) : list A := fold_right sort_insert [] l.
End JsSort.

(** [a > b] and [a < b] on strings, folded into one three-way result. *)
Definition string_cmp (a b : string) : comparison := String.compare a b.

(** ** Plain objects used as dictionaries *)
Module Obj.
Definition t (V : Type) : Type := list (string * V).

Definition empty {V : Type} : t V := [].

(** [o[k]], for a key [k] that is not a property name of [Object.prototype]
    (see [Prototype.ordinary] below): [None] is [undefined]. *)
Fixpoint get {V : Type} (o : t V) (k : string) : option V :=
  match o with
  | [] => None
  | (k', v) :: o' => if String.eqb k' k then Some v else get o' k
  end.

(** [o[k] = v]: an existing property keeps its place. *)
Fixpoint set {V : Type} (o : t V) (k : string) (v : V) : t V :=
  match o with
  | [] => [(k, v)]
  | (k', v') :: o' =>
      if String.eqb k' k then (k', v) :: o' else (k', v') :: set o' k v
  end.

Definition digit_value (c : ascii) : option N :=
  let n := N_of_ascii c in
  if andb (N.leb 48 n) (N.leb n 57) then Some (n - 48)%N else None.

Fixpoint parse_digits (s : string) (acc : N) : option N :=
  match s with
  | EmptyString => Some acc
  | String c s' =>
      match digit_value c with
      | Some d => parse_digits s' (acc * 10 + d)%N
      | None => None
      end
  end.

(** An array index: a canonical numeric string below [2^32 - 1]. *)
Definition array_index (s : string) : option N :=
  match s with
  | EmptyString => None
  | String c s' =>
      if andb (Ascii.eqb c "0") (negb (String.eqb s' EmptyString)) then None
      else
        match parse_digits s 0%N with
        | Some n => if N.ltb n 4294967295 then Some n else None
        | None => None
        end
  end.

Definition is_index {V : Type} (p : string * V) : bool :=
  match array_index (fst p) with Some _ => true | None => false end.

Definition index_cmp {V : Type} (p q : string * V) : comparison :=
  match array_index (fst p), array_index (fst q) with
  | Some n, Some m => N.compare n m
  | _, _ => Eq
  end.

(** Own properties in [OrdinaryOwnPropertyKeys] order. *)
Definition entries {V : Type} (o : t V) : list (string * V) :=
  js_sort index_cmp (filter is_index o)
    ++ filter (fun p => negb (is_index p)) o.

(** [Object.keys(o)]. *)
Definition keys {V : Type} (o : t V) : list string := map fst (entries o).

(** [{ ...a, ...b }]. *)
Definition spread {V : Type} (a b : t V) : t V :=
  fold_left (fun acc p => set acc (fst p) (snd p)) (entries b)
    (fold_left (fun acc p => set acc (fst p) (snd p)) (entries a) empty).

(** The property key [undefined] is converted to. *)
Definition property_key (k : option string) : string :=
  match k with
  | Some s => s
  | None => "undefined"%string
  end.
End Obj.

(** ** The properties every plain object inherits *)
Module Prototype.

(** The property names of [Object.prototype]. A plain object answers the
    lookup of one of them with what it inherits, [Object.keys] never lists
    them, and a write to [__proto__] creates no property. *)
Definition inherited : list string :=
  ["constructor"; "__defineGetter__"; "__defineSetter__"; "hasOwnProperty";
   "__lookupGetter__"; "__lookupSetter__"; "isPrototypeOf"; "propertyIsEnumerable";
   "toString"; "valueOf"; "__proto__"; "toLocaleString"]%string.

(** A key at which a plain object has its own properties only. *)
Definition ordinary (k : string) : bool :=
  negb (existsb (String.eqb k) inherited).

End Prototype.

(** ** [Map] with number keys *)
Module NMap.
Definition t (V : Type) : Type := list (nat * V).

Definition empty {V : Type} : t V := [].

Fixpoint get {V : Type} (m : t V) (k : nat) : option V :=
  match m with
  | [] => None
  | (k', v) :: m' => if Nat.eqb k' k then Some v else get m' k
  end.

Definition has {V : Type} (m : t V) (k : nat) : bool :=
  match get m k with Some _ => true | None => false end.

(** [m.set(k, v)]: an existing key keeps its place, a new one goes last. *)
Fixpoint set {V : Type} (m : t V) (k : nat) (v : V) : t V :=
  match m with
  | [] => [(k, v)]
  | (k', v') :: m' =>
      if Nat.eqb k' k then (k', v) :: m' else (k', v') :: set m' k v
  end.

Definition delete {V : Type} (m : t V) (k : nat) : t V :=
  filter (fun p => negb (Nat.eqb (fst p) k)) m.

Definition keys {V : Type} (m : t V) : list nat := map fst m.
End NMap.

(** ** [Map] and [Set] with string keys *)
Module SMap.
Definition t (V : Type) : Type := list (string * V).

Definition empty {V : Type} : t V := [].

Fixpoint get {V : Type} (m : t V) (k : string) : option V :=
  match m with
  | [] => None
  | (k', v) :: m' => if String.eqb k' k then Some v else get m' k
  end.

Fixpoint set {V : Type} (m : t V) (k : string) (v : V) : t V :=
  match m with
  | [] => [(k, v)]
  | (k', v') :: m' =>
      if String.eqb k' k then (k', v) :: m' else (k', v') :: set m' k v
  end.
End SMap.

Module SSet.
Definition t : Type := list string.

Definition empty : t := [].

Definition has (s : t) (x : string) : bool := existsb (String.eqb x) s.

Definition add (s : t) (x : string) : t := if has s x then s else s ++ [x].
End SSet.

(** [a.indexOf(x) !== -1] on an array of strings. *)
Definition includes (l : list string) (x : string) : bool :=
  existsb (String.eqb x) l.

(* ================================================================== *)
(** * Part II. The mutable graph ([node-dependency-graph/src/graph.ts]) *)
(* ================================================================== *)

Module DepGraph.

(** The only value stored in the link maps. *)
Inductive LinkTag : Type := link.

Record PeerLink : Type := mkPeerLink {
  targetName : string;
  targetRange : string;
  optional : bool
}.

(** An element of [nodes[name][version]]. *)
Record Entry : Type := mkEntry {
  id : nat;
  peerDeps : Obj.t nat;
  isLocal : bool
}.

(** A value of [reversedNodes]. *)
Record Info : Type := mkInfo {
  info_name : string;
  info_version : string;
  info_peerDeps : Obj.t nat;
  info_isLocal : bool
}.

Record Graph : Type := mkGraph {
  nodes : Obj.t (Obj.t (list Entry));
  reversedNodes : NMap.t Info;
  links : NMap.t (NMap.t LinkTag);
  reversedLinks : NMap.t (NMap.t LinkTag);
  nodeCounter : nat;
  peerLinks : NMap.t (list PeerLink)
}.

(** An element of the array [getPeerLinks] returns. *)
Record PendingPeer : Type := mkPending {
  parentId : nat;
  sourceId : nat;
  p_targetName : string;
  p_targetRange : string;
  p_optional : bool
}.

Record PublicNode : Type := mkPublicNode {
  pn_name : string;
  pn_version : string;
  pn_id : option nat
}.

Record PublicLink : Type := mkPublicLink {
  pl_sourceId : option nat;
  pl_targetId : option nat
}.

Record PublicGraph : Type := mkPublicGraph {
  pg_nodes : list PublicNode;
  pg_links : list PublicLink
}.

(** [new Graph()]. *)
Definition new : Graph :=
  mkGraph Obj.empty NMap.empty NMap.empty NMap.empty 0 NMap.empty.

(** [m.get(k) || new Map()] and [m.get(k)?.keys() || []]. *)
Definition get_or_empty (m : NMap.t (NMap.t LinkTag)) (k : nat) : NMap.t LinkTag :=
  match NMap.get m k with
  | Some s => s
  | None => NMap.empty
  end.

Definition children (g : Graph) (n : nat) : list nat :=
  NMap.keys (get_or_empty (links g) n).

(** [this.nodes[name][version]], [undefined] included; a [TypeError] when
    [this.nodes[name]] is [undefined]. *)
Definition nodes_at (g : Graph) (name version : string) : result (option (list Entry)) :=
  let* byVersion := unwrap (Obj.get (nodes g) name) in
  Ok (Obj.get byVersion version).

(** [addNode], for a name and a version that [Prototype.ordinary] accepts. *)
Definition addNode (g : Graph) (name version : string) (isLocal : bool) : Graph :=
  let id := nodeCounter g in
  let byVersion :=
    match Obj.get (nodes g) name with
    | Some o => o
    | None => Obj.empty
    end in
  mkGraph
    (Obj.set (nodes g) name
       (Obj.set byVersion version [mkEntry id Obj.empty isLocal]))
    (NMap.set (reversedNodes g) id (mkInfo name version Obj.empty isLocal))
    (links g)
    (reversedLinks g)
    (S id)
    (peerLinks g).

(** The filter callback of [getVirtualNode]. *)
Definition matches_virtual (peerDeps : Obj.t nat) (fulfilledPeerDepName : string)
    (fulfilledPeerDep : nat) (o : Entry) : bool :=
  if negb (Nat.eqb (List.length (Obj.keys o.(DepGraph.peerDeps)))
                   (List.length (Obj.keys peerDeps) + 1))
  then false
  else if negb (forallb
                  (fun pd =>
                     match Obj.get o.(DepGraph.peerDeps) pd, Obj.get peerDeps pd with
                     | Some a, Some b => Nat.eqb a b
                     | None, None => true
                     | _, _ => false
                     end)
                  (Obj.keys peerDeps))
  then false
  else match Obj.get o.(DepGraph.peerDeps) fulfilledPeerDepName with
       | Some a => Nat.eqb a fulfilledPeerDep
       | None => false
       end.

Definition getVirtualNode (g : Graph) (sourceId : nat)
    (fulfilledPeerDepName : string) (fulfilledPeerDep : nat) : result (option nat) :=
  let* oldNode := unwrap (NMap.get (reversedNodes g) sourceId) in
  let name := info_name oldNode in
  let version := info_version oldNode in
  let peerDeps := info_peerDeps oldNode in
  let* found := nodes_at g name version in
  let* list := unwrap found in
  match filter (matches_virtual peerDeps fulfilledPeerDepName fulfilledPeerDep) list with
  | matching :: _ => Ok (Some (id matching))
  | [] => Ok None
  end.

(** [newLinks.forEach((_, key) => { ... reversedLinks.get(key).set(newNodeId, "link") })]. *)
Definition add_reversed (rl : NMap.t (NMap.t LinkTag)) (key newNodeId : nat)
    : NMap.t (NMap.t LinkTag) :=
  NMap.set rl key (NMap.set (get_or_empty rl key) newNodeId link).

Definition createVirtualNode (g : Graph) (sourceId : nat)
    (fulfilledPeerDepName : string) (fulfilledPeerDep : nat) : result (Graph * nat) :=
  let* oldNode := unwrap (NMap.get (reversedNodes g) sourceId) in
  let name := info_name oldNode in
  let version := info_version oldNode in
  let peerDeps := info_peerDeps oldNode in
  let isLocal := info_isLocal oldNode in
  let newNodeId := nodeCounter g in
  (* 1 creating the node *)
  let newPeerDeps :=
    Obj.set (Obj.spread Obj.empty peerDeps) fulfilledPeerDepName fulfilledPeerDep in
  let* byVersion := unwrap (Obj.get (nodes g) name) in
  let* list := unwrap (Obj.get byVersion version) in
  let nodes1 :=
    Obj.set (nodes g) name
      (Obj.set byVersion version (list ++ [mkEntry newNodeId newPeerDeps isLocal])) in
  let reversedNodes1 :=
    NMap.set (reversedNodes g) newNodeId (mkInfo name version newPeerDeps isLocal) in
  (* 2 duplicating links *)
  let newLinks := get_or_empty (links g) sourceId in
  let links1 := NMap.set (links g) newNodeId newLinks in
  (* 3 update reversedLinks *)
  let reversedLinks1 :=
    fold_left (fun rl key => add_reversed rl key newNodeId)
      (NMap.keys newLinks) (reversedLinks g) in
  (* 4 add resolved dep as link *)
  let links2 := NMap.set links1 newNodeId (NMap.set newLinks fulfilledPeerDep link) in
  let reversedLinks2 := add_reversed reversedLinks1 fulfilledPeerDep newNodeId in
  (* 5 copy peerDeps from source *)
  let peerDepsToCopy :=
    filter (fun o => negb (String.eqb (targetName o) fulfilledPeerDepName))
      (match NMap.get (peerLinks g) sourceId with
       | Some l => l
       | None => []
       end) in
  Ok (mkGraph nodes1 reversedNodes1 links2 reversedLinks2 (S newNodeId)
        (NMap.set (peerLinks g) newNodeId peerDepsToCopy),
      newNodeId).

Definition changeChildren (g : Graph) (parentId oldChildId newChildId : nat)
    : result Graph :=
  let* parentLinks := unwrap (NMap.get (links g) parentId) in
  let links1 :=
    NMap.set (links g) parentId
      (NMap.set (NMap.delete parentLinks oldChildId) newChildId link) in
  let* oldReversed := unwrap (NMap.get (reversedLinks g) oldChildId) in
  let reversedLinks1 :=
    NMap.set (reversedLinks g) oldChildId (NMap.delete oldReversed parentId) in
  let reversedLinks2 := add_reversed reversedLinks1 newChildId parentId in
  Ok (mkGraph (nodes g) (reversedNodes g) links1 reversedLinks2
        (nodeCounter g) (peerLinks g)).

Definition getNodeWithoutPeerDependencies (g : Graph) (name version : string)
    : result (option nat) :=
  match Obj.get (nodes g) name with
  | None => Ok None
  | Some byVersion =>
      match Obj.get byVersion version with
      | None => Ok None
      | Some list =>
          let* o := unwrap (find (fun o =>
                       Nat.eqb (List.length (Obj.keys o.(DepGraph.peerDeps))) 0) list) in
          Ok (Some (id o))
      end
  end.

Definition hasPeerLink (g : Graph) (nodeId : nat) : bool :=
  match NMap.get (peerLinks g) nodeId with
  | Some l => negb (Nat.eqb (List.length l) 0)
  | None => false
  end.

Definition getPeerLinks (g : Graph) : result (list PendingPeer) :=
  forEach
    (fun result next =>
       let* info := unwrap (NMap.get (reversedNodes g) next) in
       (* Ignores peer dependencies of root packages *)
       if info_isLocal info then Ok result
       else
         let parents := NMap.keys (get_or_empty (reversedLinks g) next) in
         let* peers := unwrap (NMap.get (peerLinks g) next) in
         Ok (result ++
             flat_map (fun parent =>
                         map (fun peerLink =>
                                mkPending parent next (targetName peerLink)
                                  (targetRange peerLink) (optional peerLink))
                             peers)
                      parents))
    (NMap.keys (peerLinks g)) [].

Definition addPeerLink (g : Graph) (sourceId : nat) (targetName targetRange : string)
    (optional : bool) : Graph :=
  let existing :=
    match NMap.get (peerLinks g) sourceId with
    | Some l => l
    | None => []
    end in
  mkGraph (nodes g) (reversedNodes g) (links g) (reversedLinks g) (nodeCounter g)
    (NMap.set (peerLinks g) sourceId
       (existing ++ [mkPeerLink targetName targetRange optional])).

Definition addLink (g : Graph) (source target : nat) : Graph :=
  mkGraph (nodes g) (reversedNodes g)
    (NMap.set (links g) source (NMap.set (get_or_empty (links g) source) target link))
    (add_reversed (reversedLinks g) target source)
    (nodeCounter g) (peerLinks g).

(** *** [toJson] *)

(** The three nested loops that visit every entry of [nodes]. *)
Definition all_entries (g : Graph) : list (string * string * Entry) :=
  flat_map (fun byName =>
              flat_map (fun byVersion =>
                          map (fun n => (fst byName, fst byVersion, n)) (snd byVersion))
                       (Obj.entries (snd byName)))
           (Obj.entries (nodes g)).

Definition rootIds (g : Graph) : list nat :=
  map (fun e => id (snd e)) (filter (fun e => isLocal (snd e)) (all_entries g)).

(** The [while (waiting.length > 0)] loop. [waiting] is held in reverse, so
    that [waiting.pop()] takes the head; one unit of [fuel] per iteration. *)
Fixpoint reach_loop (g : Graph) (fuel : nat) (waiting reached : list nat) : list nat :=
  match fuel with
  | 0 => reached
  | S fuel' =>
      match waiting with
      | [] => reached
      | next :: waiting' =>
          if existsb (Nat.eqb next) reached
          then reach_loop g fuel' waiting' reached
          else reach_loop g fuel' (rev (children g next) ++ waiting') (reached ++ [next])
      end
  end.

Definition link_count (g : Graph) : nat :=
  list_sum (map (fun p => List.length (snd p)) (links g)).

(** Every iteration pops one id, and the targets of a node are pushed at most
    once, so [length rootIds + link_count] iterations empty the stack. *)
Definition getReachableNodes (g : Graph) : list nat :=
  reach_loop g (List.length (rootIds g) + link_count g) (rev (rootIds g)) [].

Record SortedNode : Type := mkSortedNode {
  internalId : nat;
  sn_name : string;
  sn_version : string
}.

Definition node_cmp (a b : SortedNode) : comparison :=
  match string_cmp (sn_name a) (sn_name b) with
  | Gt => Gt
  | Lt => Lt
  | Eq => string_cmp (sn_version a) (sn_version b)
  end.

(** [a > b] and [a < b] on numbers that may be [undefined]: both are false
    as soon as one side is [undefined]. *)
Definition num_cmp (a b : option nat) : comparison :=
  match a, b with
  | Some x, Some y => Nat.compare x y
  | _, _ => Eq
  end.

Definition link_cmp (a b : PublicLink) : comparison :=
  match num_cmp (pl_sourceId a) (pl_sourceId b) with
  | Gt => Gt
  | Lt => Lt
  | Eq => num_cmp (pl_targetId a) (pl_targetId b)
  end.

Definition sortedNodes (g : Graph) (reachableNodes : list nat) : list SortedNode :=
  js_sort node_cmp
    (map (fun e => mkSortedNode (id (snd e)) (fst (fst e)) (snd (fst e)))
       (filter (fun e => existsb (Nat.eqb (id (snd e))) reachableNodes)
          (all_entries g))).

(** [sortedNodes.map((n, i) => ({ [n.internalId]: i })).reduce(...)]. *)
Fixpoint idMapping_from (i : nat) (l : list SortedNode) (acc : NMap.t nat) : NMap.t nat :=
  match l with
  | [] => acc
  | n :: l' => idMapping_from (S i) l' (NMap.set acc (internalId n) i)
  end.

Definition idMapping (sorted : list SortedNode) : NMap.t nat :=
  idMapping_from 0 sorted NMap.empty.

Definition toJson (g : Graph) : PublicGraph :=
  let reachableNodes := getReachableNodes g in
  let sorted := sortedNodes g reachableNodes in
  let mapping := idMapping sorted in
  let nodes :=
    map (fun n => mkPublicNode (sn_name n) (sn_version n)
                    (NMap.get mapping (internalId n))) sorted in
  let links :=
    js_sort link_cmp
      (flat_map (fun sourceId =>
                   map (fun targetId =>
                          mkPublicLink (NMap.get mapping sourceId)
                            (NMap.get mapping targetId))
                       (children g sourceId))
         (filter (fun k => existsb (Nat.eqb k) reachableNodes)
            (NMap.keys (links g)))) in
  mkPublicGraph nodes links.

End DepGraph.

(* ================================================================== *)
(** * Part III. The resolver ([node-dependency-graph/src/index.ts]) *)
(* ================================================================== *)

Module Resolver.

Record PeerMeta : Type := mkPeerMeta {
  meta_optional : option bool
}.

Record PackageManifest : Type := mkManifest {
  name : string;
  version : string;
  isLocal : option bool;
  dependencies : option (Obj.t string);
  devDependencies : option (Obj.t string);
  optionalDependencies : option (Obj.t string);
  peerDependencies : option (Obj.t string);
  peerDependenciesMeta : option (Obj.t PeerMeta)
}.

Definition ResolutionMap : Type := Obj.t (Obj.t string).

(** [m.isLocal || false] and the test [!m.isLocal]. *)
Definition truthy (b : option bool) : bool :=
  match b with
  | Some true => true
  | _ => false
  end.

(** What [resolveChild] returns. *)
Inductive Resolution : Type :=
| Resolved (providerId : nat)
| Failed
| Ignored
| RetryLater.

(** The state of the [while (peerDeps.length !== 0)] loop, with the lines
    written by [console.error] so far. *)
Record State : Type := mkState {
  graph : DepGraph.Graph;
  peerDeps : list DepGraph.PendingPeer;
  watchDog : nat;
  console : list string
}.

Definition unmatching_warning (name sourceName sourceVersion parentName parentVersion
    version targetRange : string) : string :=
  ("[WARNING] unmatching peer dependency, " ++ name ++ " in " ++ sourceName ++ "@"
     ++ sourceVersion ++ " (parent: " ++ parentName ++ "@" ++ parentVersion
     ++ ") was resolved to version " ++ version
     ++ " which does not satisfy the given range: " ++ targetRange)%string.

Definition unmet_message (level name sourceName sourceVersion parentName
    parentVersion : string) : string :=
  (level ++ " Unmet peer dependency: " ++ name ++ " in " ++ sourceName ++ "@"
     ++ sourceVersion ++ " (parent: " ++ parentName ++ "@" ++ parentVersion ++ ")")%string.

(** [graph.reversedNodes.get(s)?.name === name]. *)
Definition named (g : DepGraph.Graph) (name : string) (s : nat) : bool :=
  match NMap.get (DepGraph.reversedNodes g) s with
  | Some info => String.eqb (DepGraph.info_name info) name
  | None => false
  end.

Section WithSemver.
(** [semver.satisfies(version, range)], from the [semver] package. *)
Variable satisfies : string -> string -> bool.

(** The four phases that add the regular links of one kind of dependency:
    the body of [Object.keys(dependencies).forEach]. [skipMissing] is the
    early [return] of the optional-dependency phase. The names and the
    ranges are keys that [Prototype.ordinary] accepts: [resolutionMap[k]] is
    [undefined] when the map has no property [k]. *)
Definition link_dependency (resolutionMap : ResolutionMap) (skipMissing : bool)
    (sourceId : option nat) (g : DepGraph.Graph) (dep : string * string)
    : result DepGraph.Graph :=
  let targetName := fst dep in
  let targetRange := snd dep in
  let* byRange := unwrap (Obj.get resolutionMap targetName) in
  let targetVersion := Obj.get byRange targetRange in
  let* targetId :=
    DepGraph.getNodeWithoutPeerDependencies g targetName
      (Obj.property_key targetVersion) in
  match targetId with
  | None =>
      if skipMissing then Ok g else Throw TypeError
  | Some t =>
      let* s := unwrap sourceId in
      Ok (DepGraph.addLink g s t)
  end.

Definition link_dependencies (resolutionMap : ResolutionMap) (skipMissing : bool)
    (deps : option (Obj.t string)) (g : DepGraph.Graph) (m : PackageManifest)
    : result DepGraph.Graph :=
  let* sourceId := DepGraph.getNodeWithoutPeerDependencies g (name m) (version m) in
  match deps with
  | None => Ok g
  | Some dependencies =>
      forEach (link_dependency resolutionMap skipMissing sourceId)
        (Obj.entries dependencies) g
  end.

(** The combined peer-dependency object of a manifest. *)
Definition combined_peers (m : PackageManifest) : Obj.t string :=
  Obj.spread
    (match peerDependenciesMeta m with
     | Some meta =>
         fold_left (fun a k => Obj.spread a [(k, "*"%string)]) (Obj.keys meta)
           Obj.empty
     | None => Obj.empty
     end)
    (match peerDependencies m with
     | Some p => p
     | None => Obj.empty
     end).

Definition is_optional (m : PackageManifest) (k : string) : bool :=
  match peerDependenciesMeta m with
  | Some meta =>
      match Obj.get meta k with
      | Some pm => truthy (meta_optional pm)
      | None => false
      end
  | None => false
  end.

Definition register_peers (g : DepGraph.Graph) (m : PackageManifest)
    : result DepGraph.Graph :=
  let* sourceId := DepGraph.getNodeWithoutPeerDependencies g (name m) (version m) in
  forEach
    (fun g dep =>
       let* s := unwrap sourceId in
       Ok (DepGraph.addPeerLink g s (fst dep) (snd dep) (is_optional m (fst dep))))
    (Obj.entries (combined_peers m)) g.

(** [resolveChild(parentId, targetName, optional)] for the pending entry
    [(parentId, sourceId, name, targetRange, optional)]: the lines it writes to
    [console.error], and what it returns or throws. *)
Definition resolveChild (g : DepGraph.Graph) (failOnMissingPeerDependencies : bool)
    (parentId sourceId : nat) (targetRange : string)
    (name : string) (optional : bool) : list string * result Resolution :=
  let children := DepGraph.children g sourceId in
  if existsb (named g name) children then ([], Ok Ignored)
  else
    let siblings := DepGraph.children g parentId in
    let candidates := siblings ++ [parentId] in
    match filter (named g name) candidates with
    | found :: _ =>
        match NMap.get (DepGraph.reversedNodes g) found with
        | None => ([], Throw TypeError)
        | Some info =>
            let version := DepGraph.info_version info in
            if negb (satisfies version targetRange) then
              match NMap.get (DepGraph.reversedNodes g) parentId,
                    NMap.get (DepGraph.reversedNodes g) sourceId with
              | Some p, Some s =>
                  ([unmatching_warning name (DepGraph.info_name s)
                      (DepGraph.info_version s) (DepGraph.info_name p)
                      (DepGraph.info_version p) version targetRange],
                   Ok (Resolved found))
              | _, _ => ([], Throw TypeError)
              end
            else ([], Ok (Resolved found))
        end
    | [] =>
        if optional then ([], Ok Ignored)
        else if DepGraph.hasPeerLink g parentId then ([], Ok RetryLater)
        else
          match NMap.get (DepGraph.reversedNodes g) parentId,
                NMap.get (DepGraph.reversedNodes g) sourceId with
          | Some p, Some s =>
              if failOnMissingPeerDependencies then
                ([], Throw (Error (unmet_message "[ERROR]" name (DepGraph.info_name s)
                                     (DepGraph.info_version s) (DepGraph.info_name p)
                                     (DepGraph.info_version p))))
              else
                ([unmet_message "[WARNING]" name (DepGraph.info_name s)
                    (DepGraph.info_version s) (DepGraph.info_name p)
                    (DepGraph.info_version p)],
                 Ok Failed)
          | _, _ => ([], Throw TypeError)
          end
    end.

(** [for (const newPeerLink of graph.peerLinks.get(n) || []) peerDeps.push(...)]. *)
Definition pending_of (g : DepGraph.Graph) (parentId sourceId : nat)
    : list DepGraph.PendingPeer :=
  map (fun l => DepGraph.mkPending parentId sourceId (DepGraph.targetName l)
                  (DepGraph.targetRange l) (DepGraph.optional l))
    (match NMap.get (DepGraph.peerLinks g) sourceId with
     | Some l => l
     | None => []
     end).

(** What follows [const result = resolveChild(...)] in the loop body. [rest]
    is the queue after [shift()]. *)
Definition apply_resolution (g : DepGraph.Graph) (peerDep : DepGraph.PendingPeer)
    (rest : list DepGraph.PendingPeer) (watchDog : nat) (resolution : Resolution)
    : result (DepGraph.Graph * list DepGraph.PendingPeer * nat) :=
  let parentId := DepGraph.parentId peerDep in
  let sourceId := DepGraph.sourceId peerDep in
  let targetName := DepGraph.p_targetName peerDep in
  match resolution with
  | Resolved provider =>
      let* existingVirtualNode :=
        DepGraph.getVirtualNode g sourceId targetName provider in
      match existingVirtualNode with
      | Some existing =>
          let queue := rest ++ pending_of g parentId existing in
          let* g' := DepGraph.changeChildren g parentId sourceId existing in
          Ok (g', queue, List.length queue + 1)
      | None =>
          let* created := DepGraph.createVirtualNode g sourceId targetName provider in
          let g1 := fst created in
          let newPackageId := snd created in
          let queue :=
            rest ++ pending_of g1 parentId newPackageId
              ++ flat_map (fun child => pending_of g1 newPackageId child)
                   (DepGraph.children g1 newPackageId) in
          let* g' := DepGraph.changeChildren g1 parentId sourceId newPackageId in
          Ok (g', queue, List.length queue + 1)
      end
  | RetryLater => Ok (g, rest ++ [peerDep], watchDog - 1)
  | Failed | Ignored => Ok (g, rest, watchDog)
  end.

(** One iteration of the loop, entered with a non-empty queue and a
    non-zero watchdog. *)
Definition step (failOnMissingPeerDependencies : bool) (st : State)
    (peerDep : DepGraph.PendingPeer) (rest : list DepGraph.PendingPeer)
    : list string * result State :=
  let g := graph st in
  let parentId := DepGraph.parentId peerDep in
  let sourceId := DepGraph.sourceId peerDep in
  if negb (match NMap.get (DepGraph.links g) parentId with
           | Some children => NMap.has children sourceId
           | None => false
           end)
  then (console st, Ok (mkState g rest (List.length rest + 1) (console st)))
  else
    let '(lines, resolved) :=
      resolveChild g failOnMissingPeerDependencies parentId sourceId
        (DepGraph.p_targetRange peerDep) (DepGraph.p_targetName peerDep)
        (DepGraph.p_optional peerDep) in
    let console' := console st ++ lines in
    (console',
     let* resolution := resolved in
     let* next := apply_resolution g peerDep rest (watchDog st) resolution in
     Ok (mkState (fst (fst next)) (snd (fst next)) (snd next) console')).

(** The loop; [None] when [fuel] iterations were not enough. *)
Fixpoint resolve_loop (failOnMissingPeerDependencies : bool) (fuel : nat) (st : State)
    : option (list string * result DepGraph.Graph) :=
  match peerDeps st with
  | [] => Some (console st, Ok (graph st))
  | peerDep :: rest =>
      (* Stop the loop when the number of elements in the queue are stable *)
      if Nat.eqb (watchDog st) 0 then Some (console st, Ok (graph st))
      else
        match fuel with
        | 0 => None
        | S fuel' =>
            match step failOnMissingPeerDependencies st peerDep rest with
            | (_, Ok st') => resolve_loop failOnMissingPeerDependencies fuel' st'
            | (lines, Throw e) => Some (lines, Throw e)
            end
        end
  end.

(** The graph before the peer links are resolved. *)
Definition build_graph (manifests : list PackageManifest)
    (resolutionMap : ResolutionMap) : result DepGraph.Graph :=
  (* Adding nodes to the graph *)
  let g0 :=
    fold_left (fun g m => DepGraph.addNode g (name m) (version m) (truthy (isLocal m)))
      manifests DepGraph.new in
  (* Adding dependencies to the graph *)
  let* g1 :=
    forEach (fun g m => link_dependencies resolutionMap false (dependencies m) g m)
      manifests g0 in
  (* Adding devDependencies to the graph *)
  let* g2 :=
    forEach (fun g m =>
               if negb (truthy (isLocal m)) then Ok g
               else link_dependencies resolutionMap false (devDependencies m) g m)
      manifests g1 in
  let* g3 :=
    forEach (fun g m => link_dependencies resolutionMap true (optionalDependencies m) g m)
      manifests g2 in
  forEach register_peers manifests g3.

Definition createDependencyGraph (fuel : nat) (manifests : list PackageManifest)
    (resolutionMap : ResolutionMap) (failOnMissingPeerDependencies : option bool)
    : option (list string * result DepGraph.PublicGraph) :=
  let failOnMissing :=
    match failOnMissingPeerDependencies with
    | Some b => b
    | None => true
    end in
  match build_graph manifests resolutionMap with
  | Throw e => Some ([], Throw e)
  | Ok g =>
      (* Resolve PeerLinks *)
      match DepGraph.getPeerLinks g with
      | Throw e => Some ([], Throw e)
      | Ok queue =>
          match resolve_loop failOnMissing fuel
                  (mkState g queue (List.length queue + 1) []) with
          | None => None
          | Some (lines, Ok g') => Some (lines, Ok (DepGraph.toJson g'))
          | Some (lines, Throw e) => Some (lines, Throw e)
          end
      end
  end.
End WithSemver.

End Resolver.

(* ================================================================== *)
(** * Part IV. The condenser ([local-package-store/src/graphToTree.ts]) *)
(* ================================================================== *)

Module GraphToTree.

Record Node : Type := mkNode {
  key : string;
  isRoot : option bool
}.

Record Link : Type := mkLink {
  source : string;
  target : string
}.

Record Graph : Type := mkGraph {
  nodes : list Node;
  links : list Link
}.

Record Component : Type := mkComponent {
  keys : list (option string);
  dependencies : list nat
}.

Record Tree : Type := mkTree {
  components : NMap.t Component;
  rootComponents : list nat
}.

(** What the [strongly-connected-components] package returns. *)
Record Scc : Type := mkScc {
  scc_components : list (list nat);
  adjacencyList : list (list nat)
}.

(** [graph.nodes.forEach((n, i) => m.set(n.key, i))]. *)
Fixpoint index_nodes (i : nat) (l : list Node) (m : SMap.t nat) : SMap.t nat :=
  match l with
  | [] => m
  | n :: l' => index_nodes (S i) l' (SMap.set m (key n) i)
  end.

(** [gr[i].push(x)]; a [TypeError] when [gr[i]] is [undefined]. *)
Fixpoint push_at (gr : list (list (option nat))) (i : nat) (x : option nat)
    : result (list (list (option nat))) :=
  match gr, i with
  | [], _ => Throw TypeError
  | row :: gr', 0 => Ok ((row ++ [x]) :: gr')
  | row :: gr', S i' => let* gr'' := push_at gr' i' x in Ok (row :: gr'')
  end.

(** [indexToRoot.get(j)], as the truth value [find] tests. *)
Definition root_at (g : Graph) (j : nat) : bool :=
  match nth_error (nodes g) j with
  | Some n => match isRoot n with Some true => true | _ => false end
  | None => false
  end.

Section WithScc.
(** [require("strongly-connected-components")]. *)
Variable scc : list (list (option nat)) -> Scc.

Definition adjacency (g : Graph) : result (list (list (option nat))) :=
  let nodeToIndex := index_nodes 0 (nodes g) SMap.empty in
  forEach
    (fun gr l =>
       let targetIndex := SMap.get nodeToIndex (target l) in
       let* sourceTarget := unwrap (SMap.get nodeToIndex (source l)) in
       push_at gr sourceTarget targetIndex)
    (links g) (map (fun _ => []) (nodes g)).

(** [components.forEach((c, j) => ...)], from index [j] on. *)
Fixpoint add_components (g : Graph) (j : nat) (cs : list (list nat)) (t : Tree) : Tree :=
  match cs with
  | [] => t
  | c :: cs' =>
      let keys := map (fun i => option_map key (nth_error (nodes g) i)) c in
      let isRoot :=
        match find (root_at g) c with
        | Some _ => true
        | None => false
        end in
      add_components g (S j) cs'
        (mkTree (NMap.set (components t) j (mkComponent keys []))
           (if isRoot then rootComponents t ++ [j] else rootComponents t))
  end.

(** [adjacencyList.forEach((c, i) => tree.components.get(i)!.dependencies.push(...c))]. *)
Fixpoint add_dependencies (i : nat) (adj : list (list nat)) (t : Tree) : result Tree :=
  match adj with
  | [] => Ok t
  | c :: adj' =>
      let* comp := unwrap (NMap.get (components t) i) in
      add_dependencies (S i) adj'
        (mkTree
           (NMap.set (components t) i
              (mkComponent (keys comp) (dependencies comp ++ c)))
           (rootComponents t))
  end.

Definition convertGraphToTree (g : Graph) : result Tree :=
  let* gr := adjacency g in
  let r := scc gr in
  let tree := add_components g 0 (scc_components r) (mkTree NMap.empty []) in
  add_dependencies 0 (adjacencyList r) tree.
End WithScc.

End GraphToTree.

(* ================================================================== *)
(** * Part V. The installer ([local-package-store/src/index.ts]) *)
(* ================================================================== *)

Module Store.

Record Node : Type := mkNode {
  key : string;
  name : string;
  keepInPlace : option bool;
  bins : option (Obj.t string);
  location : string
}.

Record Link : Type := mkLink {
  source : string;
  target : string
}.

Record Graph : Type := mkGraph {
  nodes : list Node;
  links : list Link
}.

Record Options : Type := mkOptions {
  filesToExclude : option (list string);
  ignoreBinConflicts : option bool
}.

(** What the program reads from an [fs.Stats]. *)
Record Stats : Type := mkStats {
  isDirectory : bool;
  isFile : bool
}.

(** The operations that change the disk or start a process. *)
Inductive Action : Type :=
| Mkdir (path : string) (recursive : bool)
| Rimraf (path : string)
| CopyFile (src dest : string)
| Symlink (target path : string)
| CmdShim (from to : string)
| Exec (command cwd : string).

(** The double quote character, as a string. *)
Definition dq : string := String "034"%char EmptyString.

Definition quoted (s : string) : string := (dq ++ s ++ dq)%string.

(** *** The two regular expressions *)

Definition in_range (lo hi : nat) (c : ascii) : bool :=
  let n := nat_of_ascii c in andb (Nat.leb lo n) (Nat.leb n hi).

Definition is_lower (c : ascii) : bool := in_range 97 122 c.
Definition is_upper (c : ascii) : bool := in_range 65 90 c.
Definition is_digit (c : ascii) : bool := in_range 48 57 c.

(** [[a-z0-9-~]] *)
Definition scope_first (c : ascii) : bool :=
  is_lower c || is_digit c || Ascii.eqb c "-" || Ascii.eqb c "~".

(** [[a-z0-9-._~]] *)
Definition scope_rest (c : ascii) : bool :=
  scope_first c || Ascii.eqb c "." || Ascii.eqb c "_".

(** [[a-zA-Z0-9-~]] *)
Definition name_first (c : ascii) : bool := scope_first c || is_upper c.

(** [[a-zA-Z0-9-._~]] *)
Definition name_rest (c : ascii) : bool := scope_rest c || is_upper c.

Fixpoint all_chars (p : ascii -> bool) (s : string) : bool :=
  match s with
  | EmptyString => true
  | String c s' => andb (p c) (all_chars p s')
  end.

(** Splits at the first ["/"]. *)
Fixpoint split_slash (s : string) : option (string * string) :=
  match s with
  | EmptyString => None
  | String c s' =>
      if Ascii.eqb c "/" then Some (EmptyString, s')
      else match split_slash s' with
           | Some (a, b) => Some (String c a, b)
           | None => None
           end
  end.

Definition plain_name (s : string) : bool :=
  match s with
  | EmptyString => false
  | String c s' => andb (name_first c) (all_chars name_rest s')
  end.

Definition scope_name (s : string) : bool :=
  match s with
  | EmptyString => false
  | String c s' => andb (scope_first c) (all_chars scope_rest s')
  end.

(** [/^(@[a-z0-9-~][a-z0-9-._~]*\/)?[a-zA-Z0-9-~][a-zA-Z0-9-._~]*$/.test(s)].
    ["@"] is in no class and ["/"] is in none either, so the optional group
    is taken exactly when the string starts with ["@"], and it ends at the
    first ["/"]. *)
Definition valid_name (s : string) : bool :=
  match s with
  | String c s' =>
      if Ascii.eqb c "@" then
        match split_slash s' with
        | Some (scope, rest) => andb (scope_name scope) (plain_name rest)
        | None => false
        end
      else plain_name s
  | EmptyString => false
  end.

(** [/\/|\\|\n/.test(binName)]. *)
Fixpoint invalid_bin_name (s : string) : bool :=
  match s with
  | EmptyString => false
  | String c s' =>
      Ascii.eqb c "/" || Ascii.eqb c "\" || Ascii.eqb c "010" || invalid_bin_name s'
  end.

(** *** Error messages *)

Definition not_absolute_message (p : string) : string :=
  ("Location is not an absolute path: " ++ quoted p)%string.
Definition not_directory_message (p : string) : string :=
  ("Location is not a directory: " ++ quoted p)%string.
Definition not_empty_message (p : string) : string :=
  ("Location is not an empty directory: " ++ quoted p)%string.
Definition not_exist_message (p : string) : string :=
  ("Location does not exist: " ++ quoted p)%string.
Definition duplicate_key_message (k : string) : string :=
  ("Multiple nodes have the following key: " ++ quoted k)%string.
Definition node_not_absolute_message (p : string) : string :=
  ("Location of a node is not absolute: " ++ quoted p)%string.
Definition invalid_name_message (n : string) : string :=
  ("Package name invalid: " ++ quoted n)%string.
Definition node_not_directory_message (p : string) : string :=
  ("Location of a node is not a directory: " ++ quoted p)%string.
Definition invalid_source_message (k : string) : string :=
  ("Invalid link source: " ++ quoted k)%string.
Definition invalid_target_message (k : string) : string :=
  ("Invalid link target: " ++ quoted k)%string.
Definition same_name_message (source targetName : string) : string :=
  ("Package " ++ quoted source ++ " depends on multiple packages called "
     ++ quoted targetName)%string.
Definition invalid_bin_message (k binName : string) : string :=
  ("Package " ++ quoted k ++ " exposes a bin script with an invalid name: "
     ++ quoted binName)%string.
Definition bin_collision_message (binName source : string) : string :=
  ("Several different scripts called " ++ quoted binName
     ++ " need to be installed at the same location (" ++ source ++ ").")%string.

(** *** Validation that does not read the disk *)

Fixpoint findDups (array : list string) : option string :=
  match array with
  | [] => None
  | x :: tail => if includes tail x then Some x else findDups tail
  end.

(** [keyToNameMap.get(l.target)] may be [undefined]; the sets of
    [dependenciesMap] hold such values. *)
Definition same_target_name (a b : option string) : bool :=
  match a, b with
  | Some x, Some y => String.eqb x y
  | None, None => true
  | _, _ => false
  end.

Definition findDependenciesWithSameName (g : Graph) : list (string * option string) :=
  let keyToNameMap :=
    fold_left (fun m n => SMap.set m (key n) (name n)) (nodes g) SMap.empty in
  snd
    (fold_left
       (fun (st : SMap.t (list (option string)) * list (string * option string)) l =>
          let dependenciesMap := fst st in
          let result := snd st in
          let targetName := SMap.get keyToNameMap (target l) in
          let seen :=
            match SMap.get dependenciesMap (source l) with
            | Some s => s
            | None => []
            end in
          if existsb (same_target_name targetName) seen
          then (SMap.set dependenciesMap (source l) seen,
                result ++ [(source l, targetName)])
          else (SMap.set dependenciesMap (source l) (seen ++ [targetName]), result))
       (links g) (SMap.empty, [])).

(** [Object.keys(node.bins)], or nothing when the node has no [bins]. *)
Definition bin_names (n : Node) : list string :=
  match bins n with
  | Some b => Obj.keys b
  | None => []
  end.

(** The callback of [graph.links.forEach] in [getBinError], unfolded over
    the bin names of the target. *)
Definition install_bins (ignoreBinConflicts : option bool) (source : string)
    (st : SMap.t SSet.t * list string) (binName : string)
    : result (SMap.t SSet.t * list string) :=
  let installedBinMap := fst st in
  let binCollisionErrors := snd st in
  let* installed := unwrap (SMap.get installedBinMap source) in
  let errors :=
    if andb (SSet.has installed binName)
            (negb (match ignoreBinConflicts with Some true => true | _ => false end))
    then binCollisionErrors ++ [bin_collision_message binName source]
    else binCollisionErrors in
  Ok (SMap.set installedBinMap source (SSet.add installed binName), errors).

Definition getBinError (g : Graph) (ignoreBinConflicts : option bool)
    : result (option string) :=
  let errors :=
    filter (fun a => negb (Nat.eqb (List.length a) 0))
      (map (fun node =>
              map (fun binName => invalid_bin_message (key node) binName)
                (filter invalid_bin_name (bin_names node)))
         (nodes g)) in
  match errors with
  | (e :: _) :: _ => Ok (Some e)
  | [] :: _ => Ok None
  | [] =>
      let binsMap :=
        fold_left
          (fun m node =>
             SMap.set m (key node) (fold_left SSet.add (bin_names node) SSet.empty))
          (nodes g) SMap.empty in
      let installedBinMap :=
        fold_left (fun m node => SMap.set m (key node) SSet.empty) (nodes g) SMap.empty in
      let* final :=
        forEach
          (fun st l =>
             let* targetBins := unwrap (SMap.get binsMap (target l)) in
             forEach (install_bins ignoreBinConflicts (source l)) targetBins st)
          (links g) (installedBinMap, []) in
      match snd final with
      | e :: _ => Ok (Some e)
      | [] => Ok None
      end
  end.

Definition addSelfLinks (g : Graph) : Graph :=
  mkGraph (nodes g)
    (filter (fun l => negb (String.eqb (source l) (target l))) (links g)
       ++ map (fun n => mkLink (key n) (key n)) (nodes g)).

(** The nodes as [convertGraphToTree] reads them: the installer's node type
    declares no [isRoot] property. *)
Definition as_tree_graph (g : Graph) : GraphToTree.Graph :=
  GraphToTree.mkGraph
    (map (fun n => GraphToTree.mkNode (key n) None) (nodes g))
    (map (fun l => GraphToTree.mkLink (source l) (target l)) (links g)).

(** *** The part that reads and changes the disk *)

(** How a call ends: it returns, it throws, or the model ran out of [fuel]
    while walking a directory tree. *)
Inductive outcome (A : Type) : Type :=
| Returned (a : A)
| Thrown (e : exn)
| Unfinished.
Arguments Returned {A} a.
Arguments Thrown {A} e.
Arguments Unfinished {A}.

Section WithDisk.
(** The state of the file system, and Node's [path] and [fs] modules. A
    [None] from a reading function is a thrown exception. *)
Variable disk : Type.
Variable isAbsolute : string -> bool.
Variable join : list string -> string.
Variable dirname : string -> string.
Variable statSync : disk -> string -> option Stats.
Variable readdirSync : disk -> string -> option (list string).
(** [JSON.parse(readFile(p))]: whether [scripts.install] and
    [scripts.postinstall] are set. *)
Variable readScripts : disk -> string -> result (bool * bool).
(** The effect of one action (mkdir, rimraf, copyFile, symlink, cmd-shim,
    exec) on the disk. *)
Variable perform : disk -> Action -> result disk.
Variable scc : list (list (option nat)) -> GraphToTree.Scc.
(** [executeTree] is in [treeExecutor.ts], which is not among the sources:
    a parameter gives the order in which it calls the executor, and the
    calls are taken like the callbacks of one [Promise.all]. *)
Variable execution_order : GraphToTree.Tree -> list nat.

Definition getLocationError (d : disk) (location : string) : option string :=
  if negb (isAbsolute location) then Some (not_absolute_message location)
  else
    match statSync d location with
    | None => Some (not_exist_message location)
    | Some stats =>
        if negb (isDirectory stats) then Some (not_directory_message location)
        else
          match readdirSync d location with
          | None => Some (not_exist_message location)
          | Some dir =>
              if negb (Nat.eqb (List.length dir) 0)
              then Some (not_empty_message location)
              else None
          end
    end.

(** The filter callback that computes [notFolderLocations]. *)
Definition not_folder (d : disk) (n : Node) : bool :=
  match statSync d (location n) with
  | Some stats => negb (isDirectory stats)
  | None => false
  end.

Definition getGraphError (d : disk) (g : Graph) : option string :=
  match findDups (map key (nodes g)) with
  | Some dupKey => Some (duplicate_key_message dupKey)
  | None =>
  match filter (fun n => negb (isAbsolute (location n))) (nodes g) with
  | n :: _ => Some (node_not_absolute_message (location n))
  | [] =>
  match filter (fun n => negb (valid_name (name n))) (nodes g) with
  | n :: _ => Some (invalid_name_message (name n))
  | [] =>
  match filter (not_folder d) (nodes g) with
  | n :: _ => Some (node_not_directory_message (location n))
  | [] =>
  match filter (fun l => negb (includes (map key (nodes g)) (source l))) (links g) with
  | l :: _ => Some (invalid_source_message (source l))
  | [] =>
  match filter (fun l => negb (includes (map key (nodes g)) (target l))) (links g) with
  | l :: _ => Some (invalid_target_message (target l))
  | [] =>
  match findDependenciesWithSameName g with
  | (source, targetName) :: _ =>
      Some (same_name_message source (Obj.property_key targetName))
  | [] => None
  end end end end end end end.

Definition validateInput (d : disk) (g : Graph) (location : string)
    (ignoreBinConflicts : option bool) : result unit :=
  match getLocationError d location with
  | Some locationError => Throw (Error locationError)
  | None =>
      match getGraphError d g with
      | Some GrapError => Throw (Error GrapError)
      | None =>
          let* binError := getBinError g ignoreBinConflicts in
          match binError with
          | Some e => Throw (Error e)
          | None => Ok tt
          end
      end
  end.

(** The disk, and every action attempted on it so far. *)
Record World : Type := mkWorld {
  w_disk : disk;
  performed : list Action
}.

Definition IO (A : Type) : Type := World -> World * outcome A.

Definition ret {A : Type} (a : A) : IO A := fun w => (w, Returned a).

Definition throw {A : Type} (e : exn) : IO A := fun w => (w, Thrown e).

Definition io_bind {A B : Type} (m : IO A) (k : A -> IO B) : IO B :=
  fun w =>
    match m w with
    | (w', Returned a) => k a w'
    | (w', Thrown e) => (w', Thrown e)
    | (w', Unfinished) => (w', Unfinished)
    end.

Notation "'do' x '<-' m ';' k" := (io_bind m (fun x => k))
  (at level 10, x pattern, m at level 100, k at level 200).

Definition lift {A : Type} (r : result A) : IO A :=
  match r with
  | Ok a => ret a
  | Throw e => throw e
  end.

Definition act (a : Action) : IO unit :=
  fun w =>
    match perform (w_disk w) a with
    | Ok d => (mkWorld d (performed w ++ [a]), Returned tt)
    | Throw e => (mkWorld (w_disk w) (performed w ++ [a]), Thrown e)
    end.

Definition read {A : Type} (f : disk -> A) : IO A :=
  fun w => (w, Returned (f (w_disk w))).

(** What [fs] gives for [path]: [None] is the error it fails with. *)
Definition fs_result {A : Type} (syscall path : string) (o : option A) : result A :=
  match o with
  | Some a => Ok a
  | None => Throw (SystemError syscall path)
  end.

(** [Promise.all(xs.map(async x => ...))]. Every callback is started, also
    when another one rejects, and the promise rejects with the first
    rejection. The callbacks are taken one after the other; the state [s]
    is what they share, and a callback that rejects hands it on as it found
    it (no callback reads it, and a rejected run returns none). *)
Fixpoint io_each {A S : Type} (f : S -> A -> IO S) (l : list A) (s : S) : IO S :=
  match l with
  | [] => ret s
  | x :: l' =>
      fun w =>
        match f s x w with
        | (w1, Returned s1) => io_each f l' s1 w1
        | (w1, Thrown e) =>
            match io_each f l' s w1 with
            | (w2, Unfinished) => (w2, Unfinished)
            | (w2, _) => (w2, Thrown e)
            end
        | (w1, Unfinished) => (w1, Unfinished)
        end
  end.

(** [for (const x of xs) { await ... }]: the loop ends at the first
    rejection. *)
Fixpoint io_for {A S : Type} (f : S -> A -> IO S) (l : list A) (s : S) : IO S :=
  match l with
  | [] => ret s
  | x :: l' => do s' <- f s x; io_for f l' s'
  end.

(** [Promise.all(group.map(callback))], with the array of the results. *)
Definition all {A B : Type} (callback : A -> IO B) (group : list A) : IO (list B) :=
  io_each (fun res x => do r <- callback x; ret (res ++ [r])) group [].

(** [arr.slice(i, j)]. *)
Definition slice {A : Type} (arr : list A) (i j : nat) : list A :=
  firstn (j - i) (skipn i arr).

(** [arr.map((_, i) => i % batchSize ? [] : arr.slice(i, i + batchSize))].
    [i % 0] is [NaN], which is falsy like [0]. *)
Definition batch_groups {A : Type} (batchSize : nat) (arr : list A) : list (list A) :=
  map (fun i =>
         if match batchSize with
            | 0 => false
            | _ => negb (Nat.eqb (i mod batchSize) 0)
            end
         then []
         else slice arr i (i + batchSize))
    (seq 0 (List.length arr)).

(** [batchPromises]: the groups are chained with [then], from
    [Promise.resolve([])], so that a group is started when the groups before
    it have resolved. *)
Definition batchPromises {A B : Type} (batchSize : nat) (collection : list A)
    (callback : A -> IO B) : IO (list B) :=
  fold_left
    (fun chain group =>
       do res <- chain;
       do r <- all callback group;
       ret (res ++ r))
    (batch_groups batchSize collection) (ret []).

Fixpoint copyDir (fuel : nat) (source destination : string)
    (exclusionList : option (list string)) (filesActions : list (string * string))
    : IO (list (string * string)) :=
  match fuel with
  | 0 => fun w => (w, Unfinished)
  | S fuel' =>
      do listing <- read (fun d => readdirSync d source);
      do entries <- lift (fs_result "scandir" source listing);
      io_each
        (fun filesActions e =>
           do st <- read (fun d => statSync d (join [source; e]));
           do stats <- lift (fs_result "stat" (join [source; e]) st);
           if isDirectory stats then
             do _ <- act (Mkdir (join [destination; e]) false);
             copyDir fuel' (join [source; e]) (join [destination; e]) None filesActions
           else if isFile stats then
             if match exclusionList with
                | Some l => negb (includes l e)
                | None => true
                end
             then ret (filesActions ++ [(join [source; e], join [destination; e])])
             else ret filesActions
           else ret filesActions)
        entries filesActions
  end.

Definition installNodesInStore (fuel : nat) (g : Graph) (location : string)
    (exclusionList : option (list string))
    : IO (SMap.t string * list (string * string)) :=
  io_each
    (fun st n =>
       let locationMap := fst st in
       let filesActions := snd st in
       let inPlace := match keepInPlace n with Some true => true | _ => false end in
       let destination := if inPlace then Store.location n else join [location; key n] in
       do filesActions' <-
         (if inPlace then
            do _ <- act (Rimraf (join [destination; "node_modules"%string]));
            ret filesActions
          else
            do _ <- act (Mkdir destination false);
            copyDir fuel (Store.location n) destination exclusionList filesActions);
       ret (SMap.set locationMap (key n) destination, filesActions'))
    (nodes g) (SMap.empty, []).

Definition copyFiles (fileActions : list (string * string)) : IO unit :=
  io_each (fun _ a => act (CopyFile (fst a) (snd a))) fileActions tt.

Definition linkNodes (g : Graph) (locationMap : SMap.t string) : IO unit :=
  io_each
    (fun _ l =>
       do n <- lift (unwrap (find (fun n => String.eqb (key n) (target l)) (nodes g)));
       do src <- lift (unwrap (SMap.get locationMap (source l)));
       do _ <- act (Mkdir (dirname (join [src; "node_modules"%string; name n])) true);
       do tgt <- lift (unwrap (SMap.get locationMap (target l)));
       act (Symlink (join [tgt]) (join [src; "node_modules"%string; name n])))
    (links g) tt.

Definition createBins (g : Graph) (locationMap : SMap.t string) : IO unit :=
  let binsMap :=
    fold_left
      (fun m n =>
         match bins n with
         | None => m
         | Some b =>
             SMap.set m (key n)
               (fold_left (fun bm p => SMap.set bm (fst p) (snd p)) (Obj.entries b)
                  (match SMap.get m (key n) with Some bm => bm | None => SMap.empty end))
         end)
      (nodes g) SMap.empty in
  io_each
    (fun _ l =>
       match SMap.get binsMap (target l) with
       | None => ret tt
       | Some targetBins =>
           do src <- lift (unwrap (SMap.get locationMap (source l)));
           do _ <- act (Mkdir (join [src; "node_modules"%string; ".bin"%string]) true);
           io_for
             (fun _ (b : string * string) =>
                do tgt <- lift (unwrap (SMap.get locationMap (target l)));
                let binLoc := join [tgt; snd b] in
                do st <- read (fun d => statSync d binLoc);
                match st with
                | None => ret tt
                | Some _ =>
                    act (CmdShim binLoc
                           (join [src; "node_modules"%string; ".bin"%string; fst b]))
                end)
             targetBins tt
       end)
    (links g) tt.

(** The scripts of the package at [loc]. The [try] block holds
    [fs.statSync(path.join(loc, "package.json"))]: when [loc] is [undefined],
    [path.join] throws inside it and the callback returns. *)
Definition run_package_scripts (loc : option string) : IO unit :=
  match loc with
  | None => ret tt
  | Some loc =>
      do st <- read (fun d => statSync d (join [loc; "package.json"%string]));
      match st with
      | None => ret tt
      | Some _ =>
          do parsed <- read (fun d => readScripts d (join [loc; "package.json"%string]));
          do manifest <- lift parsed;
          do _ <- (if fst manifest then act (Exec "npm run install" loc) else ret tt);
          if snd manifest then act (Exec "npm run postinstall" loc) else ret tt
      end
  end.

(** The tree [runScripts] computes. *)
Definition scripts_tree (g : Graph) : result GraphToTree.Tree :=
  GraphToTree.convertGraphToTree scc (as_tree_graph g).

Definition runScripts (g : Graph) (locationMap : SMap.t string) : IO unit :=
  do tree <- lift (scripts_tree g);
  do _ <-
    io_each
      (fun _ component =>
         do c <- lift (unwrap (NMap.get (GraphToTree.components tree) component));
         io_each
           (fun _ n =>
              run_package_scripts
                (match n with
                 | Some k => SMap.get locationMap k
                 | None => None
                 end))
           (GraphToTree.keys c) tt)
      (execution_order tree) tt;
  do _ <-
    batchPromises 100 (nodes g)
      (fun n => run_package_scripts (SMap.get locationMap (key n)));
  ret tt.

Definition installLocalStore (fuel : nat) (g : Graph) (location : string)
    (options : option Options) : IO unit :=
  do _ <-
    (fun w =>
       lift (validateInput (w_disk w) g location
               (match options with
                | Some o => ignoreBinConflicts o
                | None => None
                end)) w);
  do installed <-
    installNodesInStore fuel g location
      (match options with
       | Some o => filesToExclude o
       | None => None
       end);
  let locationMap := fst installed in
  let filesActions := snd installed in
  do _ <- copyFiles filesActions;
  let newGraph := addSelfLinks g in
  do _ <- linkNodes newGraph locationMap;
  do _ <- createBins newGraph locationMap;
  runScripts newGraph locationMap.
End WithDisk.

End Store.

(* ================================================================== *)
(** * Part V, continued. The command line (the [install] script) *)
(* ================================================================== *)

Module Cli.

(** [batchPromises] is the function of [local-package-store], repeated in
    the script: [Store.batchPromises]. *)

(** ** The manifests and the resolution map *)

(** An element of the array [resolveAndFetch] returns: a manifest, with the
    path of its [package.json]. *)
Record Located : Type := mkLocated {
  manifest : Resolver.PackageManifest;
  location : string
}.

(** [if (o.isLocal) { o.peerDependencies = undefined; }]. *)
Definition drop_local_peers (o : Located) : Located :=
  let m := manifest o in
  if Resolver.truthy (Resolver.isLocal m) then
    mkLocated
      (Resolver.mkManifest (Resolver.name m) (Resolver.version m) (Resolver.isLocal m)
         (Resolver.dependencies m) (Resolver.devDependencies m)
         (Resolver.optionalDependencies m) None (Resolver.peerDependenciesMeta m))
      (location o)
  else o.

(** [if (!resolutionMap[name]) resolutionMap[name] = {};
    resolutionMap[name]['*'] = version], for a name that [Prototype.ordinary]
    accepts. *)
Definition add_local_resolution (resolutionMap : Resolver.ResolutionMap) (n : Located)
    : Resolver.ResolutionMap :=
  let name := Resolver.name (manifest n) in
  let version := Resolver.version (manifest n) in
  let resolutionMap1 :=
    match Obj.get resolutionMap name with
    | Some _ => resolutionMap
    | None => Obj.set resolutionMap name Obj.empty
    end in
  match Obj.get resolutionMap1 name with
  | Some byRange => Obj.set resolutionMap1 name (Obj.set byRange "*" version)
  | None => resolutionMap1
  end.

Definition add_local_resolutions (locationMap : list Located)
    (resolutionMap : Resolver.ResolutionMap) : Resolver.ResolutionMap :=
  fold_left add_local_resolution
    (filter (fun n => Resolver.truthy (Resolver.isLocal (manifest n))) locationMap)
    resolutionMap.

(** ** The name of the new store *)

(** [dirs.filter(o => o.startsWith('.store'))]. *)
Definition old_stores (dirs : list string) : list string :=
  filter (String.prefix ".store") dirs.

(** [while (oldStores.includes(newStore)) { newStore = newStore + '0'; }],
    one unit of [fuel] per iteration. *)
Fixpoint pick_store (fuel : nat) (oldStores : list string) (newStore : string)
    : option string :=
  if includes oldStores newStore then
    match fuel with
    | 0 => None
    | S fuel' => pick_store fuel' oldStores (newStore ++ "0")
    end
  else Some newStore.

(** A name that is taken costs one iteration, and no more names are taken
    than there are old stores. *)
Definition new_store (dirs : list string) : option string :=
  pick_store (List.length (old_stores dirs)) (old_stores dirs) ".store".

(** ** The graph given to [installLocalStore] *)


(** The [bin] field of a [package.json]: a path, or an object from names to
    paths. *)
Inductive BinField : Type :=
| BinString (path : string)
| BinObject (bins : Obj.t string).

(** [name.split('/')]. *)
Fixpoint split_slashes (s : string) : list string :=
  match s with
  | EmptyString => [EmptyString]
  | String c s' =>
      if Ascii.eqb c "/" then EmptyString :: split_slashes s'
      else
        match split_slashes s' with
        | first :: others => String c first :: others
        | [] => [String c EmptyString]
        end
  end.

(** [bins] in the callback that builds a node; an empty string is falsy. *)
Definition bins_of (name : string) (bin : option BinField) : option (Obj.t string) :=
  match bin with
  | Some (BinString path) =>
      if String.eqb path EmptyString then None
      else
        let packageNameSplit := split_slashes name in
        let binName := last packageNameSplit EmptyString in
        Some [(binName, path)]
  | Some (BinObject bins) => Some bins
  | None => None
  end.





Section Convert.
Variable disk : Type.
(** [path.join]. *)
Variable join : list string -> string.
(** [JSON.parse(await fs.promises.readFile(p)).bin]. *)
Variable readBin : disk -> string -> result (option BinField).



End Convert.

Section Graph.
Variable satisfies : string -> string -> bool.

(** [createDependencyGraph(locationMap, resolutionMap, false)], after the
    two loops over the local packages. *)
Definition dependency_graph (fuel : nat) (locationMap : list Located)
    (resolutionMap : Resolver.ResolutionMap)
    : option (list string * result DepGraph.PublicGraph) :=
  let locationMap1 := map drop_local_peers locationMap in
  Resolver.createDependencyGraph satisfies fuel (map manifest locationMap1)
    (add_local_resolutions locationMap1 resolutionMap) (Some false).
End Graph.

End Cli.

(* ================================================================== *)
(** * Part VI. Predicates of the specification and concrete inputs *)
(* ================================================================== *)

(** ** A small POSIX disk, to run the installer on *)
Module Posix.

Record Disk : Type := mkDisk {
  stats_of : list (string * Store.Stats);
  listing_of : list (string * list string)
}.

Definition isAbsolute (p : string) : bool :=
  match p with
  | String c _ => Ascii.eqb c "/"
  | EmptyString => false
  end.

Definition join (parts : list string) : string := String.concat "/" parts.

Definition dirname (p : string) : string := p.

Definition statSync (d : Disk) (p : string) : option Store.Stats :=
  SMap.get (stats_of d) p.

Definition readdirSync (d : Disk) (p : string) : option (list string) :=
  SMap.get (listing_of d) p.

Definition readScripts (d : Disk) (p : string) : result (bool * bool) :=
  Ok (false, false).

Definition perform (d : Disk) (a : Store.Action) : result Disk := Ok d.

Definition directory : Store.Stats := Store.mkStats true false.
Definition file : Store.Stats := Store.mkStats false true.

Definition validateInput :=
  Store.validateInput isAbsolute statSync readdirSync.

(** An empty store directory, a package directory and a plain file. *)
Definition disk0 : Disk :=
  mkDisk [("/store"%string, directory); ("/pkg"%string, directory);
          ("/file"%string, file)]
         [("/store"%string, []); ("/pkg"%string, [])].

End Posix.

(** ** A reference condenser, to run the examples

    It stands in for the [strongly-connected-components] package where an
    example needs a value; every theorem quantifies over that function. *)
Module SccRef.

Definition succs (gr : list (list (option nat))) (i : nat) : list nat :=
  flat_map (fun o => match o with Some j => [j] | None => [] end) (nth i gr []).

Fixpoint reach (gr : list (list (option nat))) (fuel : nat) (i j : nat) : bool :=
  Nat.eqb i j ||
  match fuel with
  | 0 => false
  | S fuel' => existsb (fun k => reach gr fuel' k j) (succs gr i)
  end.

Definition same_component (gr : list (list (option nat))) (i j : nat) : bool :=
  reach gr (List.length gr) i j && reach gr (List.length gr) j i.

Fixpoint group (gr : list (list (option nat))) (todo : list nat) (acc : list (list nat))
    : list (list nat) :=
  match todo with
  | [] => acc
  | i :: todo' =>
      if existsb (fun c => existsb (Nat.eqb i) c) acc then group gr todo' acc
      else group gr todo'
             (acc ++ [filter (same_component gr i) (seq 0 (List.length gr))])
  end.

Definition component_of (cs : list (list nat)) (i : nat) : list nat :=
  flat_map (fun p => if existsb (Nat.eqb i) (snd p) then [fst p] else [])
    (combine (seq 0 (List.length cs)) cs).

Definition scc (gr : list (list (option nat))) : GraphToTree.Scc :=
  let cs := group gr (seq 0 (List.length gr)) [] in
  GraphToTree.mkScc cs
    (map (fun p =>
            nodup Nat.eq_dec
              (filter (fun d => negb (Nat.eqb d (fst p)))
                 (flat_map (fun i => flat_map (component_of cs) (succs gr i)) (snd p))))
       (combine (seq 0 (List.length cs)) cs)).

End SccRef.

(** ** Inputs of the installer *)
Module StoreExamples.

Definition installLocalStore :=
  Store.installLocalStore Posix.isAbsolute Posix.join Posix.dirname Posix.statSync
    Posix.readdirSync Posix.readScripts Posix.perform SccRef.scc
    (fun t => NMap.keys (GraphToTree.components t)).

Definition scripts_tree := Store.scripts_tree SccRef.scc.

Definition fresh : Store.World Posix.Disk := Store.mkWorld Posix.disk0 [].

(** The first node sits on a plain file, the second has a space in its name. *)
Definition file_and_bad_name : Store.Graph :=
  Store.mkGraph
    [Store.mkNode "a" "a" None None "/file";
     Store.mkNode "b" "bad name" None None "/pkg"]
    [].

(** [a] and its dependency [b] both expose a bin called [run]. *)
Definition own_bin_clash : Store.Graph :=
  Store.mkGraph
    [Store.mkNode "a" "a" None (Some [("run"%string, "a.js"%string)]) "/pkg";
     Store.mkNode "b" "b" None (Some [("run"%string, "b.js"%string)]) "/pkg"]
    [Store.mkLink "a" "b"].

(** One package, installed in place. *)
Definition in_place : Store.Graph :=
  Store.mkGraph [Store.mkNode "a" "a" (Some true) None "/pkg"] [].

(** The graph of [graphToTree.test.ts]. *)
Definition foo_bar : GraphToTree.Graph :=
  GraphToTree.mkGraph
    [GraphToTree.mkNode "foo" (Some true); GraphToTree.mkNode "bar" None]
    [GraphToTree.mkLink "foo" "bar"].

End StoreExamples.

(** ** Predicates about the condenser and the installer *)
Module TreeSpec.

(** Component [c] holds a node that the caller flagged as a root. *)
Definition has_root (g : GraphToTree.Graph) (c : list nat) : Prop :=
  exists i, In i c /\ GraphToTree.root_at g i = true.

End TreeSpec.

Module StoreSpec.

Definition conflicts_option (options : option Store.Options) : option bool :=
  match options with
  | Some o => Store.ignoreBinConflicts o
  | None => None
  end.

(** The first check that fails decides what is thrown. *)
Fixpoint first_failure (checks : list (result (option string))) : result unit :=
  match checks with
  | [] => Ok tt
  | Ok None :: checks' => first_failure checks'
  | Ok (Some message) :: _ => Throw (Error message)
  | Throw e :: _ => Throw e
  end.

(** Node [n] has key [k] and exposes a bin called [b]. *)
Definition exposes (g : Store.Graph) (k b : string) : Prop :=
  exists n, In n (Store.nodes g) /\ Store.key n = k /\ In b (Store.bin_names n).

(** No link of the caller's graph comes after another link from the same
    source whose target exposes a bin of the same name. *)
Definition no_declared_collision (g : Store.Graph) : Prop :=
  forall before l after l' b,
    Store.links g = before ++ l :: after ->
    In l' before ->
    Store.source l' = Store.source l ->
    exposes g (Store.target l') b ->
    exposes g (Store.target l) b ->
    False.

Section Checks.
Variable disk : Type.
Variable isAbsolute : string -> bool.
Variable statSync : disk -> string -> option Store.Stats.
Variable readdirSync : disk -> string -> option (list string).

(** The checks of [validateInput], one per error message, in the order
    the code runs them. *)
Definition checks_in_order (d : disk) (g : Store.Graph) (location : string)
    (ignoreBinConflicts : option bool) : list (result (option string)) :=
  [ Ok (Store.getLocationError isAbsolute statSync readdirSync d location);
    Ok (option_map Store.duplicate_key_message
          (Store.findDups (map Store.key (Store.nodes g))));
    Ok (option_map (fun n => Store.node_not_absolute_message (Store.location n))
          (find (fun n => negb (isAbsolute (Store.location n))) (Store.nodes g)));
    Ok (option_map (fun n => Store.invalid_name_message (Store.name n))
          (find (fun n => negb (Store.valid_name (Store.name n))) (Store.nodes g)));
    Ok (option_map (fun n => Store.node_not_directory_message (Store.location n))
          (find (Store.not_folder statSync d) (Store.nodes g)));
    Ok (option_map (fun l => Store.invalid_source_message (Store.source l))
          (find (fun l => negb (includes (map Store.key (Store.nodes g)) (Store.source l)))
             (Store.links g)));
    Ok (option_map (fun l => Store.invalid_target_message (Store.target l))
          (find (fun l => negb (includes (map Store.key (Store.nodes g)) (Store.target l)))
             (Store.links g)));
    Ok (option_map
          (fun p => Store.same_name_message (fst p) (Obj.property_key (snd p)))
          (hd_error (Store.findDependenciesWithSameName g)));
    Store.getBinError g ignoreBinConflicts ].
End Checks.

End StoreSpec.

(** ** Predicates used to follow the bin-collision loop of [getBinError] *)
Module BinSpec.

(** The set [binsMap] holds for a node. *)
Definition bins_set (n : Store.Node) : SSet.t :=
  fold_left SSet.add (Store.bin_names n) SSet.empty.

Definition is_collision (e : string) : Prop :=
  exists b s, e = Store.bin_collision_message b s.

(** Every bin recorded in [installedBinMap] comes from a link of [before]. *)
Definition installed_from (g : Store.Graph) (before : list Store.Link)
    (inst : SMap.t SSet.t) : Prop :=
  (forall k s b, SMap.get inst k = Some s -> In b s ->
     exists l', In l' before /\ Store.source l' = k
                /\ StoreSpec.exposes g (Store.target l') b) /\
  (forall k, In k (map Store.key (Store.nodes g)) -> exists s, SMap.get inst k = Some s).

Definition all_defined (g : Store.Graph) (inst : SMap.t SSet.t) : Prop :=
  forall k, In k (map Store.key (Store.nodes g)) -> exists s, SMap.get inst k = Some s.

Definition grows (inst inst' : SMap.t SSet.t) : Prop :=
  forall k s b, SMap.get inst k = Some s -> In b s ->
                exists s', SMap.get inst' k = Some s' /\ In b s'.

(** The state of the loop before the first link. *)
Definition installed0 (g : Store.Graph) : SMap.t SSet.t :=
  fold_left (fun m node => SMap.set m (Store.key node) SSet.empty) (Store.nodes g)
    SMap.empty.

Definition binsMap (g : Store.Graph) : SMap.t SSet.t :=
  fold_left (fun m node => SMap.set m (Store.key node) (bins_set node)) (Store.nodes g)
    SMap.empty.

(** The callback of [graph.links.forEach] in [getBinError]. *)
Definition body (g : Store.Graph) (ignore : option bool)
    (st : SMap.t SSet.t * list string) (l : Store.Link)
    : result (SMap.t SSet.t * list string) :=
  let* targetBins := unwrap (SMap.get (binsMap g) (Store.target l)) in
  forEach (Store.install_bins ignore (Store.source l)) targetBins st.

End BinSpec.

(** ** Order induced by a comparator *)
Module Order.


End Order.

(** ** Predicates about the mutable graph *)
Module GraphSpec.
Import DepGraph.

(** [nodes[name][version]], or [None] when either level is missing. *)
Definition list_at (g : Graph) (name version : string) : option (list Entry) :=
  match Obj.get (nodes g) name with
  | Some byVersion => Obj.get byVersion version
  | None => None
  end.

(** [e] is an element of [nodes[name][version]]. *)
Definition entry_at (g : Graph) (name version : string) (e : Entry) : Prop :=
  exists l, list_at g name version = Some l /\ In e l.

(** [x] is the id of an entry of [nodes]. *)
Definition registered (g : Graph) (x : nat) : Prop :=
  exists name version e, entry_at g name version e /\ id e = x.

(** [b] is a key of [m.get(a)]. *)
Definition mem (m : NMap.t (NMap.t LinkTag)) (a b : nat) : Prop :=
  In b (NMap.keys (get_or_empty m a)).

(** [t] is in [links[s]]. *)
Definition has_link (g : Graph) (s t : nat) : Prop := mem (links g) s t.

(** [s] is in [reversedLinks[t]]. *)
Definition has_reversed (g : Graph) (t s : nat) : Prop := mem (reversedLinks g) t s.

(** [nodes] and [reversedNodes] describe the same nodes. *)
Record nodes_ok (g : Graph) : Prop := mk_nodes_ok {
  names_nodup : NoDup (map fst (nodes g));
  versions_nodup :
    forall name byVersion,
      Obj.get (nodes g) name = Some byVersion -> NoDup (map fst byVersion);
  entry_info :
    forall name version e,
      entry_at g name version e ->
      NMap.get (reversedNodes g) (id e)
      = Some (mkInfo name version (peerDeps e) (isLocal e));
  info_below_counter :
    forall i info, NMap.get (reversedNodes g) i = Some info -> i < nodeCounter g;
  ids_nodup :
    forall name version l, list_at g name version = Some l -> NoDup (map id l);
  info_listed :
    forall i info,
      NMap.get (reversedNodes g) i = Some info ->
      exists l, list_at g (info_name info) (info_version info) = Some l;
  peer_keys_nodup :
    forall i info,
      NMap.get (reversedNodes g) i = Some info -> NoDup (map fst (info_peerDeps info))
}.

(** The forward and the reverse index hold the same links. *)
Definition links_paired (g : Graph) : Prop :=
  forall s t, has_link g s t <-> has_reversed g t s.

(** Every key of [links] is an id the counter has handed out. *)
Definition sources_live (g : Graph) : Prop :=
  forall s, In s (NMap.keys (links g)) -> s < nodeCounter g.

(** Every end of a link is an entry of [nodes]. *)
Definition links_registered (g : Graph) : Prop :=
  (forall s, In s (NMap.keys (links g)) -> registered g s) /\
  (forall s t, has_link g s t -> registered g t).

(** What holds of the graph all along [createDependencyGraph]. *)
Definition resolver_inv (g : Graph) : Prop :=
  nodes_ok g /\ links_paired g /\ sources_live g /\ links_registered g.

(** A call of one of the mutating methods. *)
Inductive Call : Type :=
| CallAddNode (name version : string) (isLocal : bool)
| CallAddLink (source target : nat)
| CallAddPeerLink (sourceId : nat) (targetName targetRange : string) (optional : bool)
| CallCreateVirtualNode (sourceId : nat) (fulfilledPeerDepName : string)
    (fulfilledPeerDep : nat)
| CallChangeChildren (parentId oldChildId newChildId : nat).

Definition call (g : Graph) (c : Call) : result Graph :=
  match c with
  | CallAddNode name version isLocal => Ok (addNode g name version isLocal)
  | CallAddLink source target => Ok (addLink g source target)
  | CallAddPeerLink sourceId targetName targetRange optional =>
      Ok (addPeerLink g sourceId targetName targetRange optional)
  | CallCreateVirtualNode sourceId name provider =>
      let* created := createVirtualNode g sourceId name provider in
      Ok (fst created)
  | CallChangeChildren parentId oldChildId newChildId =>
      changeChildren g parentId oldChildId newChildId
  end.

(** The graph after a sequence of calls that all return. *)
Definition calls (cs : list Call) : result Graph := forEach call cs new.

(** [addLink] is given the id of a node that exists as its source. *)
Definition live_source (g : Graph) (c : Call) : bool :=
  match c with
  | CallAddLink source _ => Nat.ltb source (nodeCounter g)
  | _ => true
  end.

(** Every [addLink] of the sequence has a source that exists when it is called. *)
Fixpoint live_sources (cs : list Call) (g : Graph) : bool :=
  match cs with
  | [] => true
  | c :: cs' =>
      andb (live_source g c)
           (match call g c with
            | Ok g' => live_sources cs' g'
            | Throw _ => true
            end)
  end.

(** [x] is reached from [r] along forward links. *)
Inductive path (g : Graph) (r : nat) : nat -> Prop :=
| path_here : path g r r
| path_step : forall s t, path g r s -> has_link g s t -> path g r t.


(** The weight that bounds the iterations of [reach_loop]: the targets of
    the nodes that were not reached yet. *)
Definition unreached_weight (g : Graph) (reached : list nat) : nat :=
  list_sum
    (map (fun p => if existsb (Nat.eqb (fst p)) reached then 0 else List.length (snd p))
       (links g)).

End GraphSpec.

(** ** Predicates and inputs of the resolver *)
Module ResolverSpec.

(** A [semver.satisfies] under which every version matches every range. *)
Definition always_satisfied (version range : string) : bool := true.

(** The test at the top of the loop body: the link [parentId -> sourceId] is
    still in the forward index. *)
Definition still_linked (g : DepGraph.Graph) (parentId sourceId : nat) : bool :=
  match NMap.get (DepGraph.links g) parentId with
  | Some children => NMap.has children sourceId
  | None => false
  end.

End ResolverSpec.

Module ResolverExamples.
Import Resolver.

(** Enough of semver for the examples: [*] matches everything, [^1.0.0]
    matches the versions that start with [1.]. *)
Definition satisfies (version range : string) : bool :=
  String.eqb range "*" || (String.eqb range "^1.0.0" && String.prefix "1." version).

Definition manifest (name version : string) (isLocal : option bool)
    (dependencies peerDependencies : option (Obj.t string)) : PackageManifest :=
  mkManifest name version isLocal dependencies None None peerDependencies None.

(** The manifests of the test "resolves basic graph". *)
Definition basic : list PackageManifest :=
  [ manifest "A" "1.0.0" (Some true)
      (Some [("B"%string, "^1.0.0"%string); ("C"%string, "^1.0.0"%string)]) None;
    manifest "B" "1.1.0" (Some false) None None;
    manifest "C" "1.0.1" (Some false) None None ].

Definition basic_resolutions : ResolutionMap :=
  [ ("B"%string, [("^1.0.0"%string, "1.1.0"%string)]);
    ("C"%string, [("^1.0.0"%string, "1.0.1"%string)]) ].

(** The manifests of the test "emit warning if peerDependency is fulfilled
    with wrong version". *)
Definition wrong_version : list PackageManifest :=
  [ manifest "A" "1.0.0" (Some true)
      (Some [("B"%string, "^1.0.0"%string); ("C"%string, "^1.0.0"%string)]) None;
    manifest "B" "1.1.0" (Some false) None (Some [("C"%string, "^2.0.0"%string)]);
    manifest "C" "1.0.1" (Some false) None None ].

(** A local package [L] with a peer dependency on [X], below a package [B]
    that has a peer dependency of its own. *)
Definition local_below_virtual : list PackageManifest :=
  [ manifest "A" "1.0.0" (Some true)
      (Some [("B"%string, "^1.0.0"%string); ("D"%string, "^1.0.0"%string)]) None;
    manifest "B" "1.0.0" None (Some [("L"%string, "^1.0.0"%string)])
      (Some [("D"%string, "*"%string)]);
    manifest "D" "1.0.0" None None None;
    manifest "L" "1.0.0" (Some true) None (Some [("X"%string, "*"%string)]) ].

Definition local_below_virtual_resolutions : ResolutionMap :=
  [ ("B"%string, [("^1.0.0"%string, "1.0.0"%string)]);
    ("D"%string, [("^1.0.0"%string, "1.0.0"%string)]);
    ("L"%string, [("^1.0.0"%string, "1.0.0"%string)]) ].

(** The graph of [wrong_version] when the loop starts, and its one pending
    entry. *)
Definition wrong_version_graph : DepGraph.Graph :=
  match build_graph wrong_version basic_resolutions with
  | Ok g => g
  | Throw _ => DepGraph.new
  end.

Definition wrong_version_pending : DepGraph.PendingPeer :=
  DepGraph.mkPending 0 1 "C" "^2.0.0" false.

(** The manifests of the test "ignore links from unreachable nodes": once
    [B] has its virtual copy, nothing links to [B] itself. *)
Definition unreachable : list PackageManifest :=
  [ manifest "A" "1.0.0" (Some true)
      (Some [("B"%string, "^1.0.0"%string); ("D"%string, "^2.0.0"%string)]) None;
    manifest "B" "1.1.0" None (Some [("C"%string, "^1.0.0"%string)])
      (Some [("D"%string, "*"%string)]);
    manifest "C" "1.0.1" None None None;
    manifest "D" "2.0.0" None None None ].

Definition unreachable_resolutions : ResolutionMap :=
  [ ("B"%string, [("^1.0.0"%string, "1.1.0"%string)]);
    ("C"%string, [("^1.0.0"%string, "1.0.1"%string)]);
    ("D"%string, [("^2.0.0"%string, "2.0.0"%string)]) ].

Definition unreachable_expected : DepGraph.PublicGraph :=
  DepGraph.mkPublicGraph
    [ DepGraph.mkPublicNode "A" "1.0.0" (Some 0);
      DepGraph.mkPublicNode "B" "1.1.0" (Some 1);
      DepGraph.mkPublicNode "C" "1.0.1" (Some 2);
      DepGraph.mkPublicNode "D" "2.0.0" (Some 3) ]
    [ DepGraph.mkPublicLink (Some 0) (Some 1);
      DepGraph.mkPublicLink (Some 0) (Some 3);
      DepGraph.mkPublicLink (Some 1) (Some 2);
      DepGraph.mkPublicLink (Some 1) (Some 3) ].

(** The manifests of the test "sorts nodes". *)
Definition unsorted : list PackageManifest :=
  [ manifest "A" "1.0.0" (Some true)
      (Some [("C"%string, "^1.0.0"%string); ("B"%string, "^1.0.0"%string)]) None;
    manifest "C" "1.0.1" (Some false) None None;
    manifest "B" "1.1.0" (Some false) None None ].


End ResolverExamples.

(** ** Predicates about the public graph *)
Module ProjectionSpec.
Import DepGraph.








(** Every node of [g'] has the name, version and [isLocal] of a node of [g]. *)
Definition descends (g g' : Graph) : Prop :=
  forall i info,
    NMap.get (reversedNodes g') i = Some info ->
    exists i0 info0,
      NMap.get (reversedNodes g) i0 = Some info0 /\
      info_name info0 = info_name info /\
      info_version info0 = info_version info /\
      info_isLocal info0 = info_isLocal info.


End ProjectionSpec.

(** ** Predicates about the manifests given to the resolver *)
Module ManifestSpec.
Import DepGraph.

(** A manifest of the input has that name and version. *)
Definition declared (ms : list Resolver.PackageManifest) (n v : string) : Prop :=
  exists m, In m ms /\ Resolver.name m = n /\ Resolver.version m = v.

(** Every node of [g] has the name and version of a manifest. *)
Definition infos_declared (ms : list Resolver.PackageManifest) (g : Graph) : Prop :=
  forall i info,
    NMap.get (reversedNodes g) i = Some info ->
    declared ms (info_name info) (info_version info).

(** No entry of [nodes] is lost from [g] to [g']. *)
Definition keeps_entries (g g' : Graph) : Prop :=
  forall n v e, GraphSpec.entry_at g n v e -> GraphSpec.entry_at g' n v e.

(** The graph after the first [manifests.forEach] of [createDependencyGraph]. *)
Definition add_nodes (ms : list Resolver.PackageManifest) (g : Graph) : Graph :=
  fold_left (fun g m => addNode g (Resolver.name m) (Resolver.version m)
                          (Resolver.truthy (Resolver.isLocal m))) ms g.


Definition warning_line (l : string) : Prop :=
  String.prefix "[WARNING] " l = true.

(** An [Error] that reports an unmet peer dependency. *)
Definition unmet_error (e : exn) : Prop :=
  exists msg, e = Error msg /\ String.prefix "[ERROR] Unmet peer dependency: " msg = true.

(** *** The inputs without inherited property names *)

(** The names and the ranges of a dependency object are ordinary keys. *)
Definition ordinary_pairs (o : option (Obj.t string)) : bool :=
  match o with
  | Some deps =>
      forallb (fun d => Prototype.ordinary (fst d) && Prototype.ordinary (snd d)) deps
  | None => true
  end.

Definition ordinary_manifest (m : Resolver.PackageManifest) : bool :=
  Prototype.ordinary (Resolver.name m) && Prototype.ordinary (Resolver.version m)
  && ordinary_pairs (Resolver.dependencies m)
  && ordinary_pairs (Resolver.devDependencies m)
  && ordinary_pairs (Resolver.optionalDependencies m)
  && ordinary_pairs (Resolver.peerDependencies m)
  && match Resolver.peerDependenciesMeta m with
     | Some meta => forallb (fun d => Prototype.ordinary (fst d)) meta
     | None => true
     end.

Definition ordinary_resolutions (resolutionMap : Resolver.ResolutionMap) : bool :=
  forallb
    (fun byName =>
       Prototype.ordinary (fst byName)
       && forallb (fun r => Prototype.ordinary (fst r) && Prototype.ordinary (snd r))
            (snd byName))
    resolutionMap.

(** No name, version or range of the input is a property name of
    [Object.prototype]: every key that [createDependencyGraph] looks up or
    writes in a plain object is then one at which the object has its own
    properties only. *)
Definition ordinary_input (ms : list Resolver.PackageManifest)
    (resolutionMap : Resolver.ResolutionMap) : bool :=
  forallb ordinary_manifest ms && ordinary_resolutions resolutionMap.

End ManifestSpec.

(** ** Small graphs for the examples *)
Module GraphExamples.
Import DepGraph.

(** A local package [A] that depends on [B]. *)
Definition linked : Graph :=
  addLink (addNode (addNode new "A" "1" true) "B" "1" false) 0 1.

(** [linked] after [createVirtualNode(0, "B", 1)]. *)
Definition linked_virtual : Graph :=
  mkGraph
    [("A"%string, [("1"%string, [mkEntry 0 [] true; mkEntry 2 [("B"%string, 1)] true])]);
     ("B"%string, [("1"%string, [mkEntry 1 [] false])])]
    [(0, mkInfo "A" "1" [] true); (1, mkInfo "B" "1" [] false);
     (2, mkInfo "A" "1" [("B"%string, 1)] true)]
    [(0, [(1, link)]); (2, [(1, link)])] [(1, [(0, link); (2, link)])] 3 [(2, [])].

(** [linked] where [B] has a peer dependency on [C]. *)
Definition with_peer : Graph := addPeerLink linked 1 "C" "^1.0.0" false.

End GraphExamples.

(** ** Predicates about the input of the installer *)
Module ValidationSpec.
Import Store.

(** [keyToNameMap.get(k)] in [findDependenciesWithSameName]. *)
Definition name_of (g : Graph) (k : string) : option string :=
  SMap.get (fold_left (fun m n => SMap.set m (key n) (name n)) (nodes g) SMap.empty) k.

(** The source of a link, with the name of the package it points to. *)
Definition dependency (g : Graph) (l : Link) : string * option string :=
  (source l, name_of g (target l)).

(** [x] is the first element of [l] that occurs again further on. *)
Definition first_repeated (l : list string) (x : string) : Prop :=
  exists l1 l2,
    l = l1 ++ x :: l2 /\ In x l2 /\
    forall l3 y l4, l1 = l3 ++ y :: l4 -> ~ In y (l4 ++ x :: l2).

(** What the loop over the links knows after the links [before]. *)
Definition seen_so_far (g : Graph) (before : list Link)
    (st : SMap.t (list (option string)) * list (string * option string)) : Prop :=
  (forall s t,
      In (s, t) (map (dependency g) before) <->
      exists seen, SMap.get (fst st) s = Some seen /\ In t seen) /\
  (snd st = [] <-> NoDup (map (dependency g) before)) /\
  (forall p, In p (snd st) -> In p (map (dependency g) before)).

(** The strings of the form [@scope/name] or [name], with the character
    classes of the regular expression of [getGraphError]. *)
Definition name_shape (s : string) : Prop :=
  exists scope rest,
    s = (scope ++ rest)%string /\
    (scope = EmptyString \/
     exists c cs,
       scope = String "@" (String c cs ++ "/") /\
       scope_first c = true /\ all_chars scope_rest cs = true) /\
    exists c cs,
      rest = String c cs /\ name_first c = true /\ all_chars name_rest cs = true.

(** The links [addSelfLinks] appends. *)
Definition self_links (g : Graph) : list Link :=
  map (fun n => mkLink (key n) (key n)) (nodes g).

Section Accepted.
Variable disk : Type.
Variable isAbsolute : string -> bool.
Variable statSync : disk -> string -> option Stats.
Variable readdirSync : disk -> string -> option (list string).

(** [location] is an absolute path to a directory that can be listed and
    has no entry. *)
Definition empty_directory (d : disk) (location : string) : Prop :=
  isAbsolute location = true /\
  (exists stats, statSync d location = Some stats /\ isDirectory stats = true) /\
  readdirSync d location = Some [].

(** The location of [n] is absolute and is not something else than a
    directory, its name has the shape of a package name, and no name of its
    bins holds a slash, a backslash or a line feed. *)
Definition acceptable_node (d : disk) (n : Node) : Prop :=
  isAbsolute (location n) = true /\
  valid_name (name n) = true /\
  (forall stats, statSync d (location n) = Some stats -> isDirectory stats = true) /\
  (forall b, In b (bin_names n) -> invalid_bin_name b = false).

(** What [validateInput] asks of its arguments. *)
Definition acceptable (d : disk) (g : Graph) (location : string)
    (ignoreBinConflicts : option bool) : Prop :=
  empty_directory d location /\
  NoDup (map key (nodes g)) /\
  (forall n, In n (nodes g) -> acceptable_node d n) /\
  (forall l, In l (links g) ->
     In (source l) (map key (nodes g)) /\ In (target l) (map key (nodes g))) /\
  NoDup (map (dependency g) (links g)) /\
  (ignoreBinConflicts = Some true \/ StoreSpec.no_declared_collision g).
End Accepted.

End ValidationSpec.

(** ** Predicates about the adjacency lists given to [scc] *)
Module TreeCheckSpec.

(** Every entry of [gr] is the index of a node among [n] nodes. *)
Definition indices_below (n : nat) (gr : list (list (option nat))) : Prop :=
  Forall (Forall (fun x => exists i, x = Some i /\ i < n)) gr.

Definition known_sources (tg : GraphToTree.Graph) : Prop :=
  forall l, In l (GraphToTree.links tg) ->
            In (GraphToTree.source l) (map GraphToTree.key (GraphToTree.nodes tg)).

Definition known_targets (tg : GraphToTree.Graph) : Prop :=
  forall l, In l (GraphToTree.links tg) ->
            In (GraphToTree.target l) (map GraphToTree.key (GraphToTree.nodes tg)).

End TreeCheckSpec.

(** ** Predicates about the phases that change the disk *)
Module DiskSpec.
Import Store.

(** The location map has an entry for the key of every node. *)
Definition defined_on (g : Graph) (locationMap : SMap.t string) : Prop :=
  forall k, In k (map key (nodes g)) -> exists loc, SMap.get locationMap k = Some loc.

(** Both ends of every link are keys of nodes. *)
Definition known_ends (g : Graph) : Prop :=
  forall l, In l (links g) ->
            In (source l) (map key (nodes g)) /\ In (target l) (map key (nodes g)).

Section Failures.
Variable disk : Type.
Variable perform : disk -> Action -> result disk.

(** [e] is what some action on the disk threw. *)
Definition disk_failure (e : exn) : Prop :=
  exists d a, perform d a = Throw e.

(** How a phase may end: it returns, or it rejects with what an action on
    the disk threw. *)
Definition ends_well {A : Type} (r : outcome A) : Prop :=
  match r with
  | Returned _ => True
  | Thrown e => disk_failure e
  | Unfinished => False
  end.

(** A computation that throws nothing of its own. *)
Definition safe {A : Type} (m : IO disk A) : Prop :=
  forall w, ends_well (snd (m w)).
End Failures.

End DiskSpec.

(** ** Keys of the link maps *)
Module KeySpec.
Import DepGraph.



End KeySpec.

(** ** Predicates about the command line *)
Module CliSpec.

(** [k] times the character [0]. *)
Fixpoint zeros (k : nat) : string :=
  match k with
  | 0 => EmptyString
  | S k' => String "0" (zeros k')
  end.

(** The name the loop of [install] tries after [k] iterations. *)
Definition store_candidate (k : nat) : string := (".store" ++ zeros k)%string.


(** [resolutionMap[name][range]]. *)
Definition resolution (resolutionMap : Resolver.ResolutionMap) (name range : string)
    : option string :=
  match Obj.get resolutionMap name with
  | Some byRange => Obj.get byRange range
  | None => None
  end.

Definition local (n : Cli.Located) : bool :=
  Resolver.truthy (Resolver.isLocal (Cli.manifest n)).

(** The version of the last local package of the array that is called
    [name]. *)
Fixpoint last_local (locationMap : list Cli.Located) (name : string) : option string :=
  match locationMap with
  | [] => None
  | n :: others =>
      match last_local others name with
      | Some v => Some v
      | None =>
          if local n && String.eqb (Resolver.name (Cli.manifest n)) name
          then Some (Resolver.version (Cli.manifest n))
          else None
      end
  end.

(** No local package has a name that is a property name of
    [Object.prototype]. *)
Definition ordinary_locals (locationMap : list Cli.Located) : bool :=
  forallb (fun n => negb (local n) || Prototype.ordinary (Resolver.name (Cli.manifest n)))
    locationMap.

End CliSpec.

(** ** Inputs of the command line *)
Module CliExamples.

(** The packages of [ResolverExamples.unsorted], each with the path of its
    [package.json]. *)
Definition located : list Cli.Located :=
  map (fun m =>
         Cli.mkLocated m ("/repo/" ++ Resolver.name m ++ "/package.json")%string)
    ResolverExamples.unsorted.



End CliExamples.

(** ** Predicates about the actions of the installer *)
Module LogSpec.
Import Store.

Section Log.
Variable disk : Type.
Variable join : list string -> string.

(** What the installer may do for the graph [g]: remove the [node_modules]
    folder of a node that is kept in place, and start one of the two
    scripts; the other actions create folders, files and links. *)
Definition allowed (g : Graph) (a : Action) : Prop :=
  match a with
  | Rimraf p =>
      exists n, In n (nodes g) /\ keepInPlace n = Some true /\
                p = join [location n; "node_modules"%string]
  | Exec command _ =>
      command = "npm run install"%string \/ command = "npm run postinstall"%string
  | _ => True
  end.

(** However [m] ends, the actions it attempts are added at the end of the
    log, and each of them satisfies [P]. *)
Definition logs (P : Action -> Prop) (A : Type) (m : IO disk A) : Prop :=
  forall w, exists new, performed (fst (m w)) = performed w ++ new /\ Forall P new.

(** [root] followed by the entries [names], joined one at a time. *)
Definition nest (root : string) (names : list string) : string :=
  fold_left (fun p e => join [p; e]) names root.

(** [e] is not held back by the exclusion list. *)
Definition kept (exclusionList : option (list string)) (e : string) : bool :=
  match exclusionList with
  | Some l => negb (includes l e)
  | None => true
  end.

(** The file action [a] copies what sits at some place below [source] to
    the same place below [destination]; if it is an entry of [source]
    itself, its name is not on the exclusion list. *)
Definition mirrors (source destination : string) (exclusionList : option (list string))
    (a : string * string) : Prop :=
  exists e rest,
    fst a = nest source (e :: rest) /\
    snd a = nest destination (e :: rest) /\
    (rest = [] -> kept exclusionList e = true).

(** Where [installNodesInStore] puts the node [n]. *)
Definition destination_of (location : string) (n : Node) : string :=
  match keepInPlace n with
  | Some true => Store.location n
  | _ => join [location; key n]
  end.
End Log.

End LogSpec.

(** ** A package with files *)
Module CopyExamples.

(** The store is empty; the package has a file, a folder with two files,
    and a file of yarn's in both. *)
Definition disk1 : Posix.Disk :=
  Posix.mkDisk
    [("/store"%string, Posix.directory); ("/pkg"%string, Posix.directory);
     ("/pkg/index.js"%string, Posix.file);
     ("/pkg/.yarn-metadata.json"%string, Posix.file);
     ("/pkg/lib"%string, Posix.directory);
     ("/pkg/lib/util.js"%string, Posix.file);
     ("/pkg/lib/.yarn-metadata.json"%string, Posix.file)]
    [("/store"%string, []);
     ("/pkg"%string, ["index.js"%string; ".yarn-metadata.json"%string; "lib"%string]);
     ("/pkg/lib"%string, ["util.js"%string; ".yarn-metadata.json"%string])].

Definition start : Store.World Posix.Disk := Store.mkWorld disk1 [].

(** One package to copy, which depends on one that stays where it is. *)
Definition two_packages : Store.Graph :=
  Store.mkGraph
    [Store.mkNode "0" "a" None None "/pkg";
     Store.mkNode "1" "b" (Some true) None "/pkg/lib"]
    [Store.mkLink "0" "1"].

Definition installNodesInStore :=
  Store.installNodesInStore Posix.join Posix.statSync Posix.readdirSync Posix.perform.

Definition exclusions : option (list string) := Some [".yarn-metadata.json"%string].

(** The world after [installNodesInStore], and what it returns. *)
Definition after : Store.World Posix.Disk :=
  Store.mkWorld disk1
    [Store.Mkdir "/store/0" false; Store.Mkdir "/store/0/lib" false;
     Store.Rimraf "/pkg/lib/node_modules"].

Definition installed : SMap.t string * list (string * string) :=
  ([("0"%string, "/store/0"%string); ("1"%string, "/pkg/lib"%string)],
   [("/pkg/index.js"%string, "/store/0/index.js"%string);
    ("/pkg/lib/util.js"%string, "/store/0/lib/util.js"%string);
    ("/pkg/lib/.yarn-metadata.json"%string, "/store/0/lib/.yarn-metadata.json"%string)]).

(** The world after [installLocalStore] without options. *)
Definition finished : Store.World Posix.Disk :=
  Store.mkWorld disk1
    [Store.Mkdir "/store/0" false; Store.Mkdir "/store/0/lib" false;
     Store.Rimraf "/pkg/lib/node_modules";
     Store.CopyFile "/pkg/index.js" "/store/0/index.js";
     Store.CopyFile "/pkg/.yarn-metadata.json" "/store/0/.yarn-metadata.json";
     Store.CopyFile "/pkg/lib/util.js" "/store/0/lib/util.js";
     Store.CopyFile "/pkg/lib/.yarn-metadata.json" "/store/0/lib/.yarn-metadata.json";
     Store.Mkdir "/store/0/node_modules/b" true;
     Store.Symlink "/pkg/lib" "/store/0/node_modules/b";
     Store.Mkdir "/store/0/node_modules/a" true;
     Store.Symlink "/store/0" "/store/0/node_modules/a";
     Store.Mkdir "/pkg/lib/node_modules/b" true;
     Store.Symlink "/pkg/lib" "/pkg/lib/node_modules/b"].

End CopyExamples.

(* ================================================================== *)
(** * Part VII. Properties *)
(* ================================================================== *)

(** ** Maps and sets with string keys *)
Module MapFacts.
Lemma smap_get_set_eq :
  forall (V : Type) (m : SMap.t V) k v, SMap.get (SMap.set m k v) k = Some v.
Proof.
  intros V m k v. induction m as [|[k' v'] m IH]; simpl.
  - rewrite String.eqb_refl. reflexivity.
  - destruct (String.eqb k' k) eqn:E; simpl; rewrite E; [reflexivity|exact IH].
Qed.

Lemma smap_get_set_neq :
  forall (V : Type) (m : SMap.t V) k k' v,
    k <> k' -> SMap.get (SMap.set m k v) k' = SMap.get m k'.
Proof.
  intros V m k k' v Hne. induction m as [|[k0 v0] m IH]; simpl.
  - apply String.eqb_neq in Hne. rewrite Hne. reflexivity.
  - destruct (String.eqb k0 k) eqn:E; simpl.
    + apply String.eqb_eq in E. subst k0.
      apply String.eqb_neq in Hne. rewrite Hne. reflexivity.
    + rewrite IH. reflexivity.
Qed.

Lemma sset_has_In : forall s x, SSet.has s x = true <-> In x s.
Proof.
  intros s x. unfold SSet.has. rewrite existsb_exists. split.
  - intros [y [Hy E]]. apply String.eqb_eq in E. subst. exact Hy.
  - intros H. exists x. split; [exact H|apply String.eqb_refl].
Qed.

Lemma sset_In_add : forall s x y, In y (SSet.add s x) <-> In y s \/ y = x.
Proof.
  intros s x y. unfold SSet.add. destruct (SSet.has s x) eqn:E.
  - apply sset_has_In in E. split; [auto|]. intros [H|H]; [exact H|subst; exact E].
  - rewrite in_app_iff. simpl. intuition.
Qed.

Lemma sset_add_NoDup : forall s x, NoDup s -> NoDup (SSet.add s x).
Proof.
  intros s x Hnd. unfold SSet.add. destruct (SSet.has s x) eqn:E; [exact Hnd|].
  apply NoDup_app; [exact Hnd|repeat constructor; intros []|].
  intros a Ha [Hx|[]]. subst a. apply sset_has_In in Ha. congruence.
Qed.

Lemma sset_fold_add :
  forall l s,
    (forall y, In y (fold_left SSet.add l s) <-> In y s \/ In y l) /\
    (NoDup s -> NoDup (fold_left SSet.add l s)).
Proof.
  induction l as [|x l IH]; intros s; simpl.
  - split; [intuition|auto].
  - destruct (IH (SSet.add s x)) as [IH1 IH2]. split.
    + intros y. rewrite IH1, sset_In_add. intuition.
    + intros Hnd. apply IH2, sset_add_NoDup, Hnd.
Qed.
End MapFacts.

(** ** The bin-collision loop of [getBinError] *)
Module BinFacts.
Import Store StoreSpec BinSpec MapFacts.

Lemma binsMap_get :
  forall ns m0 k s,
    SMap.get (fold_left (fun m node => SMap.set m (key node) (bins_set node)) ns m0) k
    = Some s ->
    SMap.get m0 k = Some s \/ exists n, In n ns /\ key n = k /\ s = bins_set n.
Proof.
  induction ns as [|n ns IH]; intros m0 k s H; simpl in H; [left; exact H|].
  apply IH in H. destruct H as [H|[n' [Hin [Hk Hs]]]].
  - destruct (String.eqb (key n) k) eqn:E.
    + apply String.eqb_eq in E. subst k. rewrite smap_get_set_eq in H.
      inversion H. right. exists n. simpl. auto.
    + apply String.eqb_neq in E. rewrite smap_get_set_neq in H by exact E.
      left. exact H.
  - right. exists n'. simpl. auto.
Qed.

Lemma fold_set_defined :
  forall (V : Type) (f : Node -> V) ns m0 k,
    (In k (map key ns) \/ exists v, SMap.get m0 k = Some v) ->
    exists v, SMap.get (fold_left (fun m node => SMap.set m (key node) (f node)) ns m0) k
              = Some v.
Proof.
  intros V f. induction ns as [|n ns IH]; intros m0 k H; simpl.
  - destruct H as [[]|H]. exact H.
  - apply IH. destruct (String.eqb (key n) k) eqn:E.
    + apply String.eqb_eq in E. subst k. right. exists (f n). apply smap_get_set_eq.
    + apply String.eqb_neq in E. destruct H as [[H|H]|[v H]].
      * contradiction.
      * left. exact H.
      * right. exists v. rewrite smap_get_set_neq by exact E. exact H.
Qed.

Lemma installed0_get :
  forall ns (m0 : SMap.t SSet.t) k s,
    SMap.get (fold_left (fun m node => SMap.set m (key node) SSet.empty) ns m0) k = Some s ->
    SMap.get m0 k = Some s \/ s = [].
Proof.
  induction ns as [|n ns IH]; intros m0 k s H; simpl in H; [left; exact H|].
  apply IH in H. destruct H as [H|H]; [|right; exact H].
  destruct (String.eqb (key n) k) eqn:E.
  - apply String.eqb_eq in E. subst k. rewrite smap_get_set_eq in H.
    inversion H. right. reflexivity.
  - apply String.eqb_neq in E. rewrite smap_get_set_neq in H by exact E. left. exact H.
Qed.

Lemma install_fresh :
  forall ignore src bs (inst : SMap.t SSet.t) errs (s : SSet.t),
    SMap.get inst src = Some s ->
    NoDup bs ->
    (forall b, In b bs -> ~ In b s) ->
    exists inst' s',
      forEach (install_bins ignore src) bs (inst, errs) = Ok (inst', errs) /\
      SMap.get inst' src = Some s' /\
      (forall b, In b s' <-> In b s \/ In b bs) /\
      (forall k, k <> src -> SMap.get inst' k = SMap.get inst k).
Proof.
  intros ignore src. induction bs as [|b bs IH]; intros inst errs s Hget Hnd Hfresh.
  - exists inst, s. simpl. repeat split; auto. intuition. 
  - assert (Hhas : SSet.has s b = false).
    { destruct (SSet.has s b) eqn:E; [|reflexivity].
      apply sset_has_In in E. exfalso. apply (Hfresh b); [left; reflexivity|exact E]. }
    assert (Hstep : install_bins ignore src (inst, errs) b
                    = Ok (SMap.set inst src (SSet.add s b), errs)).
    { unfold install_bins. cbn [fst snd]. rewrite Hget. cbn [unwrap bind].
      rewrite Hhas. reflexivity. }
    inversion Hnd as [|? ? Hnotin Hnd']; subst.
    destruct (IH (SMap.set inst src (SSet.add s b)) errs (SSet.add s b))
      as [inst' [s' [Hrun [Hget' [Hin Hother]]]]].
    + apply smap_get_set_eq.
    + exact Hnd'.
    + intros b' Hb' Hc. apply sset_In_add in Hc. destruct Hc as [Hc|Hc].
      * apply (Hfresh b'); [right; exact Hb'|exact Hc].
      * subst b'. contradiction.
    + exists inst', s'. split; [simpl; rewrite Hstep; exact Hrun|].
      split; [exact Hget'|]. split.
      * intros x. rewrite Hin, sset_In_add. simpl. intuition.
      * intros k Hk. rewrite Hother by exact Hk. apply smap_get_set_neq. congruence.
Qed.

Section NoCollision.
Variable g : Graph.
Variable ignore : option bool.
Hypothesis Hkeys : forall l, In l (links g) ->
  In (source l) (map key (nodes g)) /\ In (target l) (map key (nodes g)).
Hypothesis Hfree : no_declared_collision g.

Lemma links_fresh :
  forall after before inst,
    links g = before ++ after ->
    installed_from g before inst ->
    exists inst',
      forEach (body g ignore) after (inst, []) = Ok (inst', []).
Proof.
  induction after as [|l after IH]; intros before inst Hsplit [Hinv Hdef].
  - exists inst. reflexivity.
  - assert (Hl : In l (links g)) by (rewrite Hsplit; apply in_or_app; right; left; reflexivity).
    destruct (Hkeys l Hl) as [Hsrc Htgt].
    destruct (@fold_set_defined _ bins_set (nodes g) SMap.empty (target l) (or_introl Htgt))
      as [tb Htb].
    fold (binsMap g) in Htb.
    destruct (Hdef _ Hsrc) as [s Hs].
    assert (Htb' : forall b, In b tb -> exposes g (target l) b).
    { intros b Hb. apply binsMap_get in Htb. destruct Htb as [Htb|[n [Hn [Hk Heq]]]].
      - discriminate.
      - subst tb. exists n. split; [exact Hn|]. split; [exact Hk|].
        unfold bins_set in Hb. apply sset_fold_add in Hb.
        destruct Hb as [[]|Hb]. exact Hb. }
    assert (Hnd : NoDup tb).
    { apply binsMap_get in Htb. destruct Htb as [Htb|[n [_ [_ Heq]]]]; [discriminate|].
      subst tb. apply sset_fold_add. constructor. }
    destruct (@install_fresh ignore (source l) tb inst [] s Hs Hnd)
      as [inst' [s' [Hrun [Hget' [Hin Hother]]]]].
    { intros b Hb Hc. destruct (Hinv _ _ _ Hs Hc) as [l' [Hl' [Hsrc' Hexp]]].
      exact (Hfree before l after l' Hsplit Hl' Hsrc' Hexp (Htb' b Hb)). }
    simpl. unfold body at 1. rewrite Htb. simpl. rewrite Hrun. simpl.
    apply (IH (before ++ [l]) inst').
    + rewrite <- app_assoc. exact Hsplit.
    + split.
      * intros k s0 b Hk Hb. destruct (String.eqb (source l) k) eqn:E.
        -- apply String.eqb_eq in E. subst k. rewrite Hget' in Hk. inversion Hk; subst s0.
           apply Hin in Hb. destruct Hb as [Hb|Hb].
           ++ destruct (Hinv _ _ _ Hs Hb) as [l' [Hl' [Hsrc' Hexp]]].
              exists l'. split; [apply in_or_app; left; exact Hl'|auto].
           ++ exists l. split; [apply in_or_app; right; left; reflexivity|auto].
        -- apply String.eqb_neq in E. rewrite Hother in Hk by congruence.
           destruct (Hinv _ _ _ Hk Hb) as [l' [Hl' [Hsrc' Hexp]]].
           exists l'. split; [apply in_or_app; left; exact Hl'|auto].
      * intros k Hk. destruct (String.eqb (source l) k) eqn:E.
        -- apply String.eqb_eq in E. subst k. exists s'. exact Hget'.
        -- apply String.eqb_neq in E. rewrite Hother by congruence. apply Hdef, Hk.
Qed.

Lemma getBinError_declared_links :
  (forall n b, In n (nodes g) -> In b (bin_names n) -> invalid_bin_name b = false) ->
  getBinError g ignore = Ok None.
Proof.
  intros Hnames. unfold getBinError.
  assert (Herr : filter (fun a : list string => negb (Nat.eqb (List.length a) 0))
            (map (fun node =>
                    map (fun binName => invalid_bin_message (key node) binName)
                      (filter invalid_bin_name (bin_names node)))
               (nodes g)) = []).
  { assert (forall ns, (forall n, In n ns -> In n (nodes g)) ->
              filter (fun a : list string => negb (Nat.eqb (List.length a) 0))
                (map (fun node =>
                        map (fun binName => invalid_bin_message (key node) binName)
                          (filter invalid_bin_name (bin_names node))) ns) = []) as Hgen.
    { induction ns as [|n ns IH]; intros Hsub; simpl; [reflexivity|].
      assert (Hf : filter invalid_bin_name (bin_names n) = []).
      { assert (forall bs, (forall b, In b bs -> invalid_bin_name b = false) ->
                           filter invalid_bin_name bs = []) as Hfl.
        { induction bs as [|b bs IHb]; intros Hb; simpl; [reflexivity|].
          rewrite (Hb b (or_introl eq_refl)). apply IHb. intros; apply Hb; right; auto. }
        apply Hfl. intros b Hb. apply (Hnames n b); [apply Hsub; left; reflexivity|exact Hb]. }
      rewrite Hf. simpl. apply IH. intros; apply Hsub; right; auto. }
    apply Hgen. auto. }
  rewrite Herr.
  destruct (@links_fresh (links g) [] (installed0 g)) as [inst' Hrun].
  - reflexivity.
  - split.
    + intros k s b Hk Hb. apply installed0_get in Hk. destruct Hk as [Hk|Hk].
      * discriminate.
      * subst s. destruct Hb.
    + intros k Hk. apply fold_set_defined. left. exact Hk.
  - unfold body, binsMap, bins_set, installed0 in Hrun. rewrite Hrun. reflexivity.
Qed.
End NoCollision.

(** *** With the self-links *)

Lemma install_any :
  forall ignore src bs (inst : SMap.t SSet.t) errs (s : SSet.t),
    SMap.get inst src = Some s ->
    exists inst' s' more,
      forEach (install_bins ignore src) bs (inst, errs) = Ok (inst', errs ++ more) /\
      SMap.get inst' src = Some s' /\
      (forall b, In b s' <-> In b s \/ In b bs) /\
      (forall k, k <> src -> SMap.get inst' k = SMap.get inst k) /\
      Forall is_collision more /\
      (ignore <> Some true -> (exists b, In b bs /\ In b s) -> more <> []).
Proof.
  intros ignore src. induction bs as [|b bs IH]; intros inst errs s Hget.
  - exists inst, s, []. simpl. rewrite app_nil_r.
    split; [reflexivity|]. split; [exact Hget|]. split; [intros b; tauto|].
    split; [auto|]. split; [constructor|]. intros _ [b [[] _]].
  - set (errs1 := if andb (SSet.has s b)
                          (negb (match ignore with Some true => true | _ => false end))
                  then [bin_collision_message b src] else []).
    assert (Hstep : install_bins ignore src (inst, errs) b
                    = Ok (SMap.set inst src (SSet.add s b), errs ++ errs1)).
    { unfold install_bins, errs1. cbn [fst snd]. rewrite Hget. cbn [unwrap bind].
      destruct (andb (SSet.has s b)
                  (negb (match ignore with Some true => true | _ => false end)));
        [reflexivity|rewrite app_nil_r; reflexivity]. }
    destruct (IH (SMap.set inst src (SSet.add s b)) (errs ++ errs1) (SSet.add s b))
      as [inst' [s' [more [Hrun [Hget' [Hin [Hother [Hall Hhit]]]]]]]].
    { apply smap_get_set_eq. }
    exists inst', s', (errs1 ++ more).
    split; [simpl; rewrite Hstep; simpl; rewrite Hrun, app_assoc; reflexivity|].
    split; [exact Hget'|]. split; [|split; [|split]].
    + intros x. rewrite Hin, sset_In_add. simpl. intuition.
    + intros k Hk. rewrite Hother by exact Hk. apply smap_get_set_neq. congruence.
    + apply Forall_app. split; [|exact Hall]. unfold errs1.
      destruct (andb (SSet.has s b)
                  (negb (match ignore with Some true => true | _ => false end)));
        [|constructor].
      constructor; [|constructor]. exists b, src. reflexivity.
    + intros Hig [x [[Hx|Hx] Hs]].
      * subst x. unfold errs1. apply sset_has_In in Hs. rewrite Hs.
        destruct ignore as [[|]|]; simpl; try discriminate. congruence.
      * intros Hnil. apply app_eq_nil in Hnil. destruct Hnil as [_ Hnil].
        revert Hnil. apply Hhit; [exact Hig|]. exists x. split; [exact Hx|].
        apply sset_In_add. left. exact Hs.
Qed.

Lemma key_injective :
  forall ns n n',
    NoDup (map key ns) -> In n ns -> In n' ns -> key n = key n' -> n = n'.
Proof.
  induction ns as [|x ns IH]; intros n n' Hnd Hn Hn' Hk; [destruct Hn|].
  simpl in Hnd. inversion Hnd as [|? ? Hnotin Hnd']; subst.
  destruct Hn as [Hn|Hn], Hn' as [Hn'|Hn'].
  - congruence.
  - subst x. exfalso. apply Hnotin. rewrite Hk. apply in_map. exact Hn'.
  - subst x. exfalso. apply Hnotin. rewrite <- Hk. apply in_map. exact Hn.
  - apply IH; assumption.
Qed.

Section SelfLinks.
Variable g : Graph.
Variable ignore : option bool.
Hypothesis Hnodup : NoDup (map key (nodes g)).

Lemma binsMap_of_node :
  forall n, In n (nodes g) -> SMap.get (binsMap g) (key n) = Some (bins_set n).
Proof.
  intros n Hn.
  destruct (@fold_set_defined _ bins_set (nodes g) SMap.empty (key n)
              (or_introl (in_map key _ _ Hn))) as [s Hs].
  fold (binsMap g) in Hs. rewrite Hs.
  apply binsMap_get in Hs. destruct Hs as [Hs|[n' [Hn' [Hk Heq]]]]; [discriminate|].
  assert (Heqn : n' = n) by (apply key_injective with (ns := nodes g); assumption).
  congruence.
Qed.

Lemma one_link :
  forall l n inst errs,
    In (source l) (map key (nodes g)) ->
    In n (nodes g) -> key n = target l ->
    all_defined g inst ->
    exists inst' more,
      body g ignore (inst, errs) l = Ok (inst', errs ++ more) /\
      all_defined g inst' /\ grows inst inst' /\
      Forall is_collision more /\
      (forall b, In b (bin_names n) ->
         exists s', SMap.get inst' (source l) = Some s' /\ In b s') /\
      (ignore <> Some true ->
       (exists b s, In b (bin_names n) /\ SMap.get inst (source l) = Some s /\ In b s) ->
       more <> []).
Proof.
  intros l n inst errs Hsrc Hn Hk Hdef.
  destruct (Hdef _ Hsrc) as [s Hs].
  destruct (@install_any ignore (source l) (bins_set n) inst errs s Hs)
    as [inst' [s' [more [Hrun [Hget' [Hin [Hother [Hall Hhit]]]]]]]].
  exists inst', more. unfold body. rewrite <- Hk, (binsMap_of_node n Hn). simpl.
  split; [exact Hrun|]. split; [|split; [|split; [exact Hall|split]]].
  - intros k Hkk. destruct (String.eqb (source l) k) eqn:E.
    + apply String.eqb_eq in E. subst k. exists s'. exact Hget'.
    + apply String.eqb_neq in E. rewrite Hother by congruence. apply Hdef, Hkk.
  - intros k s0 b Hk0 Hb. destruct (String.eqb (source l) k) eqn:E.
    + apply String.eqb_eq in E. subst k. exists s'. split; [exact Hget'|].
      apply Hin. left. congruence.
    + apply String.eqb_neq in E. exists s0. rewrite Hother by congruence. auto.
  - intros b Hb. exists s'. split; [exact Hget'|]. apply Hin. right.
    unfold bins_set. apply sset_fold_add. right. exact Hb.
  - intros Hig [b [s0 [Hb [Hs0 Hbs]]]]. apply Hhit; [exact Hig|].
    exists b. split; [unfold bins_set; apply sset_fold_add; right; exact Hb|congruence].
Qed.

Lemma many_links :
  forall ls inst errs,
    (forall l, In l ls ->
       In (source l) (map key (nodes g)) /\ In (target l) (map key (nodes g))) ->
    all_defined g inst ->
    exists inst' more,
      forEach (body g ignore) ls (inst, errs) = Ok (inst', errs ++ more) /\
      all_defined g inst' /\ grows inst inst' /\ Forall is_collision more.
Proof.
  induction ls as [|l ls IH]; intros inst errs Hvalid Hdef.
  - exists inst, []. simpl. rewrite app_nil_r. repeat split; auto.
    intros k s b Hk Hb. exists s. auto.
  - destruct (Hvalid l (or_introl eq_refl)) as [Hsrc Htgt].
    apply in_map_iff in Htgt. destruct Htgt as [n [Hk Hn]].
    destruct (@one_link l n inst errs Hsrc Hn Hk Hdef)
      as [inst1 [more1 [Hrun1 [Hdef1 [Hgrow1 [Hall1 _]]]]]].
    destruct (IH inst1 (errs ++ more1)) as [inst2 [more2 [Hrun2 [Hdef2 [Hgrow2 Hall2]]]]].
    { intros l' Hl'. apply Hvalid. right. exact Hl'. }
    { exact Hdef1. }
    exists inst2, (more1 ++ more2). simpl. rewrite Hrun1. simpl.
    rewrite Hrun2, app_assoc. split; [reflexivity|]. split; [exact Hdef2|].
    split; [|apply Forall_app; auto].
    intros k s b Hk0 Hb. destruct (Hgrow1 _ _ _ Hk0 Hb) as [s1 [Hs1 Hb1]].
    apply (Hgrow2 _ _ _ Hs1 Hb1).
Qed.

Lemma forEach_app :
  forall (A S : Type) (f : S -> A -> result S) l1 l2 s,
    forEach f (l1 ++ l2) s = let* s' := forEach f l1 s in forEach f l2 s'.
Proof.
  intros A S f. induction l1 as [|x l1 IH]; intros l2 s; simpl; [reflexivity|].
  destruct (f s x); simpl; [apply IH|reflexivity].
Qed.

(** A link [l] of the graph whose target shares the bin [b] with the
    source, followed later by the self-link of the source. *)
Lemma self_link_collides :
  forall before l middle n after b nt,
    (forall l', In l' (before ++ l :: middle ++ mkLink (key n) (key n) :: after) ->
       In (source l') (map key (nodes g)) /\ In (target l') (map key (nodes g))) ->
    In n (nodes g) -> key n = source l ->
    In nt (nodes g) -> key nt = target l ->
    In b (bin_names n) -> In b (bin_names nt) ->
    ignore <> Some true ->
    exists inst e more,
      forEach (body g ignore)
        (before ++ l :: middle ++ mkLink (key n) (key n) :: after) (installed0 g, [])
      = Ok (inst, e :: more) /\ is_collision e.
Proof.
  intros before l middle n after b nt Hvalid Hn Hkn Hnt Hknt Hb Hbt Hig.
  set (inst0 := installed0 g).
  assert (Hdef0 : all_defined g inst0).
  { intros k Hk. apply fold_set_defined. left. exact Hk. }
  destruct (@many_links before inst0 []) as [i1 [m1 [R1 [D1 [G1 A1]]]]].
  { intros l' Hl'. apply Hvalid. apply in_or_app. left. exact Hl'. }
  { exact Hdef0. }
  destruct (Hvalid l) as [Hsrc _].
  { apply in_or_app. right. left. reflexivity. }
  destruct (@one_link l nt i1 ([] ++ m1) Hsrc Hnt Hknt D1)
    as [i2 [m2 [R2 [D2 [G2 [A2 [Hput _]]]]]]].
  destruct (Hput b Hbt) as [s2 [Hs2 Hbs2]].
  destruct (@many_links middle i2 (([] ++ m1) ++ m2)) as [i3 [m3 [R3 [D3 [G3 A3]]]]].
  { intros l' Hl'. apply Hvalid. apply in_or_app. right. right.
    apply in_or_app. left. exact Hl'. }
  { exact D2. }
  destruct (G3 _ _ _ Hs2 Hbs2) as [s3 [Hs3 Hbs3]].
  destruct (@one_link (mkLink (key n) (key n)) n i3 ((([] ++ m1) ++ m2) ++ m3))
    as [i4 [m4 [R4 [D4 [G4 [A4 [_ Hhit]]]]]]].
  { simpl. apply in_map. exact Hn. }
  { exact Hn. }
  { reflexivity. }
  { exact D3. }
  assert (Hm4 : m4 <> []).
  { apply Hhit; [exact Hig|]. exists b, s3. simpl. rewrite Hkn. auto. }
  destruct (@many_links after i4 (((([] ++ m1) ++ m2) ++ m3) ++ m4))
    as [i5 [m5 [R5 [D5 [G5 A5]]]]].
  { intros l' Hl'. apply Hvalid. apply in_or_app. right. right.
    apply in_or_app. right. right. exact Hl'. }
  { exact D4. }
  assert (Hall : Forall is_collision (((([] ++ m1) ++ m2) ++ m3) ++ m4 ++ m5)).
  { repeat (apply Forall_app; split); auto. }
  assert (Hne : ((([] ++ m1) ++ m2) ++ m3) ++ m4 ++ m5 <> []).
  { intros Hnil. apply app_eq_nil in Hnil. destruct Hnil as [_ Hnil].
    apply app_eq_nil in Hnil. destruct Hnil as [Hnil _]. contradiction. }
  destruct (((([] ++ m1) ++ m2) ++ m3) ++ m4 ++ m5) as [|e more] eqn:Herrs;
    [contradiction|].
  exists i5, e, more. split; [|inversion Hall; assumption].
  rewrite forEach_app, R1. cbn [bind forEach].
  rewrite R2. cbn [bind]. rewrite forEach_app, R3. cbn [bind forEach].
  rewrite R4. cbn [bind]. rewrite R5, <- Herrs.
  f_equal. f_equal. repeat rewrite <- app_assoc. reflexivity.
Qed.
End SelfLinks.

Lemma findDups_None_NoDup : forall l : list string, findDups l = None -> NoDup l.
Proof.
  induction l as [|x l IH]; intros H; [constructor|]. simpl in H.
  destruct (includes l x) eqn:E; [discriminate|]. constructor; [|apply IH, H].
  intros Hin. unfold includes in E.
  assert (existsb (String.eqb x) l = true) as Ht.
  { apply existsb_exists. exists x. split; [exact Hin|apply String.eqb_refl]. }
  congruence.
Qed.

Lemma includes_In : forall l x, includes l x = true <-> In x l.
Proof.
  intros l x. unfold includes. rewrite existsb_exists. split.
  - intros [y [Hy E]]. apply String.eqb_eq in E. subst. exact Hy.
  - intros H. exists x. split; [exact H|apply String.eqb_refl].
Qed.

Lemma filter_nil_all :
  forall (A : Type) (p : A -> bool) (l : list A) x,
    filter p l = [] -> In x l -> p x = false.
Proof.
  intros A p l x H Hin. destruct (p x) eqn:E; [|reflexivity].
  assert (In x (filter p l)) as Hf by (apply filter_In; auto).
  rewrite H in Hf. destruct Hf.
Qed.

Section Graph.
Variable disk : Type.
Variable isAbsolute : string -> bool.
Variable statSync : disk -> string -> option Stats.

Lemma getGraphError_None :
  forall d g,
    getGraphError isAbsolute statSync d g = None ->
    NoDup (map key (nodes g)) /\
    (forall l, In l (links g) ->
       In (source l) (map key (nodes g)) /\ In (target l) (map key (nodes g))).
Proof.
  intros d g H. unfold getGraphError in H.
  destruct (findDups (map key (nodes g))) eqn:Hd; [discriminate|].
  destruct (filter (fun n => negb (isAbsolute (location n))) (nodes g)); [|discriminate].
  destruct (filter (fun n => negb (valid_name (name n))) (nodes g)); [|discriminate].
  destruct (filter (not_folder statSync d) (nodes g)); [|discriminate].
  destruct (filter (fun l => negb (includes (map key (nodes g)) (source l))) (links g))
    eqn:Hs; [|discriminate].
  destruct (filter (fun l => negb (includes (map key (nodes g)) (target l))) (links g))
    eqn:Ht; [|discriminate].
  split; [apply findDups_None_NoDup, Hd|].
  intros l Hl. split.
  - apply filter_nil_all with (x := l) in Hs; [|exact Hl].
    apply negb_false_iff in Hs. apply includes_In. exact Hs.
  - apply filter_nil_all with (x := l) in Ht; [|exact Hl].
    apply negb_false_iff in Ht. apply includes_In. exact Ht.
Qed.
End Graph.
End BinFacts.

(** ** The installer: validation *)
Module StoreFacts.
Import Store StoreSpec BinSpec.

Lemma filter_head_find :
  forall (A : Type) (p : A -> bool) (l : list A),
    find p l = match filter p l with x :: _ => Some x | [] => None end.
Proof.
  intros A p l. induction l as [|x l IH]; simpl; [reflexivity|].
  destruct (p x); [reflexivity|exact IH].
Qed.

Lemma findDups_NoDup : forall l : list string, NoDup l -> findDups l = None.
Proof.
  induction l as [|x l IH]; intros Hnd; simpl; [reflexivity|].
  inversion Hnd as [|? ? Hnotin Hnd']; subst.
  destruct (includes l x) eqn:Hin.
  - exfalso. apply Hnotin. apply BinFacts.includes_In. exact Hin.
  - apply IH. exact Hnd'.
Qed.

Lemma filter_nil_forall :
  forall (A : Type) (p : A -> bool) (l : list A),
    (forall x, In x l -> p x = false) -> filter p l = [].
Proof.
  intros A p l H. induction l as [|x l IH]; simpl; [reflexivity|].
  rewrite (H x (or_introl eq_refl)). apply IH. intros y Hy. apply H. right. exact Hy.
Qed.

Section Validation.
Variable disk : Type.
Variable isAbsolute : string -> bool.
Variable join : list string -> string.
Variable dirname : string -> string.
Variable statSync : disk -> string -> option Stats.
Variable readdirSync : disk -> string -> option (list string).
Variable readScripts : disk -> string -> result (bool * bool).
Variable perform : disk -> Action -> result disk.
Variable scc : list (list (option nat)) -> GraphToTree.Scc.
Variable execution_order : GraphToTree.Tree -> list nat.

Let validate := validateInput isAbsolute statSync readdirSync.
Let install :=
  installLocalStore isAbsolute join dirname statSync readdirSync readScripts
    perform scc execution_order.

(** [validateInput] is the first statement of [installLocalStore]: when it
    throws, nothing else has run. *)
Lemma install_stops_at_validation :
  forall (fuel : nat) (g : Graph) (location : string) (options : option Options)
         (w : World disk) (e : exn),
    validate (w_disk w) g location (conflicts_option options) = Throw e ->
    install fuel g location options w = (w, Thrown e).
Proof.
  intros fuel g location options w e Hv.
  unfold install, installLocalStore, io_bind.
  unfold validate, conflicts_option in Hv.
  rewrite Hv. reflexivity.
Qed.

(** C3. When validation throws, [installLocalStore] rejects with the same
    error, the disk is the one it was given, and no mkdir, copy, remove,
    symlink, shim or script action has been attempted. *)
Theorem validation_precedes_mutation :
  forall (fuel : nat) (g : Graph) (location : string) (options : option Options)
         (w : World disk) (e : exn),
    validate (w_disk w) g location (conflicts_option options) = Throw e ->
    snd (install fuel g location options w) = Thrown e /\
    w_disk (fst (install fuel g location options w)) = w_disk w /\
    performed (fst (install fuel g location options w)) = performed w.
Proof.
  intros fuel g location options w e Hv.
  rewrite (install_stops_at_validation fuel g location options w Hv).
  repeat split.
Qed.

Lemma validateInput_first_failure :
  forall (d : disk) (g : Graph) (location : string) (ignore : option bool),
    validate d g location ignore
    = first_failure (checks_in_order isAbsolute statSync readdirSync d g location ignore).
Proof.
  intros d g location ignore.
  unfold validate, validateInput, checks_in_order, getGraphError.
  rewrite !filter_head_find. cbn [first_failure].
  destruct (getLocationError isAbsolute statSync readdirSync d location);
    [reflexivity|].
  destruct (findDups (map key (nodes g))); cbn [option_map]; [reflexivity|].
  destruct (filter (fun n => negb (isAbsolute (Store.location n))) (nodes g));
    cbn [option_map]; [|reflexivity].
  destruct (filter (fun n => negb (valid_name (name n))) (nodes g));
    cbn [option_map]; [|reflexivity].
  destruct (filter (not_folder statSync d) (nodes g)); cbn [option_map]; [|reflexivity].
  destruct (filter (fun l => negb (includes (map key (nodes g)) (source l))) (links g));
    cbn [option_map]; [|reflexivity].
  destruct (filter (fun l => negb (includes (map key (nodes g)) (target l))) (links g));
    cbn [option_map]; [|reflexivity].
  destruct (findDependenciesWithSameName g) as [|[s t] rest];
    cbn [hd_error option_map fst snd]; [|reflexivity].
  destruct (getBinError g ignore) as [[e|]|e]; reflexivity.
Qed.

(** C7, as the code has it. Validation throws what the first failing check
    of [checks_in_order] reports, and there the name check comes before the
    directory check: with a valid store, distinct keys and absolute node
    locations, a graph that holds a node with an invalid name is rejected
    with [Package name invalid] for the first such node, whether or not the
    location of some node is a plain file. *)
Theorem validation_order :
  forall (fuel : nat) (g : Graph) (location : string) (options : option Options)
         (w : World disk),
    validate (w_disk w) g location (conflicts_option options)
    = first_failure
        (checks_in_order isAbsolute statSync readdirSync (w_disk w) g location
           (conflicts_option options)) /\
    (getLocationError isAbsolute statSync readdirSync (w_disk w) location = None ->
     NoDup (map key (nodes g)) ->
     (forall n, In n (nodes g) -> isAbsolute (Store.location n) = true) ->
     (exists n, In n (nodes g) /\ valid_name (name n) = false) ->
     exists n,
       find (fun n => negb (valid_name (name n))) (nodes g) = Some n /\
       install fuel g location options w
       = (w, Thrown (Error (invalid_name_message (name n))))).
Proof.
  intros fuel g location options w. split; [apply validateInput_first_failure|].
  intros Hloc Hkeys Habs [bad [Hbad Hname]].
  destruct (find (fun n => negb (valid_name (name n))) (nodes g)) as [n|] eqn:Hfind.
  - exists n. split; [reflexivity|].
    apply install_stops_at_validation.
    unfold validate. rewrite validateInput_first_failure.
    unfold checks_in_order. cbn [first_failure]. rewrite Hloc.
    rewrite findDups_NoDup by exact Hkeys. cbn [option_map].
    rewrite (filter_head_find (fun n0 => negb (isAbsolute (Store.location n0)))).
    rewrite filter_nil_forall
      by (intros x Hx; rewrite (Habs x Hx); reflexivity).
    rewrite Hfind. reflexivity.
  - exfalso. apply find_none with (x := bad) in Hfind; [|exact Hbad].
    rewrite Hname in Hfind. discriminate.
Qed.

(** C10. Validation looks at the links of the caller's graph only. When
    the other checks pass and no two declared links from one source
    collide, [validateInput] returns, although a link [l] goes from a node
    to a different node that exposes a bin [b] the source exposes too;
    [getBinError] on the graph with the self-links, which is the graph that
    is laid out, does report a collision unless conflicts are ignored. *)
Theorem own_bins_escape_validation :
  forall (d : disk) (g : Graph) (location : string) (ignore : option bool)
         (l : Link) (b : string),
    getLocationError isAbsolute statSync readdirSync d location = None ->
    getGraphError isAbsolute statSync d g = None ->
    (forall n x, In n (nodes g) -> In x (bin_names n) -> invalid_bin_name x = false) ->
    no_declared_collision g ->
    In l (links g) ->
    source l <> target l ->
    exposes g (source l) b ->
    exposes g (target l) b ->
    validate d g location ignore = Ok tt /\
    (ignore <> Some true ->
     exists e, getBinError (addSelfLinks g) ignore = Ok (Some e) /\ is_collision e).
Proof.
  intros d g location ignore l b Hloc Hgraph Hnames Hfree Hl Hself Hsrc Htgt.
  destruct (BinFacts.getGraphError_None isAbsolute statSync d g Hgraph) as [Hnd Hends].
  assert (Hbin : getBinError g ignore = Ok None).
  { apply BinFacts.getBinError_declared_links; assumption. }
  split.
  - unfold validate, validateInput. rewrite Hloc, Hgraph, Hbin. reflexivity.
  - intros Hig.
    destruct Hsrc as [n [Hn [Hkn Hbn]]]. destruct Htgt as [nt [Hnt [Hknt Hbnt]]].
    assert (Hl' : In l (filter (fun l0 => negb (String.eqb (source l0) (target l0)))
                          (links g))).
    { apply filter_In. split; [exact Hl|].
      apply negb_true_iff. apply String.eqb_neq. exact Hself. }
    apply in_split in Hl'. destruct Hl' as [before [middle Hsplit]].
    destruct (in_split _ _ Hn) as [ns1 [ns2 Hnodes]].
    assert (Hlinks : links (addSelfLinks g)
                     = before ++ l :: (middle ++ map (fun x => mkLink (key x) (key x)) ns1)
                         ++ mkLink (key n) (key n)
                         :: map (fun x => mkLink (key x) (key x)) ns2).
    { unfold addSelfLinks. cbn [links]. rewrite Hsplit. rewrite Hnodes at 1.
      rewrite map_app. cbn [map]. rewrite <- !app_assoc. reflexivity. }
    destruct (@BinFacts.self_link_collides g ignore Hnd before l
                (middle ++ map (fun x => mkLink (key x) (key x)) ns1) n
                (map (fun x => mkLink (key x) (key x)) ns2) b nt)
      as [inst [e [more [Hrun He]]]]; try assumption.
    { intros l' Hl'. rewrite <- Hlinks in Hl'. unfold addSelfLinks in Hl'.
      cbn [links] in Hl'. apply in_app_or in Hl'. destruct Hl' as [Hl'|Hl'].
      - apply filter_In in Hl'. apply Hends. apply Hl'.
      - apply in_map_iff in Hl'. destruct Hl' as [x [Hx Hin]]. subst l'.
        cbn [source target]. split; apply in_map; exact Hin. }
    exists e. split; [|exact He].
    unfold getBinError. cbn [nodes addSelfLinks].
    assert (Hbin' := Hbin). unfold getBinError in Hbin'.
    destruct (filter (fun a : list string => negb (Nat.eqb (List.length a) 0))
                (map (fun node =>
                        map (fun binName => invalid_bin_message (key node) binName)
                          (filter invalid_bin_name (bin_names node)))
                   (nodes g))) as [|[|? ?] ?] eqn:Herrs; try discriminate.
    + change (links (mkGraph (nodes g)
                (filter (fun l0 => negb (String.eqb (source l0) (target l0))) (links g)
                   ++ map (fun n0 => mkLink (key n0) (key n0)) (nodes g))))
        with (links (addSelfLinks g)).
      rewrite Hlinks.
      unfold body, binsMap, bins_set, installed0 in Hrun. rewrite Hrun. reflexivity.
    + exfalso.
      assert (Hin : In (@nil string)
                      (filter (fun a : list string => negb (Nat.eqb (List.length a) 0))
                         (map (fun node =>
                                 map (fun binName =>
                                        invalid_bin_message (key node) binName)
                                   (filter invalid_bin_name (bin_names node)))
                            (nodes g)))) by (rewrite Herrs; left; reflexivity).
      apply filter_In in Hin. destruct Hin as [_ Hin]. discriminate.
Qed.
End Validation.

Lemma validation_precedes_mutation_witness :
  snd (StoreExamples.installLocalStore 3 StoreExamples.file_and_bad_name "store" None
         StoreExamples.fresh)
  = Thrown (Error (not_absolute_message "store")) /\
  w_disk (fst (StoreExamples.installLocalStore 3 StoreExamples.file_and_bad_name "store"
                 None StoreExamples.fresh)) = Posix.disk0 /\
  performed (fst (StoreExamples.installLocalStore 3 StoreExamples.file_and_bad_name
                    "store" None StoreExamples.fresh)) = [].
Proof.
  apply (validation_precedes_mutation Posix.isAbsolute Posix.join Posix.dirname
           Posix.statSync Posix.readdirSync Posix.readScripts Posix.perform SccRef.scc
           (fun t => NMap.keys (GraphToTree.components t))
           3 StoreExamples.file_and_bad_name "store" None StoreExamples.fresh).
  reflexivity.
Defined.

(** C7 as stated fails: the first node sits on a plain file, the second has
    an invalid name, and the message is the one of the name check. *)
Lemma validation_order_counterexample :
  not_folder Posix.statSync Posix.disk0 (Store.mkNode "a" "a" None None "/file") = true /\
  valid_name "bad name" = false /\
  StoreExamples.installLocalStore 3 StoreExamples.file_and_bad_name "/store" None
    StoreExamples.fresh
  = (StoreExamples.fresh, Thrown (Error (invalid_name_message "bad name"))) /\
  Error (invalid_name_message "bad name")
    <> Error (node_not_directory_message "/file").
Proof.
  repeat split; try reflexivity. intro H. discriminate H.
Qed.

Lemma validation_order_witness :
  exists n,
    find (fun n => negb (valid_name (name n))) (nodes StoreExamples.file_and_bad_name)
    = Some n /\
    StoreExamples.installLocalStore 3 StoreExamples.file_and_bad_name "/store" None
      StoreExamples.fresh
    = (StoreExamples.fresh, Thrown (Error (invalid_name_message (name n)))).
Proof.
  apply (proj2 (validation_order Posix.isAbsolute Posix.join Posix.dirname
                  Posix.statSync Posix.readdirSync Posix.readScripts Posix.perform
                  SccRef.scc (fun t => NMap.keys (GraphToTree.components t))
                  3 StoreExamples.file_and_bad_name "/store" None StoreExamples.fresh)).
  - reflexivity.
  - simpl. repeat constructor; simpl; intuition discriminate.
  - intros n [H|[H|[]]]; subst; reflexivity.
  - exists (Store.mkNode "b" "bad name" None None "/pkg").
    split; [simpl; auto|reflexivity].
Defined.

Lemma own_bins_escape_validation_witness :
  Posix.validateInput Posix.disk0 StoreExamples.own_bin_clash "/store" None = Ok tt /\
  (@None bool <> Some true ->
   exists e, getBinError (addSelfLinks StoreExamples.own_bin_clash) None = Ok (Some e)
             /\ is_collision e).
Proof.
  apply (@own_bins_escape_validation Posix.Disk Posix.isAbsolute Posix.statSync
           Posix.readdirSync Posix.disk0 StoreExamples.own_bin_clash "/store"%string None
           (Store.mkLink "a" "b") "run"%string).
  - reflexivity.
  - reflexivity.
  - intros n x Hn Hx. cbv in Hn. destruct Hn as [H|[H|[]]]; subst n;
      cbv in Hx; destruct Hx as [Hx|[]]; subst x; reflexivity.
  - intros before l after l' b Hsplit Hin.
    destruct before as [|x before]; [destruct Hin|].
    simpl in Hsplit. inversion Hsplit as [[Hx Hrest]].
    destruct before; discriminate.
  - left. reflexivity.
  - simpl. discriminate.
  - exists (Store.mkNode "a" "a" None (Some [("run"%string, "a.js"%string)]) "/pkg").
    simpl. auto.
  - exists (Store.mkNode "b" "b" None (Some [("run"%string, "b.js"%string)]) "/pkg").
    simpl. auto.
Defined.
End StoreFacts.

(** ** The condenser *)
Module TreeFacts.
Import GraphToTree TreeSpec.

Lemma add_dependencies_roots :
  forall adj i t t',
    add_dependencies i adj t = Ok t' -> rootComponents t' = rootComponents t.
Proof.
  induction adj as [|c adj IH]; intros i t t' H; simpl in H.
  - inversion H; reflexivity.
  - destruct (NMap.get (components t) i) as [comp|]; simpl in H; [|discriminate].
    apply IH in H. exact H.
Qed.

Lemma find_root_at :
  forall g c, (exists i, find (root_at g) c = Some i) <-> has_root g c.
Proof.
  intros g c. split.
  - intros [i Hf]. apply find_some in Hf. exists i. exact Hf.
  - intros [i [Hin Hr]]. destruct (find (root_at g) c) as [k|] eqn:Hf.
    + exists k. reflexivity.
    + apply find_none with (x := i) in Hf; [|exact Hin]. congruence.
Qed.

Lemma add_components_roots :
  forall g cs j t x,
    In x (rootComponents (add_components g j cs t)) <->
    In x (rootComponents t) \/
    exists k c, nth_error cs k = Some c /\ x = j + k /\ has_root g c.
Proof.
  intros g cs. induction cs as [|c cs IH]; intros j t x; simpl.
  - split; [auto|]. intros [H|[k [c [H _]]]]; [exact H|]. destruct k; discriminate.
  - rewrite IH. simpl. split.
    + intros [H|[k [c' [Hn [Hx Hr]]]]].
      * destruct (find (root_at g) c) as [i|] eqn:Hf.
        -- apply in_app_or in H. destruct H as [H|[H|[]]]; [left; exact H|].
           right. exists 0, c. split; [reflexivity|]. split; [lia|].
           apply find_root_at. exists i. exact Hf.
        -- left. exact H.
      * right. exists (S k), c'. split; [exact Hn|]. split; [lia|exact Hr].
    + intros [H|[k [c' [Hn [Hx Hr]]]]].
      * left. destruct (find (root_at g) c); [apply in_or_app; left|]; exact H.
      * destruct k as [|k]; simpl in Hn.
        -- inversion Hn; subst c'. left.
           apply find_root_at in Hr. destruct Hr as [i Hf]. rewrite Hf.
           apply in_or_app. right. left. lia.
        -- right. exists k, c'. split; [exact Hn|]. split; [lia|exact Hr].
Qed.

Lemma root_at_installer : forall g i, root_at (Store.as_tree_graph g) i = false.
Proof.
  intros g i. unfold root_at, Store.as_tree_graph. simpl.
  rewrite nth_error_map. destruct (nth_error (Store.nodes g) i); reflexivity.
Qed.

(** C8, as the code has it. [convertGraphToTree] marks component [j] as a
    root exactly when one of its nodes carries [isRoot: true] in the graph it
    is given; the graph [runScripts] passes is the installer's, whose nodes
    declare no [isRoot], so the tree it computes has no root component. *)
Theorem root_components_hold_flagged_nodes :
  forall (scc : list (list (option nat)) -> Scc),
    (forall g gr tree,
        adjacency g = Ok gr ->
        convertGraphToTree scc g = Ok tree ->
        forall j,
          In j (rootComponents tree) <->
          exists c, nth_error (scc_components (scc gr)) j = Some c /\ has_root g c) /\
    (forall g tree,
        Store.scripts_tree scc g = Ok tree -> rootComponents tree = []).
Proof.
  intros scc. split.
  - intros g gr tree Hadj Hconv j. unfold convertGraphToTree in Hconv.
    rewrite Hadj in Hconv. simpl in Hconv.
    apply add_dependencies_roots in Hconv. rewrite Hconv.
    rewrite add_components_roots. simpl. split.
    + intros [[]|[k [c [Hn [Hx Hr]]]]]. subst j. exists c. split; assumption.
    + intros [c [Hn Hr]]. right. exists j, c. repeat split; assumption.
  - intros g tree Hconv. unfold Store.scripts_tree, convertGraphToTree in Hconv.
    destruct (adjacency (Store.as_tree_graph g)) as [gr|]; simpl in Hconv; [|discriminate].
    apply add_dependencies_roots in Hconv. rewrite Hconv.
    destruct (rootComponents
                (add_components (Store.as_tree_graph g) 0 (scc_components (scc gr))
                   (mkTree NMap.empty []))) as [|x l] eqn:Hroots; [reflexivity|].
    exfalso.
    assert (Hin : In x (rootComponents
                (add_components (Store.as_tree_graph g) 0 (scc_components (scc gr))
                   (mkTree NMap.empty [])))) by (rewrite Hroots; left; reflexivity).
    apply add_components_roots in Hin. simpl in Hin.
    destruct Hin as [[]|[k [c [_ [_ [i [_ Hr]]]]]]].
    rewrite root_at_installer in Hr. discriminate.
Qed.

Lemma root_components_witness :
  (In 0 (rootComponents
           {| components := [(0, mkComponent [Some "foo"%string] [1]);
                             (1, mkComponent [Some "bar"%string] [])];
              rootComponents := [0] |}) <->
   exists c, nth_error (scc_components (SccRef.scc [[Some 1]; []])) 0 = Some c
             /\ has_root StoreExamples.foo_bar c) /\
  rootComponents
    {| components := [(0, mkComponent [Some "a"%string] [])]; rootComponents := [] |} = [].
Proof.
  split.
  - apply (proj1 (root_components_hold_flagged_nodes SccRef.scc)
             StoreExamples.foo_bar [[Some 1]; []]); reflexivity.
  - apply (proj2 (root_components_hold_flagged_nodes SccRef.scc)
             (Store.addSelfLinks StoreExamples.in_place)). reflexivity.
Defined.

(** C8 as stated fails: the only package is installed in place, which is
    how the caller marks a local package, and no component is a root. *)
Lemma installer_roots_counterexample :
  In (Store.mkNode "a" "a" (Some true) None "/pkg") (Store.nodes StoreExamples.in_place) /\
  StoreExamples.scripts_tree (Store.addSelfLinks StoreExamples.in_place)
  = Ok {| components := [(0, mkComponent [Some "a"%string] [])]; rootComponents := [] |}.
Proof. split; [left; reflexivity|reflexivity]. Qed.
End TreeFacts.

(** From here on every argument of a lemma is explicit. *)
Unset Implicit Arguments.

(** ** Association lists: [Map] with number keys, objects, sorting *)
Module NMapFacts.

Lemma nmap_get_set_eq :
  forall (V : Type) (m : NMap.t V) k v, NMap.get (NMap.set m k v) k = Some v.
Proof.
  intros V m k v. induction m as [|[k' v'] m IH]; simpl.
  - rewrite Nat.eqb_refl. reflexivity.
  - destruct (Nat.eqb k' k) eqn:E; simpl; rewrite E; [reflexivity|exact IH].
Qed.

Lemma nmap_get_set_neq :
  forall (V : Type) (m : NMap.t V) k k' v,
    k <> k' -> NMap.get (NMap.set m k v) k' = NMap.get m k'.
Proof.
  intros V m k k' v Hne. induction m as [|[k0 v0] m IH]; simpl.
  - apply Nat.eqb_neq in Hne. rewrite Hne. reflexivity.
  - destruct (Nat.eqb k0 k) eqn:E; simpl.
    + apply Nat.eqb_eq in E. subst k0.
      apply Nat.eqb_neq in Hne. rewrite Hne. reflexivity.
    + rewrite IH. reflexivity.
Qed.

Lemma nmap_get_set :
  forall (V : Type) (m : NMap.t V) k k' v,
    NMap.get (NMap.set m k v) k' = if Nat.eqb k k' then Some v else NMap.get m k'.
Proof.
  intros V m k k' v. destruct (Nat.eqb k k') eqn:E.
  - apply Nat.eqb_eq in E. subst. apply nmap_get_set_eq.
  - apply Nat.eqb_neq in E. apply nmap_get_set_neq. exact E.
Qed.

Lemma get_delete :
  forall (V : Type) (m : NMap.t V) k k',
    NMap.get (NMap.delete m k) k' = if Nat.eqb k k' then None else NMap.get m k'.
Proof.
  intros V m k k'. induction m as [|[k0 v0] m IH]; simpl.
  - destruct (Nat.eqb k k'); reflexivity.
  - destruct (Nat.eqb k0 k) eqn:E; simpl.
    + apply Nat.eqb_eq in E. subst k0. rewrite IH.
      destruct (Nat.eqb k k'); reflexivity.
    + rewrite IH. destruct (Nat.eqb k0 k') eqn:E'; [|reflexivity].
      apply Nat.eqb_eq in E'. subst k0. rewrite Nat.eqb_sym, E. reflexivity.
Qed.

Lemma in_keys_get :
  forall (V : Type) (m : NMap.t V) k,
    In k (NMap.keys m) <-> exists v, NMap.get m k = Some v.
Proof.
  intros V m k. induction m as [|[k0 v0] m IH]; simpl.
  - split; [intros []|intros [v H]; discriminate].
  - destruct (Nat.eqb k0 k) eqn:E.
    + apply Nat.eqb_eq in E. split; [exists v0; reflexivity|auto].
    + apply Nat.eqb_neq in E. rewrite <- IH. intuition.
Qed.

Lemma keys_set :
  forall (V : Type) (m : NMap.t V) k v x,
    In x (NMap.keys (NMap.set m k v)) <-> x = k \/ In x (NMap.keys m).
Proof.
  intros V m k v x. rewrite !in_keys_get, nmap_get_set.
  destruct (Nat.eqb k x) eqn:E.
  - apply Nat.eqb_eq in E. subst. split; [auto|]. intros _. exists v. reflexivity.
  - apply Nat.eqb_neq in E. intuition congruence.
Qed.

Lemma keys_delete :
  forall (V : Type) (m : NMap.t V) k x,
    In x (NMap.keys (NMap.delete m k)) <-> x <> k /\ In x (NMap.keys m).
Proof.
  intros V m k x. rewrite !in_keys_get, get_delete.
  destruct (Nat.eqb k x) eqn:E.
  - apply Nat.eqb_eq in E. subst. split; [intros [v H]; discriminate|intuition].
  - apply Nat.eqb_neq in E. intuition.
Qed.

Lemma has_keys :
  forall (V : Type) (m : NMap.t V) k, NMap.has m k = true <-> In k (NMap.keys m).
Proof.
  intros V m k. rewrite in_keys_get. unfold NMap.has.
  destruct (NMap.get m k) as [v|]; split; try discriminate; eauto.
  intros [v H]. discriminate.
Qed.

End NMapFacts.

Module SortFacts.

Section Sort.
Variable A : Type.
Variable cmp : A -> A -> comparison.

Lemma sort_insert_perm :
  forall x l, Permutation (sort_insert cmp x l) (x :: l).
Proof.
  intros x l. induction l as [|y l IH]; simpl; [apply Permutation_refl|].
  destruct (cmp x y); try apply Permutation_refl.
  apply Permutation_trans with (y :: x :: l); [apply perm_skip, IH|apply perm_swap].
Qed.

Lemma js_sort_perm : forall l, Permutation (js_sort cmp l) l.
Proof.
  induction l as [|x l IH]; simpl; [apply Permutation_refl|].
  apply Permutation_trans with (x :: js_sort cmp l);
    [apply sort_insert_perm|apply perm_skip, IH].
Qed.

Lemma js_sort_in : forall l x, In x (js_sort cmp l) <-> In x l.
Proof.
  intros l x. split; apply Permutation_in;
    [apply js_sort_perm|apply Permutation_sym, js_sort_perm].
Qed.

Lemma js_sort_length : forall l, List.length (js_sort cmp l) = List.length l.
Proof. intros l. apply Permutation_length, js_sort_perm. Qed.

Hypothesis cmp_flip : forall a b, cmp a b = Gt -> cmp b a <> Gt.



End Sort.

End SortFacts.

Module ObjFacts.

Lemma obj_get_set_eq :
  forall (V : Type) (o : Obj.t V) k v, Obj.get (Obj.set o k v) k = Some v.
Proof.
  intros V o k v. induction o as [|[k' v'] o IH]; simpl.
  - rewrite String.eqb_refl. reflexivity.
  - destruct (String.eqb k' k) eqn:E; simpl; rewrite E; [reflexivity|exact IH].
Qed.

Lemma obj_get_set_neq :
  forall (V : Type) (o : Obj.t V) k k' v,
    k <> k' -> Obj.get (Obj.set o k v) k' = Obj.get o k'.
Proof.
  intros V o k k' v Hne. induction o as [|[k0 v0] o IH]; simpl.
  - apply String.eqb_neq in Hne. rewrite Hne. reflexivity.
  - destruct (String.eqb k0 k) eqn:E; simpl.
    + apply String.eqb_eq in E. subst k0.
      apply String.eqb_neq in Hne. rewrite Hne. reflexivity.
    + rewrite IH. reflexivity.
Qed.

Lemma obj_get_set :
  forall (V : Type) (o : Obj.t V) k k' v,
    Obj.get (Obj.set o k v) k' = if String.eqb k k' then Some v else Obj.get o k'.
Proof.
  intros V o k k' v. destruct (String.eqb k k') eqn:E.
  - apply String.eqb_eq in E. subst. apply obj_get_set_eq.
  - apply String.eqb_neq in E. apply obj_get_set_neq. exact E.
Qed.

Lemma get_in :
  forall (V : Type) (o : Obj.t V) k v, Obj.get o k = Some v -> In (k, v) o.
Proof.
  intros V o k v. induction o as [|[k0 v0] o IH]; simpl; [discriminate|].
  destruct (String.eqb k0 k) eqn:E.
  - apply String.eqb_eq in E. intros H. inversion H. subst. left. reflexivity.
  - intros H. right. apply IH, H.
Qed.

Lemma in_get :
  forall (V : Type) (o : Obj.t V) k v,
    NoDup (map fst o) -> In (k, v) o -> Obj.get o k = Some v.
Proof.
  intros V o k v. induction o as [|[k0 v0] o IH]; simpl; intros Hnd Hin; [destruct Hin|].
  inversion Hnd as [|? ? Hnotin Hnd']; subst.
  destruct Hin as [Hin|Hin].
  - inversion Hin; subst. rewrite String.eqb_refl. reflexivity.
  - destruct (String.eqb k0 k) eqn:E.
    + apply String.eqb_eq in E. subst k0. exfalso. apply Hnotin.
      apply (in_map fst) in Hin. exact Hin.
    + apply IH; assumption.
Qed.

Lemma get_none :
  forall (V : Type) (o : Obj.t V) k, Obj.get o k = None <-> ~ In k (map fst o).
Proof.
  intros V o k. induction o as [|[k0 v0] o IH]; simpl; [intuition|].
  destruct (String.eqb k0 k) eqn:E.
  - apply String.eqb_eq in E. split; [discriminate|]. intros H. exfalso. apply H. auto.
  - apply String.eqb_neq in E. rewrite IH. intuition.
Qed.

(** [set] on a key that is there changes one binding in place. *)
Lemma set_present :
  forall (V : Type) (o : Obj.t V) k v v',
    Obj.get o k = Some v ->
    exists o1 o2,
      o = o1 ++ (k, v) :: o2 /\ Obj.set o k v' = o1 ++ (k, v') :: o2 /\
      ~ In k (map fst o1).
Proof.
  intros V o k v v'. induction o as [|[k0 v0] o IH]; simpl; [discriminate|].
  destruct (String.eqb k0 k) eqn:E.
  - apply String.eqb_eq in E. subst k0. intros H. inversion H; subst.
    exists [], o. simpl. auto.
  - intros H. destruct (IH H) as [o1 [o2 [H1 [H2 H3]]]].
    exists ((k0, v0) :: o1), o2. simpl. rewrite H1 at 1. rewrite H2.
    split; [reflexivity|]. split; [reflexivity|].
    apply String.eqb_neq in E. intuition.
Qed.

(** [set] on a new key adds the binding at the end. *)
Lemma set_absent :
  forall (V : Type) (o : Obj.t V) k v,
    Obj.get o k = None -> Obj.set o k v = o ++ [(k, v)].
Proof.
  intros V o k v. induction o as [|[k0 v0] o IH]; simpl; [reflexivity|].
  destruct (String.eqb k0 k); [discriminate|]. intros H. rewrite IH by exact H. reflexivity.
Qed.

Lemma set_keys_nodup :
  forall (V : Type) (o : Obj.t V) k v,
    NoDup (map fst o) -> NoDup (map fst (Obj.set o k v)).
Proof.
  intros V o k v Hnd. destruct (Obj.get o k) as [v0|] eqn:E.
  - destruct (set_present _ o k v0 v E) as [o1 [o2 [H1 [H2 _]]]].
    rewrite H2. rewrite H1 in Hnd. rewrite map_app in *. exact Hnd.
  - rewrite set_absent by exact E. rewrite map_app. simpl.
    apply NoDup_app; [exact Hnd|repeat constructor; intros []|].
    intros a Ha [Hk|[]]. subst a. apply get_none in E. contradiction.
Qed.

Lemma filter_partition_perm :
  forall (A : Type) (p : A -> bool) (l : list A),
    Permutation (filter p l ++ filter (fun x => negb (p x)) l) l.
Proof.
  intros A p l. induction l as [|x l IH]; simpl; [constructor|].
  destruct (p x); simpl.
  - apply perm_skip, IH.
  - apply Permutation_sym, Permutation_cons_app, Permutation_sym, IH.
Qed.

Lemma entries_perm : forall (V : Type) (o : Obj.t V), Permutation (Obj.entries o) o.
Proof.
  intros V o. unfold Obj.entries.
  apply Permutation_trans
    with (filter Obj.is_index o ++ filter (fun p => negb (Obj.is_index p)) o).
  - apply Permutation_app_tail, SortFacts.js_sort_perm.
  - apply filter_partition_perm.
Qed.

Lemma entries_in :
  forall (V : Type) (o : Obj.t V) p, In p (Obj.entries o) <-> In p o.
Proof.
  intros V o p. split; apply Permutation_in;
    [apply entries_perm|apply Permutation_sym, entries_perm].
Qed.

Lemma entries_keys_nodup :
  forall (V : Type) (o : Obj.t V),
    NoDup (map fst o) -> NoDup (map fst (Obj.entries o)).
Proof.
  intros V o Hnd. apply Permutation_NoDup with (l := map fst o); [|exact Hnd].
  apply Permutation_map, Permutation_sym, entries_perm.
Qed.

Lemma keys_length :
  forall (V : Type) (o : Obj.t V), List.length (Obj.keys o) = List.length o.
Proof.
  intros V o. unfold Obj.keys. rewrite length_map.
  apply Permutation_length, entries_perm.
Qed.

Lemma keys_in :
  forall (V : Type) (o : Obj.t V) k, In k (Obj.keys o) <-> In k (map fst o).
Proof.
  intros V o k. unfold Obj.keys. split; apply Permutation_in.
  - apply Permutation_map, entries_perm.
  - apply Permutation_map, Permutation_sym, entries_perm.
Qed.


(** Copying distinct properties into a fresh object keeps them in order. *)
Lemma fold_set_fresh :
  forall (V : Type) (l acc : Obj.t V),
    NoDup (map fst l) ->
    (forall k, In k (map fst l) -> ~ In k (map fst acc)) ->
    fold_left (fun a p => Obj.set a (fst p) (snd p)) l acc = acc ++ l.
Proof.
  intros V l. induction l as [|[k v] l IH]; intros acc Hnd Hfresh; simpl.
  - rewrite app_nil_r. reflexivity.
  - inversion Hnd as [|? ? Hnotin Hnd']; subst.
    rewrite set_absent by (apply get_none, Hfresh; left; reflexivity).
    rewrite IH.
    + rewrite <- app_assoc. reflexivity.
    + exact Hnd'.
    + intros k' Hk' Hin. rewrite map_app in Hin. apply in_app_or in Hin.
      destruct Hin as [Hin|[Hin|[]]].
      * apply (Hfresh k'); [right; exact Hk'|exact Hin].
      * simpl in Hin. subst k'. contradiction.
Qed.

Lemma spread_empty :
  forall (V : Type) (o : Obj.t V),
    NoDup (map fst o) -> Obj.spread Obj.empty o = Obj.entries o.
Proof.
  intros V o Hnd. unfold Obj.spread. simpl.
  rewrite fold_set_fresh; [reflexivity|apply entries_keys_nodup, Hnd|].
  intros k _ [].
Qed.

End ObjFacts.

(** ** The two link indices *)
Module LinkFacts.
Import DepGraph GraphSpec.

Lemma mem_set :
  forall m k v a b,
    mem (NMap.set m k v) a b <->
    (a = k /\ In b (NMap.keys v)) \/ (a <> k /\ mem m a b).
Proof.
  intros m k v a b. unfold mem, get_or_empty. rewrite NMapFacts.nmap_get_set.
  destruct (Nat.eqb k a) eqn:E.
  - apply Nat.eqb_eq in E. subst. intuition.
  - apply Nat.eqb_neq in E. intuition congruence.
Qed.

Lemma mem_key :
  forall m a b, mem m a b -> In a (NMap.keys m).
Proof.
  intros m a b H. unfold mem, get_or_empty in H. apply NMapFacts.in_keys_get.
  destruct (NMap.get m a) as [v|]; [exists v; reflexivity|destruct H].
Qed.

Lemma mem_get :
  forall m a v b, NMap.get m a = Some v -> (mem m a b <-> In b (NMap.keys v)).
Proof.
  intros m a v b H. unfold mem, get_or_empty. rewrite H. reflexivity.
Qed.

Lemma mem_add_reversed :
  forall m k x a b,
    mem (add_reversed m k x) a b <-> (a = k /\ b = x) \/ mem m a b.
Proof.
  intros m k x a b. unfold add_reversed. rewrite mem_set, NMapFacts.keys_set.
  fold (mem m k b). destruct (Nat.eq_dec a k) as [->|Hne]; intuition.
Qed.

Lemma mem_fold_add_reversed :
  forall ks m x a b,
    mem (fold_left (fun rl key => add_reversed rl key x) ks m) a b <->
    (In a ks /\ b = x) \/ mem m a b.
Proof.
  induction ks as [|k ks IH]; intros m x a b; simpl.
  - intuition.
  - rewrite IH, mem_add_reversed. intuition.
Qed.

Lemma keys_add_reversed :
  forall m k x a,
    In a (NMap.keys (add_reversed m k x)) <-> a = k \/ In a (NMap.keys m).
Proof. intros m k x a. unfold add_reversed. apply NMapFacts.keys_set. Qed.

Lemma keys_fold_add_reversed :
  forall ks m x a,
    In a (NMap.keys (fold_left (fun rl key => add_reversed rl key x) ks m)) <->
    In a ks \/ In a (NMap.keys m).
Proof.
  induction ks as [|k ks IH]; intros m x a; simpl.
  - intuition.
  - rewrite IH, keys_add_reversed. intuition.
Qed.

(** *** [addLink] *)

Lemma addLink_has_link :
  forall g s t a b,
    has_link (addLink g s t) a b <-> (a = s /\ b = t) \/ has_link g a b.
Proof.
  intros g s t a b. unfold has_link, addLink. cbn [links].
  rewrite mem_set, NMapFacts.keys_set. fold (mem (links g) s b).
  destruct (Nat.eq_dec a s) as [->|Hne]; intuition.
Qed.

Lemma addLink_has_reversed :
  forall g s t a b,
    has_reversed (addLink g s t) a b <-> (a = t /\ b = s) \/ has_reversed g a b.
Proof.
  intros g s t a b. unfold has_reversed, addLink. cbn [reversedLinks].
  apply mem_add_reversed.
Qed.

Lemma addLink_paired :
  forall g s t, links_paired g -> links_paired (addLink g s t).
Proof.
  intros g s t H a b. rewrite addLink_has_link, addLink_has_reversed, (H a b).
  intuition.
Qed.

Lemma addLink_keys :
  forall g s t a,
    In a (NMap.keys (links (addLink g s t))) <-> a = s \/ In a (NMap.keys (links g)).
Proof. intros g s t a. unfold addLink. cbn [links]. apply NMapFacts.keys_set. Qed.

Lemma addLink_sources_live :
  forall g s t, s < nodeCounter g -> sources_live g -> sources_live (addLink g s t).
Proof.
  intros g s t Hs H a Ha. apply addLink_keys in Ha. cbn [nodeCounter addLink].
  destruct Ha as [->|Ha]; [exact Hs|apply H, Ha].
Qed.

(** *** [createVirtualNode] *)

Lemma createVirtualNode_links :
  forall g s name dep g' newId,
    createVirtualNode g s name dep = Ok (g', newId) ->
    newId = nodeCounter g /\
    nodeCounter g' = S (nodeCounter g) /\
    (forall a b,
        has_link g' a b <->
        (a = newId /\ (b = dep \/ has_link g s b)) \/ (a <> newId /\ has_link g a b)) /\
    (forall a b,
        has_reversed g' a b <->
        (b = newId /\ (a = dep \/ has_link g s a)) \/ has_reversed g a b) /\
    (forall a, In a (NMap.keys (links g')) <-> a = newId \/ In a (NMap.keys (links g))) /\
    (forall a, In a (NMap.keys (reversedLinks g)) -> In a (NMap.keys (reversedLinks g'))).
Proof.
  intros g s name dep g' newId H. unfold createVirtualNode in H.
  destruct (NMap.get (reversedNodes g) s) as [info|]; [|discriminate]. cbn [unwrap bind] in H.
  destruct (Obj.get (nodes g) (info_name info)) as [bv|]; [|discriminate].
  cbn [unwrap bind] in H.
  destruct (Obj.get bv (info_version info)) as [l|]; [|discriminate].
  cbn [unwrap bind] in H. inversion H; subst; clear H.
  split; [reflexivity|]. split; [reflexivity|]. split; [|split; [|split]].
  - intros a b. unfold has_link. cbn [links].
    rewrite mem_set, NMapFacts.keys_set, mem_set. fold (mem (links g) s b).
    destruct (Nat.eq_dec a (nodeCounter g)) as [->|Hne]; intuition.
  - intros a b. unfold has_reversed, has_link. cbn [reversedLinks].
    rewrite mem_add_reversed, mem_fold_add_reversed. fold (mem (links g) s a).
    intuition.
  - intros a. cbn [links]. rewrite !NMapFacts.keys_set. intuition.
  - intros a Ha. cbn [reversedLinks]. apply keys_add_reversed. right.
    apply keys_fold_add_reversed. right. exact Ha.
Qed.

Lemma createVirtualNode_paired :
  forall g s name dep g' newId,
    createVirtualNode g s name dep = Ok (g', newId) ->
    links_paired g -> sources_live g -> links_paired g' /\ sources_live g'.
Proof.
  intros g s name dep g' newId H Hp Hl.
  destruct (createVirtualNode_links g s name dep g' newId H) as [Hid [Hc [Hf [Hr [Hk _]]]]].
  assert (Hfresh : forall b, ~ has_link g newId b).
  { intros b Hb. apply mem_key in Hb. apply Hl in Hb. lia. }
  split.
  - intros a b. rewrite Hf, Hr. specialize (Hp a b).
    destruct (Nat.eq_dec a newId) as [->|Hne].
    + split.
      * intros [[_ Hb]|[Hn _]]; [left; auto|contradiction].
      * intros [[_ Hb]|Hb]; [left; auto|]. apply Hp in Hb. destruct (Hfresh b Hb).
    + split.
      * intros [[Ha _]|[_ Hb]]; [contradiction|right; apply Hp, Hb].
      * intros [[Ha _]|Hb]; [contradiction|right; split; [exact Hne|apply Hp, Hb]].
  - intros a Ha. rewrite Hc. apply Hk in Ha. destruct Ha as [->|Ha]; [lia|].
    apply Hl in Ha. lia.
Qed.

(** *** [changeChildren] *)

Lemma changeChildren_links :
  forall g p o n g',
    changeChildren g p o n = Ok g' ->
    nodes g' = nodes g /\ reversedNodes g' = reversedNodes g /\
    nodeCounter g' = nodeCounter g /\ peerLinks g' = peerLinks g /\
    (forall a b,
        has_link g' a b <->
        (a = p /\ (b = n \/ (b <> o /\ has_link g p b))) \/ (a <> p /\ has_link g a b)) /\
    (forall a b,
        has_reversed g' a b <->
        (a = n /\ b = p) \/ (a = o /\ b <> p /\ has_reversed g o b)
        \/ (a <> o /\ has_reversed g a b)) /\
    (forall a, In a (NMap.keys (links g')) <-> In a (NMap.keys (links g))).
Proof.
  intros g p o n g' H. unfold changeChildren in H.
  destruct (NMap.get (links g) p) as [pl|] eqn:Hp; [|discriminate]. cbn [unwrap bind] in H.
  destruct (NMap.get (reversedLinks g) o) as [orv|] eqn:Ho; [|discriminate].
  cbn [unwrap bind] in H. inversion H; subst; clear H.
  cbn [nodes reversedNodes nodeCounter peerLinks].
  repeat (split; [reflexivity|]). split; [|split].
  - intros a b. unfold has_link. cbn [links].
    rewrite mem_set, NMapFacts.keys_set, NMapFacts.keys_delete.
    rewrite (mem_get (links g) p pl b Hp). intuition.
  - intros a b. unfold has_reversed. cbn [reversedLinks].
    rewrite mem_add_reversed, mem_set, NMapFacts.keys_delete.
    rewrite (mem_get (reversedLinks g) o orv b Ho). intuition.
  - intros a. cbn [links]. rewrite NMapFacts.keys_set. split; [|auto].
    intros [->|Ha]; [|exact Ha]. apply NMapFacts.in_keys_get. exists pl. exact Hp.
Qed.

Lemma changeChildren_paired :
  forall g p o n g',
    changeChildren g p o n = Ok g' ->
    links_paired g -> sources_live g -> links_paired g' /\ sources_live g'.
Proof.
  intros g p o n g' H Hp Hl.
  destruct (changeChildren_links g p o n g' H) as [_ [_ [Hc [_ [Hf [Hr Hk]]]]]].
  split.
  - intros a b. rewrite Hf, Hr.
    pose proof (Hp a b) as Hab. pose proof (Hp p b) as Hpb. pose proof (Hp a o) as Hao.
    destruct (Nat.eq_dec a p) as [Hap|Hap]; destruct (Nat.eq_dec b o) as [Hbo|Hbo];
      destruct (Nat.eq_dec b n) as [Hbn|Hbn]; subst; intuition.
  - intros a Ha. rewrite Hc. apply Hl, Hk, Ha.
Qed.

End LinkFacts.

(** ** [nodes] and [reversedNodes] *)
Module NodeFacts.
Import DepGraph GraphSpec.

(** What [nodes[name][version] = l] does to the lookups. *)
Lemma list_at_update :
  forall g g' name version l,
    nodes g' =
    Obj.set (nodes g) name
      (Obj.set (match Obj.get (nodes g) name with
                | Some o => o
                | None => Obj.empty
                end) version l) ->
    forall name' version',
      list_at g' name' version'
      = if andb (String.eqb name name') (String.eqb version version')
        then Some l else list_at g name' version'.
Proof.
  intros g g' name version l Hn name' version'. unfold list_at. rewrite Hn.
  rewrite ObjFacts.obj_get_set. destruct (String.eqb name name') eqn:En; simpl.
  - apply String.eqb_eq in En. subst name'. rewrite ObjFacts.obj_get_set.
    destruct (String.eqb version version'); [reflexivity|].
    destruct (Obj.get (nodes g) name); reflexivity.
  - reflexivity.
Qed.

Lemma update_names_nodup :
  forall g g' name version l,
    nodes g' =
    Obj.set (nodes g) name
      (Obj.set (match Obj.get (nodes g) name with
                | Some o => o
                | None => Obj.empty
                end) version l) ->
    NoDup (map fst (nodes g)) ->
    (forall n bv, Obj.get (nodes g) n = Some bv -> NoDup (map fst bv)) ->
    NoDup (map fst (nodes g')) /\
    (forall n bv, Obj.get (nodes g') n = Some bv -> NoDup (map fst bv)).
Proof.
  intros g g' name version l Hn H1 H2. rewrite Hn. split.
  - apply ObjFacts.set_keys_nodup, H1.
  - intros n bv. rewrite ObjFacts.obj_get_set.
    destruct (String.eqb name n) eqn:E.
    + intros H. inversion H; subst. apply ObjFacts.set_keys_nodup.
      destruct (Obj.get (nodes g) name) as [o|] eqn:Eo; [apply (H2 name o Eo)|constructor].
    + apply H2.
Qed.

Lemma nodes_ok_ext :
  forall g g',
    nodes g' = nodes g -> reversedNodes g' = reversedNodes g ->
    nodeCounter g' = nodeCounter g -> nodes_ok g -> nodes_ok g'.
Proof.
  intros g g' Hn Hr Hc [H1 H2 H3 H4 H5 H6 H7].
  constructor; unfold entry_at, list_at in *; rewrite ?Hn, ?Hr, ?Hc; assumption.
Qed.

Lemma registered_ext :
  forall g g' x, nodes g' = nodes g -> registered g x -> registered g' x.
Proof.
  intros g g' x Hn [n [v [e [[l [Hl He]] Hid]]]].
  exists n, v, e. split; [|exact Hid]. exists l. split; [|exact He].
  unfold list_at in *. rewrite Hn. exact Hl.
Qed.

Lemma registered_info :
  forall g x, nodes_ok g -> registered g x -> exists info, NMap.get (reversedNodes g) x = Some info.
Proof.
  intros g x Hok [n [v [e [He Hid]]]]. subst x.
  rewrite (@entry_info g Hok n v e He). eauto.
Qed.

Lemma new_nodes_ok : nodes_ok new.
Proof.
  constructor; unfold entry_at, list_at; simpl; try discriminate.
  - constructor.
  - intros n v e [l [H _]]. discriminate.
Qed.

Lemma addNode_nodes_ok :
  forall g name version isLocal,
    nodes_ok g -> nodes_ok (addNode g name version isLocal).
Proof.
  intros g name version isLocal [H1 H2 H3 H4 H5 H6 H7].
  set (g' := addNode g name version isLocal).
  assert (Hupd := list_at_update g g' name version
                    [mkEntry (nodeCounter g) Obj.empty isLocal] eq_refl).
  destruct (update_names_nodup g g' name version
              [mkEntry (nodeCounter g) Obj.empty isLocal] eq_refl H1 H2) as [K1 K2].
  constructor.
  - exact K1.
  - exact K2.
  - intros n v e [l [Hl He]]. rewrite Hupd in Hl. cbn [reversedNodes g' addNode].
    destruct (andb (String.eqb name n) (String.eqb version v)) eqn:E.
    + apply andb_prop in E. destruct E as [En Ev].
      apply String.eqb_eq in En. apply String.eqb_eq in Ev. subst n v.
      inversion Hl; subst l. destruct He as [He|[]]. subst e. cbn [id peerDeps DepGraph.isLocal].
      apply NMapFacts.nmap_get_set_eq.
    + assert (Hold := H3 n v e (ex_intro _ l (conj Hl He))).
      rewrite NMapFacts.nmap_get_set_neq; [exact Hold|].
      apply H4 in Hold. lia.
  - intros i info. cbn [reversedNodes nodeCounter g' addNode]. rewrite NMapFacts.nmap_get_set.
    destruct (Nat.eqb (nodeCounter g) i) eqn:E.
    + apply Nat.eqb_eq in E. lia.
    + intros H. apply H4 in H. lia.
  - intros n v l Hl. rewrite Hupd in Hl.
    destruct (andb (String.eqb name n) (String.eqb version v)).
    + inversion Hl. simpl. repeat constructor. intros [].
    + apply (H5 n v l Hl).
  - intros i info. cbn [reversedNodes g' addNode]. rewrite NMapFacts.nmap_get_set.
    destruct (Nat.eqb (nodeCounter g) i) eqn:E.
    + intros H. inversion H; subst info. cbn [info_name info_version]. rewrite Hupd.
      rewrite !String.eqb_refl. simpl. eauto.
    + intros H. destruct (H6 i info H) as [l Hl]. rewrite Hupd.
      destruct (andb (String.eqb name (info_name info))
                     (String.eqb version (info_version info))); eauto.
  - intros i info. cbn [reversedNodes g' addNode]. rewrite NMapFacts.nmap_get_set.
    destruct (Nat.eqb (nodeCounter g) i) eqn:E.
    + intros H. inversion H; subst info. constructor.
    + apply H7.
Qed.

(** What [createVirtualNode] does to [nodes] and [reversedNodes]. *)
Lemma createVirtualNode_nodes :
  forall g s name dep g' newId,
    createVirtualNode g s name dep = Ok (g', newId) ->
    exists info l,
      NMap.get (reversedNodes g) s = Some info /\
      list_at g (info_name info) (info_version info) = Some l /\
      let e := mkEntry newId
                 (Obj.set (Obj.spread Obj.empty (info_peerDeps info)) name dep)
                 (info_isLocal info) in
      newId = nodeCounter g /\
      nodeCounter g' = S (nodeCounter g) /\
      nodes g' =
      Obj.set (nodes g) (info_name info)
        (Obj.set (match Obj.get (nodes g) (info_name info) with
                  | Some o => o
                  | None => Obj.empty
                  end) (info_version info) (l ++ [e])) /\
      reversedNodes g' =
      NMap.set (reversedNodes g) newId
        (mkInfo (info_name info) (info_version info) (peerDeps e) (info_isLocal info)) /\
      peerLinks g' =
      NMap.set (peerLinks g) newId
        (filter (fun o => negb (String.eqb (targetName o) name))
           (match NMap.get (peerLinks g) s with
            | Some l => l
            | None => []
            end)).
Proof.
  intros g s name dep g' newId H. unfold createVirtualNode in H.
  destruct (NMap.get (reversedNodes g) s) as [info|]; [|discriminate]. cbn [unwrap bind] in H.
  destruct (Obj.get (nodes g) (info_name info)) as [bv|] eqn:Ebv; [|discriminate].
  cbn [unwrap bind] in H.
  destruct (Obj.get bv (info_version info)) as [l|] eqn:El; [|discriminate].
  cbn [unwrap bind] in H. inversion H; subst; clear H.
  exists info, l. split; [reflexivity|].
  split; [unfold list_at; rewrite Ebv; exact El|].
  cbn [nodes reversedNodes nodeCounter peerLinks peerDeps]. rewrite Ebv.
  repeat split.
Qed.

Lemma createVirtualNode_nodes_ok :
  forall g s name dep g' newId,
    createVirtualNode g s name dep = Ok (g', newId) ->
    nodes_ok g ->
    nodes_ok g' /\ registered g' newId /\
    (forall x, registered g x -> registered g' x).
Proof.
  intros g s name dep g' newId H Hok.
  destruct (createVirtualNode_nodes g s name dep g' newId H)
    as [info [l [Hinfo [Hl [Hid [Hc [Hn [Hr _]]]]]]]].
  destruct Hok as [H1 H2 H3 H4 H5 H6 H7].
  set (e := mkEntry newId
              (Obj.set (Obj.spread Obj.empty (info_peerDeps info)) name dep)
              (info_isLocal info)) in *.
  assert (Hupd := list_at_update g g' _ _ _ Hn).
  destruct (update_names_nodup g g' _ _ _ Hn H1 H2) as [K1 K2].
  assert (Hold : forall e0, In e0 l -> id e0 < nodeCounter g).
  { intros e0 He0. apply (H4 (id e0) _ (H3 _ _ e0 (ex_intro _ l (conj Hl He0)))). }
  split; [|split].
  - constructor.
    + exact K1.
    + exact K2.
    + intros n v e0 [l0 [Hl0 He0]]. rewrite Hupd in Hl0. rewrite Hr.
      destruct (andb (String.eqb (info_name info) n) (String.eqb (info_version info) v)) eqn:E.
      * apply andb_prop in E. destruct E as [En Ev].
        apply String.eqb_eq in En. apply String.eqb_eq in Ev. subst n v.
        inversion Hl0; subst l0. apply in_app_or in He0. destruct He0 as [He0|[He0|[]]].
        -- rewrite NMapFacts.nmap_get_set_neq; [apply H3; exists l; auto|].
           apply Hold in He0. lia.
        -- subst e0. cbn [id peerDeps DepGraph.isLocal e]. apply NMapFacts.nmap_get_set_eq.
      * assert (Hinfo0 := H3 n v e0 (ex_intro _ l0 (conj Hl0 He0))).
        rewrite NMapFacts.nmap_get_set_neq; [exact Hinfo0|]. apply H4 in Hinfo0. lia.
    + intros i info0. rewrite Hr, Hc, NMapFacts.nmap_get_set.
      destruct (Nat.eqb newId i) eqn:E.
      * apply Nat.eqb_eq in E. lia.
      * intros Hi. apply H4 in Hi. lia.
    + intros n v l0 Hl0. rewrite Hupd in Hl0.
      destruct (andb (String.eqb (info_name info) n) (String.eqb (info_version info) v)).
      * inversion Hl0. rewrite map_app. simpl.
        apply NoDup_app; [apply (H5 _ _ l Hl)|repeat constructor; intros []|].
        intros a Ha [Hx|[]]. subst a. apply in_map_iff in Ha.
        destruct Ha as [e0 [Heq He0]]. apply Hold in He0. lia.
      * apply (H5 n v l0 Hl0).
    + intros i info0. rewrite Hr, NMapFacts.nmap_get_set.
      destruct (Nat.eqb newId i) eqn:E.
      * intros Hi. inversion Hi; subst info0. cbn [info_name info_version]. rewrite Hupd.
        rewrite !String.eqb_refl. simpl. eauto.
      * intros Hi. destruct (H6 i info0 Hi) as [l0 Hl0]. rewrite Hupd.
        destruct (andb (String.eqb (info_name info) (info_name info0))
                       (String.eqb (info_version info) (info_version info0))); eauto.
    + intros i info0. rewrite Hr, NMapFacts.nmap_get_set.
      destruct (Nat.eqb newId i) eqn:E.
      * intros Hi. inversion Hi; subst info0. cbn [info_peerDeps peerDeps e].
        apply ObjFacts.set_keys_nodup. rewrite ObjFacts.spread_empty by apply (H7 s _ Hinfo).
        apply ObjFacts.entries_keys_nodup, (H7 s _ Hinfo).
      * apply H7.
  - exists (info_name info), (info_version info), e. split; [|reflexivity].
    exists (l ++ [e]). rewrite Hupd, !String.eqb_refl. simpl.
    split; [reflexivity|apply in_or_app; right; left; reflexivity].
  - intros x [n [v [e0 [[l0 [Hl0 He0]] Hx]]]]. exists n, v, e0. split; [|exact Hx].
    unfold entry_at. rewrite Hupd.
    destruct (andb (String.eqb (info_name info) n) (String.eqb (info_version info) v)) eqn:E.
    + apply andb_prop in E. destruct E as [En Ev].
      apply String.eqb_eq in En. apply String.eqb_eq in Ev. subst n v.
      exists (l ++ [e]). split; [reflexivity|]. apply in_or_app. left. congruence.
    + exists l0. auto.
Qed.

End NodeFacts.

(** ** States reached by calls of the graph's methods *)
Module CallFacts.
Import DepGraph GraphSpec.




Lemma call_links :
  forall g c g',
    call g c = Ok g' -> live_source g c = true ->
    links_paired g /\ sources_live g -> links_paired g' /\ sources_live g'.
Proof.
  intros g c g' H Hlive [Hp Hl].
  destruct c as [n v l|s t|s n r o|s n t|p o n]; simpl in H, Hlive.
  - inversion H; subst. split; [exact Hp|].
    intros s Hs. cbn [nodeCounter addNode]. apply Hl in Hs. lia.
  - inversion H; subst. apply Nat.ltb_lt in Hlive. split.
    + apply LinkFacts.addLink_paired, Hp.
    + apply LinkFacts.addLink_sources_live; assumption.
  - inversion H; subst. split; [exact Hp|exact Hl].
  - destruct (createVirtualNode g s n t) as [[g1 newId]|] eqn:E; [|discriminate].
    simpl in H. inversion H; subst.
    apply (LinkFacts.createVirtualNode_paired g s n t g' newId E Hp Hl).
  - apply (LinkFacts.changeChildren_paired g p o n g' H Hp Hl).
Qed.

Lemma calls_from_links :
  forall cs g0 g,
    forEach call cs g0 = Ok g -> live_sources cs g0 = true ->
    links_paired g0 /\ sources_live g0 -> links_paired g /\ sources_live g.
Proof.
  induction cs as [|c cs IH]; intros g0 g H Hlive Hinv; simpl in H, Hlive.
  - inversion H; subst. exact Hinv.
  - destruct (call g0 c) as [g1|] eqn:E; [|discriminate]. simpl in H.
    apply andb_prop in Hlive. destruct Hlive as [Hc Hrest].
    apply (IH g1 g H Hrest). apply (call_links g0 c g1 E Hc Hinv).
Qed.

(** C6, as the code has it. After any sequence of calls of [addNode],
    [addLink], [addPeerLink], [createVirtualNode] and [changeChildren] that
    all return, in which every [addLink] is given a source id that the
    counter has already handed out, [t] is in [links[s]] exactly when [s] is
    in [reversedLinks[t]]. *)
Theorem links_stay_paired :
  forall (cs : list Call) (g : Graph),
    calls cs = Ok g ->
    live_sources cs new = true ->
    forall s t, has_link g s t <-> has_reversed g t s.
Proof.
  intros cs g H Hlive.
  apply (calls_from_links cs new g H Hlive). split.
  - intros s t. unfold has_link, has_reversed, mem. simpl. reflexivity.
  - intros s []. 
Qed.

Lemma links_stay_paired_witness :
  has_link (addLink (addNode (addNode new "A" "1" true) "B" "1" false) 0 1) 0 1 <->
  has_reversed (addLink (addNode (addNode new "A" "1" true) "B" "1" false) 0 1) 1 0.
Proof.
  apply (links_stay_paired
           [CallAddNode "A" "1" true; CallAddNode "B" "1" false; CallAddLink 0 1]
           (addLink (addNode (addNode new "A" "1" true) "B" "1" false) 0 1));
    reflexivity.
Defined.

(** C6 as stated fails: [addLink] is given the source 1 before node 1
    exists; [createVirtualNode] then hands out the id 1 and replaces
    [links[1]], while [reversedLinks[7]] still holds 1. *)
Lemma links_unpaired_counterexample :
  exists g,
    calls [CallAddNode "a" "1" false; CallAddLink 1 7;
           CallCreateVirtualNode 0 "p" 0] = Ok g /\
    has_reversed g 7 1 /\ ~ has_link g 1 7.
Proof.
  eexists. split; [reflexivity|]. split.
  - cbv. left. reflexivity.
  - cbv. intros [H|[]]. discriminate.
Qed.

(** *** [getVirtualNode] after [createVirtualNode] *)

Lemma matches_virtual_spec :
  forall pd name dep e,
    matches_virtual pd name dep e = true ->
    List.length (Obj.keys (peerDeps e)) = List.length (Obj.keys pd) + 1 /\
    (forall k v, Obj.get pd k = Some v -> Obj.get (peerDeps e) k = Some v) /\
    Obj.get (peerDeps e) name = Some dep.
Proof.
  intros pd name dep e H. unfold matches_virtual in H.
  destruct (Nat.eqb (List.length (Obj.keys (peerDeps e))) (List.length (Obj.keys pd) + 1))
    eqn:Elen; [|discriminate]. simpl in H.
  destruct (forallb _ (Obj.keys pd)) eqn:Eall; [|discriminate]. simpl in H.
  split; [apply Nat.eqb_eq, Elen|]. split.
  - intros k v Hk. rewrite forallb_forall in Eall.
    assert (Hin : In k (Obj.keys pd)).
    { apply (proj2 (ObjFacts.keys_in _ pd k)).
      apply (in_map fst _ (k, v)), ObjFacts.get_in, Hk. }
    specialize (Eall k Hin). rewrite Hk in Eall.
    destruct (Obj.get (peerDeps e) k) as [a|]; [|discriminate].
    apply Nat.eqb_eq in Eall. congruence.
  - destruct (Obj.get (peerDeps e) name) as [a|]; [|discriminate].
    apply Nat.eqb_eq in H. congruence.
Qed.





End CallFacts.

(** ** The invariant of the resolver *)
Module InvFacts.
Import DepGraph GraphSpec.

Lemma forEach_preserves :
  forall (A S : Type) (P : S -> Prop) (f : S -> A -> result S),
    (forall s x s', f s x = Ok s' -> P s -> P s') ->
    forall l s s', forEach f l s = Ok s' -> P s -> P s'.
Proof.
  intros A S P f Hf. induction l as [|x l IH]; intros s s' H Hs; simpl in H.
  - inversion H; subst. exact Hs.
  - destruct (f s x) as [s1|] eqn:E; [|discriminate]. simpl in H.
    apply (IH s1 s' H). apply (Hf s x s1 E Hs).
Qed.

Lemma registered_below_counter :
  forall g x, nodes_ok g -> registered g x -> x < nodeCounter g.
Proof.
  intros g x Hok Hx. destruct (NodeFacts.registered_info g x Hok Hx) as [info Hinfo].
  apply (@info_below_counter g Hok x info Hinfo).
Qed.

Lemma addLink_inv :
  forall g s t,
    registered g s -> registered g t -> resolver_inv g -> resolver_inv (addLink g s t).
Proof.
  intros g s t Hs Ht [Hok [Hp [Hl [Hk Hr]]]].
  split; [|split; [|split; [|split]]].
  - apply NodeFacts.nodes_ok_ext with (g := g); auto.
  - apply LinkFacts.addLink_paired, Hp.
  - apply LinkFacts.addLink_sources_live; [|exact Hl].
    apply registered_below_counter; assumption.
  - intros a Ha. apply LinkFacts.addLink_keys in Ha.
    apply NodeFacts.registered_ext with (g := g); [reflexivity|].
    destruct Ha as [->|Ha]; [exact Hs|apply Hk, Ha].
  - intros a b Hab. apply LinkFacts.addLink_has_link in Hab.
    apply NodeFacts.registered_ext with (g := g); [reflexivity|].
    destruct Hab as [[_ ->]|Hab]; [exact Ht|apply (Hr a b Hab)].
Qed.

Lemma addPeerLink_inv :
  forall g s name range optional,
    resolver_inv g -> resolver_inv (addPeerLink g s name range optional).
Proof.
  intros g s name range optional [Hok [Hp [Hl [Hk Hr]]]].
  split; [|split; [|split; [|split]]].
  - apply NodeFacts.nodes_ok_ext with (g := g); auto.
  - exact Hp.
  - exact Hl.
  - intros a Ha. apply NodeFacts.registered_ext with (g := g); [reflexivity|apply Hk, Ha].
  - intros a b Hab. apply NodeFacts.registered_ext with (g := g); [reflexivity|].
    apply (Hr a b Hab).
Qed.

Lemma createVirtualNode_inv :
  forall g s name dep g' newId,
    createVirtualNode g s name dep = Ok (g', newId) ->
    registered g dep -> resolver_inv g ->
    resolver_inv g' /\ registered g' newId /\
    (forall x, registered g x -> registered g' x).
Proof.
  intros g s name dep g' newId H Hdep [Hok [Hp [Hl [Hk Hr]]]].
  destruct (NodeFacts.createVirtualNode_nodes_ok g s name dep g' newId H Hok)
    as [Hok' [Hnew Hmono]].
  destruct (LinkFacts.createVirtualNode_paired g s name dep g' newId H Hp Hl) as [Hp' Hl'].
  destruct (LinkFacts.createVirtualNode_links g s name dep g' newId H)
    as [_ [_ [Hf [_ [Hkeys _]]]]].
  split; [|split; [exact Hnew|exact Hmono]].
  split; [exact Hok'|]. split; [exact Hp'|]. split; [exact Hl'|]. split.
  - intros a Ha. apply Hkeys in Ha. destruct Ha as [->|Ha]; [exact Hnew|].
    apply Hmono, Hk, Ha.
  - intros a b Hab. apply Hf in Hab.
    destruct Hab as [[_ [->|Hb]]|[_ Hab]]; apply Hmono.
    + exact Hdep.
    + apply (Hr s b Hb).
    + apply (Hr a b Hab).
Qed.

Lemma changeChildren_inv :
  forall g p o n g',
    changeChildren g p o n = Ok g' ->
    registered g n -> resolver_inv g -> resolver_inv g'.
Proof.
  intros g p o n g' H Hn [Hok [Hp [Hl [Hk Hr]]]].
  destruct (LinkFacts.changeChildren_links g p o n g' H) as [En [Er [Ec [_ [Hf [_ Hkeys]]]]]].
  destruct (LinkFacts.changeChildren_paired g p o n g' H Hp Hl) as [Hp' Hl'].
  split; [|split; [exact Hp'|split; [exact Hl'|split]]].
  - apply NodeFacts.nodes_ok_ext with (g := g); assumption.
  - intros a Ha. apply NodeFacts.registered_ext with (g := g); [exact En|].
    apply Hk, Hkeys, Ha.
  - intros a b Hab. apply NodeFacts.registered_ext with (g := g); [exact En|].
    apply Hf in Hab. destruct Hab as [[_ [->|[_ Hb]]]|[_ Hab]].
    + exact Hn.
    + apply (Hr p b Hb).
    + apply (Hr a b Hab).
Qed.

Lemma getNodeWithoutPeerDependencies_registered :
  forall g name version x,
    getNodeWithoutPeerDependencies g name version = Ok (Some x) -> registered g x.
Proof.
  intros g name version x H. unfold getNodeWithoutPeerDependencies in H.
  destruct (Obj.get (nodes g) name) as [bv|] eqn:Ebv; [|discriminate].
  destruct (Obj.get bv version) as [l|] eqn:El; [|discriminate].
  destruct (find _ l) as [o|] eqn:Ef; [|discriminate]. simpl in H. inversion H; subst.
  apply find_some in Ef. exists name, version, o. split; [|reflexivity].
  exists l. split; [|apply Ef]. unfold list_at. rewrite Ebv. exact El.
Qed.

Lemma getVirtualNode_registered :
  forall g s name dep x,
    getVirtualNode g s name dep = Ok (Some x) -> registered g x.
Proof.
  intros g s name dep x H. unfold getVirtualNode in H.
  destruct (NMap.get (reversedNodes g) s) as [info|]; [|discriminate]. cbn [unwrap bind] in H.
  unfold nodes_at in H.
  destruct (Obj.get (nodes g) (info_name info)) as [bv|] eqn:Ebv; [|discriminate].
  cbn [unwrap bind] in H.
  destruct (Obj.get bv (info_version info)) as [l|] eqn:El; [|discriminate].
  cbn [unwrap bind] in H.
  destruct (filter _ l) as [|m rest] eqn:Ef; [discriminate|]. inversion H; subst.
  assert (Hm : In m (filter (matches_virtual (info_peerDeps info) name dep) l))
    by (rewrite Ef; left; reflexivity).
  apply filter_In in Hm. exists (info_name info), (info_version info), m.
  split; [|reflexivity]. exists l. split; [|apply Hm]. unfold list_at. rewrite Ebv. exact El.
Qed.

(** *** The phases that build the graph *)

Lemma addNodes_inv :
  forall (ms : list Resolver.PackageManifest) g,
    nodes_ok g -> links g = [] -> reversedLinks g = [] ->
    let g' :=
      fold_left (fun g m => addNode g (Resolver.name m) (Resolver.version m)
                              (Resolver.truthy (Resolver.isLocal m))) ms g in
    nodes_ok g' /\ links g' = [] /\ reversedLinks g' = [].
Proof.
  induction ms as [|m ms IH]; intros g Hok Hl Hr; simpl; [auto|].
  apply IH; [apply NodeFacts.addNode_nodes_ok, Hok|exact Hl|exact Hr].
Qed.

Lemma no_links_inv :
  forall g, nodes_ok g -> links g = [] -> reversedLinks g = [] -> resolver_inv g.
Proof.
  intros g Hok Hl Hr. split; [exact Hok|]. split; [|split; [|split]].
  - intros s t. unfold has_link, has_reversed, mem, get_or_empty. rewrite Hl, Hr.
    simpl. reflexivity.
  - intros s Hs. rewrite Hl in Hs. destruct Hs.
  - intros s Hs. rewrite Hl in Hs. destruct Hs.
  - intros s t Hst. unfold has_link, mem, get_or_empty in Hst. rewrite Hl in Hst.
    destruct Hst.
Qed.

Lemma link_dependency_inv :
  forall rm skip sourceId g dep g',
    Resolver.link_dependency rm skip sourceId g dep = Ok g' ->
    (forall x, sourceId = Some x -> registered g x) ->
    resolver_inv g -> resolver_inv g' /\ nodes g' = nodes g.
Proof.
  intros rm skip sourceId g dep g' H Hsrc Hinv.
  unfold Resolver.link_dependency in H.
  destruct (Obj.get rm (fst dep)) as [byRange|]; [|discriminate].
  cbn [unwrap bind] in H.
  destruct (getNodeWithoutPeerDependencies g (fst dep)
              (Obj.property_key (Obj.get byRange (snd dep)))) as [[tgt|]|] eqn:Et;
    cbn [bind] in H; try discriminate.
  - destruct sourceId as [src|]; cbn [unwrap bind] in H; [|discriminate].
    inversion H; subst. split; [|reflexivity].
    apply addLink_inv; [apply Hsrc; reflexivity| |exact Hinv].
    apply (getNodeWithoutPeerDependencies_registered _ _ _ _ Et).
  - destruct skip; [|discriminate]. inversion H; subst. auto.
Qed.

Lemma link_dependencies_inv :
  forall rm skip deps g m g',
    Resolver.link_dependencies rm skip deps g m = Ok g' ->
    resolver_inv g -> resolver_inv g'.
Proof.
  intros rm skip deps g m g' H Hinv. unfold Resolver.link_dependencies in H.
  destruct (getNodeWithoutPeerDependencies g (Resolver.name m) (Resolver.version m))
    as [sourceId|] eqn:Es; [|discriminate]. cbn [bind] in H.
  destruct deps as [dependencies|]; [|inversion H; subst; auto].
  assert (Hgen : forall l g1 g2,
             forEach (Resolver.link_dependency rm skip sourceId) l g1 = Ok g2 ->
             resolver_inv g1 /\ nodes g1 = nodes g ->
             resolver_inv g2 /\ nodes g2 = nodes g).
  { apply forEach_preserves. intros g1 dep g2 Hstep [Hinv1 Hn1].
    destruct (link_dependency_inv rm skip sourceId g1 dep g2 Hstep) as [Hinv2 Hn2].
    - intros x Hx. subst sourceId.
      apply NodeFacts.registered_ext with (g := g); [exact Hn1|].
      apply (getNodeWithoutPeerDependencies_registered _ _ _ _ Es).
    - exact Hinv1.
    - split; [exact Hinv2|congruence]. }
  apply (Hgen _ _ _ H). auto.
Qed.

Lemma register_peers_inv :
  forall g m g', Resolver.register_peers g m = Ok g' -> resolver_inv g -> resolver_inv g'.
Proof.
  intros g m g' H Hinv. unfold Resolver.register_peers in H.
  destruct (getNodeWithoutPeerDependencies g (Resolver.name m) (Resolver.version m))
    as [sourceId|]; [|discriminate]. cbn [bind] in H.
  revert H Hinv. apply forEach_preserves.
  intros g1 dep g2 Hstep Hinv1.
  destruct sourceId; cbn [unwrap bind] in Hstep; [|discriminate].
  inversion Hstep; subst. apply addPeerLink_inv, Hinv1.
Qed.

Lemma build_graph_inv :
  forall ms rm g, Resolver.build_graph ms rm = Ok g -> resolver_inv g.
Proof.
  intros ms rm g H. unfold Resolver.build_graph in H.
  destruct (addNodes_inv ms new NodeFacts.new_nodes_ok eq_refl eq_refl) as [Hok [Hl Hr]].
  assert (H0 := no_links_inv _ Hok Hl Hr).
  destruct (forEach _ ms (fold_left _ ms new)) as [g1|] eqn:E1; [|discriminate].
  cbn [bind] in H.
  assert (H1 : resolver_inv g1).
  { revert E1 H0. apply forEach_preserves. intros s m s' Hs Hinv.
    apply (link_dependencies_inv _ _ _ _ _ _ Hs Hinv). }
  destruct (forEach _ ms g1) as [g2|] eqn:E2; [|discriminate]. cbn [bind] in H.
  assert (H2 : resolver_inv g2).
  { revert E2 H1. apply forEach_preserves. intros s m s' Hs Hinv.
    destruct (negb (Resolver.truthy (Resolver.isLocal m))).
    - inversion Hs; subst. exact Hinv.
    - apply (link_dependencies_inv _ _ _ _ _ _ Hs Hinv). }
  destruct (forEach _ ms g2) as [g3|] eqn:E3; [|discriminate]. cbn [bind] in H.
  assert (H3 : resolver_inv g3).
  { revert E3 H2. apply forEach_preserves. intros s m s' Hs Hinv.
    apply (link_dependencies_inv _ _ _ _ _ _ Hs Hinv). }
  revert H H3. apply forEach_preserves. apply register_peers_inv.
Qed.

End InvFacts.

(** ** One iteration of the peer-dependency loop *)
Module StepFacts.
Import DepGraph GraphSpec ResolverSpec.

Lemma still_linked_has_link :
  forall g p s, still_linked g p s = true <-> has_link g p s.
Proof.
  intros g p s. unfold still_linked, has_link, mem, get_or_empty.
  destruct (NMap.get (links g) p) as [ch|].
  - apply NMapFacts.has_keys.
  - split; [discriminate|intros []].
Qed.

Lemma linked_ends_registered :
  forall g p s,
    resolver_inv g -> has_link g p s -> registered g p /\ registered g s.
Proof.
  intros g p s [_ [_ [_ [Hk Hr]]]] H. split.
  - apply Hk. apply (LinkFacts.mem_key _ _ _ H).
  - apply (Hr p s H).
Qed.

Lemma candidate_registered :
  forall g p s name x,
    resolver_inv g -> has_link g p s ->
    In x (filter (Resolver.named g name) (children g p ++ [p])) -> registered g x.
Proof.
  intros g p s name x Hinv Hps Hx. apply filter_In in Hx. destruct Hx as [Hx _].
  apply in_app_or in Hx. destruct Hx as [Hx|[<-|[]]].
  - destruct Hinv as [_ [_ [_ [_ Hr]]]]. apply (Hr p x Hx).
  - apply (linked_ends_registered g p s Hinv Hps).
Qed.

Lemma resolveChild_provider :
  forall sat g fail p s range name optional lines x,
    Resolver.resolveChild sat g fail p s range name optional = (lines, Ok (Resolver.Resolved x)) ->
    exists rest, filter (Resolver.named g name) (children g p ++ [p]) = x :: rest.
Proof.
  intros sat g fail p s range name optional lines x H. unfold Resolver.resolveChild in H.
  destruct (existsb (Resolver.named g name) (children g s)); [discriminate|].
  destruct (filter (Resolver.named g name) (children g p ++ [p])) as [|found rest].
  - destruct optional; [discriminate|].
    destruct (hasPeerLink g p); [discriminate|].
    destruct (NMap.get (reversedNodes g) p); [|discriminate].
    destruct (NMap.get (reversedNodes g) s); [|discriminate].
    destruct fail; discriminate.
  - exists rest. destruct (NMap.get (reversedNodes g) found); [|discriminate].
    destruct (negb (sat (info_version i) range)).
    + destruct (NMap.get (reversedNodes g) p); [|discriminate].
      destruct (NMap.get (reversedNodes g) s); [|discriminate].
      inversion H; subst. reflexivity.
    + inversion H; subst. reflexivity.
Qed.

(** With a provider in hand the rest of the iteration cannot throw. *)
Lemma apply_resolution_returns :
  forall g pd rest wd x,
    resolver_inv g -> has_link g (parentId pd) (sourceId pd) ->
    exists next, Resolver.apply_resolution g pd rest wd (Resolver.Resolved x) = Ok next.
Proof.
  intros g pd rest wd x Hinv Hlink.
  destruct (linked_ends_registered g _ _ Hinv Hlink) as [Hp Hs].
  destruct Hinv as [Hok [Hpair [Hlive Hreg]]].
  destruct (NodeFacts.registered_info g _ Hok Hs) as [info Hinfo].
  destruct (@info_listed g Hok _ _ Hinfo) as [l Hl].
  assert (Hparent : exists pl, NMap.get (links g) (parentId pd) = Some pl).
  { apply NMapFacts.in_keys_get. apply (LinkFacts.mem_key _ _ _ Hlink). }
  assert (Hsource : exists rv, NMap.get (reversedLinks g) (sourceId pd) = Some rv).
  { apply NMapFacts.in_keys_get. apply Hpair in Hlink. apply (LinkFacts.mem_key _ _ _ Hlink). }
  destruct Hparent as [pl Hpl]. destruct Hsource as [rv Hrv].
  unfold Resolver.apply_resolution, getVirtualNode, nodes_at.
  rewrite Hinfo. cbn [unwrap bind]. unfold list_at in Hl.
  destruct (Obj.get (nodes g) (info_name info)) as [bv|] eqn:Ebv; [|discriminate].
  cbn [unwrap bind]. rewrite Hl. cbn [unwrap bind].
  destruct (filter _ l) as [|m ms].
  - cbn [bind]. unfold createVirtualNode. rewrite Hinfo. cbn [unwrap bind].
    rewrite Ebv. cbn [unwrap bind]. rewrite Hl. cbn [unwrap bind fst snd].
    unfold changeChildren. cbn [links reversedLinks].
    rewrite NMapFacts.nmap_get_set.
    destruct (Nat.eqb (nodeCounter g) (parentId pd)) eqn:E.
    + cbn [unwrap bind].
      match goal with
      | |- context [NMap.get ?m (sourceId pd)] =>
          destruct (proj1 (NMapFacts.in_keys_get _ m (sourceId pd))) as [rv' Hrv']
      end.
      { apply LinkFacts.keys_add_reversed. right.
        apply LinkFacts.keys_fold_add_reversed. right.
        apply NMapFacts.in_keys_get. exists rv. exact Hrv. }
      rewrite Hrv'. cbn [unwrap bind]. eexists. reflexivity.
    + rewrite NMapFacts.nmap_get_set, E, Hpl. cbn [unwrap bind].
      match goal with
      | |- context [NMap.get ?m (sourceId pd)] =>
          destruct (proj1 (NMapFacts.in_keys_get _ m (sourceId pd))) as [rv' Hrv']
      end.
      { apply LinkFacts.keys_add_reversed. right.
        apply LinkFacts.keys_fold_add_reversed. right.
        apply NMapFacts.in_keys_get. exists rv. exact Hrv. }
      rewrite Hrv'. cbn [unwrap bind]. eexists. reflexivity.
  - cbn [bind]. unfold changeChildren. rewrite Hpl. cbn [unwrap bind].
    rewrite Hrv. cbn [unwrap bind]. eexists. reflexivity.
Qed.

Lemma apply_resolution_inv :
  forall g pd rest wd resolution g' queue wd',
    Resolver.apply_resolution g pd rest wd resolution = Ok (g', queue, wd') ->
    (forall x, resolution = Resolver.Resolved x -> registered g x) ->
    resolver_inv g -> resolver_inv g'.
Proof.
  intros g pd rest wd resolution g' queue wd' H Hx Hinv.
  unfold Resolver.apply_resolution in H.
  destruct resolution as [x| | |]; try (inversion H; subst; exact Hinv).
  specialize (Hx x eq_refl).
  destruct (getVirtualNode g (sourceId pd) (p_targetName pd) x) as [[existing|]|] eqn:Ev;
    cbn [bind] in H; try discriminate.
  - destruct (changeChildren g (parentId pd) (sourceId pd) existing) as [g1|] eqn:Ec;
      cbn [bind] in H; [|discriminate].
    inversion H; subst.
    apply (InvFacts.changeChildren_inv g _ _ _ _ Ec); [|exact Hinv].
    apply (InvFacts.getVirtualNode_registered _ _ _ _ _ Ev).
  - destruct (createVirtualNode g (sourceId pd) (p_targetName pd) x)
      as [[g1 newId]|] eqn:Ecreate; cbn [bind fst snd] in H; [|discriminate].
    destruct (changeChildren g1 (parentId pd) (sourceId pd) newId) as [g2|] eqn:Ec;
      cbn [bind] in H; [|discriminate].
    inversion H; subst.
    destruct (InvFacts.createVirtualNode_inv _ _ _ _ _ _ Ecreate Hx Hinv)
      as [Hinv1 [Hnew _]].
    apply (InvFacts.changeChildren_inv g1 _ _ _ _ Ec Hnew Hinv1).
Qed.

Lemma step_inv :
  forall sat fail st pd rest lines st',
    Resolver.step sat fail st pd rest = (lines, Ok st') ->
    resolver_inv (Resolver.graph st) -> resolver_inv (Resolver.graph st').
Proof.
  intros sat fail st pd rest lines st' H Hinv. unfold Resolver.step in H.
  fold (still_linked (Resolver.graph st) (parentId pd) (sourceId pd)) in H.
  destruct (still_linked (Resolver.graph st) (parentId pd) (sourceId pd)) eqn:Elinked;
    cbn [negb] in H.
  - apply still_linked_has_link in Elinked.
    destruct (Resolver.resolveChild sat (Resolver.graph st) fail (parentId pd) (sourceId pd)
                (p_targetRange pd) (p_targetName pd) (p_optional pd))
      as [ls [resolution|e]] eqn:Er; [|inversion H].
    cbn [bind] in H.
    destruct (Resolver.apply_resolution (Resolver.graph st) pd rest (Resolver.watchDog st)
                resolution) as [[[g' queue] wd']|] eqn:Ea; cbn [bind] in H;
      inversion H; subst. cbn [Resolver.graph fst].
    apply (apply_resolution_inv _ _ _ _ _ _ _ _ Ea); [|exact Hinv].
    intros x ->. destruct (resolveChild_provider _ _ _ _ _ _ _ _ _ _ Er) as [more Hf].
    apply (candidate_registered _ _ _ (p_targetName pd) x Hinv Elinked).
    rewrite Hf. left. reflexivity.
  - inversion H; subst. exact Hinv.
Qed.

Lemma resolve_loop_inv :
  forall sat fail fuel st lines g,
    Resolver.resolve_loop sat fail fuel st = Some (lines, Ok g) ->
    resolver_inv (Resolver.graph st) -> resolver_inv g.
Proof.
  intros sat fail. induction fuel as [|fuel IH]; intros st lines g H Hinv; simpl in H.
  - destruct (Resolver.peerDeps st); [inversion H; subst; exact Hinv|].
    destruct (Nat.eqb (Resolver.watchDog st) 0); [inversion H; subst; exact Hinv|discriminate].
  - destruct (Resolver.peerDeps st) as [|pd rest]; [inversion H; subst; exact Hinv|].
    destruct (Nat.eqb (Resolver.watchDog st) 0); [inversion H; subst; exact Hinv|].
    destruct (Resolver.step sat fail st pd rest) as [ls [st'|e]] eqn:Es.
    + apply (IH st' lines g H). apply (step_inv _ _ _ _ _ _ _ Es Hinv).
    + discriminate.
Qed.


End StepFacts.

(** ** Peer dependencies: the warning, and local packages *)
Module PeerFacts.
Import DepGraph GraphSpec ResolverSpec.

Lemma warning_prefix :
  forall name sourceName sourceVersion parentName parentVersion version range,
    String.prefix "[WARNING] unmatching peer dependency"
      (Resolver.unmatching_warning name sourceName sourceVersion parentName parentVersion
         version range) = true.
Proof. intros. reflexivity. Qed.

(** What [getVirtualNode] finds is an entry of the list of the source that
    passes the filter. *)
Lemma getVirtualNode_found :
  forall g s name dep v,
    getVirtualNode g s name dep = Ok (Some v) ->
    exists info l m,
      NMap.get (reversedNodes g) s = Some info /\
      list_at g (info_name info) (info_version info) = Some l /\
      In m l /\
      matches_virtual (info_peerDeps info) name dep m = true /\
      id m = v.
Proof.
  intros g s name dep v H. unfold getVirtualNode in H.
  destruct (NMap.get (reversedNodes g) s) as [info|]; [|discriminate].
  cbn [unwrap bind] in H. unfold nodes_at in H.
  destruct (Obj.get (nodes g) (info_name info)) as [bv|] eqn:Ebv; [|discriminate].
  cbn [unwrap bind] in H.
  destruct (Obj.get bv (info_version info)) as [l|] eqn:El; [|discriminate].
  cbn [unwrap bind] in H.
  destruct (filter _ l) as [|m rest] eqn:Ef; [discriminate|]. inversion H; subst.
  assert (Hm : In m (filter (matches_virtual (info_peerDeps info) name dep) l))
    by (rewrite Ef; left; reflexivity).
  apply filter_In in Hm. exists info, l, m.
  split; [reflexivity|]. split; [unfold list_at; rewrite Ebv; exact El|].
  split; [apply Hm|]. split; [apply Hm|reflexivity].
Qed.

(** What the loop does with a provider: the parent gets, in the place of
    the source, the virtual node of the source whose peer dependency is
    fulfilled by the provider; a virtual node that is made for it links to
    the provider and to what the source links to. *)
Lemma apply_resolution_rewires :
  forall g pd rest wd x g' queue wd',
    resolver_inv g -> has_link g (parentId pd) (sourceId pd) ->
    Resolver.apply_resolution g pd rest wd (Resolver.Resolved x) = Ok (g', queue, wd') ->
    exists v sinfo vinfo,
      NMap.get (reversedNodes g) (sourceId pd) = Some sinfo /\
      NMap.get (reversedNodes g') v = Some vinfo /\
      info_name vinfo = info_name sinfo /\
      info_version vinfo = info_version sinfo /\
      Obj.get (info_peerDeps vinfo) (p_targetName pd) = Some x /\
      v <> sourceId pd /\
      has_link g' (parentId pd) v /\
      ~ has_link g' (parentId pd) (sourceId pd) /\
      match getVirtualNode g (sourceId pd) (p_targetName pd) x with
      | Ok (Some existing) => v = existing
      | Ok None =>
          v = nodeCounter g /\
          has_link g' v x /\
          forall c, has_link g (sourceId pd) c -> has_link g' v c
      | Throw _ => False
      end.
Proof.
  intros g pd rest wd x g' queue wd' Hinv Hlink H.
  destruct (StepFacts.linked_ends_registered g _ _ Hinv Hlink) as [Hp Hs].
  assert (Hok : nodes_ok g) by apply Hinv.
  assert (Hplt : parentId pd < nodeCounter g)
    by (apply InvFacts.registered_below_counter; assumption).
  assert (Hslt : sourceId pd < nodeCounter g)
    by (apply InvFacts.registered_below_counter; assumption).
  unfold Resolver.apply_resolution in H. cbv zeta in H.
  destruct (getVirtualNode g (sourceId pd) (p_targetName pd) x) as [[existing|]|e] eqn:Ev;
    cbn [bind] in H; [| |discriminate].
  - destruct (changeChildren g (parentId pd) (sourceId pd) existing) as [g2|] eqn:Ec;
      cbn [bind] in H; [|discriminate].
    inversion H; subst g' queue wd'. clear H.
    destruct (getVirtualNode_found _ _ _ _ _ Ev) as [info [l [m [Hinfo [Hl [Hm [Hmatch Hid]]]]]]].
    destruct (CallFacts.matches_virtual_spec _ _ _ _ Hmatch) as [Hlen [_ Hget]].
    assert (Hentry : NMap.get (reversedNodes g) (id m)
                     = Some (mkInfo (info_name info) (info_version info) (peerDeps m)
                               (isLocal m))).
    { apply (@entry_info g Hok). exists l. split; assumption. }
    destruct (LinkFacts.changeChildren_links _ _ _ _ _ Ec)
      as [_ [Hrev [_ [_ [Hlinks _]]]]].
    assert (Hne : existing <> sourceId pd).
    { intros Heq. rewrite <- Hid in Heq. rewrite Heq, Hinfo in Hentry.
      inversion Hentry as [Hi]. rewrite Hi in Hlen. cbn [info_peerDeps] in Hlen. lia. }
    exists existing, info, (mkInfo (info_name info) (info_version info) (peerDeps m) (isLocal m)).
    split; [exact Hinfo|]. split; [rewrite Hrev, <- Hid; exact Hentry|].
    split; [reflexivity|]. split; [reflexivity|]. split; [exact Hget|].
    split; [exact Hne|]. split; [apply Hlinks; left; auto|].
    split; [|reflexivity].
    intros Hold. apply Hlinks in Hold. destruct Hold as [[_ [Heq|[Hneq _]]]|[Hneq _]].
    + apply Hne. symmetry. exact Heq.
    + apply Hneq. reflexivity.
    + apply Hneq. reflexivity.
  - destruct (createVirtualNode g (sourceId pd) (p_targetName pd) x) as [[g1 newId]|]
      eqn:Ecreate; cbn [bind fst snd] in H; [|discriminate].
    destruct (changeChildren g1 (parentId pd) (sourceId pd) newId) as [g2|] eqn:Ec;
      cbn [bind] in H; [|discriminate].
    inversion H; subst g' queue wd'. clear H.
    destruct (NodeFacts.createVirtualNode_nodes _ _ _ _ _ _ Ecreate)
      as [info [l [Hinfo [_ [Hnew [_ [_ [Hrev1 _]]]]]]]].
    destruct (LinkFacts.createVirtualNode_links _ _ _ _ _ _ Ecreate)
      as [_ [_ [Hlinks1 _]]].
    destruct (LinkFacts.changeChildren_links _ _ _ _ _ Ec)
      as [_ [Hrev [_ [_ [Hlinks _]]]]].
    assert (Hnp : newId <> parentId pd) by lia.
    assert (Hns : newId <> sourceId pd) by lia.
    exists newId, info,
      (mkInfo (info_name info) (info_version info)
         (Obj.set (Obj.spread Obj.empty (info_peerDeps info)) (p_targetName pd) x)
         (info_isLocal info)).
    split; [exact Hinfo|].
    split; [rewrite Hrev, Hrev1; apply NMapFacts.nmap_get_set_eq|].
    split; [reflexivity|]. split; [reflexivity|].
    split; [apply ObjFacts.obj_get_set_eq|].
    split; [exact Hns|]. split; [apply Hlinks; left; auto|].
    split.
    + intros Hold. apply Hlinks in Hold. destruct Hold as [[_ [Heq|[Hneq _]]]|[Hneq _]].
      * apply Hns. symmetry. exact Heq.
      * apply Hneq. reflexivity.
      * apply Hneq. reflexivity.
    + split; [exact Hnew|]. split.
      * apply Hlinks. right. split; [exact Hnp|]. apply Hlinks1. left. auto.
      * intros c Hc. apply Hlinks. right. split; [exact Hnp|].
        apply Hlinks1. left. auto.
Qed.

(** C4. In a state of the resolver, take a pending peer link whose parent
    still links to its source and for which [resolveChild] picks the provider
    [provider] when every version is taken to satisfy every range. If the
    version of [provider] does not satisfy the declared range, [resolveChild]
    returns the same provider and writes one line that starts with
    [[WARNING] unmatching peer dependency]; the iteration does not throw, and
    it leaves the graph, the queue and the watchdog that the satisfying case
    leaves. In that graph the parent links to a node [v] that is not the
    source, and no longer to the source; [v] has the name and the version of
    the source, and its [peerDeps] send the name of the peer dependency to
    [provider]. [v] is the virtual node [getVirtualNode] found for the
    source and [provider], or else the new node [createVirtualNode] made,
    which links to [provider] and to every node the source links to. *)
Theorem unmatching_provider_is_used :
  forall (sat : string -> string -> bool) (fail : bool) (st : Resolver.State)
         (pd : PendingPeer) (rest : list PendingPeer) (provider : nat) (info : Info),
    resolver_inv (Resolver.graph st) ->
    has_link (Resolver.graph st) (parentId pd) (sourceId pd) ->
    Resolver.resolveChild always_satisfied (Resolver.graph st) fail (parentId pd)
      (sourceId pd) (p_targetRange pd) (p_targetName pd) (p_optional pd)
    = ([], Ok (Resolver.Resolved provider)) ->
    NMap.get (reversedNodes (Resolver.graph st)) provider = Some info ->
    sat (info_version info) (p_targetRange pd) = false ->
    exists warning st' v sinfo vinfo,
      String.prefix "[WARNING] unmatching peer dependency" warning = true /\
      Resolver.resolveChild sat (Resolver.graph st) fail (parentId pd) (sourceId pd)
        (p_targetRange pd) (p_targetName pd) (p_optional pd)
      = ([warning], Ok (Resolver.Resolved provider)) /\
      Resolver.step sat fail st pd rest = (Resolver.console st ++ [warning], Ok st') /\
      Resolver.console st' = Resolver.console st ++ [warning] /\
      Resolver.step always_satisfied fail st pd rest
      = (Resolver.console st ++ [],
         Ok (Resolver.mkState (Resolver.graph st') (Resolver.peerDeps st')
               (Resolver.watchDog st') (Resolver.console st ++ []))) /\
      NMap.get (reversedNodes (Resolver.graph st)) (sourceId pd) = Some sinfo /\
      NMap.get (reversedNodes (Resolver.graph st')) v = Some vinfo /\
      info_name vinfo = info_name sinfo /\
      info_version vinfo = info_version sinfo /\
      Obj.get (info_peerDeps vinfo) (p_targetName pd) = Some provider /\
      v <> sourceId pd /\
      has_link (Resolver.graph st') (parentId pd) v /\
      ~ has_link (Resolver.graph st') (parentId pd) (sourceId pd) /\
      match getVirtualNode (Resolver.graph st) (sourceId pd) (p_targetName pd) provider with
      | Ok (Some existing) => v = existing
      | Ok None =>
          v = nodeCounter (Resolver.graph st) /\
          has_link (Resolver.graph st') v provider /\
          forall c, has_link (Resolver.graph st) (sourceId pd) c ->
                    has_link (Resolver.graph st') v c
      | Throw _ => False
      end.
Proof.
  intros sat fail st pd rest provider info Hinv Hlink Halways Hinfo Hsat.
  set (g := Resolver.graph st) in *.
  destruct (StepFacts.linked_ends_registered g _ _ Hinv Hlink) as [Hp Hs].
  destruct (NodeFacts.registered_info g _ (proj1 Hinv) Hp) as [pinfo Hpinfo].
  destruct (NodeFacts.registered_info g _ (proj1 Hinv) Hs) as [sinfo Hsinfo].
  set (warning := Resolver.unmatching_warning (p_targetName pd) (info_name sinfo)
                    (info_version sinfo) (info_name pinfo) (info_version pinfo)
                    (info_version info) (p_targetRange pd)).
  assert (Hchild : Resolver.resolveChild sat g fail (parentId pd) (sourceId pd)
                     (p_targetRange pd) (p_targetName pd) (p_optional pd)
                   = ([warning], Ok (Resolver.Resolved provider))).
  { destruct (StepFacts.resolveChild_provider _ _ _ _ _ _ _ _ _ _ Halways) as [more Hf].
    unfold Resolver.resolveChild in *.
    destruct (existsb (Resolver.named g (p_targetName pd)) (children g (sourceId pd)));
      [discriminate|].
    rewrite Hf, Hinfo, Hsat, Hpinfo, Hsinfo. reflexivity. }
  destruct (StepFacts.apply_resolution_returns g pd rest (Resolver.watchDog st) provider
              Hinv Hlink) as [[[g' queue] wd'] Hnext].
  destruct (apply_resolution_rewires g pd rest (Resolver.watchDog st) provider g' queue wd'
              Hinv Hlink Hnext)
    as [v [sinfo' [vinfo [Hsrc [Hv [Hname [Hversion [Hpeer [Hne [Hnew [Hold Hcase]]]]]]]]]]].
  assert (Hlinked : still_linked g (parentId pd) (sourceId pd) = true)
    by (apply StepFacts.still_linked_has_link, Hlink).
  exists warning, (Resolver.mkState g' queue wd' (Resolver.console st ++ [warning])),
         v, sinfo', vinfo.
  cbn [Resolver.graph Resolver.console Resolver.peerDeps Resolver.watchDog].
  split; [apply warning_prefix|]. split; [exact Hchild|].
  split.
  { unfold Resolver.step. fold g. fold (still_linked g (parentId pd) (sourceId pd)).
    rewrite Hlinked. cbn [negb]. rewrite Hchild. cbn [bind]. rewrite Hnext. reflexivity. }
  split; [reflexivity|].
  split.
  { unfold Resolver.step. fold g. fold (still_linked g (parentId pd) (sourceId pd)).
    rewrite Hlinked. cbn [negb]. rewrite Halways. cbn [bind]. rewrite Hnext. reflexivity. }
  repeat (split; [assumption|]). exact Hcase.
Qed.

Lemma unmatching_provider_is_used_witness :
  exists warning st' v sinfo vinfo,
    String.prefix "[WARNING] unmatching peer dependency" warning = true /\
    Resolver.resolveChild ResolverExamples.satisfies ResolverExamples.wrong_version_graph
      true 0 1 "^2.0.0" "C" false
    = ([warning], Ok (Resolver.Resolved 2)) /\
    Resolver.step ResolverExamples.satisfies true
      (Resolver.mkState ResolverExamples.wrong_version_graph [] 2 [])
      ResolverExamples.wrong_version_pending []
    = ([] ++ [warning], Ok st') /\
    Resolver.console st' = [] ++ [warning] /\
    Resolver.step always_satisfied true
      (Resolver.mkState ResolverExamples.wrong_version_graph [] 2 [])
      ResolverExamples.wrong_version_pending []
    = ([] ++ [],
       Ok (Resolver.mkState (Resolver.graph st') (Resolver.peerDeps st')
             (Resolver.watchDog st') ([] ++ []))) /\
    NMap.get (reversedNodes ResolverExamples.wrong_version_graph) 1 = Some sinfo /\
    NMap.get (reversedNodes (Resolver.graph st')) v = Some vinfo /\
    info_name vinfo = info_name sinfo /\
    info_version vinfo = info_version sinfo /\
    Obj.get (info_peerDeps vinfo) "C" = Some 2 /\
    v <> 1 /\
    has_link (Resolver.graph st') 0 v /\
    ~ has_link (Resolver.graph st') 0 1 /\
    match getVirtualNode ResolverExamples.wrong_version_graph 1 "C" 2 with
    | Ok (Some existing) => v = existing
    | Ok None =>
        v = nodeCounter ResolverExamples.wrong_version_graph /\
        has_link (Resolver.graph st') v 2 /\
        forall c, has_link ResolverExamples.wrong_version_graph 1 c ->
                  has_link (Resolver.graph st') v c
    | Throw _ => False
    end.
Proof.
  apply (unmatching_provider_is_used ResolverExamples.satisfies true
           (Resolver.mkState ResolverExamples.wrong_version_graph [] 2 [])
           ResolverExamples.wrong_version_pending [] 2 (mkInfo "C" "1.0.1" [] false)).
  - apply (InvFacts.build_graph_inv ResolverExamples.wrong_version
             ResolverExamples.basic_resolutions). reflexivity.
  - vm_compute. left. reflexivity.
  - reflexivity.
  - reflexivity.
  - reflexivity.
Defined.

(** [getPeerLinks] returns no entry whose source is a local node. *)
Lemma getPeerLinks_skips_local :
  forall g queue pd,
    getPeerLinks g = Ok queue -> In pd queue ->
    exists info,
      NMap.get (reversedNodes g) (sourceId pd) = Some info /\ info_isLocal info = false.
Proof.
  intros g queue pd H Hin. unfold getPeerLinks in H.
  assert (Hgen : forall ks acc out,
             forEach
               (fun result next =>
                  let* info := unwrap (NMap.get (reversedNodes g) next) in
                  if info_isLocal info then Ok result
                  else
                    let parents := NMap.keys (get_or_empty (reversedLinks g) next) in
                    let* peers := unwrap (NMap.get (peerLinks g) next) in
                    Ok (result ++
                        flat_map (fun parent =>
                                    map (fun peerLink =>
                                           mkPending parent next (targetName peerLink)
                                             (targetRange peerLink) (optional peerLink))
                                        peers)
                                 parents))
               ks acc = Ok out ->
             (forall p, In p acc ->
                exists info, NMap.get (reversedNodes g) (sourceId p) = Some info
                             /\ info_isLocal info = false) ->
             forall p, In p out ->
                exists info, NMap.get (reversedNodes g) (sourceId p) = Some info
                             /\ info_isLocal info = false).
  { induction ks as [|k ks IH]; intros acc out Hrun Hacc; simpl in Hrun.
    - inversion Hrun; subst. exact Hacc.
    - destruct (NMap.get (reversedNodes g) k) as [info|] eqn:Ek; [|discriminate].
      cbn [unwrap bind] in Hrun.
      destruct (info_isLocal info) eqn:El.
      + cbn [bind] in Hrun. apply (IH acc out Hrun Hacc).
      + destruct (NMap.get (peerLinks g) k) as [peers|]; [|discriminate].
        cbn [unwrap bind] in Hrun. apply (IH _ out Hrun).
        intros p Hp. apply in_app_or in Hp. destruct Hp as [Hp|Hp]; [apply Hacc, Hp|].
        apply in_flat_map in Hp. destruct Hp as [parent [_ Hp]].
        apply in_map_iff in Hp. destruct Hp as [pl [<- _]]. cbn [sourceId].
        exists info. auto. }
  apply (Hgen _ _ _ H); [intros p []|exact Hin].
Qed.

(** C5, at the failing input. [L] is local and declares the peer dependency
    [X]; [getPeerLinks] leaves it out, but when [B], which depends on [L], is
    virtualized, the peer links of its children are queued without looking at
    [isLocal], and the resolver throws for the peer of the local package. *)
Theorem local_peer_is_resolved_below_virtual_parent :
  Resolver.createDependencyGraph ResolverExamples.satisfies 5
    ResolverExamples.local_below_virtual ResolverExamples.local_below_virtual_resolutions
    None
  = Some ([], Throw (Error "[ERROR] Unmet peer dependency: X in L@1.0.0 (parent: B@1.0.0)")).
Proof. vm_compute. reflexivity. Qed.

End PeerFacts.

(** ** [toJson]: the nodes that are reached *)
Module ReachFacts.
Import DepGraph GraphSpec.

Lemma in_existsb :
  forall x l, existsb (Nat.eqb x) l = true <-> In x l.
Proof.
  intros x l. rewrite existsb_exists. split.
  - intros [y [Hy E]]. apply Nat.eqb_eq in E. subst. exact Hy.
  - intros H. exists x. split; [exact H|apply Nat.eqb_refl].
Qed.

Lemma weight_mono :
  forall g reached next,
    unreached_weight g (reached ++ [next]) <= unreached_weight g reached.
Proof.
  intros g reached next. unfold unreached_weight.
  induction (links g) as [|[k s] m IH]; simpl; [lia|].
  destruct (existsb (Nat.eqb k) reached) eqn:E.
  - assert (existsb (Nat.eqb k) (reached ++ [next]) = true) as ->.
    { apply in_existsb. apply in_or_app. left. apply in_existsb. exact E. }
    lia.
  - destruct (existsb (Nat.eqb k) (reached ++ [next])); lia.
Qed.

Lemma weight_drop :
  forall g reached next,
    ~ In next reached ->
    unreached_weight g (reached ++ [next]) + List.length (children g next)
    <= unreached_weight g reached.
Proof.
  intros g reached next Hnew. unfold unreached_weight, children, get_or_empty, NMap.keys.
  induction (links g) as [|[k s] m IH]; simpl; [lia|].
  destruct (Nat.eqb k next) eqn:Ek.
  - apply Nat.eqb_eq in Ek. subst k.
    assert (existsb (Nat.eqb next) reached = false) as ->.
    { destruct (existsb (Nat.eqb next) reached) eqn:E; [|reflexivity].
      apply in_existsb in E. contradiction. }
    assert (existsb (Nat.eqb next) (reached ++ [next]) = true) as ->.
    { apply in_existsb. apply in_or_app. right. left. reflexivity. }
    rewrite length_map.
    pose proof (weight_mono (mkGraph (nodes g) (reversedNodes g) m (reversedLinks g)
                               (nodeCounter g) (peerLinks g)) reached next) as Hm.
    unfold unreached_weight in Hm. simpl in Hm. lia.
  - assert (existsb (Nat.eqb k) (reached ++ [next]) = existsb (Nat.eqb k) reached) as ->.
    { rewrite existsb_app. simpl. rewrite Ek. rewrite !orb_false_r. reflexivity. }
    destruct (existsb (Nat.eqb k) reached); lia.
Qed.

(** Everything [reach_loop] collects is reached from a root. *)
Lemma reach_loop_sound :
  forall g (P : nat -> Prop),
    (forall s t, P s -> has_link g s t -> P t) ->
    forall fuel waiting reached,
      (forall x, In x waiting -> P x) ->
      (forall x, In x reached -> P x) ->
      forall x, In x (reach_loop g fuel waiting reached) -> P x.
Proof.
  intros g P Hstep. induction fuel as [|fuel IH]; intros waiting reached Hw Hr x Hx;
    simpl in Hx; [apply Hr, Hx|].
  destruct waiting as [|next waiting]; [apply Hr, Hx|].
  destruct (existsb (Nat.eqb next) reached).
  - apply (IH waiting reached); auto. intros y Hy. apply Hw. right. exact Hy.
  - apply (IH _ _) in Hx; [exact Hx| |].
    + intros y Hy. apply in_app_or in Hy. destruct Hy as [Hy|Hy].
      * apply in_rev in Hy. apply (Hstep next y); [apply Hw; left; reflexivity|exact Hy].
      * apply Hw. right. exact Hy.
    + intros y Hy. apply in_app_or in Hy. destruct Hy as [Hy|[<-|[]]]; [apply Hr, Hy|].
      apply Hw. left. reflexivity.
Qed.

(** With enough fuel, what [reach_loop] returns is closed under links. *)
Lemma reach_loop_closed :
  forall g fuel waiting reached,
    List.length waiting + unreached_weight g reached <= fuel ->
    (forall s t, In s reached -> has_link g s t -> In t reached \/ In t waiting) ->
    let result := reach_loop g fuel waiting reached in
    (forall x, In x reached -> In x result) /\
    (forall x, In x waiting -> In x result) /\
    (forall s t, In s result -> has_link g s t -> In t result).
Proof.
  intros g. induction fuel as [|fuel IH]; intros waiting reached Hfuel Hinv; simpl.
  - destruct waiting; [|simpl in Hfuel; lia].
    split; [auto|]. split; [intros x []|].
    intros s t Hs Hst. destruct (Hinv s t Hs Hst) as [H|[]]. exact H.
  - destruct waiting as [|next waiting].
    + split; [auto|]. split; [intros x []|].
      intros s t Hs Hst. destruct (Hinv s t Hs Hst) as [H|[]]. exact H.
    + destruct (existsb (Nat.eqb next) reached) eqn:E.
      * apply in_existsb in E.
        destruct (IH waiting reached) as [H1 [H2 H3]].
        { simpl in Hfuel. lia. }
        { intros s t Hs Hst. destruct (Hinv s t Hs Hst) as [H|[<-|H]]; auto. }
        split; [exact H1|]. split; [|exact H3].
        intros x [<-|Hx]; [apply H1, E|apply H2, Hx].
      * assert (Hnew : ~ In next reached).
        { intros Hin. apply in_existsb in Hin. congruence. }
        destruct (IH (rev (children g next) ++ waiting) (reached ++ [next]))
          as [H1 [H2 H3]].
        { pose proof (weight_drop g reached next Hnew). rewrite length_app, length_rev.
          simpl in Hfuel. lia. }
        { intros s t Hs Hst. apply in_app_or in Hs. destruct Hs as [Hs|[<-|[]]].
          - destruct (Hinv s t Hs Hst) as [H|[<-|H]].
            + left. apply in_or_app. left. exact H.
            + left. apply in_or_app. right. left. reflexivity.
            + right. apply in_or_app. right. exact H.
          - right. apply in_or_app. left. apply -> in_rev. exact Hst. }
        split; [|split; [|exact H3]].
        -- intros x Hx. apply H1. apply in_or_app. left. exact Hx.
        -- intros x [<-|Hx].
           ++ apply H1. apply in_or_app. right. left. reflexivity.
           ++ apply H2. apply in_or_app. right. exact Hx.
Qed.

Lemma weight_nil : forall g, unreached_weight g [] = link_count g.
Proof. intros g. reflexivity. Qed.

(** [getReachableNodes] returns the nodes that a path leads to from a root. *)
Lemma getReachableNodes_spec :
  forall g x,
    In x (getReachableNodes g) <-> exists r, In r (rootIds g) /\ path g r x.
Proof.
  intros g x. unfold getReachableNodes. split.
  - apply (reach_loop_sound g (fun y => exists r, In r (rootIds g) /\ path g r y)).
    + intros s t [r [Hr Hp]] Hst. exists r. split; [exact Hr|].
      apply (@path_step g r s t Hp Hst).
    + intros y Hy. apply in_rev in Hy. exists y. split; [exact Hy|constructor].
    + intros y [].
  - intros [r [Hr Hp]].
    destruct (reach_loop_closed g (List.length (rootIds g) + link_count g)
                (rev (rootIds g)) []) as [_ [H2 H3]].
    { rewrite length_rev, weight_nil. lia. }
    { intros s t []. }
    induction Hp as [|s t Hp IH Hst].
    + apply H2. apply -> in_rev. exact Hr.
    + apply (H3 s t IH Hst).
Qed.

End ReachFacts.

(** ** [toJson]: the entries of [nodes] and the id mapping *)
Module EntryFacts.
Import DepGraph GraphSpec.

Lemma all_entries_in :
  forall g n v e,
    In (n, v, e) (all_entries g) <->
    exists bv l, In (n, bv) (nodes g) /\ In (v, l) bv /\ In e l.
Proof.
  intros g n v e. unfold all_entries. rewrite in_flat_map. split.
  - intros [[n' bv] [Hn H]]. apply (proj1 (ObjFacts.entries_in _ _ _)) in Hn.
    apply in_flat_map in H. destruct H as [[v' l] [Hv H]].
    apply (proj1 (ObjFacts.entries_in _ _ _)) in Hv. apply in_map_iff in H.
    destruct H as [e' [Heq He]]. simpl in Heq. inversion Heq; subst.
    exists bv, l. auto.
  - intros [bv [l [Hn [Hv He]]]]. exists (n, bv). split; [apply (proj2 (ObjFacts.entries_in _ _ _)), Hn|].
    apply in_flat_map. exists (v, l). split; [apply (proj2 (ObjFacts.entries_in _ _ _)), Hv|].
    apply in_map_iff. exists e. auto.
Qed.

Lemma all_entries_entry_at :
  forall g n v e,
    nodes_ok g -> (In (n, v, e) (all_entries g) <-> entry_at g n v e).
Proof.
  intros g n v e Hok. rewrite all_entries_in. unfold entry_at, list_at. split.
  - intros [bv [l [Hn [Hv He]]]].
    apply ObjFacts.in_get in Hn; [|apply (names_nodup Hok)].
    apply ObjFacts.in_get in Hv; [|apply (@versions_nodup g Hok n bv Hn)].
    exists l. rewrite Hn. auto.
  - intros [l [Hl He]]. destruct (Obj.get (nodes g) n) as [bv|] eqn:Hn; [|discriminate].
    exists bv, l. split; [apply ObjFacts.get_in, Hn|].
    split; [apply ObjFacts.get_in, Hl|exact He].
Qed.

Lemma rootIds_spec :
  forall g r,
    nodes_ok g ->
    (In r (rootIds g) <->
     exists n v e, entry_at g n v e /\ isLocal e = true /\ id e = r).
Proof.
  intros g r Hok. unfold rootIds. rewrite in_map_iff. split.
  - intros [[[n v] e] [Hid Hin]]. apply filter_In in Hin. destruct Hin as [Hin Hl].
    exists n, v, e. split; [apply (all_entries_entry_at g n v e Hok), Hin|auto].
  - intros [n [v [e [He [Hl Hid]]]]]. exists (n, v, e). split; [exact Hid|].
    apply filter_In. split; [apply (all_entries_entry_at g n v e Hok), He|exact Hl].
Qed.





(** *** [sortedNodes] *)

Lemma sortedNodes_in :
  forall g reached sn,
    In sn (sortedNodes g reached) <->
    exists n v e,
      In (n, v, e) (all_entries g) /\ In (id e) reached /\ sn = mkSortedNode (id e) n v.
Proof.
  intros g reached sn. unfold sortedNodes. rewrite SortFacts.js_sort_in, in_map_iff.
  split.
  - intros [[[n v] e] [Heq Hin]]. apply filter_In in Hin. destruct Hin as [Hin Hr].
    cbn [fst snd] in *. exists n, v, e. split; [exact Hin|].
    split; [apply ReachFacts.in_existsb, Hr|auto].
  - intros [n [v [e [Hin [Hr Heq]]]]]. exists (n, v, e). split; [auto|].
    apply filter_In. split; [exact Hin|]. apply ReachFacts.in_existsb, Hr.
Qed.


(** *** [idMapping] *)






End EntryFacts.

(** ** Orders on names, versions and public ids *)
Module OrderFacts.
Import DepGraph ProjectionSpec.













End OrderFacts.

(** ** Local nodes come from local manifests *)
Module LocalFacts.
Import DepGraph GraphSpec ProjectionSpec.

Lemma descends_refl : forall g, descends g g.
Proof. intros g i info H. exists i, info. auto. Qed.

Lemma descends_same :
  forall g g', reversedNodes g' = reversedNodes g -> descends g g'.
Proof. intros g g' H i info Hi. rewrite H in Hi. exists i, info. auto. Qed.

Lemma descends_trans :
  forall g1 g2 g3, descends g1 g2 -> descends g2 g3 -> descends g1 g3.
Proof.
  intros g1 g2 g3 H12 H23 i info Hi.
  destruct (H23 i info Hi) as [i2 [info2 [H2 [Hn [Hv Hl]]]]].
  destruct (H12 i2 info2 H2) as [i1 [info1 [H1 [Hn1 [Hv1 Hl1]]]]].
  exists i1, info1. repeat split; congruence.
Qed.

Lemma createVirtualNode_descends :
  forall g s name dep g' newId,
    createVirtualNode g s name dep = Ok (g', newId) -> descends g g'.
Proof.
  intros g s name dep g' newId H.
  destruct (NodeFacts.createVirtualNode_nodes g s name dep g' newId H)
    as [info [l [Hinfo [_ [_ [_ [_ [Hr _]]]]]]]].
  intros i info' Hi. rewrite Hr, NMapFacts.nmap_get_set in Hi.
  destruct (Nat.eqb newId i).
  - inversion Hi; subst. exists s, info. auto.
  - exists i, info'. auto.
Qed.









End LocalFacts.

(** ** The projection [toJson] and what [createDependencyGraph] returns *)
Module ProjectionFacts.
Import DepGraph GraphSpec ProjectionSpec.


Lemma root_reached :
  forall g r, In r (rootIds g) -> In r (getReachableNodes g).
Proof.
  intros g r Hr. apply (proj2 (ReachFacts.getReachableNodes_spec g r)).
  exists r. split; [exact Hr|constructor].
Qed.




Lemma toJson_nodes :
  forall g,
    pg_nodes (toJson g)
    = map (fun n => mkPublicNode (sn_name n) (sn_version n)
                      (NMap.get (idMapping (sortedNodes g (getReachableNodes g)))
                         (internalId n)))
        (sortedNodes g (getReachableNodes g)).
Proof. reflexivity. Qed.










End ProjectionFacts.

(** ** What the loops of the resolver preserve *)
Module LoopFacts.
Import DepGraph GraphSpec ManifestSpec.

Lemma reach_loop_nodup :
  forall g fuel waiting reached,
    NoDup reached -> NoDup (reach_loop g fuel waiting reached).
Proof.
  intros g. induction fuel as [|fuel IH]; intros waiting reached Hr; simpl; [exact Hr|].
  destruct waiting as [|next waiting]; [exact Hr|].
  destruct (existsb (Nat.eqb next) reached) eqn:E; [apply IH; exact Hr|].
  apply IH. apply NoDup_app; [exact Hr|constructor; [intros []|constructor]|].
  intros x Hx [Heq|[]]. subst x.
  apply (proj2 (ReachFacts.in_existsb next reached)) in Hx. congruence.
Qed.

(** X1. The set [getReachableNodes] computes inside [toJson] holds no id
    twice, and it holds exactly the ids that a chain of links joins to the id
    of an entry flagged [isLocal]. *)
Theorem reachable_nodes_exact :
  forall (g : Graph),
    NoDup (getReachableNodes g) /\
    forall x, In x (getReachableNodes g) <-> exists r, In r (rootIds g) /\ path g r x.
Proof.
  intros g. split.
  - apply reach_loop_nodup. constructor.
  - intros x. apply ReachFacts.getReachableNodes_spec.
Qed.

Section Related.
(** A relation between graphs that the four mutators of the resolver respect. *)
Variable R : Graph -> Graph -> Prop.
Hypothesis R_refl : forall g, R g g.
Hypothesis R_trans : forall g1 g2 g3, R g1 g2 -> R g2 g3 -> R g1 g3.
Hypothesis R_addLink : forall g s t, R g (addLink g s t).
Hypothesis R_addPeerLink : forall g s n r o, R g (addPeerLink g s n r o).
Hypothesis R_create :
  forall g s name dep g' newId, createVirtualNode g s name dep = Ok (g', newId) -> R g g'.
Hypothesis R_change :
  forall g p o n g', changeChildren g p o n = Ok g' -> R g g'.

Lemma forEach_related :
  forall (A : Type) (f : Graph -> A -> result Graph),
    (forall s x s', f s x = Ok s' -> R s s') ->
    forall l s s', forEach f l s = Ok s' -> R s s'.
Proof.
  intros A f Hf. induction l as [|x l IH]; intros s s' H; simpl in H.
  - inversion H; subst. apply R_refl.
  - destruct (f s x) as [s1|] eqn:E; [|discriminate]. cbn [bind] in H.
    apply (R_trans s s1 s'); [apply (Hf s x s1 E)|apply (IH s1 s' H)].
Qed.

Lemma link_dependencies_related :
  forall rm skip deps g m g',
    Resolver.link_dependencies rm skip deps g m = Ok g' -> R g g'.
Proof.
  intros rm skip deps g m g' H. unfold Resolver.link_dependencies in H.
  destruct (getNodeWithoutPeerDependencies g (Resolver.name m) (Resolver.version m))
    as [src|]; [|discriminate]. cbn [bind] in H.
  destruct deps as [dependencies|]; [|inversion H; subst; apply R_refl].
  revert H. apply forEach_related. intros s dep s' Hstep.
  unfold Resolver.link_dependency in Hstep.
  destruct (Obj.get rm (fst dep)); [|discriminate]. cbn [unwrap bind] in Hstep.
  destruct (getNodeWithoutPeerDependencies s _ _) as [[tgt|]|]; cbn [bind] in Hstep;
    try discriminate.
  - destruct src; cbn [unwrap bind] in Hstep; [|discriminate].
    inversion Hstep; subst. apply R_addLink.
  - destruct skip; [|discriminate]. inversion Hstep; subst. apply R_refl.
Qed.

Lemma register_peers_related :
  forall g m g', Resolver.register_peers g m = Ok g' -> R g g'.
Proof.
  intros g m g' H. unfold Resolver.register_peers in H.
  destruct (getNodeWithoutPeerDependencies g (Resolver.name m) (Resolver.version m))
    as [src|]; [|discriminate]. cbn [bind] in H.
  revert H. apply forEach_related. intros s dep s' Hstep.
  destruct src; cbn [unwrap bind] in Hstep; [|discriminate].
  inversion Hstep; subst. apply R_addPeerLink.
Qed.

Lemma build_graph_related :
  forall ms rm g, Resolver.build_graph ms rm = Ok g -> R (add_nodes ms new) g.
Proof.
  intros ms rm g H. unfold Resolver.build_graph in H. fold (add_nodes ms new) in H.
  destruct (forEach _ ms (add_nodes ms new)) as [g1|] eqn:E1; [|discriminate].
  cbn [bind] in H.
  destruct (forEach _ ms g1) as [g2|] eqn:E2; [|discriminate]. cbn [bind] in H.
  destruct (forEach _ ms g2) as [g3|] eqn:E3; [|discriminate]. cbn [bind] in H.
  apply (R_trans _ g1); [|apply (R_trans _ g2); [|apply (R_trans _ g3)]].
  - revert E1. apply forEach_related. intros s m s'. apply link_dependencies_related.
  - revert E2. apply forEach_related. intros s m s' Hs.
    destruct (negb (Resolver.truthy (Resolver.isLocal m))).
    + inversion Hs; subst. apply R_refl.
    + apply (link_dependencies_related _ _ _ _ _ _ Hs).
  - revert E3. apply forEach_related. intros s m s'. apply link_dependencies_related.
  - revert H. apply forEach_related. apply register_peers_related.
Qed.

Lemma apply_resolution_related :
  forall g pd rest wd resolution g' queue wd',
    Resolver.apply_resolution g pd rest wd resolution = Ok (g', queue, wd') -> R g g'.
Proof.
  intros g pd rest wd resolution g' queue wd' H. unfold Resolver.apply_resolution in H.
  destruct resolution as [x| | |]; try (inversion H; subst; apply R_refl).
  destruct (getVirtualNode g (sourceId pd) (p_targetName pd) x) as [[existing|]|];
    cbn [bind] in H; try discriminate.
  - destruct (changeChildren g (parentId pd) (sourceId pd) existing) as [g1|] eqn:Ec;
      cbn [bind] in H; [|discriminate].
    inversion H; subst. apply (R_change _ _ _ _ _ Ec).
  - destruct (createVirtualNode g (sourceId pd) (p_targetName pd) x)
      as [[g1 newId]|] eqn:Ecreate; cbn [bind fst snd] in H; [|discriminate].
    destruct (changeChildren g1 (parentId pd) (sourceId pd) newId) as [g2|] eqn:Ec;
      cbn [bind] in H; [|discriminate].
    inversion H; subst.
    apply (R_trans _ g1); [apply (R_create _ _ _ _ _ _ Ecreate)|apply (R_change _ _ _ _ _ Ec)].
Qed.

Lemma step_related :
  forall sat fail st pd rest lines st',
    Resolver.step sat fail st pd rest = (lines, Ok st') ->
    R (Resolver.graph st) (Resolver.graph st').
Proof.
  intros sat fail st pd rest lines st' H. unfold Resolver.step in H.
  destruct (negb _).
  - inversion H; subst. apply R_refl.
  - destruct (Resolver.resolveChild sat (Resolver.graph st) fail (parentId pd) (sourceId pd)
                (p_targetRange pd) (p_targetName pd) (p_optional pd))
      as [ls [resolution|e]]; [|inversion H].
    cbn [bind] in H.
    destruct (Resolver.apply_resolution (Resolver.graph st) pd rest (Resolver.watchDog st)
                resolution) as [[[g' queue] wd']|] eqn:Ea; cbn [bind] in H;
      inversion H; subst. cbn [Resolver.graph fst].
    apply (apply_resolution_related _ _ _ _ _ _ _ _ Ea).
Qed.

Lemma resolve_loop_related :
  forall sat fail fuel st lines g,
    Resolver.resolve_loop sat fail fuel st = Some (lines, Ok g) ->
    R (Resolver.graph st) g.
Proof.
  intros sat fail. induction fuel as [|fuel IH]; intros st lines g H; simpl in H.
  - destruct (Resolver.peerDeps st); [inversion H; subst; apply R_refl|].
    destruct (Nat.eqb (Resolver.watchDog st) 0);
      [inversion H; subst; apply R_refl|discriminate].
  - destruct (Resolver.peerDeps st) as [|pd rest];
      [inversion H; subst; apply R_refl|].
    destruct (Nat.eqb (Resolver.watchDog st) 0);
      [inversion H; subst; apply R_refl|].
    destruct (Resolver.step sat fail st pd rest) as [ls [st'|e]] eqn:Es; [|discriminate].
    apply (R_trans _ (Resolver.graph st')).
    + apply (step_related _ _ _ _ _ _ _ Es).
    + apply (IH st' lines g H).
Qed.

(** What [createDependencyGraph] projects is related to the graph that holds
    one node per manifest. *)
Lemma createDependencyGraph_related :
  forall sat fuel ms rm fail lines out,
    Resolver.createDependencyGraph sat fuel ms rm fail = Some (lines, Ok out) ->
    exists g, resolver_inv g /\ R (add_nodes ms new) g /\ out = toJson g.
Proof.
  intros sat fuel ms rm fail lines out H. unfold Resolver.createDependencyGraph in H.
  destruct (Resolver.build_graph ms rm) as [g0|] eqn:Eb; [|discriminate].
  destruct (getPeerLinks g0) as [queue|]; [|discriminate].
  destruct (Resolver.resolve_loop sat _ fuel _) as [[ls [g|e]]|] eqn:El; try discriminate.
  inversion H; subst. exists g. split; [|split; [|reflexivity]].
  - apply (StepFacts.resolve_loop_inv _ _ _ _ _ _ El). cbn [Resolver.graph].
    apply (InvFacts.build_graph_inv _ _ _ Eb).
  - apply (R_trans _ g0); [apply (build_graph_related _ _ _ Eb)|].
    apply (resolve_loop_related _ _ _ _ _ _ El).
Qed.
End Related.

End LoopFacts.

(** ** Which packages the returned graph holds *)
Module EmitFacts.
Import DepGraph GraphSpec ProjectionSpec ManifestSpec.

Lemma keeps_entries_refl : forall g, keeps_entries g g.
Proof. intros g n v e H. exact H. Qed.

Lemma keeps_entries_trans :
  forall g1 g2 g3, keeps_entries g1 g2 -> keeps_entries g2 g3 -> keeps_entries g1 g3.
Proof. intros g1 g2 g3 H12 H23 n v e H. apply H23, H12, H. Qed.

Lemma keeps_entries_same :
  forall g g', nodes g' = nodes g -> keeps_entries g g'.
Proof.
  intros g g' Hn n v e [l [Hl He]]. exists l. split; [|exact He].
  unfold list_at in *. rewrite Hn. exact Hl.
Qed.

Lemma createVirtualNode_keeps :
  forall g s name dep g' newId,
    createVirtualNode g s name dep = Ok (g', newId) -> keeps_entries g g'.
Proof.
  intros g s name dep g' newId H.
  destruct (NodeFacts.createVirtualNode_nodes g s name dep g' newId H)
    as [info [l [_ [Hl [_ [_ [Hn _]]]]]]].
  intros n v e [l0 [Hl0 He]]. unfold entry_at.
  rewrite (NodeFacts.list_at_update g g' _ _ _ Hn n v).
  destruct (andb (String.eqb (info_name info) n) (String.eqb (info_version info) v)) eqn:E.
  - apply andb_true_iff in E. destruct E as [E1 E2].
    apply String.eqb_eq in E1. apply String.eqb_eq in E2. subst n v.
    exists (l ++ [mkEntry newId (Obj.set (Obj.spread Obj.empty (info_peerDeps info)) name dep)
                    (info_isLocal info)]).
    split; [reflexivity|]. apply in_or_app. left. congruence.
  - exists l0. auto.
Qed.

Lemma changeChildren_keeps :
  forall g p o n g', changeChildren g p o n = Ok g' -> keeps_entries g g'.
Proof.
  intros g p o n g' H. apply keeps_entries_same.
  apply (LinkFacts.changeChildren_links _ _ _ _ _ H).
Qed.

Lemma changeChildren_descends :
  forall g p o n g', changeChildren g p o n = Ok g' -> descends g g'.
Proof.
  intros g p o n g' H. apply LocalFacts.descends_same.
  apply (LinkFacts.changeChildren_links _ _ _ _ _ H).
Qed.

(** What is projected keeps every entry of the graph of the manifests. *)
Lemma createDependencyGraph_keeps :
  forall sat fuel ms rm fail lines out,
    Resolver.createDependencyGraph sat fuel ms rm fail = Some (lines, Ok out) ->
    exists g, resolver_inv g /\ keeps_entries (add_nodes ms new) g /\ out = toJson g.
Proof.
  intros sat fuel ms rm fail lines out.
  apply (LoopFacts.createDependencyGraph_related keeps_entries).
  - apply keeps_entries_refl.
  - apply keeps_entries_trans.
  - intros g s t. apply keeps_entries_same. reflexivity.
  - intros g s n r o. apply keeps_entries_same. reflexivity.
  - apply createVirtualNode_keeps.
  - apply changeChildren_keeps.
Qed.

(** Every node of what is projected descends from a node of the graph of
    the manifests. *)
Lemma createDependencyGraph_descends :
  forall sat fuel ms rm fail lines out,
    Resolver.createDependencyGraph sat fuel ms rm fail = Some (lines, Ok out) ->
    exists g, resolver_inv g /\ descends (add_nodes ms new) g /\ out = toJson g.
Proof.
  intros sat fuel ms rm fail lines out.
  apply (LoopFacts.createDependencyGraph_related descends).
  - apply LocalFacts.descends_refl.
  - apply LocalFacts.descends_trans.
  - intros g s t. apply LocalFacts.descends_same. reflexivity.
  - intros g s n r o. apply LocalFacts.descends_same. reflexivity.
  - apply LocalFacts.createVirtualNode_descends.
  - apply changeChildren_descends.
Qed.

Lemma addNode_list_at :
  forall g name version isLocal name' version',
    list_at (addNode g name version isLocal) name' version'
    = if andb (String.eqb name name') (String.eqb version version')
      then Some [mkEntry (nodeCounter g) Obj.empty isLocal]
      else list_at g name' version'.
Proof.
  intros g name version isLocal name' version'.
  apply (NodeFacts.list_at_update g (addNode g name version isLocal) name version).
  reflexivity.
Qed.

Lemma add_nodes_declared :
  forall ms some g,
    (forall m, In m some -> In m ms) ->
    infos_declared ms g -> infos_declared ms (add_nodes some g).
Proof.
  intros ms. induction some as [|m some IH]; intros g Hsub Hg; simpl; [exact Hg|].
  apply IH; [intros x Hx; apply Hsub; right; exact Hx|].
  intros i info Hi. cbn [reversedNodes addNode] in Hi.
  rewrite NMapFacts.nmap_get_set in Hi. destruct (Nat.eqb (nodeCounter g) i).
  - inversion Hi; subst. exists m. split; [apply Hsub; left; reflexivity|].
    split; reflexivity.
  - apply (Hg i info Hi).
Qed.

Lemma add_nodes_local_entry :
  forall n v some g,
    (forall m, In m some -> Resolver.name m = n -> Resolver.version m = v ->
               Resolver.isLocal m = Some true) ->
    (exists m, In m some /\ Resolver.name m = n /\ Resolver.version m = v) \/
    (exists e, entry_at g n v e /\ isLocal e = true) ->
    exists e, entry_at (add_nodes some g) n v e /\ isLocal e = true.
Proof.
  intros n v. induction some as [|m some IH]; intros g Hloc H; simpl.
  - destruct H as [[m [[] _]]|H]. exact H.
  - apply IH; [intros x Hx; apply Hloc; right; exact Hx|].
    destruct (andb (String.eqb (Resolver.name m) n) (String.eqb (Resolver.version m) v))
      eqn:E.
    + right. exists (mkEntry (nodeCounter g) Obj.empty (Resolver.truthy (Resolver.isLocal m))).
      split.
      * exists [mkEntry (nodeCounter g) Obj.empty (Resolver.truthy (Resolver.isLocal m))].
        rewrite addNode_list_at, E. split; [reflexivity|left; reflexivity].
      * apply andb_true_iff in E. destruct E as [E1 E2].
        apply String.eqb_eq in E1. apply String.eqb_eq in E2.
        cbn [isLocal]. rewrite (Hloc m (or_introl eq_refl) E1 E2). reflexivity.
    + destruct H as [[m' [[Hm'|Hm'] [Hn Hv]]]|[e [[l [Hl Hin]] He]]].
      * subst m'. rewrite Hn, Hv, !String.eqb_refl in E. discriminate.
      * left. exists m'. auto.
      * right. exists e. split; [|exact He]. exists l.
        rewrite addNode_list_at, E. auto.
Qed.

(** A node of the projection, for an entry that is reached. *)
Lemma reached_entry_is_emitted :
  forall g n v e,
    nodes_ok g -> entry_at g n v e -> In (id e) (getReachableNodes g) ->
    exists node, In node (pg_nodes (toJson g)) /\ pn_name node = n /\ pn_version node = v.
Proof.
  intros g n v e Hok He Hr.
  exists (mkPublicNode n v
            (NMap.get (idMapping (sortedNodes g (getReachableNodes g))) (id e))).
  split; [|split; reflexivity].
  rewrite ProjectionFacts.toJson_nodes. apply in_map_iff.
  exists (mkSortedNode (id e) n v). split; [reflexivity|].
  apply (proj2 (EntryFacts.sortedNodes_in g _ _)). exists n, v, e.
  split; [apply (proj2 (EntryFacts.all_entries_entry_at g n v e Hok) He)|].
  split; [exact Hr|reflexivity].
Qed.

(** X2. On an input without a name, version or range inherited from
    [Object.prototype]: when every manifest with the name and version of [m]
    is local, the graph [createDependencyGraph] returns holds a node with
    that name and version. *)
Theorem local_manifest_is_emitted :
  forall (sat : string -> string -> bool) (fuel : nat)
         (ms : list Resolver.PackageManifest) (rm : Resolver.ResolutionMap)
         (fail : option bool) (lines : list string) (out : PublicGraph)
         (m : Resolver.PackageManifest),
    ordinary_input ms rm = true ->
    In m ms ->
    (forall m', In m' ms -> Resolver.name m' = Resolver.name m ->
                Resolver.version m' = Resolver.version m ->
                Resolver.isLocal m' = Some true) ->
    Resolver.createDependencyGraph sat fuel ms rm fail = Some (lines, Ok out) ->
    exists node,
      In node (pg_nodes out) /\
      pn_name node = Resolver.name m /\ pn_version node = Resolver.version m.
Proof.
  intros sat fuel ms rm fail lines out m _ Hm Hloc H.
  destruct (createDependencyGraph_keeps _ _ _ _ _ _ _ H) as [g [Hinv [Hkeep Hout]]].
  subst out.
  destruct (add_nodes_local_entry (Resolver.name m) (Resolver.version m) ms new Hloc)
    as [e [He Hl]].
  { left. exists m. auto. }
  assert (Hok : nodes_ok g) by apply Hinv.
  apply (reached_entry_is_emitted g _ _ e Hok (Hkeep _ _ _ He)).
  apply ProjectionFacts.root_reached.
  apply (proj2 (EntryFacts.rootIds_spec g (id e) Hok)).
  exists (Resolver.name m), (Resolver.version m), e. auto.
Qed.

Lemma local_manifest_is_emitted_witness :
  exists node,
    In node (pg_nodes ResolverExamples.unreachable_expected) /\
    pn_name node = "A"%string /\ pn_version node = "1.0.0"%string.
Proof.
  apply (local_manifest_is_emitted ResolverExamples.satisfies 4
           ResolverExamples.unreachable ResolverExamples.unreachable_resolutions None []
           ResolverExamples.unreachable_expected
           (ResolverExamples.manifest "A" "1.0.0" (Some true)
              (Some [("B"%string, "^1.0.0"%string); ("D"%string, "^2.0.0"%string)]) None)).
  - vm_compute. reflexivity.
  - left. reflexivity.
  - intros m' Hm' Hn Hv. cbv in Hm'.
    destruct Hm' as [<-|[<-|[<-|[<-|[]]]]]; try reflexivity; discriminate Hn.
  - reflexivity.
Defined.



(** X4. Every node of the graph [createDependencyGraph] returns has the
    name and the version of a manifest of the input. *)
Theorem emitted_nodes_are_declared :
  forall (sat : string -> string -> bool) (fuel : nat)
         (ms : list Resolver.PackageManifest) (rm : Resolver.ResolutionMap)
         (fail : option bool) (lines : list string) (out : PublicGraph),
    Resolver.createDependencyGraph sat fuel ms rm fail = Some (lines, Ok out) ->
    forall node, In node (pg_nodes out) -> declared ms (pn_name node) (pn_version node).
Proof.
  intros sat fuel ms rm fail lines out H node Hnode.
  destruct (createDependencyGraph_descends _ _ _ _ _ _ _ H) as [g [Hinv [Hd Hout]]].
  subst out. assert (Hok : nodes_ok g) by apply Hinv.
  rewrite ProjectionFacts.toJson_nodes in Hnode. apply in_map_iff in Hnode.
  destruct Hnode as [sn [Hnode Hsn]].
  destruct (proj1 (EntryFacts.sortedNodes_in g _ _) Hsn) as [n [v [e [He [_ Hsn']]]]].
  apply (proj1 (EntryFacts.all_entries_entry_at g n v e Hok)) in He.
  assert (Hi := @entry_info g Hok n v e He).
  destruct (Hd _ _ Hi) as [i0 [info0 [H0 [Hn [Hv _]]]]].
  assert (Hdecl : infos_declared ms (add_nodes ms new)).
  { apply add_nodes_declared; [auto|]. intros i info Hget. discriminate Hget. }
  subst node sn. cbn [pn_name pn_version sn_name sn_version].
  cbn [info_name info_version] in Hn, Hv. rewrite <- Hn, <- Hv.
  apply (Hdecl i0 info0 H0).
Qed.

Lemma emitted_nodes_are_declared_witness :
  Forall (fun node => declared ResolverExamples.unreachable (pn_name node) (pn_version node))
    (pg_nodes ResolverExamples.unreachable_expected).
Proof.
  apply Forall_forall.
  apply (emitted_nodes_are_declared ResolverExamples.satisfies 4
           ResolverExamples.unreachable ResolverExamples.unreachable_resolutions None []).
  vm_compute. reflexivity.
Defined.

End EmitFacts.

(** ** How [createDependencyGraph] fails, and what it ignores *)
Module ResolverFacts.
Import DepGraph GraphSpec ManifestSpec.







(** *** Exceptions *)

Lemma unwrap_throws :
  forall (A : Type) (o : option A) e, unwrap o = Throw e -> e = TypeError.
Proof. intros A o e H. destruct o; simpl in H; [discriminate|congruence]. Qed.

Lemma forEach_throws :
  forall (A S : Type) (f : S -> A -> result S) l s e,
    forEach f l s = Throw e -> exists s' x, In x l /\ f s' x = Throw e.
Proof.
  intros A S f. induction l as [|x l IH]; intros s e H; simpl in H; [discriminate|].
  destruct (f s x) as [s1|e1] eqn:E; simpl in H.
  - destruct (IH s1 e H) as [s' [y [Hy Hf]]]. exists s', y. split; [right; exact Hy|exact Hf].
  - inversion H; subst. exists s, x. split; [left; reflexivity|exact E].
Qed.

Lemma getNodeWithoutPeerDependencies_throws :
  forall g name version e,
    getNodeWithoutPeerDependencies g name version = Throw e -> e = TypeError.
Proof.
  intros g name version e H. unfold getNodeWithoutPeerDependencies in H.
  destruct (Obj.get (nodes g) name) as [bv|]; [|discriminate].
  destruct (Obj.get bv version) as [l|]; [|discriminate].
  destruct (find _ l); simpl in H; [discriminate|congruence].
Qed.

Lemma link_dependency_throws :
  forall rm skip src g dep e,
    Resolver.link_dependency rm skip src g dep = Throw e -> e = TypeError.
Proof.
  intros rm skip src g dep e H. unfold Resolver.link_dependency in H.
  destruct (Obj.get rm (fst dep)); cbn [unwrap bind] in H; [|congruence].
  destruct (getNodeWithoutPeerDependencies g _ _) as [[tgt|]|e1] eqn:E; cbn [bind] in H.
  - destruct src; cbn [unwrap bind] in H; [discriminate|congruence].
  - destruct skip; [discriminate|congruence].
  - inversion H; subst. apply (getNodeWithoutPeerDependencies_throws _ _ _ _ E).
Qed.

Lemma link_dependencies_throws :
  forall rm skip deps g m e,
    Resolver.link_dependencies rm skip deps g m = Throw e -> e = TypeError.
Proof.
  intros rm skip deps g m e H. unfold Resolver.link_dependencies in H.
  destruct (getNodeWithoutPeerDependencies g (Resolver.name m) (Resolver.version m))
    as [src|e1] eqn:E; cbn [bind] in H.
  - destruct deps as [dependencies|]; [|discriminate].
    destruct (forEach_throws _ _ _ _ _ _ H) as [s' [x [_ Hx]]].
    apply (link_dependency_throws _ _ _ _ _ _ Hx).
  - inversion H; subst. apply (getNodeWithoutPeerDependencies_throws _ _ _ _ E).
Qed.

Lemma register_peers_throws :
  forall g m e, Resolver.register_peers g m = Throw e -> e = TypeError.
Proof.
  intros g m e H. unfold Resolver.register_peers in H.
  destruct (getNodeWithoutPeerDependencies g (Resolver.name m) (Resolver.version m))
    as [src|e1] eqn:E; cbn [bind] in H.
  - destruct (forEach_throws _ _ _ _ _ _ H) as [s' [x [_ Hx]]].
    destruct src; cbn [unwrap bind] in Hx; [discriminate|congruence].
  - inversion H; subst. apply (getNodeWithoutPeerDependencies_throws _ _ _ _ E).
Qed.

Lemma build_graph_throws :
  forall ms rm e, Resolver.build_graph ms rm = Throw e -> e = TypeError.
Proof.
  intros ms rm e H. unfold Resolver.build_graph in H. cbv zeta in H.
  destruct (forEach _ ms (fold_left _ ms new)) as [g1|e1] eqn:E1; cbn [bind] in H.
  2:{ inversion H; subst. destruct (forEach_throws _ _ _ _ _ _ E1) as [s [m [_ Hm]]].
      apply (link_dependencies_throws _ _ _ _ _ _ Hm). }
  destruct (forEach _ ms g1) as [g2|e2] eqn:E2; cbn [bind] in H.
  2:{ inversion H; subst. destruct (forEach_throws _ _ _ _ _ _ E2) as [s [m [_ Hm]]].
      destruct (negb _); [discriminate|].
      apply (link_dependencies_throws _ _ _ _ _ _ Hm). }
  destruct (forEach _ ms g2) as [g3|e3] eqn:E3; cbn [bind] in H.
  2:{ inversion H; subst. destruct (forEach_throws _ _ _ _ _ _ E3) as [s [m [_ Hm]]].
      apply (link_dependencies_throws _ _ _ _ _ _ Hm). }
  destruct (forEach_throws _ _ _ _ _ _ H) as [s [m [_ Hm]]].
  apply (register_peers_throws _ _ _ Hm).
Qed.

Lemma forEach_must_throw :
  forall (A S : Type) (f : S -> A -> result S) l x,
    In x l -> (forall s, exists e, f s x = Throw e) ->
    forall s, exists e, forEach f l s = Throw e.
Proof.
  intros A S f. induction l as [|y l IH]; intros x Hx Hf s; [destruct Hx|]. simpl.
  destruct (f s y) as [s1|e1] eqn:E; simpl.
  - destruct Hx as [->|Hx]; [destruct (Hf s) as [e He]; congruence|].
    apply (IH x Hx Hf).
  - exists e1. reflexivity.
Qed.

(** X6. On an input without a name, version or range inherited from
    [Object.prototype]: a dependency whose name has no entry in the
    resolution map makes [createDependencyGraph] throw a [TypeError], before
    any peer dependency is looked at and without a line on the console. *)
Theorem unresolved_dependency_is_a_type_error :
  forall (sat : string -> string -> bool) (fuel : nat)
         (ms : list Resolver.PackageManifest) (rm : Resolver.ResolutionMap)
         (fail : option bool) (m : Resolver.PackageManifest)
         (deps : Obj.t string) (k : string),
    ordinary_input ms rm = true ->
    In m ms ->
    Resolver.dependencies m = Some deps ->
    In k (Obj.keys deps) ->
    Obj.get rm k = None ->
    Resolver.createDependencyGraph sat fuel ms rm fail = Some ([], Throw TypeError).
Proof.
  intros sat fuel ms rm fail m deps k _ Hm Hdeps Hk Hrm.
  assert (Hthrow : exists e, Resolver.build_graph ms rm = Throw e).
  { unfold Resolver.build_graph. cbv zeta.
    destruct (forEach_must_throw _ _
                (fun g m => Resolver.link_dependencies rm false (Resolver.dependencies m) g m)
                ms m Hm) with (s := fold_left
                  (fun g m => addNode g (Resolver.name m) (Resolver.version m)
                                (Resolver.truthy (Resolver.isLocal m))) ms new)
      as [e He].
    - intros s. unfold Resolver.link_dependencies. rewrite Hdeps.
      destruct (getNodeWithoutPeerDependencies s _ _) as [src|e1]; cbn [bind];
        [|exists e1; reflexivity].
      unfold Obj.keys in Hk. apply in_map_iff in Hk. destruct Hk as [[k' r] [Hk' Hin]].
      simpl in Hk'. subst k'.
      apply (forEach_must_throw _ _ _ _ (k, r) Hin).
      intros s'. exists TypeError. unfold Resolver.link_dependency. cbn [fst].
      rewrite Hrm. reflexivity.
    - exists e. rewrite He. reflexivity. }
  destruct Hthrow as [e He]. unfold Resolver.createDependencyGraph. rewrite He.
  rewrite (build_graph_throws _ _ _ He). reflexivity.
Qed.

Lemma unresolved_dependency_is_a_type_error_witness :
  Resolver.createDependencyGraph ResolverExamples.satisfies 0 ResolverExamples.basic
    [("B"%string, [("^1.0.0"%string, "1.1.0"%string)])] None
  = Some ([], Throw TypeError).
Proof.
  apply (unresolved_dependency_is_a_type_error ResolverExamples.satisfies 0
           ResolverExamples.basic [("B"%string, [("^1.0.0"%string, "1.1.0"%string)])] None
           (ResolverExamples.manifest "A" "1.0.0" (Some true)
              (Some [("B"%string, "^1.0.0"%string); ("C"%string, "^1.0.0"%string)]) None)
           [("B"%string, "^1.0.0"%string); ("C"%string, "^1.0.0"%string)] "C").
  - vm_compute. reflexivity.
  - left. reflexivity.
  - reflexivity.
  - right. left. reflexivity.
  - reflexivity.
Defined.

Lemma getPeerLinks_throws :
  forall g e, getPeerLinks g = Throw e -> e = TypeError.
Proof.
  intros g e H. unfold getPeerLinks in H.
  destruct (forEach_throws _ _ _ _ _ _ H) as [acc [next [_ Hx]]].
  destruct (NMap.get (reversedNodes g) next) as [info|]; cbn [unwrap bind] in Hx;
    [|congruence].
  destruct (info_isLocal info); [discriminate|].
  destruct (NMap.get (peerLinks g) next); cbn [unwrap bind] in Hx; [discriminate|congruence].
Qed.

Lemma getVirtualNode_throws :
  forall g s name dep e, getVirtualNode g s name dep = Throw e -> e = TypeError.
Proof.
  intros g s name dep e H. unfold getVirtualNode, nodes_at in H.
  destruct (NMap.get (reversedNodes g) s) as [info|]; cbn [unwrap bind] in H; [|congruence].
  destruct (Obj.get (nodes g) (info_name info)) as [bv|]; cbn [unwrap bind] in H;
    [|congruence].
  destruct (Obj.get bv (info_version info)) as [l|]; cbn [unwrap bind] in H; [|congruence].
  destruct (filter _ l); discriminate.
Qed.

Lemma createVirtualNode_throws :
  forall g s name dep e, createVirtualNode g s name dep = Throw e -> e = TypeError.
Proof.
  intros g s name dep e H. unfold createVirtualNode in H.
  destruct (NMap.get (reversedNodes g) s) as [info|]; cbn [unwrap bind] in H; [|congruence].
  destruct (Obj.get (nodes g) (info_name info)) as [bv|]; cbn [unwrap bind] in H;
    [|congruence].
  destruct (Obj.get bv (info_version info)) as [l|]; cbn [unwrap bind] in H;
    [discriminate|congruence].
Qed.

Lemma changeChildren_throws :
  forall g p o n e, changeChildren g p o n = Throw e -> e = TypeError.
Proof.
  intros g p o n e H. unfold changeChildren in H.
  destruct (NMap.get (links g) p); cbn [unwrap bind] in H; [|congruence].
  destruct (NMap.get (reversedLinks g) o); cbn [unwrap bind] in H; [discriminate|congruence].
Qed.

Lemma apply_resolution_throws :
  forall g pd rest wd resolution e,
    Resolver.apply_resolution g pd rest wd resolution = Throw e -> e = TypeError.
Proof.
  intros g pd rest wd resolution e H. unfold Resolver.apply_resolution in H.
  destruct resolution as [x| | |]; try discriminate.
  destruct (getVirtualNode g (sourceId pd) (p_targetName pd) x) as [[existing|]|e1] eqn:Ev;
    cbn [bind] in H.
  - destruct (changeChildren g (parentId pd) (sourceId pd) existing) as [g1|e2] eqn:Ec;
      cbn [bind] in H; [discriminate|].
    inversion H; subst. apply (changeChildren_throws _ _ _ _ _ Ec).
  - destruct (createVirtualNode g (sourceId pd) (p_targetName pd) x)
      as [[g1 newId]|e2] eqn:Ecreate; cbn [bind fst snd] in H.
    + destruct (changeChildren g1 (parentId pd) (sourceId pd) newId) as [g2|e3] eqn:Ec;
        cbn [bind] in H; [discriminate|].
      inversion H; subst. apply (changeChildren_throws _ _ _ _ _ Ec).
    + inversion H; subst. apply (createVirtualNode_throws _ _ _ _ _ Ecreate).
  - inversion H; subst. apply (getVirtualNode_throws _ _ _ _ _ Ev).
Qed.

Lemma unmet_error_prefix :
  forall name sourceName sourceVersion parentName parentVersion,
    unmet_error (Error (Resolver.unmet_message "[ERROR]" name sourceName sourceVersion
                          parentName parentVersion)).
Proof.
  intros. eexists. split; [reflexivity|].
  unfold Resolver.unmet_message. simpl. destruct name; reflexivity.
Qed.

Lemma unmet_warning_prefix :
  forall name sourceName sourceVersion parentName parentVersion,
    warning_line (Resolver.unmet_message "[WARNING]" name sourceName sourceVersion
                    parentName parentVersion).
Proof. intros. reflexivity. Qed.

Lemma unmatching_warning_line :
  forall name sourceName sourceVersion parentName parentVersion version range,
    warning_line (Resolver.unmatching_warning name sourceName sourceVersion parentName
                    parentVersion version range).
Proof. intros. reflexivity. Qed.

(** What [resolveChild] writes and throws. *)
Lemma resolveChild_effects :
  forall sat g fail p s range name optional lines r,
    Resolver.resolveChild sat g fail p s range name optional = (lines, r) ->
    Forall warning_line lines /\
    forall e, r = Throw e -> e = TypeError \/ (fail = true /\ unmet_error e).
Proof.
  intros sat g fail p s range name optional lines r H. unfold Resolver.resolveChild in H.
  destruct (existsb _ _).
  { inversion H; subst. split; [constructor|discriminate]. }
  destruct (filter _ _) as [|found rest].
  - destruct optional. { inversion H; subst. split; [constructor|discriminate]. }
    destruct (hasPeerLink g p). { inversion H; subst. split; [constructor|discriminate]. }
    destruct (NMap.get (reversedNodes g) p) as [ipar|];
      [destruct (NMap.get (reversedNodes g) s) as [isrc|]|].
    + destruct fail; inversion H; subst.
      * split; [constructor|]. intros e He. inversion He; subst. right.
        split; [reflexivity|apply unmet_error_prefix].
      * split; [|discriminate]. constructor; [apply unmet_warning_prefix|constructor].
    + inversion H; subst. split; [constructor|]. intros e He. left. congruence.
    + inversion H; subst. split; [constructor|]. intros e He. left. congruence.
  - destruct (NMap.get (reversedNodes g) found) as [info|].
    + destruct (negb _).
      * destruct (NMap.get (reversedNodes g) p) as [ipar|];
          [destruct (NMap.get (reversedNodes g) s) as [isrc|]|]; inversion H; subst.
        -- split; [|discriminate]. constructor; [apply unmatching_warning_line|constructor].
        -- split; [constructor|]. intros e He. left. congruence.
        -- split; [constructor|]. intros e He. left. congruence.
      * inversion H; subst. split; [constructor|discriminate].
    + inversion H; subst. split; [constructor|]. intros e He. left. congruence.
Qed.

Lemma step_effects :
  forall sat fail st pd rest lines r,
    Resolver.step sat fail st pd rest = (lines, r) ->
    Forall warning_line (Resolver.console st) ->
    Forall warning_line lines /\
    (forall st', r = Ok st' -> Resolver.console st' = lines) /\
    forall e, r = Throw e -> e = TypeError \/ (fail = true /\ unmet_error e).
Proof.
  intros sat fail st pd rest lines r H Hc. unfold Resolver.step in H.
  destruct (negb _).
  - inversion H; subst. split; [exact Hc|]. split; [|discriminate].
    intros st' Hst. inversion Hst; subst. reflexivity.
  - destruct (Resolver.resolveChild sat (Resolver.graph st) fail (parentId pd) (sourceId pd)
                (p_targetRange pd) (p_targetName pd) (p_optional pd))
      as [ls resolved] eqn:Er.
    destruct (resolveChild_effects _ _ _ _ _ _ _ _ _ _ Er) as [Hls Hthrow].
    inversion H; subst. split; [apply Forall_app; auto|].
    destruct resolved as [resolution|e1]; cbn [bind].
    + destruct (Resolver.apply_resolution (Resolver.graph st) pd rest (Resolver.watchDog st)
                  resolution) as [next|e2] eqn:Ea; cbn [bind].
      * split; [|discriminate]. intros st' Hst. inversion Hst; subst. reflexivity.
      * split; [discriminate|]. intros e He. inversion He; subst. left.
        apply (apply_resolution_throws _ _ _ _ _ _ Ea).
    + split; [discriminate|]. intros e He. inversion He; subst. apply Hthrow. reflexivity.
Qed.

Lemma resolve_loop_effects :
  forall sat fail fuel st lines r,
    Resolver.resolve_loop sat fail fuel st = Some (lines, r) ->
    Forall warning_line (Resolver.console st) ->
    Forall warning_line lines /\
    forall e, r = Throw e -> e = TypeError \/ (fail = true /\ unmet_error e).
Proof.
  intros sat fail. induction fuel as [|fuel IH]; intros st lines r H Hc; simpl in H.
  - destruct (Resolver.peerDeps st);
      [inversion H; subst; split; [exact Hc|discriminate]|].
    destruct (Nat.eqb (Resolver.watchDog st) 0);
      [inversion H; subst; split; [exact Hc|discriminate]|discriminate].
  - destruct (Resolver.peerDeps st) as [|pd rest];
      [inversion H; subst; split; [exact Hc|discriminate]|].
    destruct (Nat.eqb (Resolver.watchDog st) 0);
      [inversion H; subst; split; [exact Hc|discriminate]|].
    destruct (Resolver.step sat fail st pd rest) as [ls [st'|e1]] eqn:Es.
    + destruct (step_effects _ _ _ _ _ _ _ Es Hc) as [Hls [Hcons _]].
      apply (IH st' lines r H). rewrite (Hcons st' eq_refl). exact Hls.
    + destruct (step_effects _ _ _ _ _ _ _ Es Hc) as [Hls [_ Hthrow]].
      inversion H; subst. split; [exact Hls|].
      intros e He. inversion He; subst. apply Hthrow. reflexivity.
Qed.

Lemma createDependencyGraph_effects :
  forall sat fuel ms rm fail lines r,
    Resolver.createDependencyGraph sat fuel ms rm fail = Some (lines, r) ->
    Forall warning_line lines /\
    forall e, r = Throw e -> e = TypeError \/ (fail <> Some false /\ unmet_error e).
Proof.
  intros sat fuel ms rm fail lines r H. unfold Resolver.createDependencyGraph in H.
  destruct (Resolver.build_graph ms rm) as [g0|e0] eqn:Eb.
  2:{ inversion H; subst. split; [constructor|]. intros e He. inversion He; subst.
      left. apply (build_graph_throws _ _ _ Eb). }
  destruct (getPeerLinks g0) as [queue|e0] eqn:Eq.
  2:{ inversion H; subst. split; [constructor|]. intros e He. inversion He; subst.
      left. apply (getPeerLinks_throws _ _ Eq). }
  destruct (Resolver.resolve_loop sat _ fuel _) as [[ls [g|e1]]|] eqn:El; try discriminate.
  - inversion H; subst.
    destruct (resolve_loop_effects _ _ _ _ _ _ El) as [Hls _]; [constructor|].
    split; [exact Hls|discriminate].
  - inversion H; subst.
    destruct (resolve_loop_effects _ _ _ _ _ _ El) as [Hls Hthrow]; [constructor|].
    split; [exact Hls|]. intros e He. inversion He; subst.
    destruct (Hthrow e eq_refl) as [Ht|[Hf Hu]]; [left; exact Ht|right].
    split; [|exact Hu]. destruct fail as [[|]|]; discriminate.
Qed.

(** X7. [createDependencyGraph] throws nothing but a [TypeError] or, unless
    [failOnMissingPeerDependencies] is [false], an [Error] whose message
    starts with [[ERROR] Unmet peer dependency: ]. *)
Theorem exceptions_are_type_errors_or_unmet_peers :
  forall (sat : string -> string -> bool) (fuel : nat)
         (ms : list Resolver.PackageManifest) (rm : Resolver.ResolutionMap)
         (fail : option bool) (lines : list string) (e : exn),
    Resolver.createDependencyGraph sat fuel ms rm fail = Some (lines, Throw e) ->
    e = TypeError \/ (fail <> Some false /\ unmet_error e).
Proof.
  intros sat fuel ms rm fail lines e H.
  apply (proj2 (createDependencyGraph_effects _ _ _ _ _ _ _ H)). reflexivity.
Qed.

Lemma exceptions_are_type_errors_or_unmet_peers_witness :
  Error "[ERROR] Unmet peer dependency: X in L@1.0.0 (parent: B@1.0.0)" = TypeError \/
  (@None bool <> Some false /\
   unmet_error (Error "[ERROR] Unmet peer dependency: X in L@1.0.0 (parent: B@1.0.0)")).
Proof.
  apply (exceptions_are_type_errors_or_unmet_peers ResolverExamples.satisfies 3
           ResolverExamples.local_below_virtual
           ResolverExamples.local_below_virtual_resolutions None []).
  vm_compute. reflexivity.
Defined.

(** X8. Every line [createDependencyGraph] writes with [console.error]
    starts with [[WARNING] ], whether it returns or throws. *)
Theorem console_lines_are_warnings :
  forall (sat : string -> string -> bool) (fuel : nat)
         (ms : list Resolver.PackageManifest) (rm : Resolver.ResolutionMap)
         (fail : option bool) (lines : list string)
         (r : result PublicGraph),
    Resolver.createDependencyGraph sat fuel ms rm fail = Some (lines, r) ->
    Forall warning_line lines.
Proof.
  intros sat fuel ms rm fail lines r H.
  apply (proj1 (createDependencyGraph_effects _ _ _ _ _ _ _ H)).
Qed.

Lemma console_lines_are_warnings_witness :
  Forall warning_line
    ["[WARNING] unmatching peer dependency, C in B@1.1.0 (parent: A@1.0.0) was resolved to version 1.0.1 which does not satisfy the given range: ^2.0.0"%string].
Proof.
  apply (console_lines_are_warnings ResolverExamples.satisfies 2
           ResolverExamples.wrong_version ResolverExamples.basic_resolutions None _
           (Ok (mkPublicGraph
                  [mkPublicNode "A" "1.0.0" (Some 0); mkPublicNode "B" "1.1.0" (Some 1);
                   mkPublicNode "C" "1.0.1" (Some 2)]
                  [mkPublicLink (Some 0) (Some 1); mkPublicLink (Some 0) (Some 2);
                   mkPublicLink (Some 1) (Some 2)]))).
  vm_compute. reflexivity.
Defined.

End ResolverFacts.

(** ** The methods of [Graph] one by one *)
Module MethodFacts.
Import DepGraph GraphSpec.

Lemma getNodeWithoutPeerDependencies_list_at :
  forall g name version,
    getNodeWithoutPeerDependencies g name version
    = match list_at g name version with
      | None => Ok None
      | Some l =>
          let* o := unwrap (find (fun o => Nat.eqb (List.length (Obj.keys (peerDeps o))) 0) l) in
          Ok (Some (id o))
      end.
Proof.
  intros g name version. unfold getNodeWithoutPeerDependencies, list_at.
  destruct (Obj.get (nodes g) name) as [bv|]; reflexivity.
Qed.

Lemma find_app_last :
  forall (A : Type) (p : A -> bool) (l : list A) (x : A),
    p x = false -> find p (l ++ [x]) = find p l.
Proof.
  intros A p l x Hx. induction l as [|y l IH]; simpl; [rewrite Hx; reflexivity|].
  destruct (p y); [reflexivity|exact IH].
Qed.

Lemma set_not_empty :
  forall (V : Type) (o : Obj.t V) k v, List.length (Obj.keys (Obj.set o k v)) <> 0.
Proof.
  intros V o k v. rewrite ObjFacts.keys_length.
  destruct o as [|[k' v'] o]; simpl; [discriminate|].
  destruct (String.eqb k' k); discriminate.
Qed.

(** X9. A virtual node takes the id the counter holds; it has the links of
    its source and one more, to the provider; the links of every other node
    are the ones they were; and its pending peer links are those of the
    source without the fulfilled name. *)
Theorem virtual_node_copies_its_source :
  forall (g g' : Graph) (s dep newId : nat) (name : string),
    createVirtualNode g s name dep = Ok (g', newId) ->
    newId = nodeCounter g /\
    nodeCounter g' = S (nodeCounter g) /\
    (forall t, has_link g' newId t <-> t = dep \/ has_link g s t) /\
    (forall a t, a <> newId -> (has_link g' a t <-> has_link g a t)) /\
    NMap.get (peerLinks g') newId
    = Some (filter (fun o => negb (String.eqb (targetName o) name))
              (match NMap.get (peerLinks g) s with Some l => l | None => [] end)) /\
    exists info,
      NMap.get (reversedNodes g) s = Some info /\
      NMap.get (reversedNodes g') newId
      = Some (mkInfo (info_name info) (info_version info)
                (Obj.set (Obj.spread Obj.empty (info_peerDeps info)) name dep)
                (info_isLocal info)).
Proof.
  intros g g' s dep newId name H.
  destruct (LinkFacts.createVirtualNode_links g s name dep g' newId H)
    as [Hid [Hc [Hl _]]].
  destruct (NodeFacts.createVirtualNode_nodes g s name dep g' newId H)
    as [info [l [Hinfo [_ [_ [_ [_ [Hr Hp]]]]]]]].
  split; [exact Hid|]. split; [exact Hc|]. split; [|split; [|split]].
  - intros t. rewrite (Hl newId t). split.
    + intros [[_ Ht]|[Hne _]]; [exact Ht|destruct (Hne eq_refl)].
    + intros Ht. left. auto.
  - intros a t Hne. rewrite (Hl a t). split.
    + intros [[Ha _]|[_ Ht]]; [destruct (Hne Ha)|exact Ht].
    + intros Ht. right. auto.
  - rewrite Hp. apply NMapFacts.nmap_get_set_eq.
  - exists info. split; [exact Hinfo|]. rewrite Hr. apply NMapFacts.nmap_get_set_eq.
Qed.

Lemma virtual_node_copies_its_source_witness :
  2 = nodeCounter GraphExamples.linked /\
  nodeCounter GraphExamples.linked_virtual = S (nodeCounter GraphExamples.linked) /\
  (forall t, has_link GraphExamples.linked_virtual 2 t <->
             t = 1 \/ has_link GraphExamples.linked 0 t) /\
  (forall a t, a <> 2 ->
               (has_link GraphExamples.linked_virtual a t <->
                has_link GraphExamples.linked a t)) /\
  NMap.get (peerLinks GraphExamples.linked_virtual) 2
  = Some (filter (fun o => negb (String.eqb (targetName o) "B"))
            (match NMap.get (peerLinks GraphExamples.linked) 0 with
             | Some l => l
             | None => []
             end)) /\
  exists info,
    NMap.get (reversedNodes GraphExamples.linked) 0 = Some info /\
    NMap.get (reversedNodes GraphExamples.linked_virtual) 2
    = Some (mkInfo (info_name info) (info_version info)
              (Obj.set (Obj.spread Obj.empty (info_peerDeps info)) "B" 1)
              (info_isLocal info)).
Proof.
  apply (virtual_node_copies_its_source GraphExamples.linked GraphExamples.linked_virtual
           0 1 2 "B").
  vm_compute. reflexivity.
Defined.

(** X10. A virtual node has a fulfilled peer dependency, so it is never the
    answer of [getNodeWithoutPeerDependencies]: after [createVirtualNode],
    every lookup gives what it gave before. *)
Theorem virtual_node_leaves_lookups :
  forall (g g' : Graph) (s dep newId : nat) (name : string),
    createVirtualNode g s name dep = Ok (g', newId) ->
    forall n v,
      getNodeWithoutPeerDependencies g' n v = getNodeWithoutPeerDependencies g n v.
Proof.
  intros g g' s dep newId name H n v.
  destruct (NodeFacts.createVirtualNode_nodes g s name dep g' newId H)
    as [info [l [_ [Hl [_ [_ [Hn _]]]]]]].
  rewrite !getNodeWithoutPeerDependencies_list_at.
  rewrite (NodeFacts.list_at_update g g' _ _ _ Hn n v).
  destruct (andb (String.eqb (info_name info) n) (String.eqb (info_version info) v)) eqn:E;
    [|reflexivity].
  apply andb_true_iff in E. destruct E as [E1 E2].
  apply String.eqb_eq in E1. apply String.eqb_eq in E2. subst n v. rewrite Hl.
  rewrite find_app_last; [reflexivity|].
  cbn [peerDeps]. apply Nat.eqb_neq. apply set_not_empty.
Qed.

Lemma virtual_node_leaves_lookups_witness :
  getNodeWithoutPeerDependencies GraphExamples.linked_virtual "A" "1"
  = getNodeWithoutPeerDependencies GraphExamples.linked "A" "1".
Proof.
  apply (virtual_node_leaves_lookups GraphExamples.linked GraphExamples.linked_virtual
           0 1 2 "B").
  vm_compute. reflexivity.
Defined.



(** The entries [getPeerLinks] pushes for the key [k]. *)
Lemma getPeerLinks_run :
  forall g ks acc out,
    forEach
      (fun result next =>
         let* info := unwrap (NMap.get (reversedNodes g) next) in
         if info_isLocal info then Ok result
         else
           let parents := NMap.keys (get_or_empty (reversedLinks g) next) in
           let* peers := unwrap (NMap.get (peerLinks g) next) in
           Ok (result ++
               flat_map (fun parent =>
                           map (fun peerLink =>
                                  mkPending parent next (targetName peerLink)
                                    (targetRange peerLink) (optional peerLink))
                               peers)
                        parents))
      ks acc = Ok out ->
    forall pd,
      In pd out <->
      In pd acc \/
      (In (sourceId pd) ks /\
       exists info peers peer,
         NMap.get (reversedNodes g) (sourceId pd) = Some info /\
         info_isLocal info = false /\
         NMap.get (peerLinks g) (sourceId pd) = Some peers /\
         In peer peers /\
         has_reversed g (sourceId pd) (parentId pd) /\
         pd = mkPending (parentId pd) (sourceId pd) (targetName peer) (targetRange peer)
                (optional peer)).
Proof.
  intros g. induction ks as [|k ks IH]; intros acc out H pd; simpl in H.
  - inversion H; subst. split; [auto|]. intros [Hp|[[] _]]. exact Hp.
  - destruct (NMap.get (reversedNodes g) k) as [info|] eqn:Einfo; cbn [unwrap bind] in H;
      [|discriminate].
    destruct (info_isLocal info) eqn:Eloc.
    + rewrite (IH _ _ H pd). split.
      * intros [Hp|[Hk Hrest]]; [left; exact Hp|right]. split; [right; exact Hk|exact Hrest].
      * intros [Hp|[[Hk|Hk] Hrest]]; [left; exact Hp| |right; auto].
        destruct Hrest as [info' [peers [peer [Hi [Hl _]]]]]. subst k. congruence.
    + destruct (NMap.get (peerLinks g) k) as [peers|] eqn:Epeers; cbn [unwrap bind] in H;
        [|discriminate].
      rewrite (IH _ _ H pd). rewrite in_app_iff, in_flat_map. split.
      * intros [[Hp|[parent [Hparent Hmap]]]|[Hk Hrest]].
        -- left. exact Hp.
        -- right. apply in_map_iff in Hmap. destruct Hmap as [peer [Hpd Hpeer]].
           subst pd. cbn [sourceId parentId]. split; [left; reflexivity|].
           exists info, peers, peer. auto 10.
        -- right. split; [right; exact Hk|exact Hrest].
      * intros [Hp|[[Hk|Hk] Hrest]].
        -- left. left. exact Hp.
        -- destruct Hrest as [info' [peers' [peer [Hi [Hl [Hps [Hpeer [Hrev Hpd]]]]]]]].
           left. right. exists (parentId pd). subst k. split; [exact Hrev|].
           apply in_map_iff. exists peer. split; [symmetry; exact Hpd|congruence].
        -- right. auto.
Qed.

(** X12. When [getPeerLinks] returns, its entries are exactly the triples of
    a node that is not local, one of its registered peer links and one of the
    sources of the links that reach it. *)
Theorem pending_peer_links_exact :
  forall (g : Graph) (queue : list PendingPeer),
    getPeerLinks g = Ok queue ->
    forall pd,
      In pd queue <->
      exists info peers peer,
        NMap.get (reversedNodes g) (sourceId pd) = Some info /\
        info_isLocal info = false /\
        NMap.get (peerLinks g) (sourceId pd) = Some peers /\
        In peer peers /\
        has_reversed g (sourceId pd) (parentId pd) /\
        pd = mkPending (parentId pd) (sourceId pd) (targetName peer) (targetRange peer)
               (optional peer).
Proof.
  intros g queue H pd. unfold getPeerLinks in H.
  rewrite (getPeerLinks_run g _ _ _ H pd). split.
  - intros [[]|[_ Hrest]]. exact Hrest.
  - intros Hrest. right. split; [|exact Hrest].
    destruct Hrest as [info [peers [peer [_ [_ [Hp _]]]]]].
    apply (proj2 (NMapFacts.in_keys_get _ _ _)). exists peers. exact Hp.
Qed.

Lemma pending_peer_links_exact_witness :
  In (mkPending 0 1 "C" "^1.0.0" false) [mkPending 0 1 "C" "^1.0.0" false] <->
  exists info peers peer,
    NMap.get (reversedNodes GraphExamples.with_peer)
      (sourceId (mkPending 0 1 "C" "^1.0.0" false)) = Some info /\
    info_isLocal info = false /\
    NMap.get (peerLinks GraphExamples.with_peer)
      (sourceId (mkPending 0 1 "C" "^1.0.0" false)) = Some peers /\
    In peer peers /\
    has_reversed GraphExamples.with_peer (sourceId (mkPending 0 1 "C" "^1.0.0" false))
      (parentId (mkPending 0 1 "C" "^1.0.0" false)) /\
    mkPending 0 1 "C" "^1.0.0" false
    = mkPending (parentId (mkPending 0 1 "C" "^1.0.0" false))
        (sourceId (mkPending 0 1 "C" "^1.0.0" false)) (targetName peer) (targetRange peer)
        (optional peer).
Proof.
  apply (pending_peer_links_exact GraphExamples.with_peer
           [mkPending 0 1 "C" "^1.0.0" false]).
  vm_compute. reflexivity.
Defined.

End MethodFacts.

(** ** The checks of the installer one by one *)
Module CheckFacts.
Import Store ValidationSpec.

Lemma findDups_first :
  forall l x, findDups l = Some x -> first_repeated l x.
Proof.
  induction l as [|y l IH]; intros x H; simpl in H; [discriminate|].
  destruct (includes l y) eqn:E.
  - inversion H; subst. exists [], l. split; [reflexivity|].
    split; [apply (proj1 (BinFacts.includes_In l x) E)|].
    intros l3 z l4 Heq. destruct l3; discriminate Heq.
  - destruct (IH x H) as [l1 [l2 [Hl [Hin Hfirst]]]].
    exists (y :: l1), l2. split; [rewrite Hl; reflexivity|]. split; [exact Hin|].
    intros l3 z l4 Heq. destruct l3 as [|w l3]; simpl in Heq; inversion Heq; subst.
    + intros Hz. apply (proj2 (BinFacts.includes_In _ _)) in Hz. congruence.
    + apply (Hfirst l3 z l4 eq_refl).
Qed.

(** X13. [findDups] returns nothing exactly when no element is repeated,
    and otherwise the first element of the array that occurs again later. *)
Theorem findDups_finds_the_first_repetition :
  forall (l : list string),
    (findDups l = None <-> NoDup l) /\
    (forall x, findDups l = Some x -> first_repeated l x).
Proof.
  intros l. split; [split|].
  - apply BinFacts.findDups_None_NoDup.
  - apply StoreFacts.findDups_NoDup.
  - apply findDups_first.
Qed.

(** *** [findDependenciesWithSameName] *)

Lemma same_target_name_eq :
  forall a b, same_target_name a b = true <-> a = b.
Proof.
  intros [a|] [b|]; simpl; split; intros H; try discriminate; try reflexivity.
  - apply String.eqb_eq in H. congruence.
  - inversion H; subst. apply String.eqb_refl.
Qed.

Lemma seen_target_name :
  forall t seen, existsb (same_target_name t) seen = true <-> In t seen.
Proof.
  intros t seen. rewrite existsb_exists. split.
  - intros [x [Hx E]]. apply same_target_name_eq in E. subst. exact Hx.
  - intros H. exists t. split; [exact H|apply same_target_name_eq; reflexivity].
Qed.

Lemma NoDup_snoc :
  forall (A : Type) (l : list A) (x : A), NoDup (l ++ [x]) <-> NoDup l /\ ~ In x l.
Proof.
  intros A l x. split.
  - intros H. apply NoDup_remove in H. rewrite app_nil_r in H. exact H.
  - intros [Hl Hx]. apply NoDup_app; [exact Hl|constructor; [intros []|constructor]|].
    intros y Hy [Heq|[]]. subst y. exact (Hx Hy).
Qed.

Lemma same_name_step :
  forall g before l st,
    seen_so_far g before st ->
    seen_so_far g (before ++ [l])
      (let dependenciesMap := fst st in
       let result := snd st in
       let targetName := name_of g (target l) in
       let seen :=
         match SMap.get dependenciesMap (source l) with
         | Some s => s
         | None => []
         end in
       if existsb (same_target_name targetName) seen
       then (SMap.set dependenciesMap (source l) seen,
             result ++ [(source l, targetName)])
       else (SMap.set dependenciesMap (source l) (seen ++ [targetName]), result)).
Proof.
  intros g before l [dm res] [Hseen [Hres Hsub]]. cbn [fst snd] in *. cbv zeta.
  assert (Hmap : map (dependency g) (before ++ [l])
                 = map (dependency g) before ++ [(source l, name_of g (target l))]).
  { rewrite map_app. reflexivity. }
  destruct (existsb _ _) eqn:E.
  - apply seen_target_name in E.
    assert (Hget : exists seen, SMap.get dm (source l) = Some seen /\
                                In (name_of g (target l)) seen).
    { destruct (SMap.get dm (source l)) as [seen|]; [|destruct E]. exists seen. auto. }
    assert (Hold : In (source l, name_of g (target l)) (map (dependency g) before)).
    { apply (proj2 (Hseen _ _)). exact Hget. }
    destruct Hget as [seen [Hg Hin]]. rewrite Hg in *.
    unfold seen_so_far. cbn [fst snd]. rewrite Hmap. split; [|split].
    + intros s t. rewrite in_app_iff. split.
      * intros [H|[H|[]]].
        -- apply (proj1 (Hseen s t)) in H. destruct H as [seen' [Hg' Hin']].
           destruct (String.eqb (source l) s) eqn:Es.
           ++ apply String.eqb_eq in Es. subst s. exists seen.
              rewrite MapFacts.smap_get_set_eq. split; [reflexivity|congruence].
           ++ apply String.eqb_neq in Es. exists seen'.
              rewrite (@MapFacts.smap_get_set_neq _ _ _ _ _ Es). auto.
        -- inversion H; subst. exists seen. rewrite MapFacts.smap_get_set_eq. auto.
      * intros [seen' [Hg' Hin']]. left. apply (proj2 (Hseen s t)).
        destruct (String.eqb (source l) s) eqn:Es.
        -- apply String.eqb_eq in Es. subst s. rewrite MapFacts.smap_get_set_eq in Hg'.
           inversion Hg'; subst. exists seen'. auto.
        -- apply String.eqb_neq in Es. rewrite (@MapFacts.smap_get_set_neq _ _ _ _ _ Es) in Hg'.
           exists seen'. auto.
    + split.
      * intros H. destruct res; discriminate H.
      * intros H. apply NoDup_snoc in H. destruct H as [_ H]. destruct (H Hold).
    + intros p Hp. apply in_app_or in Hp. apply in_or_app.
      destruct Hp as [Hp|[<-|[]]]; [left; apply (Hsub p Hp)|left; exact Hold].
  - assert (Hnew : ~ In (source l, name_of g (target l)) (map (dependency g) before)).
    { intros H. apply (proj1 (Hseen _ _)) in H. destruct H as [seen [Hg Hin]].
      rewrite Hg in E. apply (proj2 (seen_target_name _ _)) in Hin. congruence. }
    unfold seen_so_far. cbn [fst snd]. rewrite Hmap. split; [|split].
    + intros s t. rewrite in_app_iff. split.
      * intros [H|[H|[]]].
        -- apply (proj1 (Hseen s t)) in H. destruct H as [seen' [Hg' Hin']].
           destruct (String.eqb (source l) s) eqn:Es.
           ++ apply String.eqb_eq in Es. subst s. rewrite Hg'.
              exists (seen' ++ [name_of g (target l)]).
              rewrite MapFacts.smap_get_set_eq. split; [reflexivity|].
              apply in_or_app. left. exact Hin'.
           ++ apply String.eqb_neq in Es. exists seen'.
              rewrite (@MapFacts.smap_get_set_neq _ _ _ _ _ Es). auto.
        -- inversion H; subst. eexists. rewrite MapFacts.smap_get_set_eq.
           split; [reflexivity|]. apply in_or_app. right. left. reflexivity.
      * intros [seen' [Hg' Hin']].
        destruct (String.eqb (source l) s) eqn:Es.
        -- apply String.eqb_eq in Es. subst s. rewrite MapFacts.smap_get_set_eq in Hg'.
           inversion Hg'; subst. apply in_app_or in Hin'.
           destruct Hin' as [Hin'|[<-|[]]]; [|right; left; reflexivity].
           left. apply (proj2 (Hseen _ _)).
           destruct (SMap.get dm (source l)) as [seen|]; [|destruct Hin'].
           exists seen. auto.
        -- apply String.eqb_neq in Es. rewrite (@MapFacts.smap_get_set_neq _ _ _ _ _ Es) in Hg'.
           left. apply (proj2 (Hseen s t)). exists seen'. auto.
    + rewrite Hres. rewrite NoDup_snoc. split; [intros H; auto|intros [H _]; exact H].
    + intros p Hp. apply in_or_app. left. apply (Hsub p Hp).
Qed.

Lemma same_name_run :
  forall g after before st,
    seen_so_far g before st ->
    seen_so_far g (before ++ after)
      (fold_left
         (fun (st : SMap.t (list (option string)) * list (string * option string)) l =>
            let dependenciesMap := fst st in
            let result := snd st in
            let targetName := name_of g (target l) in
            let seen :=
              match SMap.get dependenciesMap (source l) with
              | Some s => s
              | None => []
              end in
            if existsb (same_target_name targetName) seen
            then (SMap.set dependenciesMap (source l) seen,
                  result ++ [(source l, targetName)])
            else (SMap.set dependenciesMap (source l) (seen ++ [targetName]), result))
         after st).
Proof.
  intros g. induction after as [|l after IH]; intros before st H; simpl.
  - rewrite app_nil_r. exact H.
  - replace (before ++ l :: after) with ((before ++ [l]) ++ after)
      by (rewrite <- app_assoc; reflexivity).
    apply IH. apply (same_name_step g before l st H).
Qed.

Lemma same_name_run_exact :
  forall g,
    (findDependenciesWithSameName g = [] <-> NoDup (map (dependency g) (links g))) /\
    (forall p, In p (findDependenciesWithSameName g) ->
               In p (map (dependency g) (links g))).
Proof.
  intros g.
  assert (H := same_name_run g (links g) [] (SMap.empty, [])).
  cbn [app] in H. destruct H as [_ [Hres Hsub]].
  - split; [|split].
    + intros s t. split; [intros []|]. intros [seen [Hg _]]. discriminate Hg.
    + split; [constructor|reflexivity].
    + intros p [].
  - split; [exact Hres|exact Hsub].
Qed.

(** X14. [findDependenciesWithSameName] reports nothing exactly when no two
    links have the same source and lead to packages of the same name (a link
    given twice counts), and whatever it reports is the source and the target
    name of a link. *)
Theorem same_name_dependencies_exact :
  forall (g : Graph),
    (findDependenciesWithSameName g = [] <-> NoDup (map (dependency g) (links g))) /\
    (forall p, In p (findDependenciesWithSameName g) ->
               In p (map (dependency g) (links g))).
Proof. intros g. apply same_name_run_exact. Qed.

(** *** The regular expression for package names *)

Lemma append_slash :
  forall a rest, ((a ++ "/") ++ rest)%string = (a ++ String "/" rest)%string.
Proof. induction a as [|c a IH]; intros rest; simpl; [reflexivity|rewrite IH; reflexivity]. Qed.

Lemma split_slash_inv :
  forall s a b, split_slash s = Some (a, b) -> s = (a ++ String "/" b)%string.
Proof.
  induction s as [|c s IH]; intros a b H; simpl in H; [discriminate|].
  destruct (Ascii.eqb c "/") eqn:E.
  - apply Ascii.eqb_eq in E. inversion H; subst. reflexivity.
  - destruct (split_slash s) as [[a' b']|]; [|discriminate].
    inversion H; subst. simpl. rewrite (IH a' b eq_refl). reflexivity.
Qed.

Lemma split_slash_first :
  forall (p : ascii -> bool) cs rest,
    p "/"%char = false -> all_chars p cs = true ->
    split_slash (cs ++ String "/" rest) = Some (cs, rest).
Proof.
  intros p cs rest Hp. induction cs as [|c cs IH]; intros H; simpl in *; [reflexivity|].
  apply andb_true_iff in H. destruct H as [Hc Hcs].
  destruct (Ascii.eqb c "/") eqn:E.
  - apply Ascii.eqb_eq in E. subst c. congruence.
  - rewrite (IH Hcs). reflexivity.
Qed.

Lemma valid_name_shape :
  forall (s : string), valid_name s = true <-> name_shape s.
Proof.
  intros s. split.
  - intros H. destruct s as [|c s]; [discriminate|]. unfold valid_name in H.
    destruct (Ascii.eqb c "@") eqn:E.
    + apply Ascii.eqb_eq in E. subst c.
      destruct (split_slash s) as [[scope rest]|] eqn:Es; [|discriminate].
      apply andb_true_iff in H. destruct H as [Hscope Hrest].
      destruct scope as [|c1 cs1]; [discriminate|]. destruct rest as [|c2 cs2]; [discriminate|].
      simpl in Hscope, Hrest. apply andb_true_iff in Hscope. apply andb_true_iff in Hrest.
      exists (String "@" (String c1 cs1 ++ "/")), (String c2 cs2). split; [|split].
      * rewrite (split_slash_inv _ _ _ Es). simpl. rewrite append_slash. reflexivity.
      * right. exists c1, cs1. split; [reflexivity|tauto].
      * exists c2, cs2. split; [reflexivity|tauto].
    + exists EmptyString, (String c s). split; [reflexivity|]. split; [left; reflexivity|].
      simpl in H. apply andb_true_iff in H. exists c, s. split; [reflexivity|tauto].
  - intros [scope [rest [Hs [Hscope [c [cs [Hrest [Hc Hcs]]]]]]]]. subst s rest.
    destruct Hscope as [->|[c1 [cs1 [-> [Hc1 Hcs1]]]]].
    + simpl. destruct (Ascii.eqb c "@") eqn:E.
      * apply Ascii.eqb_eq in E. subst c. discriminate Hc.
      * rewrite Hc, Hcs. reflexivity.
    + simpl. rewrite append_slash.
      destruct (Ascii.eqb c1 "/") eqn:E.
      * apply Ascii.eqb_eq in E. subst c1. discriminate Hc1.
      * rewrite (split_slash_first scope_rest cs1 (String c cs) eq_refl Hcs1).
        simpl. rewrite Hc1, Hcs1, Hc, Hcs. reflexivity.
Qed.

(** X15. The name check of [getGraphError] accepts exactly the strings
    [name] and [@scope/name] whose parts start with a character of the first
    class of the regular expression and go on with characters of the second:
    taking the scope when the string starts with [@], up to the first [/],
    loses no match. *)
Theorem valid_names_have_the_shape :
  forall (s : string), valid_name s = true <-> name_shape s.
Proof. intros s. apply valid_name_shape. Qed.

(** *** [addSelfLinks] *)

Lemma filter_idempotent :
  forall (A : Type) (p : A -> bool) (l : list A), filter p (filter p l) = filter p l.
Proof.
  intros A p. induction l as [|x l IH]; simpl; [reflexivity|].
  destruct (p x) eqn:E; simpl; [rewrite E, IH; reflexivity|exact IH].
Qed.

Lemma filter_self_links :
  forall g,
    filter (fun l => negb (String.eqb (source l) (target l))) (self_links g) = [].
Proof.
  intros g. unfold self_links. induction (nodes g) as [|n ns IH]; simpl; [reflexivity|].
  rewrite String.eqb_refl. simpl. exact IH.
Qed.

(** X16. [addSelfLinks] keeps the nodes, drops every link from a node to
    itself, keeps the other links in their order and appends one link from
    each node to itself, in the order of the nodes; applying it again changes
    nothing. *)
Theorem addSelfLinks_is_idempotent :
  forall (g : Graph),
    addSelfLinks (addSelfLinks g) = addSelfLinks g /\
    nodes (addSelfLinks g) = nodes g /\
    links (addSelfLinks g)
    = filter (fun l => negb (String.eqb (source l) (target l))) (links g) ++ self_links g /\
    forall l,
      In l (links (addSelfLinks g)) <->
      (In l (links g) /\ source l <> target l) \/
      exists n, In n (nodes g) /\ l = mkLink (key n) (key n).
Proof.
  intros g. split; [|split; [reflexivity|split; [reflexivity|]]].
  - unfold addSelfLinks. cbn [nodes links]. f_equal. rewrite filter_app, filter_idempotent.
    fold (self_links g). rewrite filter_self_links, app_nil_r. reflexivity.
  - intros l. unfold addSelfLinks. cbn [links]. rewrite in_app_iff, filter_In, in_map_iff.
    split.
    + intros [[Hl Hne]|[n [Hn Hin]]].
      * left. split; [exact Hl|]. apply negb_true_iff in Hne.
        apply String.eqb_neq. exact Hne.
      * right. exists n. auto.
    + intros [[Hl Hne]|[n [Hin Hn]]].
      * left. split; [exact Hl|]. apply negb_true_iff. apply String.eqb_neq. exact Hne.
      * right. exists n. auto.
Qed.

End CheckFacts.

(** ** What [validateInput] accepts *)
Module ValidationFacts.
Import Store ValidationSpec StoreSpec BinSpec.

Lemma install_ignored :
  forall src bs (inst : SMap.t SSet.t) (errs : list string) (s : SSet.t),
    SMap.get inst src = Some s ->
    exists inst' s',
      forEach (install_bins (Some true) src) bs (inst, errs) = Ok (inst', errs) /\
      SMap.get inst' src = Some s' /\
      (forall k, k <> src -> SMap.get inst' k = SMap.get inst k).
Proof.
  intros src. induction bs as [|b bs IH]; intros inst errs s Hs.
  - exists inst, s. simpl. auto.
  - simpl. unfold install_bins at 1. cbn [fst snd]. rewrite Hs. cbn [unwrap bind].
    rewrite andb_false_r.
    destruct (IH (SMap.set inst src (SSet.add s b)) errs (SSet.add s b))
      as [inst' [s' [Hrun [Hs' Hother]]]].
    { apply MapFacts.smap_get_set_eq. }
    exists inst', s'. split; [exact Hrun|]. split; [exact Hs'|].
    intros k Hk. rewrite (Hother k Hk).
    apply (@MapFacts.smap_get_set_neq _ _ _ _ _ (not_eq_sym Hk)).
Qed.

Section Collisions.
Variable g : Graph.
Variable ignore : option bool.
Hypothesis Hnodup : NoDup (map key (nodes g)).
Hypothesis Hends :
  forall l, In l (links g) ->
            In (source l) (map key (nodes g)) /\ In (target l) (map key (nodes g)).

Lemma links_ignored :
  forall ls inst errs,
    (forall l, In l ls -> In l (links g)) ->
    all_defined g inst ->
    exists inst', forEach (body g (Some true)) ls (inst, errs) = Ok (inst', errs).
Proof.
  induction ls as [|l ls IH]; intros inst errs Hsub Hdef.
  - exists inst. reflexivity.
  - destruct (Hends l (Hsub l (or_introl eq_refl))) as [Hsrc Htgt].
    apply in_map_iff in Htgt. destruct Htgt as [nt [Hknt Hnt]].
    destruct (Hdef _ Hsrc) as [s Hs].
    destruct (install_ignored (source l) (bins_set nt) inst errs s Hs)
      as [inst1 [s1 [Hrun [Hs1 Hother]]]].
    destruct (IH inst1 errs) as [inst' Hrest].
    { intros l' Hl'. apply Hsub. right. exact Hl'. }
    { intros k Hk. destruct (String.eqb k (source l)) eqn:E.
      - apply String.eqb_eq in E. subst k. exists s1. exact Hs1.
      - apply String.eqb_neq in E. rewrite (Hother k E). apply (Hdef k Hk). }
    exists inst'. cbn [forEach]. unfold body at 1.
    rewrite <- Hknt, (BinFacts.binsMap_of_node g Hnodup nt Hnt). cbn [unwrap bind].
    rewrite Hrun. cbn [bind]. exact Hrest.
Qed.

(** Two links from the same source whose targets expose the same bin. *)
Lemma later_link_collides :
  forall before l1 middle l2 after b n1 n2,
    links g = before ++ l1 :: middle ++ l2 :: after ->
    source l1 = source l2 ->
    In n1 (nodes g) -> key n1 = target l1 ->
    In n2 (nodes g) -> key n2 = target l2 ->
    In b (bin_names n1) -> In b (bin_names n2) ->
    ignore <> Some true ->
    exists inst e more,
      forEach (body g ignore) (links g) (installed0 g, []) = Ok (inst, e :: more).
Proof.
  intros before l1 middle l2 after b n1 n2 Hlinks Hsame Hn1 Hk1 Hn2 Hk2 Hb1 Hb2 Hig.
  assert (Hvalid : forall l', In l' (before ++ l1 :: middle ++ l2 :: after) ->
                     In (source l') (map key (nodes g)) /\
                     In (target l') (map key (nodes g))).
  { intros l' Hl'. apply Hends. rewrite Hlinks. exact Hl'. }
  rewrite Hlinks.
  set (inst0 := installed0 g).
  assert (Hdef0 : all_defined g inst0).
  { intros k Hk. apply BinFacts.fold_set_defined. left. exact Hk. }
  destruct (@BinFacts.many_links g ignore Hnodup before inst0 []) as [i1 [m1 [R1 [D1 [G1 A1]]]]].
  { intros l' Hl'. apply Hvalid. apply in_or_app. left. exact Hl'. }
  { exact Hdef0. }
  destruct (Hvalid l1) as [Hsrc1 _].
  { apply in_or_app. right. left. reflexivity. }
  destruct (@BinFacts.one_link g ignore Hnodup l1 n1 i1 ([] ++ m1) Hsrc1 Hn1 Hk1 D1)
    as [i2 [m2 [R2 [D2 [G2 [A2 [Hput _]]]]]]].
  destruct (Hput b Hb1) as [s2 [Hs2 Hbs2]].
  destruct (@BinFacts.many_links g ignore Hnodup middle i2 (([] ++ m1) ++ m2))
    as [i3 [m3 [R3 [D3 [G3 A3]]]]].
  { intros l' Hl'. apply Hvalid. apply in_or_app. right. right.
    apply in_or_app. left. exact Hl'. }
  { exact D2. }
  destruct (G3 _ _ _ Hs2 Hbs2) as [s3 [Hs3 Hbs3]].
  destruct (Hvalid l2) as [Hsrc2 _].
  { apply in_or_app. right. right. apply in_or_app. right. left. reflexivity. }
  destruct (@BinFacts.one_link g ignore Hnodup l2 n2 i3 ((([] ++ m1) ++ m2) ++ m3)
              Hsrc2 Hn2 Hk2 D3)
    as [i4 [m4 [R4 [D4 [G4 [A4 [_ Hhit]]]]]]].
  assert (Hm4 : m4 <> []).
  { apply Hhit; [exact Hig|]. exists b, s3. rewrite <- Hsame. auto. }
  destruct (@BinFacts.many_links g ignore Hnodup after i4 (((([] ++ m1) ++ m2) ++ m3) ++ m4))
    as [i5 [m5 [R5 [D5 [G5 A5]]]]].
  { intros l' Hl'. apply Hvalid. apply in_or_app. right. right.
    apply in_or_app. right. right. exact Hl'. }
  { exact D4. }
  assert (Hne : ((([] ++ m1) ++ m2) ++ m3) ++ m4 ++ m5 <> []).
  { intros Hnil. apply app_eq_nil in Hnil. destruct Hnil as [_ Hnil].
    apply app_eq_nil in Hnil. destruct Hnil as [Hnil _]. contradiction. }
  destruct (((([] ++ m1) ++ m2) ++ m3) ++ m4 ++ m5) as [|e more] eqn:Herrs;
    [contradiction|].
  exists i5, e, more.
  rewrite BinFacts.forEach_app, R1. cbn [bind forEach].
  rewrite R2. cbn [bind]. rewrite BinFacts.forEach_app, R3. cbn [bind forEach].
  rewrite R4. cbn [bind]. rewrite R5, <- Herrs.
  f_equal. f_equal. repeat rewrite <- app_assoc. reflexivity.
Qed.
End Collisions.

(** The first pass of [getBinError], over the names of the bins. *)
Lemma invalid_bin_errors :
  forall ns,
    match filter (fun a : list string => negb (Nat.eqb (List.length a) 0))
            (map (fun node =>
                    map (fun binName => invalid_bin_message (key node) binName)
                      (filter invalid_bin_name (bin_names node))) ns) with
    | [] => forall n b, In n ns -> In b (bin_names n) -> invalid_bin_name b = false
    | [] :: _ => False
    | (e :: _) :: _ =>
        exists n b, In n ns /\ In b (bin_names n) /\ invalid_bin_name b = true
    end.
Proof.
  induction ns as [|n ns IH]; simpl; [intros n b []|].
  destruct (filter invalid_bin_name (bin_names n)) as [|b0 bs] eqn:Ef; simpl.
  - destruct (filter _ (map _ ns)) as [|[|e es] rest].
    + intros n' b [<-|Hn'] Hb; [|apply (IH n' b Hn' Hb)].
      apply (@BinFacts.filter_nil_all _ _ _ b Ef Hb).
    + exact IH.
    + destruct IH as [n' [b [Hn' Hb]]]. exists n', b. split; [right; exact Hn'|exact Hb].
  - exists n, b0. split; [left; reflexivity|].
    assert (Hin : In b0 (filter invalid_bin_name (bin_names n))) by (rewrite Ef; left; reflexivity).
    apply filter_In in Hin. exact Hin.
Qed.
Lemma getBinError_loop :
  forall g ignore,
    (forall n b, In n (nodes g) -> In b (bin_names n) -> invalid_bin_name b = false) ->
    getBinError g ignore
    = let* final := forEach (body g ignore) (links g) (installed0 g, []) in
      match snd final with
      | e :: _ => Ok (Some e)
      | [] => Ok None
      end.
Proof.
  intros g ignore Hnames. unfold getBinError.
  assert (Hpass := invalid_bin_errors (nodes g)).
  destruct (filter _ (map _ (nodes g))) as [|[|e es] rest].
  - reflexivity.
  - destruct Hpass.
  - destruct Hpass as [n [b [Hn [Hb Hbad]]]]. rewrite (Hnames n b Hn Hb) in Hbad.
    discriminate.
Qed.

Lemma bin_check_exact :
  forall g ignore,
    NoDup (map key (nodes g)) ->
    (forall l, In l (links g) ->
       In (source l) (map key (nodes g)) /\ In (target l) (map key (nodes g))) ->
    (getBinError g ignore = Ok None <->
     (forall n b, In n (nodes g) -> In b (bin_names n) -> invalid_bin_name b = false) /\
     (ignore = Some true \/ no_declared_collision g)).
Proof.
  intros g ignore Hnodup Hends. split.
  - intros H.
    assert (Hnames : forall n b, In n (nodes g) -> In b (bin_names n) ->
                                 invalid_bin_name b = false).
    { assert (Hpass := invalid_bin_errors (nodes g)). unfold getBinError in H.
      destruct (filter _ (map _ (nodes g))) as [|[|e es] rest].
      - exact Hpass.
      - destruct Hpass.
      - discriminate H. }
    split; [exact Hnames|].
    assert (Hfree : ignore <> Some true -> no_declared_collision g).
    { intros Hig before l after l' b Hlinks Hin Hsrc [n1 [Hn1 [Hk1 Hb1]]] [n2 [Hn2 [Hk2 Hb2]]].
      destruct (in_split _ _ Hin) as [b1 [b2 Hbefore]]. subst before.
      rewrite <- app_assoc in Hlinks. cbn [app] in Hlinks.
      destruct (later_link_collides g ignore Hnodup Hends b1 l' b2 l after b n1 n2
                  Hlinks Hsrc Hn1 Hk1 Hn2 Hk2 Hb1 Hb2 Hig) as [inst [e [more Hrun]]].
      rewrite (getBinError_loop g ignore Hnames), Hrun in H. discriminate H. }
    destruct ignore as [[|]|]; [left; reflexivity| |]; right; apply Hfree; discriminate.
  - intros [Hnames [Hig|Hfree]].
    + subst ignore. rewrite (getBinError_loop g (Some true) Hnames).
      destruct (links_ignored g Hnodup Hends (links g) (installed0 g) [])
        as [inst Hrun].
      * auto.
      * intros k Hk. apply BinFacts.fold_set_defined. left. exact Hk.
      * rewrite Hrun. reflexivity.
    + apply (@BinFacts.getBinError_declared_links g ignore Hends Hfree Hnames).
Qed.

Section Accepted.
Variable disk : Type.
Variable isAbsolute : string -> bool.
Variable statSync : disk -> string -> option Stats.
Variable readdirSync : disk -> string -> option (list string).

Lemma location_check_exact :
  forall d location,
    getLocationError isAbsolute statSync readdirSync d location = None <->
    empty_directory isAbsolute statSync readdirSync d location.
Proof.
  intros d location. unfold getLocationError, empty_directory. split.
  - intros H. destruct (isAbsolute location); [|discriminate]. cbn [negb] in H.
    destruct (statSync d location) as [stats|]; [|discriminate].
    destruct (isDirectory stats) eqn:Edir; [|discriminate]. cbn [negb] in H.
    destruct (readdirSync d location) as [[|x dir]|]; try discriminate.
    split; [reflexivity|]. split; [|reflexivity]. exists stats. auto.
  - intros [Ha [[stats [Hs Hd]] Hr]]. rewrite Ha, Hs, Hd, Hr. reflexivity.
Qed.

Lemma graph_check_exact :
  forall d g,
    getGraphError isAbsolute statSync d g = None <->
    NoDup (map key (nodes g)) /\
    (forall n, In n (nodes g) ->
       isAbsolute (location n) = true /\ valid_name (name n) = true /\
       forall stats, statSync d (location n) = Some stats -> isDirectory stats = true) /\
    (forall l, In l (links g) ->
       In (source l) (map key (nodes g)) /\ In (target l) (map key (nodes g))) /\
    NoDup (map (dependency g) (links g)).
Proof.
  intros d g. unfold getGraphError. split.
  - intros H.
    destruct (findDups (map key (nodes g))) eqn:Hd; [discriminate|].
    destruct (filter (fun n => negb (isAbsolute (location n))) (nodes g)) eqn:Ha;
      [|discriminate].
    destruct (filter (fun n => negb (valid_name (name n))) (nodes g)) eqn:Hv;
      [|discriminate].
    destruct (filter (not_folder statSync d) (nodes g)) eqn:Hf; [|discriminate].
    destruct (filter (fun l => negb (includes (map key (nodes g)) (source l))) (links g))
      eqn:Hs; [|discriminate].
    destruct (filter (fun l => negb (includes (map key (nodes g)) (target l))) (links g))
      eqn:Ht; [|discriminate].
    destruct (findDependenciesWithSameName g) as [|[src tgt] rest] eqn:Hsame;
      [|discriminate].
    split; [apply BinFacts.findDups_None_NoDup, Hd|]. split; [|split].
    + intros n Hn.
      assert (Ha' := @BinFacts.filter_nil_all _ _ _ n Ha Hn).
      assert (Hv' := @BinFacts.filter_nil_all _ _ _ n Hv Hn).
      assert (Hf' := @BinFacts.filter_nil_all _ _ _ n Hf Hn).
      apply negb_false_iff in Ha'. apply negb_false_iff in Hv'.
      split; [exact Ha'|]. split; [exact Hv'|].
      intros stats Hstat. unfold not_folder in Hf'. rewrite Hstat in Hf'.
      apply negb_false_iff in Hf'. exact Hf'.
    + intros l Hl.
      assert (Hs' := @BinFacts.filter_nil_all _ _ _ l Hs Hl).
      assert (Ht' := @BinFacts.filter_nil_all _ _ _ l Ht Hl).
      apply negb_false_iff in Hs'. apply negb_false_iff in Ht'.
      split; apply BinFacts.includes_In; assumption.
    + apply (proj1 (proj1 (CheckFacts.same_name_run_exact g))). exact Hsame.
  - intros [Hnd [Hnodes [Hlinks Hdeps]]].
    rewrite (@StoreFacts.findDups_NoDup _ Hnd).
    rewrite (@StoreFacts.filter_nil_forall _ (fun n => negb (isAbsolute (location n))) (nodes g)).
    2:{ intros n Hn. destruct (Hnodes n Hn) as [Ha _]. rewrite Ha. reflexivity. }
    rewrite (@StoreFacts.filter_nil_forall _ (fun n => negb (valid_name (name n))) (nodes g)).
    2:{ intros n Hn. destruct (Hnodes n Hn) as [_ [Hv _]]. rewrite Hv. reflexivity. }
    rewrite (@StoreFacts.filter_nil_forall _ (not_folder statSync d) (nodes g)).
    2:{ intros n Hn. destruct (Hnodes n Hn) as [_ [_ Hf]]. unfold not_folder.
        destruct (statSync d (location n)) as [stats|]; [|reflexivity].
        rewrite (Hf stats eq_refl). reflexivity. }
    rewrite (@StoreFacts.filter_nil_forall _
               (fun l => negb (includes (map key (nodes g)) (source l))) (links g)).
    2:{ intros l Hl. destruct (Hlinks l Hl) as [Hs _].
        apply (proj2 (BinFacts.includes_In _ _)) in Hs. rewrite Hs. reflexivity. }
    rewrite (@StoreFacts.filter_nil_forall _
               (fun l => negb (includes (map key (nodes g)) (target l))) (links g)).
    2:{ intros l Hl. destruct (Hlinks l Hl) as [_ Ht].
        apply (proj2 (BinFacts.includes_In _ _)) in Ht. rewrite Ht. reflexivity. }
    rewrite (proj2 (proj1 (CheckFacts.same_name_run_exact g)) Hdeps). reflexivity.
Qed.

(** X17. [validateInput] returns exactly when: the store location is an
    absolute path to a directory with no entry; the keys of the nodes are
    distinct; every node has an absolute location that is not a file or
    another non-directory (one that does not exist passes), a name of the
    shape of a package name and bins whose names hold no slash, backslash or
    line feed; both ends of every link are keys of nodes; no two links have
    the same source and targets of the same name; and, unless
    [ignoreBinConflicts] is [true], no link follows a link of the same
    source whose target exposes a bin of the same name. *)
Theorem validation_accepts_exactly :
  forall (d : disk) (g : Graph) (location : string) (ignore : option bool),
    validateInput isAbsolute statSync readdirSync d g location ignore = Ok tt <->
    acceptable isAbsolute statSync readdirSync d g location ignore.
Proof.
  intros d g location ignore. unfold validateInput, acceptable. split.
  - intros H.
    destruct (getLocationError isAbsolute statSync readdirSync d location) eqn:Hloc;
      [discriminate|].
    destruct (getGraphError isAbsolute statSync d g) eqn:Hgraph; [discriminate|].
    destruct (getBinError g ignore) as [[e|]|e] eqn:Hbin; try discriminate.
    apply location_check_exact in Hloc. apply graph_check_exact in Hgraph.
    destruct Hgraph as [Hnd [Hnodes [Hlinks Hdeps]]].
    apply (bin_check_exact g ignore Hnd Hlinks) in Hbin. destruct Hbin as [Hnames Hfree].
    split; [exact Hloc|]. split; [exact Hnd|]. split; [|auto].
    intros n Hn. destruct (Hnodes n Hn) as [Ha [Hv Hf]]. unfold acceptable_node.
    split; [exact Ha|]. split; [exact Hv|]. split; [exact Hf|]. intros b Hb. apply (Hnames n b Hn Hb).
  - intros [Hloc [Hnd [Hnodes [Hlinks [Hdeps Hfree]]]]].
    rewrite (proj2 (location_check_exact d location) Hloc).
    rewrite (proj2 (graph_check_exact d g)).
    2:{ split; [exact Hnd|]. split; [|auto]. intros n Hn.
        destruct (Hnodes n Hn) as [Ha [Hv [Hf _]]]. auto. }
    rewrite (proj2 (bin_check_exact g ignore Hnd Hlinks)); [reflexivity|].
    split; [|exact Hfree]. intros n b Hn Hb. destruct (Hnodes n Hn) as [_ [_ [_ Hbins]]].
    apply (Hbins b Hb).
Qed.
End Accepted.

End ValidationFacts.

(** ** The adjacency lists [convertGraphToTree] gives to [scc] *)
Module AdjacencyFacts.
Import GraphToTree TreeCheckSpec.

Lemma index_nodes_known :
  forall l i m k,
    In k (map key l) ->
    exists j, SMap.get (index_nodes i l m) k = Some j /\ i <= j < i + List.length l.
Proof.
  induction l as [|n l IH]; intros i m k Hk; [destruct Hk|]. simpl.
  destruct (in_dec string_dec k (map key l)) as [Hin|Hout].
  - destruct (IH (S i) (SMap.set m (key n) i) k Hin) as [j [Hj Hb]].
    exists j. split; [exact Hj|lia].
  - destruct Hk as [Hk|Hk]; [|contradiction]. subst k.
    assert (Hkeep : forall l' i' m',
               ~ In (key n) (map key l') ->
               SMap.get (index_nodes i' l' m') (key n) = SMap.get m' (key n)).
    { induction l' as [|n' l' IH']; intros i' m' Hnot; simpl; [reflexivity|].
      rewrite IH'; [|intros H; apply Hnot; right; exact H].
      apply (@MapFacts.smap_get_set_neq _ _ _ _ _).
      intros Heq. apply Hnot. left. exact Heq. }
    exists i. rewrite (Hkeep l (S i) _ Hout), MapFacts.smap_get_set_eq.
    split; [reflexivity|lia].
Qed.

Lemma index_nodes_unknown :
  forall l i m k,
    ~ In k (map key l) -> SMap.get (index_nodes i l m) k = SMap.get m k.
Proof.
  induction l as [|n l IH]; intros i m k Hk; simpl; [reflexivity|].
  rewrite IH; [|intros H; apply Hk; right; exact H].
  apply (@MapFacts.smap_get_set_neq _ _ _ _ _).
  intros Heq. apply Hk. left. exact Heq.
Qed.

Lemma push_at_below :
  forall gr i x,
    i < List.length gr ->
    exists gr',
      push_at gr i x = Ok gr' /\
      List.length gr' = List.length gr /\
      list_sum (map (@List.length (option nat)) gr')
      = S (list_sum (map (@List.length (option nat)) gr)) /\
      forall P : option nat -> Prop, Forall (Forall P) gr -> P x -> Forall (Forall P) gr'.
Proof.
  induction gr as [|row gr IH]; intros i x Hi; simpl in Hi; [lia|].
  destruct i as [|i].
  - exists ((row ++ [x]) :: gr). simpl. split; [reflexivity|]. split; [reflexivity|].
    split; [rewrite length_app; simpl; lia|].
    intros P Hgr Hx. inversion Hgr; subst. constructor; [|assumption].
    apply Forall_app. split; [assumption|]. constructor; [exact Hx|constructor].
  - destruct (IH i x) as [gr' [Hrun [Hlen [Hsum Hall]]]]; [lia|].
    exists (row :: gr'). simpl. rewrite Hrun. cbn [bind].
    split; [reflexivity|]. split; [lia|]. split; [lia|].
    intros P Hgr Hx. inversion Hgr; subst. constructor; [assumption|].
    apply Hall; assumption.
Qed.

Lemma push_at_throws :
  forall gr i x e, push_at gr i x = Throw e -> e = TypeError.
Proof.
  induction gr as [|row gr IH]; intros i x e H; simpl in H; [congruence|].
  destruct i as [|i]; [discriminate|].
  destruct (push_at gr i x) as [gr'|e'] eqn:E; cbn [bind] in H; [discriminate|].
  inversion H; subst. apply (IH i x e E).
Qed.

Lemma adjacency_run :
  forall tg ls gr,
    (forall l, In l ls -> In (source l) (map key (nodes tg))) ->
    List.length gr = List.length (nodes tg) ->
    exists gr',
      forEach
        (fun gr l =>
           let targetIndex := SMap.get (index_nodes 0 (nodes tg) SMap.empty) (target l) in
           let* sourceTarget :=
             unwrap (SMap.get (index_nodes 0 (nodes tg) SMap.empty) (source l)) in
           push_at gr sourceTarget targetIndex)
        ls gr = Ok gr' /\
      List.length gr' = List.length (nodes tg) /\
      list_sum (map (@List.length (option nat)) gr')
      = List.length ls + list_sum (map (@List.length (option nat)) gr) /\
      ((forall l, In l ls -> In (target l) (map key (nodes tg))) ->
       indices_below (List.length (nodes tg)) gr ->
       indices_below (List.length (nodes tg)) gr').
Proof.
  intros tg. induction ls as [|l ls IH]; intros gr Hsrc Hlen.
  - exists gr. simpl. auto.
  - destruct (index_nodes_known (nodes tg) 0 SMap.empty (source l))
      as [j [Hj Hb]]; [apply Hsrc; left; reflexivity|].
    destruct (push_at_below gr j
                (SMap.get (index_nodes 0 (nodes tg) SMap.empty) (target l)))
      as [gr1 [Hpush [Hlen1 [Hsum1 Hall1]]]]; [lia|].
    destruct (IH gr1) as [gr' [Hrun [Hlen' [Hsum' Hall']]]].
    { intros l' Hl'. apply Hsrc. right. exact Hl'. }
    { lia. }
    exists gr'. cbn [forEach]. rewrite Hj. cbn [unwrap bind]. rewrite Hpush. cbn [bind].
    split; [exact Hrun|]. split; [exact Hlen'|]. split; [simpl; lia|].
    intros Htgt Hgr. apply Hall'; [intros l' Hl'; apply Htgt; right; exact Hl'|].
    apply Hall1; [exact Hgr|].
    destruct (index_nodes_known (nodes tg) 0 SMap.empty (target l))
      as [k [Hk Hkb]]; [apply Htgt; left; reflexivity|].
    exists k. split; [exact Hk|lia].
Qed.

Lemma adjacency_defined :
  forall tg,
    known_sources tg ->
    exists gr,
      adjacency tg = Ok gr /\
      List.length gr = List.length (nodes tg) /\
      list_sum (map (@List.length (option nat)) gr) = List.length (links tg) /\
      (known_targets tg -> indices_below (List.length (nodes tg)) gr).
Proof.
  intros tg Hsrc.
  destruct (adjacency_run tg (links tg) (map (fun _ => []) (nodes tg)) Hsrc)
    as [gr [Hrun [Hlen [Hsum Hall]]]]; [apply length_map|].
  exists gr. split; [exact Hrun|]. split; [exact Hlen|]. split.
  - rewrite Hsum. assert (Hz : forall (A : Type) (ns : list A),
        list_sum (map (@List.length (option nat)) (map (fun _ => []) ns)) = 0).
    { intros A ns. induction ns; simpl; auto. }
    rewrite Hz. lia.
  - intros Htgt. apply (Hall Htgt). unfold indices_below.
    apply Forall_forall. intros row Hrow. apply in_map_iff in Hrow.
    destruct Hrow as [n [<- _]]. constructor.
Qed.

(** X18. The first step of [convertGraphToTree] returns a list for every
    node, with one entry per link, when the source of every link is the key
    of a node, and the entries are indices of nodes when the targets are
    keys too; a link whose source is no key makes it throw a [TypeError]. *)
Theorem adjacency_needs_known_sources :
  forall (tg : Graph),
    (known_sources tg ->
     exists gr,
       adjacency tg = Ok gr /\
       List.length gr = List.length (nodes tg) /\
       list_sum (map (@List.length (option nat)) gr) = List.length (links tg) /\
       (known_targets tg -> indices_below (List.length (nodes tg)) gr)) /\
    ((exists l, In l (links tg) /\ ~ In (source l) (map key (nodes tg))) ->
     adjacency tg = Throw TypeError).
Proof.
  intros tg. split; [apply adjacency_defined|].
  intros [l [Hl Hsrc]]. unfold adjacency. cbv zeta.
  destruct (ResolverFacts.forEach_must_throw _ _
              (fun gr l =>
                 let targetIndex :=
                   SMap.get (index_nodes 0 (nodes tg) SMap.empty) (target l) in
                 let* sourceTarget :=
                   unwrap (SMap.get (index_nodes 0 (nodes tg) SMap.empty) (source l)) in
                 push_at gr sourceTarget targetIndex)
              (links tg) l Hl) with (s := map (fun _ : Node => @nil (option nat)) (nodes tg))
    as [e He].
  - intros s. exists TypeError. cbv zeta.
    rewrite (index_nodes_unknown _ 0 SMap.empty _ Hsrc). reflexivity.
  - destruct (ResolverFacts.forEach_throws _ _ _ _ _ _ He) as [s' [x [_ Hx]]].
    cbv zeta in He, Hx. rewrite He. f_equal.
    destruct (SMap.get (index_nodes 0 (nodes tg) SMap.empty) (source x)) as [j|];
      cbn [unwrap bind] in Hx; [|congruence].
    apply (push_at_throws _ _ _ _ Hx).
Qed.

End AdjacencyFacts.

(** ** From validation to the later phases of [installLocalStore] *)
Module InstallFacts.
Import Store ValidationSpec TreeCheckSpec.

Lemma self_links_known :
  forall g,
    (forall l, In l (links g) ->
       In (source l) (map key (nodes g)) /\ In (target l) (map key (nodes g))) ->
    forall l, In l (links (addSelfLinks g)) ->
      In (source l) (map key (nodes g)) /\ In (target l) (map key (nodes g)).
Proof.
  intros g Hends l Hl. unfold addSelfLinks in Hl. cbn [links] in Hl.
  apply in_app_or in Hl. destruct Hl as [Hl|Hl].
  - apply filter_In in Hl. apply Hends. apply Hl.
  - apply in_map_iff in Hl. destruct Hl as [n [<- Hn]]. cbn [source target].
    split; apply in_map; exact Hn.
Qed.

Lemma tree_graph_keys :
  forall g, map GraphToTree.key (GraphToTree.nodes (as_tree_graph g)) = map key (nodes g).
Proof.
  intros g. unfold as_tree_graph. cbn [GraphToTree.nodes]. rewrite map_map. reflexivity.
Qed.

Section Validated.
Variable disk : Type.
Variable isAbsolute : string -> bool.
Variable statSync : disk -> string -> option Stats.
Variable readdirSync : disk -> string -> option (list string).

Lemma validated_ends :
  forall d g location ignore,
    validateInput isAbsolute statSync readdirSync d g location ignore = Ok tt ->
    NoDup (map key (nodes g)) /\
    forall l, In l (links g) ->
      In (source l) (map key (nodes g)) /\ In (target l) (map key (nodes g)).
Proof.
  intros d g location ignore H. unfold validateInput in H.
  destruct (getLocationError isAbsolute statSync readdirSync d location); [discriminate|].
  destruct (getGraphError isAbsolute statSync d g) eqn:Hgraph; [discriminate|].
  apply (@BinFacts.getGraphError_None _ isAbsolute statSync d g Hgraph).
Qed.

(** X19. Once [validateInput] has returned, the graph that [runScripts]
    condenses (the caller's graph with the self-links) gives [scc] one
    adjacency list per node and one entry per link, and every entry is the
    index of a node: the conversion has not thrown and holds no
    [undefined]. *)
Theorem validated_graph_has_an_adjacency :
  forall (d : disk) (g : Graph) (location : string) (ignore : option bool),
    validateInput isAbsolute statSync readdirSync d g location ignore = Ok tt ->
    exists gr,
      GraphToTree.adjacency (as_tree_graph (addSelfLinks g)) = Ok gr /\
      List.length gr = List.length (nodes g) /\
      list_sum (map (@List.length (option nat)) gr)
      = List.length (links (addSelfLinks g)) /\
      indices_below (List.length (nodes g)) gr.
Proof.
  intros d g location ignore H.
  destruct (validated_ends d g location ignore H) as [_ Hends].
  assert (Hknown := self_links_known g Hends).
  destruct (AdjacencyFacts.adjacency_defined (as_tree_graph (addSelfLinks g)))
    as [gr [Hrun [Hlen [Hsum Hall]]]].
  { intros l Hl. rewrite tree_graph_keys. unfold as_tree_graph in Hl.
    cbn [GraphToTree.links] in Hl. apply in_map_iff in Hl. destruct Hl as [l0 [<- Hl0]].
    cbn [GraphToTree.source]. apply (Hknown l0 Hl0). }
  assert (Htgt : known_targets (as_tree_graph (addSelfLinks g))).
  { intros l Hl. rewrite tree_graph_keys. unfold as_tree_graph in Hl.
    cbn [GraphToTree.links] in Hl. apply in_map_iff in Hl. destruct Hl as [l0 [<- Hl0]].
    cbn [GraphToTree.target]. apply (Hknown l0 Hl0). }
  specialize (Hall Htgt).
  exists gr. split; [exact Hrun|].
  unfold as_tree_graph in Hlen, Hsum, Hall. cbn [GraphToTree.nodes GraphToTree.links] in *.
  rewrite !length_map in *. cbn [nodes addSelfLinks] in *.
  split; [exact Hlen|]. split; [exact Hsum|]. exact Hall.
Qed.
End Validated.

Lemma validated_graph_has_an_adjacency_witness :
  exists gr,
    GraphToTree.adjacency (as_tree_graph (addSelfLinks StoreExamples.own_bin_clash)) = Ok gr /\
    List.length gr = List.length (nodes StoreExamples.own_bin_clash) /\
    list_sum (map (@List.length (option nat)) gr)
    = List.length (links (addSelfLinks StoreExamples.own_bin_clash)) /\
    indices_below (List.length (nodes StoreExamples.own_bin_clash)) gr.
Proof.
  apply (validated_graph_has_an_adjacency Posix.Disk Posix.isAbsolute Posix.statSync
           Posix.readdirSync Posix.disk0 StoreExamples.own_bin_clash "/store"%string None).
  vm_compute. reflexivity.
Defined.

End InstallFacts.
(** ** [Promise.all] and the loops with [await] *)
Module IoFacts.
Import Store.

Section Io.
Variable disk : Type.

Lemma io_bind_unfold :
  forall (A B : Type) (m : IO disk A) (k : A -> IO disk B) w,
    io_bind m k w
    = match m w with
      | (w', Returned a) => k a w'
      | (w', Thrown e) => (w', Thrown e)
      | (w', Unfinished) => (w', Unfinished)
      end.
Proof. reflexivity. Qed.

(** A [Promise.all] resolves when every callback has resolved. *)
Lemma io_each_cons_returned :
  forall (A S : Type) (f : S -> A -> IO disk S) x l s w w' s',
    io_each f (x :: l) s w = (w', Returned s') ->
    exists w1 s1, f s x w = (w1, Returned s1) /\ io_each f l s1 w1 = (w', Returned s').
Proof.
  intros A S f x l s w w' s' H. cbn [io_each] in H.
  destruct (f s x w) as [w1 [s1|e|]]; [|exfalso|discriminate].
  - exists w1, s1. split; [reflexivity|exact H].
  - destruct (io_each f l s w1) as [w2 [s2|e2|]]; discriminate.
Qed.

Lemma io_for_cons_returned :
  forall (A S : Type) (f : S -> A -> IO disk S) x l s w w' s',
    io_for f (x :: l) s w = (w', Returned s') ->
    exists w1 s1, f s x w = (w1, Returned s1) /\ io_for f l s1 w1 = (w', Returned s').
Proof.
  intros A S f x l s w w' s' H. cbn [io_for] in H. rewrite io_bind_unfold in H.
  destruct (f s x w) as [w1 [s1|e|]]; [|discriminate|discriminate].
  exists w1, s1. split; [reflexivity|exact H].
Qed.

(** What holds of the shared state when a [Promise.all] has resolved. *)
Lemma io_each_invariant :
  forall (A S : Type) (Inv : S -> Prop) (f : S -> A -> IO disk S) (l : list A),
    (forall s x w w' s', In x l -> Inv s -> f s x w = (w', Returned s') -> Inv s') ->
    forall s w w' s', Inv s -> io_each f l s w = (w', Returned s') -> Inv s'.
Proof.
  intros A S Inv f. induction l as [|x l IH]; intros Hf s w w' s' Hs H.
  - simpl in H. inversion H; subst. exact Hs.
  - apply io_each_cons_returned in H. destruct H as [w1 [s1 [E H]]].
    apply (IH (fun s0 y w0 w0' s0' Hy => Hf s0 y w0 w0' s0' (or_intror Hy)) s1 w1 w' s').
    + apply (Hf s x w w1 s1 (or_introl eq_refl) Hs E).
    + exact H.
Qed.

Lemma io_each_returned :
  forall (A S : Type) (P : S -> Prop) (Q : A -> S -> Prop)
         (f : S -> A -> IO disk S),
    (forall s x w w' s', f s x w = (w', Returned s') ->
                         (P s -> P s') /\ Q x s' /\
                         forall y, Q y s -> Q y s') ->
    forall l s w w' s',
      io_each f l s w = (w', Returned s') ->
      (P s -> P s') /\ (forall x, In x l \/ Q x s -> Q x s').
Proof.
  intros A S P Q f Hf. induction l as [|x l IH]; intros s w w' s' H.
  - simpl in H. inversion H; subst. split; [auto|]. intros x [[]|Hx]. exact Hx.
  - apply io_each_cons_returned in H. destruct H as [w1 [s1 [E H]]].
    destruct (Hf s x w w1 s1 E) as [HP [HQ Hkeep]].
    destruct (IH s1 w1 w' s' H) as [HP' HQ'].
    split; [auto|]. intros y [[Hy|Hy]|Hy].
    + subst y. apply HQ'. right. exact HQ.
    + apply HQ'. left. exact Hy.
    + apply HQ'. right. apply Hkeep. exact Hy.
Qed.

(** The actions of a [Promise.all] that has resolved: every callback has
    added its own to the log. *)
Lemma io_each_attempts :
  forall (A S : Type) (R : A -> Action -> Prop) (f : S -> A -> IO disk S) (l : list A),
    (forall s x w w' s',
        In x l -> f s x w = (w', Returned s') ->
        exists new, performed w' = performed w ++ new /\ exists a, R x a /\ In a new) ->
    forall s w w' s',
      io_each f l s w = (w', Returned s') ->
      exists new,
        performed w' = performed w ++ new /\
        forall x, In x l -> exists a, R x a /\ In a new.
Proof.
  intros A S R f. induction l as [|x l IH]; intros Hf s w w' s' H.
  - simpl in H. inversion H; subst. exists []. rewrite app_nil_r. split; [reflexivity|].
    intros x [].
  - apply io_each_cons_returned in H. destruct H as [w1 [s1 [E H]]].
    destruct (Hf s x w w1 s1 (or_introl eq_refl) E) as [new1 [E1 [a [Ha Hin]]]].
    destruct (IH (fun s0 y w0 w0' s0' Hy => Hf s0 y w0 w0' s0' (or_intror Hy))
                s1 w1 w' s' H) as [new2 [E2 Hall]].
    exists (new1 ++ new2). rewrite E2, E1, app_assoc. split; [reflexivity|].
    intros y [<-|Hy].
    + exists a. split; [exact Ha|]. apply in_or_app. left. exact Hin.
    + destruct (Hall y Hy) as [b [Hb Hinb]]. exists b. split; [exact Hb|].
      apply in_or_app. right. exact Hinb.
Qed.

(** The results of a [Promise.all] that has resolved, in the order of the
    array. *)
Lemma all_from_returned :
  forall (A B : Type) (callback : A -> IO disk B) (group : list A) res w w' out,
    io_each (fun res x => io_bind (callback x) (fun r => ret (res ++ [r]))) group res w
    = (w', Returned out) ->
    exists rs,
      out = res ++ rs /\
      Forall2 (fun x r => exists w1 w2, callback x w1 = (w2, Returned r)) group rs.
Proof.
  intros A B callback. induction group as [|x group IH]; intros res w w' out H.
  - simpl in H. inversion H; subst. exists []. rewrite app_nil_r. split; [reflexivity|constructor].
  - apply io_each_cons_returned in H. destruct H as [w1 [s1 [E H]]].
    rewrite io_bind_unfold in E. destruct (callback x w) as [w2 [r|e|]] eqn:Ec;
      try discriminate.
    unfold ret in E. inversion E; subst w2 s1. clear E.
    destruct (IH _ _ _ _ H) as [rs [Hout Hall]]. exists (r :: rs).
    rewrite Hout, <- app_assoc. split; [reflexivity|].
    constructor; [exists w, w1; exact Ec|exact Hall].
Qed.

Lemma all_returned :
  forall (A B : Type) (callback : A -> IO disk B) (group : list A) w w' rs,
    all callback group w = (w', Returned rs) ->
    Forall2 (fun x r => exists w1 w2, callback x w1 = (w2, Returned r)) group rs.
Proof.
  intros A B callback group w w' rs H. unfold all in H.
  destruct (all_from_returned _ _ _ _ _ _ _ _ H) as [rs' [Hout Hall]].
  simpl in Hout. subst rs'. exact Hall.
Qed.

Lemma all_nil :
  forall (A B : Type) (callback : A -> IO disk B) w, all callback [] w = (w, Returned []).
Proof. reflexivity. Qed.
End Io.

End IoFacts.

(** ** The phases that lay out [node_modules] *)
Module LayoutFacts.
Import Store DiskSpec.

Section Layout.
Variable disk : Type.
Variable isAbsolute : string -> bool.
Variable join : list string -> string.
Variable dirname : string -> string.
Variable statSync : disk -> string -> option Stats.
Variable readdirSync : disk -> string -> option (list string).
Variable perform : disk -> Action -> result disk.

Lemma safe_ret : forall (A : Type) (a : A), safe perform (@ret disk A a).
Proof. intros A a w. exact I. Qed.

Lemma safe_act : forall a, safe perform (act perform a).
Proof.
  intros a w. unfold act. destruct (perform (w_disk w) a) as [d|e] eqn:E; simpl; [exact I|].
  exists (w_disk w), a. exact E.
Qed.

Lemma safe_read : forall (A : Type) (f : disk -> A), safe perform (read f).
Proof. intros A f w. exact I. Qed.

Lemma safe_bind :
  forall (A B : Type) (m : IO disk A) (k : A -> IO disk B),
    safe perform m -> (forall a, safe perform (k a)) -> safe perform (io_bind m k).
Proof.
  intros A B m k Hm Hk w. unfold io_bind. specialize (Hm w).
  destruct (m w) as [w' [a|e|]]; simpl in *; [apply Hk|exact Hm|exact Hm].
Qed.

Lemma safe_each :
  forall (A S : Type) (f : S -> A -> IO disk S) (l : list A),
    (forall s x, In x l -> safe perform (f s x)) ->
    forall s, safe perform (io_each f l s).
Proof.
  intros A S f. induction l as [|x l IH]; intros Hf s; [apply safe_ret|].
  assert (Hrest : forall s0, safe perform (io_each f l s0)).
  { intros s0. apply IH. intros s1 y Hy. apply Hf. right. exact Hy. }
  intros w. cbn [io_each].
  pose proof (Hf s x (or_introl eq_refl) w) as Hx.
  destruct (f s x w) as [w1 [s1|e|]]; cbn [snd ends_well] in Hx.
  - apply Hrest.
  - pose proof (Hrest s w1) as Hr.
    destruct (io_each f l s w1) as [w2 [s2|e2|]]; cbn [snd ends_well] in *;
      [exact Hx|exact Hx|exact Hr].
  - destruct Hx.
Qed.

Lemma safe_for :
  forall (A S : Type) (f : S -> A -> IO disk S) (l : list A),
    (forall s x, In x l -> safe perform (f s x)) ->
    forall s, safe perform (io_for f l s).
Proof.
  intros A S f. induction l as [|x l IH]; intros Hf s; simpl; [apply safe_ret|].
  apply safe_bind; [apply Hf; left; reflexivity|].
  intros s'. apply IH. intros s0 y Hy. apply Hf. right. exact Hy.
Qed.

Lemma find_by_key :
  forall ns k,
    In k (map key ns) -> exists n, find (fun n => String.eqb (key n) k) ns = Some n.
Proof.
  induction ns as [|n ns IH]; intros k Hk; [destruct Hk|]. simpl.
  destruct (String.eqb (key n) k) eqn:E; [exists n; reflexivity|].
  destruct Hk as [Hk|Hk]; [apply String.eqb_neq in E; contradiction|apply (IH k Hk)].
Qed.

Lemma linkNodes_safe :
  forall g locationMap,
    known_ends g -> defined_on g locationMap ->
    safe perform (linkNodes join dirname perform g locationMap).
Proof.
  intros g locationMap Hends Hdef. unfold linkNodes. apply safe_each.
  intros [] l Hl. destruct (Hends l Hl) as [Hsrc Htgt].
  destruct (find_by_key _ _ Htgt) as [n Hn]. rewrite Hn.
  destruct (Hdef _ Hsrc) as [src Hs]. rewrite Hs.
  destruct (Hdef _ Htgt) as [tgt Ht]. rewrite Ht.
  cbn [unwrap lift].
  apply safe_bind; [apply safe_ret|]. intros n'.
  apply safe_bind; [apply safe_ret|]. intros src'.
  apply safe_bind; [apply safe_act|]. intros _.
  apply safe_bind; [apply safe_ret|]. intros tgt'. apply safe_act.
Qed.

Lemma createBins_safe :
  forall g locationMap,
    known_ends g -> defined_on g locationMap ->
    safe perform (createBins join statSync perform g locationMap).
Proof.
  intros g locationMap Hends Hdef. unfold createBins. cbv zeta. apply safe_each.
  intros [] l Hl. destruct (Hends l Hl) as [Hsrc Htgt].
  destruct (SMap.get _ (target l)) as [targetBins|]; [|apply safe_ret].
  destruct (Hdef _ Hsrc) as [src Hs]. rewrite Hs.
  destruct (Hdef _ Htgt) as [tgt Ht]. rewrite Ht.
  cbn [unwrap lift].
  apply safe_bind; [apply safe_ret|]. intros src'.
  apply safe_bind; [apply safe_act|]. intros _.
  apply safe_for. intros [] b _.
  apply safe_bind; [apply safe_ret|]. intros tgt'.
  apply safe_bind; [apply safe_read|]. intros [st|]; [apply safe_act|apply safe_ret].
Qed.

Lemma installNodesInStore_defines :
  forall fuel g location exclusionList w w' installed,
    installNodesInStore join statSync readdirSync perform fuel g location exclusionList w
    = (w', Returned installed) ->
    defined_on g (fst installed).
Proof.
  intros fuel g location exclusionList w w' installed H. unfold installNodesInStore in H.
  eapply (IoFacts.io_each_returned _ _ _ (fun _ => True)
            (fun (n : Node) (st : SMap.t string * list (string * string)) =>
               exists loc, SMap.get (fst st) (key n) = Some loc)) in H.
  - destruct H as [_ Hall]. intros k Hk. apply in_map_iff in Hk.
    destruct Hk as [n [<- Hn]]. apply (Hall n). left. exact Hn.
  - intros s0 x w0 w1 s1 E. cbv beta zeta in E. unfold io_bind in E.
    match type of E with
    | (let (_, _) := ?m w0 in _) = _ => destruct (m w0) as [w2 [fa| |]] eqn:Em
    end; try discriminate.
    unfold ret in E. inversion E; subst. cbn [fst].
    split; [auto|]. split.
    + eexists. apply MapFacts.smap_get_set_eq.
    + intros y [loc Hy]. destruct (String.eqb (key x) (key y)) eqn:Ek.
      * apply String.eqb_eq in Ek. rewrite <- Ek. eexists. apply MapFacts.smap_get_set_eq.
      * apply String.eqb_neq in Ek. exists loc.
        rewrite (@MapFacts.smap_get_set_neq _ _ _ _ _ Ek). exact Hy.
Qed.
(** X20. After [validateInput] has returned and [installNodesInStore] has
    filled the location map, neither [linkNodes] nor [createBins], run on
    the graph with the self-links, throws anything of its own: each returns,
    or rejects with what a mkdir, symlink or cmd-shim action threw. *)
Theorem validated_layout_fails_only_on_disk :
  forall (fuel : nat) (g : Graph) (location : string) (ignore : option bool)
         (exclusionList : option (list string)) (w w1 : World disk)
         (installed : SMap.t string * list (string * string)),
    validateInput isAbsolute statSync readdirSync (w_disk w) g location ignore = Ok tt ->
    installNodesInStore join statSync readdirSync perform fuel g location exclusionList w
    = (w1, Returned installed) ->
    forall w2,
      ends_well perform
        (snd (linkNodes join dirname perform (addSelfLinks g) (fst installed) w2)) /\
      ends_well perform
        (snd (createBins join statSync perform (addSelfLinks g) (fst installed) w2)).
Proof.
  intros fuel g location ignore exclusionList w w1 installed Hvalid Hinstall w2.
  destruct (InstallFacts.validated_ends _ _ _ _ _ _ _ _ Hvalid) as [_ Hends].
  assert (Hknown : known_ends (addSelfLinks g)).
  { intros l Hl. apply (InstallFacts.self_links_known g Hends l Hl). }
  assert (Hdef : defined_on (addSelfLinks g) (fst installed)).
  { apply (installNodesInStore_defines _ _ _ _ _ _ _ Hinstall). }
  split.
  - apply (linkNodes_safe _ _ Hknown Hdef).
  - apply (createBins_safe _ _ Hknown Hdef).
Qed.
End Layout.

Lemma validated_layout_fails_only_on_disk_witness :
  ends_well Posix.perform
    (snd (linkNodes Posix.join Posix.dirname Posix.perform
            (addSelfLinks StoreExamples.own_bin_clash)
            [("a"%string, "/store/a"%string); ("b"%string, "/store/b"%string)]
            StoreExamples.fresh)) /\
  ends_well Posix.perform
    (snd (createBins Posix.join Posix.statSync Posix.perform
            (addSelfLinks StoreExamples.own_bin_clash)
            [("a"%string, "/store/a"%string); ("b"%string, "/store/b"%string)]
            StoreExamples.fresh)).
Proof.
  apply (validated_layout_fails_only_on_disk Posix.Disk Posix.isAbsolute Posix.join
           Posix.dirname Posix.statSync Posix.readdirSync Posix.perform 3
           StoreExamples.own_bin_clash "/store" None None StoreExamples.fresh
           (mkWorld Posix.disk0 [Mkdir "/store/a" false; Mkdir "/store/b" false])
           ([("a"%string, "/store/a"%string); ("b"%string, "/store/b"%string)], [])).
  - vm_compute. reflexivity.
  - vm_compute. reflexivity.
Defined.

End LayoutFacts.

(** ** The returned arrays hold nothing twice *)
Module DistinctFacts.
Import DepGraph GraphSpec ProjectionSpec ManifestSpec KeySpec.















End DistinctFacts.

(** ** The command line *)
Module CliFacts.
Import Store Cli CliSpec.

(** *** Batches *)

Lemma concat_empty_groups :
  forall (A : Type) (g : nat -> list A) (l : list nat),
    (forall i, In i l -> g i = []) -> List.concat (map g l) = [].
Proof.
  intros A g. induction l as [|i l IH]; intros H; simpl; [reflexivity|].
  rewrite (H i (or_introl eq_refl)). apply IH. intros j Hj. apply H. right. exact Hj.
Qed.

Lemma batch_groups_from :
  forall (A : Type) (p : nat) (arr : list A) (fuel q : nat),
    List.length arr - q * S p <= fuel ->
    List.concat
      (map (fun i =>
              if negb (Nat.eqb (i mod S p) 0) then [] else slice arr i (i + S p))
         (seq (q * S p) (List.length arr - q * S p)))
    = skipn (q * S p) arr.
Proof.
  intros A p arr. induction fuel as [|fuel IH]; intros q Hfuel.
  - replace (List.length arr - q * S p) with 0 by lia. simpl.
    symmetry. apply skipn_all2. lia.
  - destruct (List.length arr - q * S p) as [|r] eqn:Er.
    + simpl. symmetry. apply skipn_all2. lia.
    + cbn [seq map List.concat]. rewrite Nat.Div0.mod_mul. cbn [Nat.eqb negb].
      unfold slice at 1. replace (q * S p + S p - q * S p) with (S p) by lia.
      replace r with (Nat.min r p + (r - Nat.min r p)) by lia.
      rewrite seq_app, map_app, concat_app.
      rewrite concat_empty_groups.
      2:{ intros i Hi. apply in_seq in Hi.
          assert (Hmod : i mod S p = i - q * S p).
          { replace i with ((i - q * S p) + q * S p) at 1 by lia.
            rewrite Nat.Div0.mod_add. apply Nat.mod_small. lia. }
          rewrite Hmod. destruct (Nat.eqb (i - q * S p) 0) eqn:E; [|reflexivity].
          apply Nat.eqb_eq in E. lia. }
      cbn [app].
      destruct (Nat.le_gt_cases r p) as [Hle|Hgt].
      * replace (r - Nat.min r p) with 0 by lia. cbn [seq map List.concat].
        rewrite app_nil_r.
        apply firstn_all2. rewrite length_skipn. lia.
      * replace (S (q * S p) + Nat.min r p) with (S q * S p) by lia.
        replace (r - Nat.min r p) with (List.length arr - S q * S p) by lia.
        rewrite (IH (S q)); [|lia].
        replace (S q * S p) with (S p + q * S p) by lia.
        rewrite <- skipn_skipn. apply firstn_skipn.
Qed.

Lemma batch_groups_concat :
  forall (A : Type) (batchSize : nat) (arr : list A),
    List.concat (batch_groups batchSize arr)
    = match batchSize with 0 => [] | _ => arr end.
Proof.
  intros A [|p] arr; unfold batch_groups.
  - apply concat_empty_groups. intros i _. unfold slice.
    replace (i + 0 - i) with 0 by lia. reflexivity.
  - assert (H := batch_groups_from A p arr (List.length arr) 0).
    cbn [Nat.mul] in H. rewrite Nat.sub_0_r in H. apply H. lia.
Qed.

Lemma batch_groups_sizes :
  forall (A : Type) (batchSize : nat) (arr : list A),
    Forall (fun g => List.length g <= batchSize) (batch_groups batchSize arr).
Proof.
  intros A batchSize arr. unfold batch_groups. apply Forall_forall. intros g Hg.
  apply in_map_iff in Hg. destruct Hg as [i [<- _]].
  destruct (match batchSize with 0 => false | S _ => _ end); [simpl; lia|].
  unfold slice. rewrite length_firstn. lia.
Qed.

Lemma map_all_empty :
  forall (A : Type) (g : nat -> list A) (l : list nat),
    (forall i, In i l -> g i = []) -> map g l = repeat [] (List.length l).
Proof.
  intros A g. induction l as [|i l IH]; intros H; simpl; [reflexivity|].
  rewrite (H i (or_introl eq_refl)). f_equal. apply IH. intros j Hj. apply H. right. exact Hj.
Qed.

Lemma batch_groups_zero :
  forall (A : Type) (arr : list A),
    batch_groups 0 arr = repeat [] (List.length arr).
Proof.
  intros A arr. unfold batch_groups. rewrite map_all_empty.
  - rewrite length_seq. reflexivity.
  - intros i _. unfold slice. replace (i + 0 - i) with 0 by lia. reflexivity.
Qed.

(** The first group is the first batch, the groups at the next indices of
    the batch are empty, and the groups after them are the groups of the
    rest. *)
Lemma batch_groups_cons :
  forall (A : Type) (p : nat) (x : A) (arr : list A),
    batch_groups (S p) (x :: arr)
    = firstn (S p) (x :: arr)
      :: repeat [] (Nat.min p (List.length arr))
      ++ batch_groups (S p) (skipn (S p) (x :: arr)).
Proof.
  intros A p x arr. unfold batch_groups.
  set (f := fun i => if negb (Nat.eqb (i mod S p) 0) then []
                     else slice (x :: arr) i (i + S p)).
  cbn [List.length]. cbn [seq map]. f_equal.
  { unfold f. rewrite Nat.Div0.mod_0_l. cbn [Nat.eqb negb]. unfold slice.
    cbn [skipn]. replace (0 + S p - 0) with (S p) by lia. reflexivity. }
  replace (List.length arr)
    with (Nat.min p (List.length arr) + (List.length arr - Nat.min p (List.length arr)))
    at 1 by lia.
  rewrite seq_app, map_app. f_equal.
  - rewrite map_all_empty; [rewrite length_seq; reflexivity|].
    intros i Hi. apply in_seq in Hi. unfold f.
    rewrite Nat.mod_small by lia.
    destruct (Nat.eqb i 0) eqn:E; [apply Nat.eqb_eq in E; lia|reflexivity].
  - rewrite length_skipn. cbn [List.length].
    destruct (Nat.le_gt_cases (List.length arr) p) as [Hle|Hgt].
    + replace (List.length arr - Nat.min p (List.length arr)) with 0 by lia.
      replace (S (List.length arr) - S p) with 0 by lia. reflexivity.
    + replace (Nat.min p (List.length arr)) with p by lia.
      replace (S (List.length arr) - S p) with (List.length arr - p) by lia.
      assert (Hshift : forall m a,
                 map f (seq (a + S p) m)
                 = map (fun i => if negb (Nat.eqb (i mod S p) 0) then []
                                 else slice (skipn (S p) (x :: arr)) i (i + S p))
                     (seq a m)).
      { induction m as [|m IH]; intros a; [reflexivity|]. cbn [seq map].
        replace (S (a + S p)) with (S a + S p) by lia. rewrite IH. f_equal.
        unfold f. replace (a + S p) with (a + 1 * S p) at 1 by lia.
        rewrite Nat.Div0.mod_add.
        destruct (negb (Nat.eqb (a mod S p) 0)); [reflexivity|].
        unfold slice. rewrite skipn_skipn.
        replace (a + S p + S p - (a + S p)) with (a + S p - a) by lia. reflexivity. }
      change (1 + p) with (0 + S p). apply Hshift.
Qed.

Section Batches.
Variable disk : Type.
Variables A B : Type.
Variable callback : A -> IO disk B.

Let work (chain : IO disk (list B)) (group : list A) : IO disk (list B) :=
  io_bind chain
    (fun res => io_bind (all callback group) (fun r => ret (res ++ r))).

Lemma ret_unfold : forall (X : Type) (a : X) (w : World disk), ret a w = (w, Returned a).
Proof. reflexivity. Qed.

Lemma work_unfold :
  forall chain group w,
    work chain group w
    = match chain w with
      | (w1, Returned res) =>
          match all callback group w1 with
          | (w2, Returned r) => (w2, Returned (res ++ r))
          | (w2, Thrown e) => (w2, Thrown e)
          | (w2, Unfinished) => (w2, Unfinished)
          end
      | (w1, Thrown e) => (w1, Thrown e)
      | (w1, Unfinished) => (w1, Unfinished)
      end.
Proof.
  intros chain group w. unfold work. rewrite IoFacts.io_bind_unfold.
  destruct (chain w) as [w1 [res| |]]; [|reflexivity|reflexivity].
  rewrite IoFacts.io_bind_unfold.
  destruct (all callback group w1) as [w2 [r| |]]; reflexivity.
Qed.

Lemma chain_from :
  forall (groups : list (list A)) (chain : IO disk (list B)) (w : World disk),
    fold_left work groups chain w
    = match chain w with
      | (w1, Returned res) =>
          match fold_left work groups (ret []) w1 with
          | (w2, Returned r) => (w2, Returned (res ++ r))
          | (w2, Thrown e) => (w2, Thrown e)
          | (w2, Unfinished) => (w2, Unfinished)
          end
      | (w1, Thrown e) => (w1, Thrown e)
      | (w1, Unfinished) => (w1, Unfinished)
      end.
Proof.
  induction groups as [|g groups IH]; intros chain w.
  - cbn [fold_left].
    destruct (chain w) as [w' [res| |]]; [|reflexivity|reflexivity].
    rewrite ret_unfold, app_nil_r. reflexivity.
  - cbn [fold_left]. rewrite IH, work_unfold.
    destruct (chain w) as [w1 [res| |]]; [|reflexivity|reflexivity].
    rewrite (IH (work (ret []) g) w1), work_unfold, ret_unfold. cbv beta iota.
    destruct (all callback g w1) as [w2 [r1| |]]; [|reflexivity|reflexivity].
    destruct (fold_left work groups (ret []) w2) as [w3 [r2| |]];
      [|reflexivity|reflexivity].
    cbn [app]. rewrite app_assoc. reflexivity.
Qed.

Lemma chain_empty_groups :
  forall (k : nat) (groups : list (list A)) (w : World disk),
    fold_left work (repeat [] k ++ groups) (ret []) w
    = fold_left work groups (ret []) w.
Proof.
  induction k as [|k IH]; intros groups w; [reflexivity|].
  cbn [repeat app fold_left]. rewrite chain_from, work_unfold, ret_unfold.
  cbv beta iota. rewrite IoFacts.all_nil. cbv beta iota. rewrite IH.
  destruct (fold_left work groups (ret []) w) as [w1 [r| |]]; reflexivity.
Qed.

Lemma batchPromises_zero :
  forall (collection : list A) (w : World disk),
    batchPromises 0 collection callback w = (w, Returned []).
Proof.
  intros collection w. unfold batchPromises. fold work.
  rewrite batch_groups_zero, <- (app_nil_r (repeat [] _)).
  rewrite chain_empty_groups. reflexivity.
Qed.

Lemma batchPromises_cons :
  forall (p : nat) (x : A) (collection : list A) (w : World disk),
    batchPromises (S p) (x :: collection) callback w
    = io_bind (all callback (firstn (S p) (x :: collection)))
        (fun r1 =>
           io_bind (batchPromises (S p) (skipn (S p) (x :: collection)) callback)
             (fun r2 => ret (r1 ++ r2))) w.
Proof.
  intros p x collection w. unfold batchPromises. fold work.
  rewrite batch_groups_cons. cbn [fold_left]. rewrite chain_from, work_unfold, ret_unfold.
  cbv beta iota. rewrite IoFacts.io_bind_unfold.
  destruct (all callback (firstn (S p) (x :: collection)) w) as [w1 [r1| |]];
    [|reflexivity|reflexivity].
  rewrite chain_empty_groups, IoFacts.io_bind_unfold.
  destruct (fold_left work _ (ret []) w1) as [w2 [r2| |]]; reflexivity.
Qed.

Lemma chain_returned :
  forall (groups : list (list A)) (chain : IO disk (list B)) (w w' : World disk) rs,
    fold_left work groups chain w = (w', Returned rs) ->
    exists w1 res rs2,
      chain w = (w1, Returned res) /\ rs = res ++ rs2 /\
      Forall2 (fun x r => exists w0 w2, callback x w0 = (w2, Returned r))
        (List.concat groups) rs2.
Proof.
  induction groups as [|g groups IH]; intros chain w w' rs H.
  - cbn [fold_left] in H. exists w', rs, []. rewrite app_nil_r.
    split; [exact H|]. split; [reflexivity|constructor].
  - cbn [fold_left] in H. destruct (IH _ _ _ _ H) as [w1 [res [rs2 [Hwork [Hrs Hall]]]]].
    rewrite work_unfold in Hwork.
    destruct (chain w) as [w0 [res0| |]]; try discriminate.
    destruct (all callback g w0) as [w2 [r| |]] eqn:Eg; try discriminate.
    inversion Hwork; subst w2 res. clear Hwork.
    exists w0, res0, (r ++ rs2). split; [reflexivity|].
    split; [rewrite Hrs, app_assoc; reflexivity|].
    cbn [List.concat]. apply Forall2_app; [|exact Hall].
    apply (IoFacts.all_returned _ _ _ _ _ _ _ _ Eg).
Qed.

Lemma batchPromises_returned :
  forall (p : nat) (collection : list A) (w w' : World disk) rs,
    batchPromises (S p) collection callback w = (w', Returned rs) ->
    Forall2 (fun x r => exists w0 w2, callback x w0 = (w2, Returned r)) collection rs.
Proof.
  intros p collection w w' rs H. unfold batchPromises in H. fold work in H.
  destruct (chain_returned _ _ _ _ _ H) as [w1 [res [rs2 [Hret [Hrs Hall]]]]].
  unfold ret in Hret. inversion Hret; subst w1 res. cbn [app] in Hrs. subst rs2.
  rewrite (batch_groups_concat A (S p)) in Hall. exact Hall.
Qed.
End Batches.

(** X22. [batchPromises] cuts the collection into one group per index, none
    longer than the batch size; with a positive batch size the groups, put
    end to end, are the collection. The call runs one [Promise.all] over
    the first batch and, when that has resolved, goes on with the rest: no
    callback of a later batch is started after a rejection. When the call
    resolves, the results are those of the callback on the elements, in the
    order of the collection. With batch size [0] every group is empty and
    the callback is never called. *)
Theorem batches_run_one_after_the_other :
  forall (disk A B : Type) (batchSize : nat) (collection : list A)
         (callback : A -> IO disk B) (w : World disk),
    List.length (batch_groups batchSize collection) = List.length collection /\
    Forall (fun g => List.length g <= batchSize) (batch_groups batchSize collection) /\
    List.concat (batch_groups (S batchSize) collection) = collection /\
    batchPromises (S batchSize) collection callback w
    = match collection with
      | [] => (w, Returned [])
      | _ :: _ =>
          io_bind (all callback (firstn (S batchSize) collection))
            (fun r1 =>
               io_bind
                 (batchPromises (S batchSize) (skipn (S batchSize) collection) callback)
                 (fun r2 => ret (r1 ++ r2))) w
      end /\
    (forall w' rs,
        batchPromises (S batchSize) collection callback w = (w', Returned rs) ->
        Forall2 (fun x r => exists w0 w2, callback x w0 = (w2, Returned r))
          collection rs) /\
    batchPromises 0 collection callback w = (w, Returned []).
Proof.
  intros disk A B batchSize collection callback w.
  split; [unfold batch_groups; rewrite length_map, length_seq; reflexivity|].
  split; [apply batch_groups_sizes|].
  split; [apply (batch_groups_concat A (S batchSize))|].
  split; [destruct collection as [|x collection];
          [reflexivity|apply (batchPromises_cons disk A B callback batchSize)]|].
  split; [intros w' rs; apply (batchPromises_returned disk A B callback batchSize)|].
  apply (batchPromises_zero disk A B callback).
Qed.
(** *** The name of the new store *)

Lemma append_empty : forall s, (s ++ EmptyString)%string = s.
Proof. induction s as [|c s IH]; simpl; [reflexivity|rewrite IH; reflexivity]. Qed.

Lemma append_zero :
  forall cur k, ((cur ++ "0") ++ zeros k)%string = (cur ++ zeros (S k))%string.
Proof.
  induction cur as [|c cur IH]; intros k; simpl; [reflexivity|].
  rewrite IH. reflexivity.
Qed.

Lemma length_candidate :
  forall cur k, String.length (cur ++ zeros k) = String.length cur + k.
Proof.
  induction cur as [|c cur IH]; intros k; simpl.
  - induction k as [|k IHk]; simpl; [reflexivity|rewrite IHk; reflexivity].
  - rewrite IH. reflexivity.
Qed.

Lemma bounded_search :
  forall (f : nat -> bool) (n : nat),
    (exists k, k <= n /\ f k = false) \/ (forall k, k <= n -> f k = true).
Proof.
  intros f. induction n as [|n IH].
  - destruct (f 0) eqn:E.
    + right. intros k Hk. replace k with 0 by lia. exact E.
    + left. exists 0. auto.
  - destruct IH as [[k [Hk Hf]]|Hall].
    + left. exists k. split; [lia|exact Hf].
    + destruct (f (S n)) eqn:E.
      * right. intros k Hk. destruct (Nat.eq_dec k (S n)) as [->|Hne]; [exact E|].
        apply Hall. lia.
      * left. exists (S n). auto.
Qed.

Lemma some_candidate_free :
  forall old cur,
    exists k, k <= List.length old /\ includes old (cur ++ zeros k) = false.
Proof.
  intros old cur.
  destruct (bounded_search (fun k => includes old (cur ++ zeros k)) (List.length old))
    as [Hfree|Hall]; [exact Hfree|exfalso].
  assert (Hnd : NoDup (map (fun k => (cur ++ zeros k)%string) (seq 0 (S (List.length old))))).
  { apply NoDup_map_NoDup_ForallPairs; [|apply seq_NoDup].
    intros a b _ _ Hab. apply (f_equal String.length) in Hab.
    rewrite !length_candidate in Hab. lia. }
  assert (Hincl : incl (map (fun k => (cur ++ zeros k)%string)
                          (seq 0 (S (List.length old)))) old).
  { intros c Hc. apply in_map_iff in Hc. destruct Hc as [k [<- Hk]].
    apply in_seq in Hk. apply BinFacts.includes_In. apply Hall. lia. }
  apply NoDup_incl_length in Hincl; [|exact Hnd].
  rewrite length_map, length_seq in Hincl. lia.
Qed.

Lemma pick_store_spec :
  forall fuel old cur,
    (exists k, k <= fuel /\ includes old (cur ++ zeros k) = false) ->
    exists k,
      k <= fuel /\
      pick_store fuel old cur = Some (cur ++ zeros k)%string /\
      includes old (cur ++ zeros k) = false /\
      forall j, j < k -> includes old (cur ++ zeros j) = true.
Proof.
  induction fuel as [|fuel IH]; intros old cur [k [Hk Hfree]].
  - replace k with 0 in Hfree by lia. exists 0. simpl in Hfree |- *.
    rewrite append_empty in *. rewrite Hfree. split; [lia|]. split; [reflexivity|].
    split; [reflexivity|]. intros j Hj. lia.
  - destruct (includes old cur) eqn:E.
    + destruct k as [|k]; [simpl in Hfree; rewrite append_empty in Hfree; congruence|].
      rewrite <- append_zero in Hfree.
      destruct (IH old (cur ++ "0")%string) as [k0 [Hk0 [Hpick [Hfree0 Hbefore]]]].
      { exists k. split; [lia|exact Hfree]. }
      exists (S k0). rewrite <- append_zero. split; [lia|].
      split; [cbn [pick_store]; rewrite E; exact Hpick|]. split; [exact Hfree0|].
      intros [|j] Hj; [simpl; rewrite append_empty; exact E|].
      rewrite <- append_zero. apply Hbefore. lia.
    + exists 0. simpl. rewrite append_empty, E. split; [lia|]. split; [reflexivity|].
      split; [reflexivity|]. intros j Hj. lia.
Qed.

Lemma candidate_prefix :
  forall k, String.prefix ".store" (store_candidate k) = true.
Proof. intros k. unfold store_candidate. simpl. destruct k; reflexivity. Qed.

(** X23. The loop that picks the name of the new store ends after at most
    as many iterations as there are old stores; the name is [.store]
    followed by zeros, no entry of the directory has it, and every shorter
    name of that form is taken. *)
Theorem new_store_is_fresh :
  forall (dirs : list string),
    exists k,
      k <= List.length (old_stores dirs) /\
      new_store dirs = Some (store_candidate k) /\
      ~ In (store_candidate k) dirs /\
      forall j, j < k -> In (store_candidate j) dirs.
Proof.
  intros dirs. unfold new_store.
  destruct (pick_store_spec (List.length (old_stores dirs)) (old_stores dirs) ".store"
              (some_candidate_free (old_stores dirs) ".store"))
    as [k [Hk [Hpick [Hfree Hbefore]]]].
  exists k. split; [exact Hk|]. split; [exact Hpick|]. split.
  - intros Hin. fold (store_candidate k) in Hfree.
    assert (Hold : In (store_candidate k) (old_stores dirs)).
    { apply filter_In. split; [exact Hin|apply candidate_prefix]. }
    apply (proj2 (BinFacts.includes_In _ _)) in Hold. congruence.
  - intros j Hj. specialize (Hbefore j Hj). apply BinFacts.includes_In in Hbefore.
    apply filter_In in Hbefore. apply Hbefore.
Qed.

(** *** The bin of a package whose [bin] field is a path *)

Lemma split_no_slash :
  forall (p : ascii -> bool) s,
    p "/"%char = false -> all_chars p s = true -> split_slashes s = [s].
Proof.
  intros p s Hp. induction s as [|c s IH]; intros H; simpl in *; [reflexivity|].
  apply andb_true_iff in H. destruct H as [Hc Hs].
  destruct (Ascii.eqb c "/") eqn:E.
  - apply Ascii.eqb_eq in E. subst c. congruence.
  - rewrite (IH Hs). reflexivity.
Qed.

Lemma split_at_slash :
  forall (p : ascii -> bool) a rest,
    p "/"%char = false -> all_chars p a = true ->
    split_slashes (a ++ String "/" rest) = a :: split_slashes rest.
Proof.
  intros p a rest Hp. induction a as [|c a IH]; intros H; simpl in *; [reflexivity|].
  apply andb_true_iff in H. destruct H as [Hc Ha].
  destruct (Ascii.eqb c "/") eqn:E.
  - apply Ascii.eqb_eq in E. subst c. congruence.
  - rewrite (IH Ha). reflexivity.
Qed.

Lemma name_first_rest : forall c, name_first c = true -> name_rest c = true.
Proof.
  intros c. unfold name_first, name_rest, scope_rest.
  destruct (scope_first c), (is_upper c), (Ascii.eqb c "."), (Ascii.eqb c "_"); simpl; auto.
Qed.

Lemma all_chars_weaken :
  forall (p q : ascii -> bool) s,
    (forall c, p c = true -> q c = true) -> all_chars p s = true -> all_chars q s = true.
Proof.
  intros p q s Hpq. induction s as [|c s IH]; intros H; simpl in *; [reflexivity|].
  apply andb_true_iff in H. destruct H as [Hc Hs]. rewrite (Hpq c Hc), (IH Hs). reflexivity.
Qed.

Lemma scope_char_no_slash :
  forall c, scope_rest c = true -> negb (Ascii.eqb c "/") = true.
Proof.
  intros c H. destruct (Ascii.eqb c "/") eqn:E; [|reflexivity].
  apply Ascii.eqb_eq in E. subst c. discriminate H.
Qed.

Lemma scope_first_rest : forall c, scope_first c = true -> scope_rest c = true.
Proof. intros c H. unfold scope_rest. rewrite H. reflexivity. Qed.

Lemma name_chars_are_bin_chars :
  forall s, all_chars name_rest s = true -> invalid_bin_name s = false.
Proof.
  induction s as [|c s IH]; intros H; simpl in *; [reflexivity|].
  apply andb_true_iff in H. destruct H as [Hc Hs]. rewrite (IH Hs).
  destruct (Ascii.eqb c "/") eqn:E1;
    [apply Ascii.eqb_eq in E1; subst c; discriminate Hc|].
  destruct (Ascii.eqb c "\") eqn:E2;
    [apply Ascii.eqb_eq in E2; subst c; discriminate Hc|].
  destruct (Ascii.eqb c "010") eqn:E3;
    [apply Ascii.eqb_eq in E3; subst c; discriminate Hc|].
  reflexivity.
Qed.

(** X24. For a package whose name passes the name check of the installer
    and whose [bin] field is a non-empty path, the command line declares one
    bin: its name is the package name without the scope, and it passes the
    bin-name check of [getBinError]. *)
Theorem derived_bin_name_is_valid :
  forall (name path : string),
    valid_name name = true ->
    path <> EmptyString ->
    exists scope binName,
      name = (scope ++ binName)%string /\
      bins_of name (Some (BinString path)) = Some [(binName, path)] /\
      plain_name binName = true /\
      invalid_bin_name binName = false.
Proof.
  intros name path Hname Hpath.
  apply (proj1 (CheckFacts.valid_name_shape name)) in Hname.
  destruct Hname as [scope [rest [Hs [Hscope [c [cs [Hrest [Hc Hcs]]]]]]]].
  exists scope, rest. split; [exact Hs|].
  assert (Hall : all_chars name_rest rest = true).
  { subst rest. simpl. rewrite (name_first_rest c Hc), Hcs. reflexivity. }
  assert (Hsplit : last (split_slashes name) EmptyString = rest).
  { subst name. destruct Hscope as [->|[c1 [cs1 [-> [Hc1 Hcs1]]]]].
    - simpl. rewrite (split_no_slash name_rest rest eq_refl Hall). reflexivity.
    - assert (Hat : split_slashes (String "@" (String c1 cs1 ++ "/") ++ rest)
                    = String "@" (String c1 cs1) :: split_slashes rest).
      { change (String "@" (String c1 cs1 ++ "/") ++ rest)%string
          with (String "@" ((String c1 cs1 ++ "/") ++ rest))%string.
        rewrite CheckFacts.append_slash.
        change (String "@" (String c1 cs1 ++ String "/" rest))%string
          with ((String "@" (String c1 cs1)) ++ String "/" rest)%string.
        apply (split_at_slash (fun c => negb (Ascii.eqb c "/"))); [reflexivity|].
        simpl. rewrite (scope_char_no_slash c1 (scope_first_rest c1 Hc1)).
        apply (all_chars_weaken scope_rest _ cs1 scope_char_no_slash Hcs1). }
      rewrite Hat, (split_no_slash name_rest rest eq_refl Hall). reflexivity. }
  split; [|split].
  - unfold bins_of. destruct (String.eqb path EmptyString) eqn:E.
    + apply String.eqb_eq in E. contradiction.
    + cbv zeta. rewrite Hsplit. reflexivity.
  - subst rest. simpl. rewrite Hc, Hcs. reflexivity.
  - apply name_chars_are_bin_chars. exact Hall.
Qed.

Lemma derived_bin_name_is_valid_witness :
  exists scope binName,
    "@scope/tool"%string = (scope ++ binName)%string /\
    bins_of "@scope/tool" (Some (BinString "cli.js")) = Some [(binName, "cli.js"%string)] /\
    plain_name binName = true /\
    invalid_bin_name binName = false.
Proof.
  apply (derived_bin_name_is_valid "@scope/tool" "cli.js").
  - reflexivity.
  - discriminate.
Defined.

(** *** The graph given to the installer *)



Section Converted.
Variable disk : Type.
Variable join : list string -> string.
Variable readBin : disk -> string -> result (option BinField).





End Converted.


End CliFacts.
(** ** The actions of the installer *)
Module LogFacts.
Import Store LogSpec.

Section Log.
Variable disk : Type.
Variable isAbsolute : string -> bool.
Variable join : list string -> string.
Variable dirname : string -> string.
Variable statSync : disk -> string -> option Stats.
Variable readdirSync : disk -> string -> option (list string).
Variable readScripts : disk -> string -> result (bool * bool).
Variable perform : disk -> Action -> result disk.
Variable scc : list (list (option nat)) -> GraphToTree.Scc.
Variable execution_order : GraphToTree.Tree -> list nat.
Variable P : Action -> Prop.

Lemma logs_ret : forall (A : Type) (a : A), logs P (@ret disk A a).
Proof. intros A a w. exists []. rewrite app_nil_r. split; [reflexivity|constructor]. Qed.

Lemma logs_lift : forall (A : Type) (r : result A), logs P (@lift disk A r).
Proof.
  intros A [a|e] w; exists []; rewrite app_nil_r; (split; [reflexivity|constructor]).
Qed.

Lemma logs_read : forall (A : Type) (f : disk -> A), logs P (read f).
Proof. intros A f w. exists []. rewrite app_nil_r. split; [reflexivity|constructor]. Qed.

Lemma logs_act : forall a, P a -> logs P (act perform a).
Proof.
  intros a Ha w. exists [a]. unfold act.
  destruct (perform (w_disk w) a); simpl; (split; [reflexivity|repeat constructor; exact Ha]).
Qed.

Lemma logs_bind :
  forall (A B : Type) (m : IO disk A) (k : A -> IO disk B),
    logs P m -> (forall a, logs P (k a)) -> logs P (io_bind m k).
Proof.
  intros A B m k Hm Hk w. unfold io_bind. destruct (Hm w) as [new1 [E1 F1]].
  destruct (m w) as [w1 [a| |]]; simpl in E1.
  - destruct (Hk a w1) as [new2 [E2 F2]]. exists (new1 ++ new2).
    rewrite E2, E1, app_assoc. split; [reflexivity|apply Forall_app; split; assumption].
  - exists new1. split; assumption.
  - exists new1. split; assumption.
Qed.

Lemma logs_each :
  forall (A S : Type) (f : S -> A -> IO disk S) (l : list A),
    (forall s x, In x l -> logs P (f s x)) -> forall s, logs P (io_each f l s).
Proof.
  intros A S f. induction l as [|x l IH]; intros Hf s; [apply logs_ret|].
  assert (Hrest : forall s0, logs P (io_each f l s0)).
  { intros s0. apply IH. intros s1 y Hy. apply Hf. right. exact Hy. }
  intros w. cbn [io_each].
  destruct (Hf s x (or_introl eq_refl) w) as [new1 [E1 F1]].
  destruct (f s x w) as [w1 [s1|e|]]; cbn [fst] in E1.
  - destruct (Hrest s1 w1) as [new2 [E2 F2]]. exists (new1 ++ new2).
    rewrite E2, E1, app_assoc. split; [reflexivity|apply Forall_app; split; assumption].
  - destruct (Hrest s w1) as [new2 [E2 F2]]. exists (new1 ++ new2).
    destruct (io_each f l s w1) as [w2 [s2|e2|]]; cbn [fst] in *;
      (rewrite E2, E1, app_assoc;
       split; [reflexivity|apply Forall_app; split; assumption]).
  - exists new1. split; assumption.
Qed.

Lemma logs_for :
  forall (A S : Type) (f : S -> A -> IO disk S) (l : list A),
    (forall s x, In x l -> logs P (f s x)) -> forall s, logs P (io_for f l s).
Proof.
  intros A S f. induction l as [|x l IH]; intros Hf s; simpl.
  - apply logs_ret.
  - apply logs_bind; [apply Hf; left; reflexivity|].
    intros s'. apply IH. intros s0 y Hy. apply Hf. right. exact Hy.
Qed.

Lemma logs_all :
  forall (A B : Type) (callback : A -> IO disk B) (group : list A),
    (forall x, In x group -> logs P (callback x)) -> logs P (all callback group).
Proof.
  intros A B callback group H. unfold all. apply logs_each. intros res x Hx.
  apply logs_bind; [apply H, Hx|]. intros r. apply logs_ret.
Qed.

Lemma logs_batchPromises :
  forall (A B : Type) (batchSize : nat) (collection : list A) (callback : A -> IO disk B),
    (forall x, logs P (callback x)) -> logs P (batchPromises batchSize collection callback).
Proof.
  intros A B batchSize collection callback H. unfold batchPromises.
  generalize (batch_groups batchSize collection). intros groups.
  assert (Hgen : forall chain, logs P chain ->
             logs P (fold_left
                       (fun chain group =>
                          io_bind chain
                            (fun res => io_bind (all callback group)
                                          (fun r => ret (res ++ r))))
                       groups chain)).
  { induction groups as [|g groups IH]; intros chain Hchain; [exact Hchain|].
    cbn [fold_left]. apply IH. apply logs_bind; [exact Hchain|]. intros res.
    apply logs_bind; [apply logs_all; intros x _; apply H|]. intros r. apply logs_ret. }
  apply Hgen. apply logs_ret.
Qed.

Lemma copyDir_logs :
  (forall p r, P (Mkdir p r)) ->
  forall fuel source destination exclusionList filesActions,
    logs P (copyDir join statSync readdirSync perform fuel source destination
              exclusionList filesActions).
Proof.
  intros Hmk. induction fuel as [|fuel IH]; intros source destination excl acts.
  - intros w. exists []. simpl. rewrite app_nil_r. split; [reflexivity|constructor].
  - cbn [copyDir]. apply logs_bind; [apply logs_read|]. intros listing.
    apply logs_bind; [apply logs_lift|]. intros entries.
    apply logs_each. intros s e _.
    apply logs_bind; [apply logs_read|]. intros st.
    apply logs_bind; [apply logs_lift|]. intros stats.
    destruct (isDirectory stats).
    + apply logs_bind; [apply logs_act; apply Hmk|]. intros _. apply IH.
    + destruct (isFile stats); [|apply logs_ret].
      destruct (match excl with Some l => negb (includes l e) | None => true end);
        apply logs_ret.
Qed.

Lemma run_package_scripts_logs :
  (forall cwd, P (Exec "npm run install" cwd)) ->
  (forall cwd, P (Exec "npm run postinstall" cwd)) ->
  forall loc, logs P (run_package_scripts join statSync readScripts perform loc).
Proof.
  intros Hi Hp [loc|]; unfold run_package_scripts; [|apply logs_ret].
  apply logs_bind; [apply logs_read|]. intros [st|]; [|apply logs_ret].
  apply logs_bind; [apply logs_read|]. intros parsed.
  apply logs_bind; [apply logs_lift|]. intros manifest.
  apply logs_bind.
  - destruct (fst manifest); [apply logs_act; apply Hi|apply logs_ret].
  - intros _. destruct (snd manifest); [apply logs_act; apply Hp|apply logs_ret].
Qed.
End Log.

Section Install.
Variable disk : Type.
Variable isAbsolute : string -> bool.
Variable join : list string -> string.
Variable dirname : string -> string.
Variable statSync : disk -> string -> option Stats.
Variable readdirSync : disk -> string -> option (list string).
Variable readScripts : disk -> string -> result (bool * bool).
Variable perform : disk -> Action -> result disk.
Variable scc : list (list (option nat)) -> GraphToTree.Scc.
Variable execution_order : GraphToTree.Tree -> list nat.

Lemma installNodesInStore_logs :
  forall fuel g location exclusionList,
    logs (allowed join g)
      (installNodesInStore join statSync readdirSync perform fuel g location exclusionList).
Proof.
  intros fuel g location excl. unfold installNodesInStore.
  apply logs_each. intros st n Hn. cbv zeta.
  apply logs_bind; [|intros fa; apply logs_ret].
  destruct (keepInPlace n) as [[|]|] eqn:Ek.
  - apply logs_bind; [|intros _; apply logs_ret].
    apply logs_act. simpl. exists n. split; [exact Hn|]. split; [exact Ek|reflexivity].
  - apply logs_bind; [apply logs_act; exact I|]. intros _.
    apply copyDir_logs. intros p r. exact I.
  - apply logs_bind; [apply logs_act; exact I|]. intros _.
    apply copyDir_logs. intros p r. exact I.
Qed.

Lemma copyFiles_logs :
  forall g fileActions, logs (allowed join g) (copyFiles perform fileActions).
Proof.
  intros g fa. unfold copyFiles. apply logs_each. intros _ a _. apply logs_act. exact I.
Qed.

Lemma linkNodes_logs :
  forall g g' locationMap,
    logs (allowed join g) (linkNodes join dirname perform g' locationMap).
Proof.
  intros g g' lm. unfold linkNodes. apply logs_each. intros _ l _.
  apply logs_bind; [apply logs_lift|]. intros n.
  apply logs_bind; [apply logs_lift|]. intros src.
  apply logs_bind; [apply logs_act; exact I|]. intros _.
  apply logs_bind; [apply logs_lift|]. intros tgt.
  apply logs_act. exact I.
Qed.

Lemma createBins_logs :
  forall g g' locationMap,
    logs (allowed join g) (createBins join statSync perform g' locationMap).
Proof.
  intros g g' lm. unfold createBins. cbv zeta. apply logs_each. intros _ l _.
  destruct (SMap.get _ (target l)) as [targetBins|]; [|apply logs_ret].
  apply logs_bind; [apply logs_lift|]. intros src.
  apply logs_bind; [apply logs_act; exact I|]. intros _.
  apply logs_for. intros _ b _.
  apply logs_bind; [apply logs_lift|]. intros tgt. cbv zeta.
  apply logs_bind; [apply logs_read|]. intros [st|]; [|apply logs_ret].
  apply logs_act. exact I.
Qed.

Lemma runScripts_logs :
  forall g g' locationMap,
    logs (allowed join g)
      (runScripts join statSync readScripts perform scc execution_order g' locationMap).
Proof.
  intros g g' lm. unfold runScripts.
  assert (Hrun : forall loc,
             logs (allowed join g)
               (run_package_scripts join statSync readScripts perform loc)).
  { intros loc. apply run_package_scripts_logs; intros cwd; simpl; auto. }
  apply logs_bind; [apply logs_lift|]. intros tree.
  apply logs_bind.
  - apply logs_each. intros _ component _.
    apply logs_bind; [apply logs_lift|]. intros c.
    apply logs_each. intros _ n _. apply Hrun.
  - intros _. apply logs_bind; [|intros _; apply logs_ret].
    apply logs_batchPromises. intros n. apply Hrun.
Qed.

Lemma installLocalStore_logs :
  forall fuel g location options,
    logs (allowed join g)
      (installLocalStore isAbsolute join dirname statSync readdirSync readScripts
         perform scc execution_order fuel g location options).
Proof.
  intros fuel g location options. unfold installLocalStore.
  apply logs_bind.
  - intros w. apply logs_lift.
  - intros _. apply logs_bind; [apply installNodesInStore_logs|]. intros installed.
    cbv zeta. apply logs_bind; [apply copyFiles_logs|]. intros _.
    apply logs_bind; [apply linkNodes_logs|]. intros _.
    apply logs_bind; [apply createBins_logs|]. intros _.
    apply runScripts_logs.
Qed.

(** X26. However [installLocalStore] ends (it returns, it rejects, or the
    copy is cut short), what it attempted is added at the end of the log,
    the callbacks that go on after another one has rejected included; the
    only path it gives to [rimraf] is the [node_modules] folder of a node
    with [keepInPlace], and the only commands it starts are
    [npm run install] and [npm run postinstall]. *)
Theorem installer_removes_only_node_modules_in_place :
  forall (fuel : nat) (g : Graph) (location : string) (options : option Options)
         (w : World disk),
    exists new,
      performed
        (fst (installLocalStore isAbsolute join dirname statSync readdirSync readScripts
                perform scc execution_order fuel g location options w))
      = performed w ++ new /\
      Forall (allowed join g) new.
Proof.
  intros fuel g location options w.
  apply (installLocalStore_logs fuel g location options w).
Qed.
End Install.

End LogFacts.
(** ** The copy of the packages into the store *)
Module CopyFacts.
Import Store LogSpec.

Section Copy.
Variable disk : Type.
Variable join : list string -> string.
Variable statSync : disk -> string -> option Stats.
Variable readdirSync : disk -> string -> option (list string).
Variable perform : disk -> Action -> result disk.

Lemma mirrors_below :
  forall source destination exclusionList e a,
    mirrors join (join [source; e]) (join [destination; e]) None a ->
    mirrors join source destination exclusionList a.
Proof.
  intros source destination excl e a [e' [rest [Hs [Hd _]]]].
  exists e, (e' :: rest). split; [exact Hs|]. split; [exact Hd|]. discriminate.
Qed.

Lemma copyDir_mirrors :
  forall fuel source destination exclusionList filesActions w w' out,
    copyDir join statSync readdirSync perform fuel source destination exclusionList
      filesActions w = (w', Returned out) ->
    exists new,
      out = filesActions ++ new /\
      Forall (mirrors join source destination exclusionList) new.
Proof.
  induction fuel as [|fuel IH]; intros source destination excl acts w w' out H.
  - simpl in H. discriminate.
  - cbn [copyDir] in H. unfold io_bind at 1 in H. unfold read at 1 in H.
    unfold io_bind at 1 in H.
    destruct (readdirSync (w_disk w) source) as [entries|]; simpl in H; [|discriminate].
    revert H.
    apply (IoFacts.io_each_invariant _ _ _
             (fun s => exists new,
                         s = acts ++ new /\
                         Forall (mirrors join source destination excl) new)).
    + intros s e w0 w1 s1 _ [new [Hs Hnew]] E.
      unfold io_bind at 1 in E. unfold read at 1 in E. unfold io_bind at 1 in E.
      destruct (statSync (w_disk w0) (join [source; e])) as [stats|]; simpl in E;
        [|discriminate].
      destruct (isDirectory stats).
      * unfold io_bind in E.
        destruct (act perform (Mkdir (join [destination; e]) false) w0)
          as [w2 [[]| |]]; try discriminate.
        destruct (IH _ _ _ _ _ _ _ E) as [new' [Hout Hall]].
        exists (new ++ new'). subst s. rewrite Hout, app_assoc. split; [reflexivity|].
        apply Forall_app. split; [exact Hnew|].
        apply Forall_forall. intros a Ha.
        apply (mirrors_below source destination excl e).
        apply (proj1 (Forall_forall _ _) Hall a Ha).
      * destruct (isFile stats).
        -- destruct (match excl with Some l => negb (includes l e) | None => true end)
             eqn:Ekept.
           ++ unfold ret in E. inversion E; subst.
              exists (new ++ [(join [source; e], join [destination; e])]).
              rewrite app_assoc. split; [reflexivity|].
              apply Forall_app. split; [exact Hnew|]. constructor; [|constructor].
              exists e, []. split; [reflexivity|]. split; [reflexivity|].
              intros _. exact Ekept.
           ++ unfold ret in E. inversion E; subst. exists new. split; [reflexivity|exact Hnew].
        -- unfold ret in E. inversion E; subst. exists new. split; [reflexivity|exact Hnew].
    + exists []. rewrite app_nil_r. split; [reflexivity|constructor].
Qed.

Lemma installNodesInStore_step :
  forall fuel location exclusionList (st st' : SMap.t string * list (string * string))
         (n : Node) w w',
    (let locationMap := fst st in
     let filesActions := snd st in
     let inPlace := match keepInPlace n with Some true => true | _ => false end in
     let destination := if inPlace then Store.location n else join [location; key n] in
     io_bind
       (if inPlace then
          io_bind (act perform (Rimraf (join [destination; "node_modules"%string])))
            (fun _ => ret filesActions)
        else
          io_bind (act perform (Mkdir destination false))
            (fun _ =>
               copyDir join statSync readdirSync perform fuel (Store.location n)
                 destination exclusionList filesActions))
       (fun filesActions' =>
          ret (SMap.set locationMap (key n) destination, filesActions')))
      w = (w', Returned st') ->
    fst st' = SMap.set (fst st) (key n) (destination_of join location n) /\
    exists new,
      snd st' = snd st ++ new /\
      Forall (fun a => keepInPlace n <> Some true /\
                       mirrors join (Store.location n) (join [location; key n])
                         exclusionList a) new.
Proof.
  intros fuel location excl st st' n w w' E. cbv zeta in E. unfold destination_of.
  destruct (keepInPlace n) as [[|]|] eqn:Ek.
  - unfold io_bind in E.
    destruct (act perform _ w) as [w1 [[]| |]]; try discriminate.
    unfold ret in E. inversion E; subst. cbn [fst snd]. split; [reflexivity|].
    exists []. rewrite app_nil_r. split; [reflexivity|constructor].
  - unfold io_bind at 1 in E. unfold io_bind at 1 in E.
    destruct (act perform _ w) as [w1 [[]| |]]; try discriminate.
    destruct (copyDir _ _ _ _ _ _ _ _ _ w1) as [w2 [fa| |]] eqn:Ec; try discriminate.
    unfold ret in E. inversion E; subst. cbn [fst snd]. split; [reflexivity|].
    destruct (copyDir_mirrors _ _ _ _ _ _ _ _ Ec) as [new [Hout Hall]].
    exists new. split; [exact Hout|].
    apply Forall_forall. intros a Ha. split; [discriminate|].
    apply (proj1 (Forall_forall _ _) Hall a Ha).
  - unfold io_bind at 1 in E. unfold io_bind at 1 in E.
    destruct (act perform _ w) as [w1 [[]| |]]; try discriminate.
    destruct (copyDir _ _ _ _ _ _ _ _ _ w1) as [w2 [fa| |]] eqn:Ec; try discriminate.
    unfold ret in E. inversion E; subst. cbn [fst snd]. split; [reflexivity|].
    destruct (copyDir_mirrors _ _ _ _ _ _ _ _ Ec) as [new [Hout Hall]].
    exists new. split; [exact Hout|].
    apply Forall_forall. intros a Ha. split; [discriminate|].
    apply (proj1 (Forall_forall _ _) Hall a Ha).
Qed.

Lemma find_key :
  forall (l : list Node) n,
    NoDup (map key l) -> In n l ->
    find (fun m => String.eqb (key m) (key n)) l = Some n.
Proof.
  induction l as [|x l IH]; intros n Hnd Hin; [destruct Hin|].
  simpl in Hnd. inversion Hnd as [|? ? Hnotin Hnd']; subst. simpl.
  destruct Hin as [->|Hin].
  - rewrite String.eqb_refl. reflexivity.
  - destruct (String.eqb (key x) (key n)) eqn:E.
    + apply String.eqb_eq in E. exfalso. apply Hnotin. rewrite E.
      apply in_map. exact Hin.
    + apply IH; assumption.
Qed.

Lemma find_no_key :
  forall (l : list Node) k,
    ~ In k (map key l) -> find (fun m => String.eqb (key m) k) l = None.
Proof.
  induction l as [|x l IH]; intros k Hk; [reflexivity|]. simpl.
  destruct (String.eqb (key x) k) eqn:E.
  - apply String.eqb_eq in E. exfalso. apply Hk. left. exact E.
  - apply IH. intros Hin. apply Hk. right. exact Hin.
Qed.

Lemma install_each_locations :
  forall fuel location exclusionList (l : list Node)
         (st st' : SMap.t string * list (string * string)) w w',
    NoDup (map key l) ->
    io_each
      (fun st n =>
         let locationMap := fst st in
         let filesActions := snd st in
         let inPlace := match keepInPlace n with Some true => true | _ => false end in
         let destination := if inPlace then Store.location n else join [location; key n] in
         io_bind
           (if inPlace then
              io_bind (act perform (Rimraf (join [destination; "node_modules"%string])))
                (fun _ => ret filesActions)
            else
              io_bind (act perform (Mkdir destination false))
                (fun _ =>
                   copyDir join statSync readdirSync perform fuel (Store.location n)
                     destination exclusionList filesActions))
           (fun filesActions' =>
              ret (SMap.set locationMap (key n) destination, filesActions')))
      l st w = (w', Returned st') ->
    forall k,
      SMap.get (fst st') k
      = match find (fun m => String.eqb (key m) k) l with
        | Some n => Some (destination_of join location n)
        | None => SMap.get (fst st) k
        end.
Proof.
  intros fuel location excl. induction l as [|x l IH]; intros st st' w w' Hnd H k.
  - simpl in H. inversion H; subst. reflexivity.
  - apply IoFacts.io_each_cons_returned in H. destruct H as [w1 [st1 [E H]]].
    apply installNodesInStore_step in E. destruct E as [Hmap _].
    simpl in Hnd. inversion Hnd as [|? ? Hnotin Hnd']; subst.
    rewrite (IH _ _ _ _ Hnd' H k). cbn [find].
    destruct (String.eqb (key x) k) eqn:Ek.
    + apply String.eqb_eq in Ek. subst k. rewrite (find_no_key l (key x) Hnotin).
      rewrite Hmap. apply MapFacts.smap_get_set_eq.
    + destruct (find _ l); [reflexivity|]. rewrite Hmap.
      apply MapFacts.smap_get_set_neq. apply String.eqb_neq. exact Ek.
Qed.

(** X27. When the keys of the nodes are distinct and [installNodesInStore]
    returns, the location map sends the key of a node with [keepInPlace] to
    the node's own location, the key of any other node to the folder named
    by the key inside the store, and holds nothing else. *)
Theorem location_map_is_exact :
  forall (fuel : nat) (g : Graph) (location : string)
         (exclusionList : option (list string)) (w w' : World disk)
         (installed : SMap.t string * list (string * string)),
    NoDup (map key (nodes g)) ->
    installNodesInStore join statSync readdirSync perform fuel g location exclusionList w
    = (w', Returned installed) ->
    (forall n, In n (nodes g) ->
               SMap.get (fst installed) (key n) = Some (destination_of join location n)) /\
    (forall k, ~ In k (map key (nodes g)) -> SMap.get (fst installed) k = None).
Proof.
  intros fuel g location excl w w' installed Hnd H. unfold installNodesInStore in H.
  pose proof (install_each_locations _ _ _ _ _ _ _ _ Hnd H) as Hget. split.
  - intros n Hn. rewrite Hget, (find_key (nodes g) n Hnd Hn). reflexivity.
  - intros k Hk. rewrite Hget, (find_no_key (nodes g) k Hk). reflexivity.
Qed.

(** X28. When [installNodesInStore] returns, every file action it has
    collected belongs to a node without [keepInPlace]: it copies what sits
    at some place below the location of the node to the same place below the
    folder of the node in the store, and a file directly in the location of
    the node is copied only if its name is not on the exclusion list. *)
Theorem files_are_copied_to_the_same_place :
  forall (fuel : nat) (g : Graph) (location : string)
         (exclusionList : option (list string)) (w w' : World disk)
         (installed : SMap.t string * list (string * string)),
    installNodesInStore join statSync readdirSync perform fuel g location exclusionList w
    = (w', Returned installed) ->
    Forall (fun a =>
              exists n, In n (nodes g) /\ keepInPlace n <> Some true /\
                        mirrors join (Store.location n) (join [location; key n])
                          exclusionList a)
      (snd installed).
Proof.
  intros fuel g location excl w w' installed H. unfold installNodesInStore in H.
  revert H.
  apply (IoFacts.io_each_invariant _ _ _
           (fun st : SMap.t string * list (string * string) =>
              Forall (fun a =>
                        exists n, In n (nodes g) /\ keepInPlace n <> Some true /\
                                  mirrors join (Store.location n) (join [location; key n])
                                    excl a)
                (snd st))).
  - intros s n w0 w1 s1 Hn Hs E. apply installNodesInStore_step in E.
    destruct E as [_ [new [Hout Hall]]]. rewrite Hout. apply Forall_app.
    split; [exact Hs|]. apply Forall_forall. intros a Ha.
    exists n. split; [exact Hn|]. apply (proj1 (Forall_forall _ _) Hall a Ha).
  - constructor.
Qed.
End Copy.

Lemma location_map_is_exact_witness :
  (forall n, In n (nodes CopyExamples.two_packages) ->
             SMap.get (fst CopyExamples.installed) (key n)
             = Some (destination_of Posix.join "/store" n)) /\
  (forall k, ~ In k (map key (nodes CopyExamples.two_packages)) ->
             SMap.get (fst CopyExamples.installed) k = None).
Proof.
  apply (location_map_is_exact Posix.Disk Posix.join Posix.statSync Posix.readdirSync
           Posix.perform 3 CopyExamples.two_packages "/store" CopyExamples.exclusions
           CopyExamples.start CopyExamples.after CopyExamples.installed).
  - simpl. repeat constructor; simpl; intuition discriminate.
  - vm_compute. reflexivity.
Defined.

Lemma files_are_copied_to_the_same_place_witness :
  Forall (fun a =>
            exists n, In n (nodes CopyExamples.two_packages) /\
                      keepInPlace n <> Some true /\
                      mirrors Posix.join (Store.location n) (Posix.join ["/store"%string; key n])
                        CopyExamples.exclusions a)
    (snd CopyExamples.installed).
Proof.
  apply (files_are_copied_to_the_same_place Posix.Disk Posix.join Posix.statSync
           Posix.readdirSync Posix.perform 3 CopyExamples.two_packages "/store"
           CopyExamples.exclusions CopyExamples.start CopyExamples.after
           CopyExamples.installed).
  vm_compute. reflexivity.
Defined.

End CopyFacts.
(** ** The resolutions the command line adds *)
Module ResolutionFacts.
Import Cli CliSpec.

Lemma add_local_resolution_lookup :
  forall rm n name range,
    resolution (add_local_resolution rm n) name range
    = if String.eqb (Resolver.name (manifest n)) name && String.eqb range "*"
      then Some (Resolver.version (manifest n))
      else resolution rm name range.
Proof.
  intros rm n name range. unfold add_local_resolution, resolution. cbv zeta.
  set (k := Resolver.name (manifest n)). set (v := Resolver.version (manifest n)).
  assert (Hstar : String.eqb "*" range = String.eqb range "*") by apply String.eqb_sym.
  destruct (Obj.get rm k) as [byRange|] eqn:Ek.
  - rewrite ?Ek, ObjFacts.obj_get_set.
    destruct (String.eqb k name) eqn:En; cbn [andb]; [|reflexivity].
    apply String.eqb_eq in En. subst name. rewrite Ek, ObjFacts.obj_get_set, Hstar.
    reflexivity.
  - rewrite ObjFacts.obj_get_set_eq, ObjFacts.obj_get_set.
    destruct (String.eqb k name) eqn:En; cbn [andb].
    + apply String.eqb_eq in En. subst name. rewrite Ek.
      rewrite ObjFacts.obj_get_set, Hstar. cbn [Obj.empty Obj.get].
      destruct (String.eqb range "*"); reflexivity.
    + rewrite ObjFacts.obj_get_set, En. reflexivity.
Qed.

Lemma add_local_resolutions_cons :
  forall n l rm,
    add_local_resolutions (n :: l) rm
    = add_local_resolutions l (if local n then add_local_resolution rm n else rm).
Proof.
  intros n l rm. unfold add_local_resolutions, local. cbn [filter].
  destruct (Resolver.truthy (Resolver.isLocal (manifest n))); reflexivity.
Qed.

Lemma add_local_resolutions_lookup :
  forall l rm name range,
    resolution (add_local_resolutions l rm) name range
    = if String.eqb range "*"
      then match last_local l name with
           | Some v => Some v
           | None => resolution rm name range
           end
      else resolution rm name range.
Proof.
  induction l as [|n l IH]; intros rm name range.
  - unfold add_local_resolutions. simpl. destruct (String.eqb range "*"); reflexivity.
  - rewrite add_local_resolutions_cons, IH. cbn [last_local].
    destruct (String.eqb range "*") eqn:Er.
    + destruct (last_local l name) as [v|]; [reflexivity|].
      destruct (local n); simpl; [|reflexivity].
      rewrite add_local_resolution_lookup, Er.
      destruct (String.eqb (Resolver.name (manifest n)) name); reflexivity.
    + destruct (local n); [|reflexivity].
      rewrite add_local_resolution_lookup, Er.
      destruct (String.eqb (Resolver.name (manifest n)) name); reflexivity.
Qed.

Lemma drop_local_peers_same_resolutions :
  forall l rm,
    add_local_resolutions (map drop_local_peers l) rm = add_local_resolutions l rm.
Proof.
  induction l as [|n l IH]; intros rm; [reflexivity|].
  cbn [map]. rewrite !add_local_resolutions_cons, IH. f_equal.
  unfold local, drop_local_peers, add_local_resolution. cbv zeta.
  destruct (Resolver.truthy (Resolver.isLocal (manifest n))) eqn:E; [|rewrite E; reflexivity].
  cbn [manifest Resolver.isLocal Resolver.name Resolver.version]. rewrite E. reflexivity.
Qed.

(** X29. When no local package has a name inherited from
    [Object.prototype]: after the two loops of [install] over the local
    packages, the range [*] of a name resolves to the version of the last
    local package with that name, if there is one; every other resolution,
    at a name and a range that are not inherited either, is the one the map
    had, and dropping the peer dependencies of the local packages first
    changes none of this. *)
Theorem local_packages_resolve_the_star_range :
  forall (locationMap : list Located) (resolutionMap : Resolver.ResolutionMap)
         (name range : string),
    ordinary_locals locationMap = true ->
    Prototype.ordinary name = true ->
    Prototype.ordinary range = true ->
    resolution (add_local_resolutions (map drop_local_peers locationMap) resolutionMap)
      name range
    = if String.eqb range "*"
      then match last_local locationMap name with
           | Some v => Some v
           | None => resolution resolutionMap name range
           end
      else resolution resolutionMap name range.
Proof.
  intros locationMap resolutionMap name range _ _ _.
  rewrite drop_local_peers_same_resolutions. apply add_local_resolutions_lookup.
Qed.

Lemma local_packages_resolve_the_star_range_witness :
  resolution
    (add_local_resolutions (map drop_local_peers CliExamples.located)
       ResolverExamples.basic_resolutions) "A" "*"
  = if String.eqb "*" "*"
    then match last_local CliExamples.located "A" with
         | Some v => Some v
         | None => resolution ResolverExamples.basic_resolutions "A" "*"
         end
    else resolution ResolverExamples.basic_resolutions "A" "*".
Proof.
  apply (local_packages_resolve_the_star_range CliExamples.located
           ResolverExamples.basic_resolutions "A" "*").
  - vm_compute. reflexivity.
  - vm_compute. reflexivity.
  - vm_compute. reflexivity.
Defined.

End ResolutionFacts.
(** ** The links the installer creates *)
Module SymlinkFacts.
Import Store LogSpec.

Section Links.
Variable disk : Type.
Variable isAbsolute : string -> bool.
Variable join : list string -> string.
Variable dirname : string -> string.
Variable statSync : disk -> string -> option Stats.
Variable readdirSync : disk -> string -> option (list string).
Variable readScripts : disk -> string -> result (bool * bool).
Variable perform : disk -> Action -> result disk.
Variable scc : list (list (option nat)) -> GraphToTree.Scc.
Variable execution_order : GraphToTree.Tree -> list nat.

Lemma act_returned :
  forall a w w' u,
    act perform a w = (w', Returned u) -> performed w' = performed w ++ [a].
Proof.
  intros a w w' u H. unfold act in H.
  destruct (perform (w_disk w) a); inversion H; subst; reflexivity.
Qed.

Lemma linkNodes_symlinks :
  forall g locationMap w w' u,
    linkNodes join dirname perform g locationMap w = (w', Returned u) ->
    exists new,
      performed w' = performed w ++ new /\
      forall l, In l (links g) ->
        exists a,
          (exists n src tgt,
              find (fun n => String.eqb (key n) (target l)) (nodes g) = Some n /\
              SMap.get locationMap (source l) = Some src /\
              SMap.get locationMap (target l) = Some tgt /\
              a = Symlink (join [tgt]) (join [src; "node_modules"%string; name n])) /\
          In a new.
Proof.
  intros g lm w w' u H. unfold linkNodes in H. revert H.
  apply IoFacts.io_each_attempts. clear w w' u.
  intros [] l w w' [] _ E.
  destruct (find (fun n => String.eqb (key n) (target l)) (nodes g)) as [n|] eqn:En;
    [|discriminate].
  destruct (SMap.get lm (source l)) as [src|] eqn:Es; [|discriminate].
  cbn [unwrap lift] in E. unfold io_bind at 1 2 in E. unfold ret at 1 2 in E.
  unfold io_bind at 1 in E.
  destruct (act perform (Mkdir _ true) w) as [w1 [[]| |]] eqn:E1; try discriminate.
  destruct (SMap.get lm (target l)) as [tgt|] eqn:Et; [|discriminate].
  cbn [unwrap lift] in E. unfold io_bind at 1 in E. unfold ret at 1 in E.
  apply act_returned in E1. apply act_returned in E.
  eexists. split; [rewrite E, E1, <- app_assoc; reflexivity|].
  eexists. split.
  - exists n, src, tgt. repeat split; reflexivity.
  - right. left. reflexivity.
Qed.

Lemma returned_extends :
  forall (A : Type) (P : Action -> Prop) (m : IO disk A) w w' r,
    logs P m -> m w = (w', r) -> forall a, In a (performed w) -> In a (performed w').
Proof.
  intros A P m w w' r Hm E a Ha. destruct (Hm w) as [new [Hnew _]].
  rewrite E in Hnew. simpl in Hnew. rewrite Hnew. apply in_or_app. left. exact Ha.
Qed.

Lemma node_key_injective :
  forall (l : list Node) s t,
    NoDup (map key l) -> In s l -> In t l -> key s = key t -> s = t.
Proof.
  intros l s t Hnd Hs Ht Hk.
  pose proof (CopyFacts.find_key l s Hnd Hs) as Fs.
  pose proof (CopyFacts.find_key l t Hnd Ht) as Ft.
  rewrite Hk in Fs. congruence.
Qed.

Lemma installLocalStore_symlinks :
  forall fuel g location options w w' u,
    installLocalStore isAbsolute join dirname statSync readdirSync readScripts perform
      scc execution_order fuel g location options w = (w', Returned u) ->
    forall s t,
      In s (nodes g) -> In t (nodes g) ->
      s = t \/ In (mkLink (key s) (key t)) (links g) ->
      In (Symlink (join [destination_of join location t])
            (join [destination_of join location s; "node_modules"%string; name t]))
        (performed w').
Proof.
  intros fuel g location options w w' u H s t Hs Ht Hlink.
  unfold installLocalStore in H. unfold io_bind at 1 in H.
  destruct (validateInput isAbsolute statSync readdirSync (w_disk w) g location _)
    as [[]|e] eqn:Hv; [|discriminate].
  cbn [lift] in H. unfold ret at 1 in H.
  unfold io_bind at 1 in H.
  destruct (installNodesInStore _ _ _ _ fuel g location _ w)
    as [w1 [installed| |]] eqn:Hi; try discriminate.
  cbv zeta in H. unfold io_bind at 1 in H.
  destruct (copyFiles perform (snd installed) w1) as [w2 [[]| |]] eqn:Hc; try discriminate.
  unfold io_bind at 1 in H.
  destruct (linkNodes join dirname perform (addSelfLinks g) (fst installed) w2)
    as [w3 [[]| |]] eqn:Hl; try discriminate.
  unfold io_bind at 1 in H.
  destruct (createBins join statSync perform (addSelfLinks g) (fst installed) w3)
    as [w4 [[]| |]] eqn:Hb; try discriminate.
  destruct (InstallFacts.validated_ends _ _ _ _ _ _ _ _ Hv) as [Hnd _].
  unfold installNodesInStore in Hi.
  pose proof (CopyFacts.install_each_locations _ _ _ _ _ _ _ _ _ _ _ _ _ Hnd Hi) as Hget.
  assert (Hloc : forall n, In n (nodes g) ->
                           SMap.get (fst installed) (key n)
                           = Some (destination_of join location n)).
  { intros n Hn. rewrite Hget, (CopyFacts.find_key (nodes g) n Hnd Hn). reflexivity. }
  apply (returned_extends _ _ _ _ _ _
           (LogFacts.runScripts_logs _ join statSync readScripts perform scc
              execution_order g (addSelfLinks g) (fst installed)) H).
  apply (returned_extends _ _ _ _ _ _
           (LogFacts.createBins_logs _ join statSync perform g (addSelfLinks g)
              (fst installed)) Hb).
  destruct (linkNodes_symlinks _ _ _ _ _ Hl) as [new [Hnew Hall]].
  assert (Hin : In (mkLink (key s) (key t)) (links (addSelfLinks g))).
  { unfold addSelfLinks. cbn [links]. apply in_or_app.
    destruct (String.eqb (key s) (key t)) eqn:Ek.
    - right. apply String.eqb_eq in Ek.
      assert (s = t) by (apply (node_key_injective (nodes g)); assumption). subst t.
      apply in_map_iff. exists s. split; [reflexivity|exact Hs].
    - left. apply filter_In. cbn [source target]. rewrite Ek. split; [|reflexivity].
      destruct Hlink as [->|Hlink]; [|exact Hlink].
      rewrite String.eqb_refl in Ek. discriminate. }
  destruct (Hall _ Hin) as [a [[n [src [tgt [Hfind [Hsrc [Htgt ->]]]]]] Ha]].
  cbn [source target nodes addSelfLinks] in Hfind, Hsrc, Htgt.
  rewrite (CopyFacts.find_key (nodes g) t Hnd Ht) in Hfind. inversion Hfind; subst n.
  rewrite (Hloc s Hs) in Hsrc. rewrite (Hloc t Ht) in Htgt.
  inversion Hsrc; subst src. inversion Htgt; subst tgt.
  rewrite Hnew. apply in_or_app. right. exact Ha.
Qed.

(** X30. When [installLocalStore] returns, it has made, for every link of
    the graph and for every node towards itself, the symbolic link that is
    named after the target inside the [node_modules] folder of the place
    where the source is installed, and that points to the place where the
    target is installed. *)
Theorem every_link_gets_its_symlink :
  forall (fuel : nat) (g : Graph) (location : string) (options : option Options)
         (w w' : World disk) (s t : Node),
    installLocalStore isAbsolute join dirname statSync readdirSync readScripts perform
      scc execution_order fuel g location options w = (w', Returned tt) ->
    In s (nodes g) -> In t (nodes g) ->
    s = t \/ In (mkLink (key s) (key t)) (links g) ->
    In (Symlink (join [destination_of join location t])
          (join [destination_of join location s; "node_modules"%string; name t]))
      (performed w').
Proof.
  intros fuel g location options w w' s t H.
  apply (installLocalStore_symlinks fuel g location options w w' tt H).
Qed.
End Links.

Lemma every_link_gets_its_symlink_witness :
  In (Symlink
        (Posix.join
           [destination_of Posix.join "/store"
              (mkNode "1" "b" (Some true) None "/pkg/lib")])
        (Posix.join
           [destination_of Posix.join "/store" (mkNode "0" "a" None None "/pkg");
            "node_modules"%string; "b"%string]))
    (performed CopyExamples.finished).
Proof.
  apply (every_link_gets_its_symlink Posix.Disk Posix.isAbsolute Posix.join Posix.dirname
           Posix.statSync Posix.readdirSync Posix.readScripts Posix.perform SccRef.scc
           (fun t => NMap.keys (GraphToTree.components t))
           3 CopyExamples.two_packages "/store" None CopyExamples.start
           CopyExamples.finished
           (mkNode "0" "a" None None "/pkg")
           (mkNode "1" "b" (Some true) None "/pkg/lib")).
  - vm_compute. reflexivity.
  - left. reflexivity.
  - right. left. reflexivity.
  - right. left. reflexivity.
Defined.

End SymlinkFacts.
